(** * AsyncTaskHelper: a callback-driven task coordinator

    A shallow embedding of [AsyncTaskHelper] (queue / pool execution of
    callback-style tasks) and of the array extension [Array.prototype.split]
    it relies on, followed by the properties of the coordinator's life cycle:
    sequential drive in queue mode, fan-out and chunking in pool mode,
    one-shot completion, [quit], [add] and the mode default of [start].
    The development also covers the rest of the array extension
    ([unique], [getIntersection], [maxBy], [shuffle], [toTypedRecords]),
    the random strings of the security helper ([generatePassword],
    [getRandomCode]) and the deep comparison [isDataEqual] with
    [String.prototype.explode].

    Conventions.
    - JavaScript objects live in a heap (a list indexed by allocation order);
      an object reference is an index into it.
    - Callback-style recursion (a task calling its completion callback, which
      runs the next task, ...) is interpreted by [exec], a big-step
      interpreter indexed by a recursion budget; [Exec] is the induced
      big-step relation.
    - User code (task functions, completion handlers) is opaque in the
      source.  A task function is described by what it does with its
      completion callback; a user completion handler is observed through
      the trace of the world.
    - [console.debug] output is not modelled.
    - [Math.random()] is a stream of doubles, read through a counter of
      the calls made; [Date.now()] is a parameter. *)

From stdpp Require Import base list strings pretty gmap sorting.
From Equations Require Import Equations.
From Stdlib Require Import ZArith Lia.

Local Open Scope nat_scope.
#[local] Set Warnings "-register-all".

(** ** Array extension: [Array.prototype.slice] and [Array.prototype.split] *)

Section ArrayExtension.
Context {T : Type}.

(** Relative index resolution of [Array.prototype.slice]: a negative
    index counts from the end, and the result is clamped to [0, len]. *)
Definition relativeIndex (len k : Z) : Z :=
  if (k <? 0)%Z then Z.max (len + k) 0 else Z.min k len.

(** [this.slice(start, final)] *)
Definition slice (this : list T) (start final : Z) : list T :=
  let len := Z.of_nat (length this) in
  let k := relativeIndex len start in
  let e := relativeIndex len final in
  take (Z.to_nat (e - k)) (drop (Z.to_nat k) this).

(** The [for (let i = 0; i < this.length; i += size)] loop of [split],
    with [chunkList] as its accumulator.  [size] has been clamped to at
    least 1 by the caller, which is what makes the loop terminate. *)
Equations? split_loop (this : list T) (size : Z) (Hsize : (1 <= size)%Z) (i : Z)
    (chunkList : list (list T)) : list (list T)
    by wf (Z.to_nat (Z.of_nat (length this) - i)) lt :=
  split_loop this size Hsize i chunkList
    with Z_lt_dec i (Z.of_nat (length this)) := {
    | left _ =>
        split_loop this size Hsize (i + size)
          (chunkList ++ [slice this i (i + size)]);
    | right _ => chunkList }.
Proof. lia. Qed.

(** [Array.prototype.split]: [size = Math.max(1, size ?? 0)], then the
    loop.  An absent ([null] / [undefined]) size is [None]. *)
Definition split (this : list T) (size : option Z) : list (list T) :=
  split_loop this (Z.max 1 (default 0%Z size)) (Z.le_max_l _ _) 0 [].

End ArrayExtension.

(** ** Strings *)

(** White space of [String.prototype.trim], for strings of 8-bit code
    units: TAB, LF, VT, FF, CR, SP and NBSP. *)
Definition isWhiteSpace (c : Ascii.ascii) : bool :=
  let n := Ascii.nat_of_ascii c in
  ((9 <=? n) && (n <=? 13)) || (n =? 32) || (n =? 160).

Fixpoint trimStart (s : string) : string :=
  match s with
  | EmptyString => EmptyString
  | String c s' => if isWhiteSpace c then trimStart s' else s
  end.

Definition trimEnd (s : string) : string :=
  String.rev (trimStart (String.rev s)).

(** [s.trim()] *)
Definition trim (s : string) : string := trimEnd (trimStart s).

(** ** Data model of [AsyncTaskHelper] *)

(** [enum AsyncTaskHelperTaskMode] *)
Inductive AsyncTaskHelperTaskMode := Queue | Pool.

(** [AsyncTaskHelperResult = AnyType]: the values a task may hand to its
    completion callback.  Arrays matter because chunked pool runs pass
    whole result lists around and [flat] them. *)
Inductive AsyncTaskHelperResult :=
| RNull
| RNumber (n : Z)
| RString (s : string)
| RArray (items : list AsyncTaskHelperResult).

(** [Array.prototype.flat()] (depth 1) on a list of results. *)
Definition flat (l : list AsyncTaskHelperResult) : list AsyncTaskHelperResult :=
  concat ((fun r => match r with RArray items => items | _ => [r] end) <$> l).

(** A registry entry [{ asyncTaskFunction, taskName }], over the type of
    task functions. *)
Record Task_ (F : Type) := Build_Task { asyncTaskFunction : F; taskName : string }.
Arguments Build_Task {F} _ _.
Arguments asyncTaskFunction {F} _.
Arguments taskName {F} _.

(** Task functions.
    - [UserFunction name now later] is caller code named [name] which,
      when invoked with a completion callback [done], calls [done(r)]
      before returning for each [r] of [now] (in order), and arranges for
      the host runtime to call [done(r)] at some later time for each [r]
      of [later].
    - [ChunkFunction this chunk] is the closure built by [start] for a
      chunk of an oversized pool run; [this] is the coordinator whose
      [start] built it. *)
Inductive AsyncTaskHelperTaskFunction :=
| UserFunction (name : string) (now later : list AsyncTaskHelperResult)
| ChunkFunction (this : nat)
    (chunkedAsyncTaskList : list (Task_ AsyncTaskHelperTaskFunction)).

Abbreviation AsyncTaskHelperTask := (Task_ AsyncTaskHelperTaskFunction).

(** The [name] property of a task function; the arrow function of a chunk
    is named after the property it is assigned to. *)
Definition functionName (f : AsyncTaskHelperTaskFunction) : string :=
  match f with
  | UserFunction name _ _ => name
  | ChunkFunction _ _ => "asyncTaskFunction"
  end.

(** The [next] argument of [runTask]: [null], or
    [this.processNextQueueTask.bind(this)]. *)
Inductive Next := ProcessNextQueueTask (this : nat).

(** The completion callback [runTask] hands to a task function: it
    captures [this], [asyncTask] and [next]. *)
Record Callback := {
  cb_this : nat;
  cb_asyncTask : AsyncTaskHelperTask;
  cb_next : option Next }.

(** [AsyncTaskHelperFinalCallback]: a caller's handler, or one of the two
    handlers [start] builds for a chunked pool run. *)
Inductive AsyncTaskHelperFinalCallback :=
| UserCallback (id : nat)
| PoolCallback (poolCallback : Callback)
| FlattenCallback (this : nat).

(** What [add] and the constructor accept as one task: a bare function or
    a task-like record, whose [taskName] property may be missing, or
    present with a nullish value. *)
Inductive TaskNameProperty := NameAbsent | NamePresent (v : option string).

Inductive TaskCandidate :=
| BareFunction (f : AsyncTaskHelperTaskFunction)
| TaskLike (f : AsyncTaskHelperTaskFunction) (name : TaskNameProperty).

(** [OneOrManyOrNull<T>] *)
Inductive OneOrManyOrNull (A : Type) :=
| Null
| One (a : A)
| Many (l : list A).
Arguments Null {A}.
Arguments One {A} _.
Arguments Many {A} _.

Module Options.
(** [AsyncTaskHelperOptions]; an omitted property is [None]. *)
Record t := {
  name : option string;
  debug : option bool;
  taskMode : option AsyncTaskHelperTaskMode;
  asyncTaskList : option (list TaskCandidate);
  finalCallback : option AsyncTaskHelperFinalCallback }.

Definition empty : t :=
  {| name := None; debug := None; taskMode := None;
     asyncTaskList := None; finalCallback := None |}.
End Options.

(** The fields of an [AsyncTaskHelper] instance. *)
Record AsyncTaskHelper := {
  taskMode : AsyncTaskHelperTaskMode;
  asyncTaskList : list AsyncTaskHelperTask;
  asyncTaskResultList : list AsyncTaskHelperResult;
  finalCallback : option AsyncTaskHelperFinalCallback;
  isStarted : bool;
  isFinished : bool;
  isDebug : bool;
  instanceID : string }.

(** Observable events: a task function was invoked by [runTask], a
    completion handler was invoked by [finished]. *)
Inductive Event :=
| TaskInvoked (this : nat) (asyncTask : AsyncTaskHelperTask)
| FinalCallbackInvoked (this : nat) (handler : AsyncTaskHelperFinalCallback)
    (resultList : list AsyncTaskHelperResult).

(** The world: the heap of coordinators, the completions the host runtime
    still owes (a callback and the result it will be given), the trace,
    and the number of UUIDs drawn so far. *)
Record World := {
  heap : list AsyncTaskHelper;
  pending : list (Callback * AsyncTaskHelperResult);
  trace : list Event;
  uuidCount : nat }.

Definition emptyWorld : World :=
  {| heap := []; pending := []; trace := []; uuidCount := 0 |}.

(** *** Field updates *)

Definition set_taskMode v (o : AsyncTaskHelper) : AsyncTaskHelper :=
  {| taskMode := v; asyncTaskList := asyncTaskList o;
     asyncTaskResultList := asyncTaskResultList o;
     finalCallback := finalCallback o; isStarted := isStarted o;
     isFinished := isFinished o; isDebug := isDebug o;
     instanceID := instanceID o |}.

Definition set_asyncTaskList v (o : AsyncTaskHelper) : AsyncTaskHelper :=
  {| taskMode := taskMode o; asyncTaskList := v;
     asyncTaskResultList := asyncTaskResultList o;
     finalCallback := finalCallback o; isStarted := isStarted o;
     isFinished := isFinished o; isDebug := isDebug o;
     instanceID := instanceID o |}.

Definition set_asyncTaskResultList v (o : AsyncTaskHelper) : AsyncTaskHelper :=
  {| taskMode := taskMode o; asyncTaskList := asyncTaskList o;
     asyncTaskResultList := v;
     finalCallback := finalCallback o; isStarted := isStarted o;
     isFinished := isFinished o; isDebug := isDebug o;
     instanceID := instanceID o |}.

Definition set_finalCallback v (o : AsyncTaskHelper) : AsyncTaskHelper :=
  {| taskMode := taskMode o; asyncTaskList := asyncTaskList o;
     asyncTaskResultList := asyncTaskResultList o;
     finalCallback := v; isStarted := isStarted o;
     isFinished := isFinished o; isDebug := isDebug o;
     instanceID := instanceID o |}.

Definition set_isStarted v (o : AsyncTaskHelper) : AsyncTaskHelper :=
  {| taskMode := taskMode o; asyncTaskList := asyncTaskList o;
     asyncTaskResultList := asyncTaskResultList o;
     finalCallback := finalCallback o; isStarted := v;
     isFinished := isFinished o; isDebug := isDebug o;
     instanceID := instanceID o |}.

Definition set_isFinished v (o : AsyncTaskHelper) : AsyncTaskHelper :=
  {| taskMode := taskMode o; asyncTaskList := asyncTaskList o;
     asyncTaskResultList := asyncTaskResultList o;
     finalCallback := finalCallback o; isStarted := isStarted o;
     isFinished := v; isDebug := isDebug o;
     instanceID := instanceID o |}.

Definition set_heap v (w : World) : World :=
  {| heap := v; pending := pending w; trace := trace w;
     uuidCount := uuidCount w |}.

Definition set_pending v (w : World) : World :=
  {| heap := heap w; pending := v; trace := trace w;
     uuidCount := uuidCount w |}.

Definition set_uuidCount v (w : World) : World :=
  {| heap := heap w; pending := pending w; trace := trace w;
     uuidCount := v |}.

(** Appends an event to the trace. *)
Definition emit (e : Event) (w : World) : World :=
  {| heap := heap w; pending := pending w; trace := trace w ++ [e];
     uuidCount := uuidCount w |}.

(** Updates the fields of the object at [this]. *)
Definition update (this : nat) (f : AsyncTaskHelper -> AsyncTaskHelper)
    (w : World) : World :=
  set_heap (alter f this (heap w)) w.

(** [this.asyncTaskResultList.push(result)] *)
Definition pushResult (this : nat) (result : AsyncTaskHelperResult)
    (w : World) : World :=
  update this
    (fun o => set_asyncTaskResultList (asyncTaskResultList o ++ [result]) o) w.

(** [a ?? b] *)
Definition coalesce {A} (a : option A) (b : A) : A := default b a.
Infix "??" := coalesce (at level 45, right associativity).

(** [const _AsyncPoolChunkSize = 30] *)
Definition asyncPoolChunkSize : nat := 30.

(** ** Operations of [AsyncTaskHelper] *)

Section Coordinator.
(** [Crypto.randomUUID()]: the n-th token the generator returns. *)
Variable randomUUID : nat -> string.

(** [Library.Security.generateUUID(prefix = '', postfix = '')] *)
Definition generateUUID (prefix postfix : string) (w : World)
    : string * World :=
  (prefix +:+ randomUUID (uuidCount w) +:+ postfix,
   set_uuidCount (S (uuidCount w)) w).

(** The callback of [map] in [add]: a bare function gets a generated
    name; a record is copied over [{ taskName: generateUUID() }], so a
    [taskName] property of the record, even a nullish one, wins. *)
Definition wrapCandidate (taskCandidate : TaskCandidate) (w : World)
    : (AsyncTaskHelperTaskFunction * option string) * World :=
  let '(uuid, w) := generateUUID "" "" w in
  match taskCandidate with
  | BareFunction f => ((f, Some uuid), w)
  | TaskLike f NameAbsent => ((f, Some uuid), w)
  | TaskLike f (NamePresent v) => ((f, v), w)
  end.

Fixpoint mapCandidates (l : list TaskCandidate) (w : World)
    : list (AsyncTaskHelperTaskFunction * option string) * World :=
  match l with
  | [] => ([], w)
  | taskCandidate :: l =>
      let '(t, w) := wrapCandidate taskCandidate w in
      let '(ts, w) := mapCandidates l w in
      (t :: ts, w)
  end.

(** The callback of [forEach] in [add], up to the push:
    [taskName = (taskName ?? `${index}#${fn.name}`).trim()]. *)
Definition nameTask (index : nat)
    (asyncTask : AsyncTaskHelperTaskFunction * option string)
    : AsyncTaskHelperTask :=
  {| asyncTaskFunction := asyncTask.1;
     taskName :=
       trim (asyncTask.2 ?? (pretty index +:+ "#" +:+ functionName asyncTask.1)) |}.

(** [add(asyncTaskList)]; returns [this] and the new world. *)
Definition add (this : nat) (taskList : OneOrManyOrNull TaskCandidate)
    (w : World) : nat * World :=
  match taskList with
  | Null => (this, w)
  | One _ | Many _ =>
      let candidates :=
        match taskList with
        | Many l => l
        | One a => [a]
        | Null => []
        end in
      let '(availableAsyncTaskList, w) := mapCandidates candidates w in
      (this,
       foldl (fun w asyncTask =>
                update this
                  (fun o => set_asyncTaskList (asyncTaskList o ++ [asyncTask]) o) w)
             w (imap nameTask availableAsyncTaskList))
  end.

(** [new AsyncTaskHelper(options)]: the field initialisers, then the
    constructor body.  Returns the reference to the new object. *)
Definition constructor (options : option Options.t) (w : World)
    : nat * World :=
  let this := length (heap w) in
  let '(uuid, w) := generateUUID "" "" w in
  let instanceID := "AsyncTaskHelper::" +:+ uuid in
  let instanceID :=
    match options ≫= Options.name with
    | Some (String c s) => instanceID +:+ "::" +:+ String c s
    | _ => instanceID
    end in
  let o :=
    {| taskMode := (options ≫= Options.taskMode) ?? Queue;
       asyncTaskList := [];
       asyncTaskResultList := [];
       finalCallback := options ≫= Options.finalCallback;
       isStarted := false;
       isFinished := false;
       isDebug := (options ≫= Options.debug) ?? false;
       instanceID := instanceID |} in
  let w := set_heap (heap w ++ [o]) w in
  (this,
   foldl (fun w task => (add this (One task) w).2) w
         ((options ≫= Options.asyncTaskList) ?? [])).

(** The calls the interpreter runs: the methods that take part in the
    callback recursion, the invocation of a task function, of a
    completion callback and of a completion handler. *)
Inductive Call :=
| CStart (this : nat) (finalCallback : option AsyncTaskHelperFinalCallback)
    (taskMode : option AsyncTaskHelperTaskMode)
| CPool (this : nat) (finalCallback : option AsyncTaskHelperFinalCallback)
| CQueue (this : nat) (finalCallback : option AsyncTaskHelperFinalCallback)
| CProcessNextQueueTask (this : nat)
| CRunTask (this : nat) (asyncTask : AsyncTaskHelperTask) (next : option Next)
| CTaskFunction (f : AsyncTaskHelperTaskFunction) (done : Callback)
| CCallback (cb : Callback) (result : AsyncTaskHelperResult)
| CQuit (this : nat) (finalCallback : option AsyncTaskHelperFinalCallback)
| CAsyncTaskFinished (this : nat) (asyncTask : AsyncTaskHelperTask)
    (result : AsyncTaskHelperResult)
| CFinished (this : nat)
| CFinalCallback (handler : AsyncTaskHelperFinalCallback)
    (resultList : list AsyncTaskHelperResult).

(** [list.forEach(f)] for an effectful [f]. *)
Fixpoint forEach {A} (f : A -> World -> option World) (l : list A)
    (w : World) : option World :=
  match l with
  | [] => Some w
  | a :: l => w ← f a w; forEach f l w
  end.

(** The interpreter.  [None] means that the budget [fuel] ran out, or
    that a reference does not point into the heap. *)
Fixpoint exec (fuel : nat) (c : Call) (w : World) : option World :=
  match fuel with
  | 0 => None
  | S fuel =>
    match c with
    | CStart this finalCallbackArg taskModeArg =>
        (* parameter default: taskMode = AsyncTaskHelperTaskMode.Queue *)
        let taskModeArg := Some (taskModeArg ?? Queue) in
        o ← heap w !! this;
        let w := update this (set_finalCallback
                    (match finalCallbackArg with
                     | Some f => Some f
                     | None => finalCallback o
                     end)) w in
        let w := update this (set_taskMode
                    (taskModeArg ?? (Some (taskMode o) ?? Queue))) w in
        o ← heap w !! this;
        if isStarted o then Some w
        else
          let w := update this (set_isStarted true) w in
          if length (asyncTaskList o) =? 0 then exec fuel (CFinished this) w
          else
            match taskMode o with
            | Pool =>
                if length (asyncTaskList o) <=? asyncPoolChunkSize then
                  forEach (fun asyncTask =>
                             exec fuel (CRunTask this asyncTask None))
                          (asyncTaskList o) w
                else
                  let '(leveled, w) :=
                    constructor
                      (Some {| Options.name := None;
                               Options.debug := None;
                               Options.taskMode := None;
                               Options.asyncTaskList :=
                                 Some ((fun chunkedAsyncTaskList =>
                                          TaskLike
                                            (ChunkFunction this chunkedAsyncTaskList)
                                            NameAbsent)
                                       <$> split (asyncTaskList o)
                                             (Some (Z.of_nat asyncPoolChunkSize)));
                               Options.finalCallback := None |}) w in
                  exec fuel (CQueue leveled (Some (FlattenCallback this))) w
            | Queue => exec fuel (CProcessNextQueueTask this) w
            end
    | CPool this finalCallbackArg =>
        exec fuel (CStart this finalCallbackArg (Some Pool)) w
    | CQueue this finalCallbackArg =>
        exec fuel (CStart this finalCallbackArg (Some Queue)) w
    | CProcessNextQueueTask this =>
        o ← heap w !! this;
        if negb (length (asyncTaskList o) =? 0)
           && (length (asyncTaskResultList o) <? length (asyncTaskList o))
        then
          asyncTask ← asyncTaskList o !! length (asyncTaskResultList o);
          exec fuel (CRunTask this asyncTask (Some (ProcessNextQueueTask this))) w
        else Some w
    | CRunTask this asyncTask next =>
        let w := emit (TaskInvoked this asyncTask) w in
        exec fuel
          (CTaskFunction (asyncTaskFunction asyncTask)
             {| cb_this := this; cb_asyncTask := asyncTask; cb_next := next |})
          w
    | CTaskFunction (UserFunction _ now later) done =>
        w ← forEach (fun result => exec fuel (CCallback done result)) now w;
        Some (set_pending
                (pending w ++ ((fun result => (done, result)) <$> later)) w)
    | CTaskFunction (ChunkFunction this chunkedAsyncTaskList) poolCallback =>
        o ← heap w !! this;
        let '(chunked, w) :=
          constructor
            (Some {| Options.name := None;
                     Options.debug := Some (isDebug o);
                     Options.taskMode := None;
                     Options.asyncTaskList :=
                       Some ((fun asyncTask =>
                                TaskLike (asyncTaskFunction asyncTask)
                                  (NamePresent (Some (taskName asyncTask))))
                             <$> chunkedAsyncTaskList);
                     Options.finalCallback := None |}) w in
        exec fuel (CPool chunked (Some (PoolCallback poolCallback))) w
    | CCallback cb result =>
        w ← exec fuel (CAsyncTaskFinished (cb_this cb) (cb_asyncTask cb) result) w;
        match cb_next cb with
        | Some (ProcessNextQueueTask this) =>
            exec fuel (CProcessNextQueueTask this) w
        | None => Some w
        end
    | CQuit this finalCallbackArg =>
        let w := update this (set_finalCallback
                    (match finalCallbackArg with
                     | Some f => Some f
                     | None => None
                     end)) w in
        exec fuel (CFinished this) w
    | CAsyncTaskFinished this asyncTask result =>
        let w := update this
                   (fun o => set_asyncTaskResultList
                               (asyncTaskResultList o ++ [result]) o) w in
        o ← heap w !! this;
        if length (asyncTaskList o) <=? length (asyncTaskResultList o)
        then exec fuel (CFinished this) w
        else Some w
    | CFinished this =>
        o ← heap w !! this;
        if isFinished o then Some w
        else
          let w := update this (set_isFinished true) w in
          match finalCallback o with
          | Some handler =>
              let w := emit (FinalCallbackInvoked this handler
                               (asyncTaskResultList o)) w in
              exec fuel (CFinalCallback handler (asyncTaskResultList o)) w
          | None => Some w
          end
    | CFinalCallback (UserCallback _) _ => Some w
    | CFinalCallback (PoolCallback poolCallback) chunkedAsyncTaskResultList =>
        exec fuel (CCallback poolCallback (RArray chunkedAsyncTaskResultList)) w
    | CFinalCallback (FlattenCallback this) leveledAsyncTaskResultList =>
        let w := update this
                   (set_asyncTaskResultList (flat leveledAsyncTaskResultList)) w in
        exec fuel (CFinished this) w
    end
  end.

(** The big-step relation induced by the interpreter. *)
Definition Exec (c : Call) (w w' : World) : Prop :=
  exists fuel, exec fuel c w = Some w'.

(** [forEach] over calls, as a relation. *)
Definition ExecEach {A} (mk : A -> Call) (l : list A) (w w' : World) : Prop :=
  exists fuel, forEach (fun a => exec fuel (mk a)) l w = Some w'.

(** What the outside world does to a system of coordinators: the caller
    constructs coordinators and calls their public methods; the host
    runtime runs a completion it owes ([OpDeliver k]: the k-th pending
    one, which is then no longer owed; nothing happens when there is no
    such completion); [OpStray] is a completion callback invoked outside
    of that discipline (again, or never announced). *)
Inductive Op :=
| OpNew (options : option Options.t)
| OpAdd (this : nat) (asyncTaskList : OneOrManyOrNull TaskCandidate)
| OpStart (this : nat) (finalCallback : option AsyncTaskHelperFinalCallback)
    (taskMode : option AsyncTaskHelperTaskMode)
| OpPool (this : nat) (finalCallback : option AsyncTaskHelperFinalCallback)
| OpQueue (this : nat) (finalCallback : option AsyncTaskHelperFinalCallback)
| OpQuit (this : nat) (finalCallback : option AsyncTaskHelperFinalCallback)
| OpDeliver (k : nat)
| OpStray (cb : Callback) (result : AsyncTaskHelperResult).

Definition runOp (fuel : nat) (op : Op) (w : World) : option World :=
  match op with
  | OpNew options => Some (constructor options w).2
  | OpAdd this asyncTaskList => Some (add this asyncTaskList w).2
  | OpStart this finalCallback taskMode =>
      exec fuel (CStart this finalCallback taskMode) w
  | OpPool this finalCallback => exec fuel (CPool this finalCallback) w
  | OpQueue this finalCallback => exec fuel (CQueue this finalCallback) w
  | OpQuit this finalCallback => exec fuel (CQuit this finalCallback) w
  | OpDeliver k =>
      match pending w !! k with
      | Some (cb, result) =>
          exec fuel (CCallback cb result) (set_pending (delete k (pending w)) w)
      | None => Some w
      end
  | OpStray cb result => exec fuel (CCallback cb result) w
  end.

Fixpoint runOps (fuel : nat) (ops : list Op) (w : World) : option World :=
  match ops with
  | [] => Some w
  | op :: ops => w ← runOp fuel op w; runOps fuel ops w
  end.

(** A sequence of operations, as a relation. *)
Definition Run (ops : list Op) (w w' : World) : Prop :=
  exists fuel, runOps fuel ops w = Some w'.

(** The public methods return [this]. *)
Definition returned (c : Call) : option nat :=
  match c with
  | CStart this _ _ | CPool this _ | CQueue this _ | CQuit this _ => Some this
  | _ => None
  end.
End Coordinator.
(** ** Numbers: what [Math.floor(Math.random() * (i + 1))] computes *)

(** A finite double-precision number, [mantissa * 2^exponent]. *)
Record Double := { mantissa : Z; exponent : Z }.

(** The numbers of that form which are doubles: 53 bits of mantissa,
    and an exponent in the range of the format. *)
Definition isDouble (x : Double) : Prop :=
  (Z.abs (mantissa x) < 2 ^ 53)%Z /\ (-1074 <= exponent x <= 971)%Z.

(** [product / 2^shift], rounded to the nearest integer, a tie to the
    even one. *)
Definition roundHalfEven (product shift : Z) : Z :=
  if (shift <=? 0)%Z then product
  else
    let quotient := Z.shiftr product shift in
    let rest := (product - Z.shiftl quotient shift)%Z in
    let half := (2 ^ (shift - 1))%Z in
    if (rest <? half)%Z then quotient
    else if (half <? rest)%Z then (quotient + 1)%Z
    else if Z.even quotient then quotient
    else (quotient + 1)%Z.

(** [x * n] for a double [x] and an integer [n] that is a double: the
    product, rounded to 53 bits (to the nearest double, a tie to the
    even one).  The bits that do not fit are taken off at the low end,
    so the exponent does not fall below the one of [x]; the upper end
    of the range is not reached by the numbers multiplied here, which
    are below 1 and at most 2^53. *)
Definition multiply (x : Double) (n : Z) : Double :=
  let product := (mantissa x * n)%Z in
  let shift := Z.max 0 (Z.log2 (Z.abs product) + 1 - 53) in
  {| mantissa := roundHalfEven product shift;
     exponent := (exponent x + shift)%Z |}.

(** [Math.floor(x)] *)
Definition floor (x : Double) : Z := Z.shiftl (mantissa x) (exponent x).

(** ** Array extension: [unique], [getIntersection], [maxBy], [shuffle] *)

Section ArrayMethods.
Context {T : Type}.

(** [a === b] on the values the arrays hold.  Strict equality is
    symmetric and transitive, but a value need not be equal to itself
    ([NaN]); nothing is assumed of it here. *)
Variable strictEquals : T -> T -> bool.

(** [this.indexOf(searchElement)], counting from [k]: the index of the
    first element that [searchElement] is strictly equal to, or -1. *)
Fixpoint indexOf_from (k : Z) (this : list T) (searchElement : T) : Z :=
  match this with
  | [] => (-1)%Z
  | elementK :: rest =>
      if strictEquals searchElement elementK then k
      else indexOf_from (k + 1) rest searchElement
  end.

Definition indexOf (this : list T) (searchElement : T) : Z :=
  indexOf_from 0 this searchElement.

(** [array.filter(callback)], the callback taking
    [(element, index, array)]; [rest] is what is left to visit, from
    index [k] on. *)
Fixpoint filter_from (callback : T -> Z -> list T -> bool) (array : list T)
    (k : Z) (rest : list T) : list T :=
  match rest with
  | [] => []
  | element :: rest =>
      if callback element k array
      then element :: filter_from callback array (k + 1) rest
      else filter_from callback array (k + 1) rest
  end.

Definition arrayFilter (callback : T -> Z -> list T -> bool) (this : list T)
    : list T :=
  filter_from callback this 0 this.

(** [Array.prototype.unique]:
    [this.filter((element, index, array) => index === array.indexOf(element))] *)
Definition unique (this : list T) : list T :=
  arrayFilter (fun element index array => (index =? indexOf array element)%Z)
              this.

(** [Array.prototype.getIntersection]:
    [this.filter((element) => referenceArray.indexOf(element) !== -1)] *)
Definition getIntersection (this referenceArray : list T) : list T :=
  arrayFilter
    (fun element _ _ => negb (indexOf referenceArray element =? -1)%Z) this.

(** [null], and the test [v === null || v === undefined] behind [??]. *)
Variable null : T.
Variable isNullLike : T -> bool.

(** The loop of [maxBy] over the elements from index 1 on.  The
    comparison function returns a number of which only [> 0] is
    looked at. *)
Fixpoint maxBy_loop (comparisonFunction : T -> T -> Z) (rest : list T)
    (maxObject : T) : T :=
  match rest with
  | [] => maxObject
  | element :: rest =>
      maxBy_loop comparisonFunction rest
        (if (0 <? comparisonFunction element maxObject)%Z
         then element else maxObject)
  end.

(** [Array.prototype.maxBy]: [let maxObject = this[0] ?? null], then
    the loop. *)
Definition maxBy (this : list T) (comparisonFunction : T -> T -> Z) : T :=
  maxBy_loop comparisonFunction (drop 1 this)
    (match this !! 0 with
     | Some first => if isNullLike first then null else first
     | None => null
     end).

(** [Math.random()]: the n-th number the generator returns. *)
Variable random : nat -> Double.

(** [[this[i], this[j]] = [this[j], this[i]]] for indices inside the
    array.  [None] stands for an index outside of it, which does not
    occur in [shuffle] as long as [Math.random()] is a double in
    [0, 1). *)
Definition swap (i j : nat) (this : list T) : option (list T) :=
  match this !! j, this !! i with
  | Some atJ, Some atI => Some (<[j := atI]> (<[i := atJ]> this))
  | _, _ => None
  end.

(** The loop of [shuffle], [for (let i = this.length - 1; i >= 0; i--)],
    with [n = i + 1]; [calls] counts the calls of [Math.random()] made
    so far.  [i + 1] is an integer below 2^32, the bound on the length
    of an array, and so a double. *)
Fixpoint shuffle_loop (n : nat) (this : list T) (calls : nat)
    : option (list T * nat) :=
  match n with
  | 0 => Some (this, calls)
  | S i =>
      let j := floor (multiply (random calls) (Z.of_nat i + 1)) in
      if (j <? 0)%Z then None
      else
        this ← swap i (Z.to_nat j) this;
        shuffle_loop i this (S calls)
  end.

(** [Array.prototype.shuffle]: shuffles [this] in place and returns it;
    the result is the array after the call and the number of random
    numbers drawn. *)
Definition shuffle (this : list T) (calls : nat) : option (list T * nat) :=
  shuffle_loop (length this) this calls.

End ArrayMethods.

(** ** Array extension: [toTypedRecords] *)

(** What [toTypedRecords] throws: its own
    [Error('Cannot figure out fieldName for dictionary conversion')],
    or the [TypeError] of reading a property of [null] or
    [undefined]. *)
Inductive Thrown := CannotFigureOutFieldName | TypeError.

(** The outcome of a call that may throw. *)
Inductive Completion (A : Type) :=
| Normal (a : A)
| Throw (e : Thrown).
Arguments Normal {A} _.
Arguments Throw {A} _.

(** The optional parameter [valueFieldName]: left out ([undefined]),
    [null], or the name of a field. *)
Inductive ValueFieldName :=
| FieldOmitted
| FieldNull
| FieldNamed (name : string).

Section TypedRecords.
(** The values the array holds, with what [toTypedRecords] does to
    them: the test ['string' === typeof v || 'number' === typeof v],
    the property key a string or a number stands for, and the read
    [v[key]], which is [None] when it throws. *)
Context {Value : Type}.
Variable isStringOrNumber : Value -> bool.
Variable toPropertyKey : Value -> string.
Variable getProperty : Value -> string -> option Value.

(** [currentRecord[fieldName] = value] on a record that started as
    [{}], as far as its own properties go: the assignment defines or
    overwrites the property, except that ["__proto__"] is no property
    of the record (the assignment goes to the prototype setter). *)
Definition setProperty (fieldName : string) (value : Value)
    (currentRecord : gmap string Value) : gmap string Value :=
  if decide (fieldName = "__proto__") then currentRecord
  else <[fieldName := value]> currentRecord.

(** [null === valueFieldName ? currentValue : currentValue[valueFieldName]];
    the key of a left-out [valueFieldName] is ["undefined"]. *)
Definition fieldValue (valueFieldName : ValueFieldName)
    (currentValue : Value) : Completion Value :=
  match valueFieldName with
  | FieldNull => Normal currentValue
  | FieldOmitted =>
      match getProperty currentValue "undefined" with
      | Some value => Normal value
      | None => Throw TypeError
      end
  | FieldNamed name =>
      match getProperty currentValue name with
      | Some value => Normal value
      | None => Throw TypeError
      end
  end.

(** The callback of [reduce] in [toTypedRecords].  [keyFieldName] is
    [None] when it is [null] or [undefined]. *)
Definition toTypedRecords_callback (keyFieldName : option string)
    (valueFieldName : ValueFieldName)
    (currentRecord : gmap string Value) (currentValue : Value)
    : Completion (gmap string Value) :=
  let fieldName :=
    match keyFieldName with
    | Some key => Some key
    | None =>
        if isStringOrNumber currentValue
        then Some (toPropertyKey currentValue) else None
    end in
  match fieldName with
  | None => Throw CannotFigureOutFieldName
  | Some fieldName =>
      match fieldValue valueFieldName currentValue with
      | Normal value => Normal (setProperty fieldName value currentRecord)
      | Throw e => Throw e
      end
  end.

(** [this.reduce(callback, initialValue)] for a callback that may
    throw. *)
Fixpoint reduce {A} (callback : A -> Value -> Completion A)
    (this : list Value) (accumulator : A) : Completion A :=
  match this with
  | [] => Normal accumulator
  | currentValue :: rest =>
      match callback accumulator currentValue with
      | Normal accumulator => reduce callback rest accumulator
      | Throw e => Throw e
      end
  end.

(** [Array.prototype.toTypedRecords] *)
Definition toTypedRecords (this : list Value) (keyFieldName : option string)
    (valueFieldName : ValueFieldName) : Completion (gmap string Value) :=
  reduce (toTypedRecords_callback keyFieldName valueFieldName) this ∅.

End TypedRecords.
(** ** Security helpers that shuffle: [generatePassword], [getRandomCode]

    Numbers are integers here: the lengths the caller asks for, the
    time value of [Date.now()] and what the loops derive from it.
    Strings are strings of 8-bit code units. *)

(** [a % b] on integers: [NaN] ([None]) for [b = 0], otherwise the
    remainder with the sign of [a]. *)
Definition remainder (a b : Z) : option Z :=
  if (b =? 0)%Z then None else Some (Z.rem a b).

(** [s[k]]: the one-character string at index [k], or [undefined] when
    [k] is [NaN] or no index of [s]. *)
Definition characterAt (s : string) (k : option Z) : option string :=
  match k with
  | Some k =>
      if (k <? 0)%Z then None
      else (fun c => String c EmptyString) <$> String.get (Z.to_nat k) s
  | None => None
  end.

(** [s.split('')]: the characters of [s], as one-character strings. *)
Definition characters (s : string) : list string :=
  (fun c => String c EmptyString) <$> String.list_ascii_of_string s.

(** [list.join('')]; [undefined] elements give the empty string. *)
Definition join (list : list (option string)) : string :=
  foldr (fun element joined => default EmptyString element +:+ joined)
        EmptyString list.

(** [const PASSWORD_MINIMUM_LENGTH = 8], [const CODE_DEFAULT_LENGTH = 6] *)
Definition PASSWORD_MINIMUM_LENGTH : Z := 8.
Definition CODE_DEFAULT_LENGTH : Z := 6.

(** The character sets [generatePassword] falls back on. *)
Definition defaultCharacterSetList : list string :=
  ["23456789";
   "abcdefghjkmnpqrstuvwxyz";
   "ABCDEFGHJKMNPQRSTUVWXYZ";
   ",./;[]`=?:{}|~!@#$%^&*()_+"].

(** The code base [getRandomCode] falls back on. *)
Definition defaultCodeBase : list string :=
  characters "23456789ABCDEFGHJKMNPQRSTUVWXYZ".

(** The loop of [generatePassword]:
    [for (let i = 0, seedMod = 10; i < targetLength;
          i++, seedMod = seedMod > seed ? 10 : seedMod * 10)].
    Reading a character set out of an empty list gives [undefined],
    whose [length] cannot be read. *)
Equations? generatePassword_loop (seed targetLength : Z)
    (targetBaseCharacterSetList : list string) (i seedMod : Z)
    (passwordCharacterList : list (option string))
    : Completion (list (option string))
    by wf (Z.to_nat (targetLength - i)) lt :=
  generatePassword_loop seed targetLength targetBaseCharacterSetList i seedMod
      passwordCharacterList
    with Z_lt_dec i targetLength := {
    | left _ =>
        match remainder i (Z.of_nat (length targetBaseCharacterSetList))
              ≫= (fun k => targetBaseCharacterSetList !! Z.to_nat k) with
        | None => Throw TypeError
        | Some characterSet =>
            let character :=
              characterAt characterSet
                (remainder seed seedMod
                 ≫= (fun r =>
                       remainder r (Z.of_nat (String.length characterSet)))) in
            generatePassword_loop seed targetLength targetBaseCharacterSetList
              (i + 1) (if (seed <? seedMod)%Z then 10%Z else (seedMod * 10)%Z)
              (passwordCharacterList ++ [character])
        end;
    | right _ => Normal passwordCharacterList }.
Proof. lia. Qed.

Section Security.
(** [Math.random()] and [Date.now()]. *)
Variable random : nat -> Double.
Variable now : Z.

(** [generatePassword(targetLength = PASSWORD_MINIMUM_LENGTH,
    baseCharacterSetList?)].  [calls] counts the calls of
    [Math.random()] made so far; the result is [None] should
    [Math.random()] leave [0, 1). *)
Definition generatePassword (targetLength : option Z)
    (baseCharacterSetList : option (list string)) (calls : nat)
    : option (Completion string * nat) :=
  let targetLength := targetLength ?? PASSWORD_MINIMUM_LENGTH in
  let seed := now in
  let targetBaseCharacterSetList :=
    baseCharacterSetList ?? defaultCharacterSetList in
  match generatePassword_loop seed targetLength targetBaseCharacterSetList
          0 10 [] with
  | Throw e => Some (Throw e, calls)
  | Normal passwordCharacterList =>
      '(shuffled, calls) ← shuffle random passwordCharacterList calls;
      Some (Normal (join shuffled), calls)
  end.

(** The loop of [getRandomCode]:
    [while (output.length < length) { output.push(codeBase.shuffle()[0]); }].
    [shuffle] works on [codeBase] itself, so the loop hands back the
    array as it has left it. *)
Equations? getRandomCode_loop (length : Z) (codeBase : list string)
    (output : list (option string)) (calls : nat)
    : option (list (option string) * list string * nat)
    by wf (Z.to_nat (length - Z.of_nat (List.length output))) lt :=
  getRandomCode_loop length codeBase output calls
    with Z_lt_dec (Z.of_nat (List.length output)) length := {
    | left _ =>
        match shuffle random codeBase calls with
        | Some (codeBase, calls) =>
            getRandomCode_loop length codeBase (output ++ [codeBase !! 0])
              calls
        | None => None
        end;
    | right _ => Some (output, codeBase, calls) }.
Proof. rewrite length_app. simpl. lia. Qed.

(** [getRandomCode(length = CODE_DEFAULT_LENGTH, codeBase?)]: the code,
    the array [codeBase] as the call leaves it, and the number of
    random numbers drawn. *)
Definition getRandomCode (length : option Z) (codeBase : option (list string))
    (calls : nat) : option (string * list string * nat) :=
  let length := length ?? CODE_DEFAULT_LENGTH in
  let codeBase := codeBase ?? defaultCodeBase in
  '(output, codeBase, calls) ← getRandomCode_loop length codeBase [] calls;
  Some (join output, codeBase, calls).
End Security.
(** ** String extension: [explode] *)

(** The scan of [this.split(separator)] for a non-empty separator:
    [rest] is what is left of the string, [piece] what has been read
    since the last separator, and [skip] the number of characters of a
    separator just found that are still to be passed over. *)
Fixpoint split_scan (separator rest piece : string) (skip : nat)
    : list string :=
  match rest with
  | EmptyString => [piece]
  | String c rest' =>
      match skip with
      | S skip => split_scan separator rest' piece skip
      | 0 =>
          if String.prefix separator rest
          then piece :: split_scan separator rest' EmptyString
                          (String.length separator - 1)
          else split_scan separator rest' (piece +:+ String c EmptyString) 0
      end
  end.

(** [this.split(separator)] of [String.prototype]: the pieces between
    the occurrences of the separator, found from left to right; an empty
    separator splits into characters. *)
Definition splitString (this separator : string) : list string :=
  match separator with
  | EmptyString => characters this
  | _ => split_scan separator this EmptyString 0
  end.

(** [this.join(separator)] on strings *)
Fixpoint joinWith (separator : string) (this : list string) : string :=
  match this with
  | [] => EmptyString
  | element :: rest =>
      match rest with
      | [] => element
      | _ => element +:+ separator +:+ joinWith separator rest
      end
  end.

(** [String.prototype.explode]; a [limit] left out is [None]. *)
Definition explode (this separator : string) (limit : option Z)
    : list string :=
  let strList := splitString this separator in
  match limit with
  | Some limit =>
      if negb (limit =? 0)%Z && (0 <? limit - 1)%Z
      then
        slice strList 0 (limit - 1)
        ++ [joinWith separator
              (slice strList (limit - 1) (Z.of_nat (length strList)))]
      else strList
  | None => strList
  end.

(** ** Deep comparison: [isDataEqual] *)

(** The values [isDataEqual] is read on: [undefined], [null], booleans,
    numbers, strings, functions, arrays and plain objects.  A function,
    an array and an object have an identity ([ref]), which is what
    [===] compares.  An array holds its elements (it has no holes), an
    object its own enumerable properties, one per name, in the order in
    which [Object.keys] reports them.  Values are finite: no array or
    object contains itself. *)
Inductive AnyType {Number : Type} :=
| VUndefined
| VNull
| VBoolean (b : bool)
| VNumber (n : Number)
| VString (s : string)
| VFunction (ref : nat)
| VArray (ref : nat) (elements : list AnyType)
| VObject (ref : nat) (properties : list (string * AnyType)).
Arguments AnyType : clear implicits.

(** The order of the default [Array.prototype.sort] on strings: by code
    units. *)
Definition codeUnitOrder (x y : string) : Prop := String.leb x y = true.

#[global] Instance codeUnitOrder_dec : RelDecision codeUnitOrder.
Proof. intros x y. unfold codeUnitOrder. apply _. Defined.

(** [this.sort()] on strings *)
Definition sort (this : list string) : list string :=
  merge_sort codeUnitOrder this.

(** The names of the indices of an array of the given length:
    ["0"], ["1"], ... *)
Definition indexKeys (length : nat) : list string :=
  (fun i : nat => pretty i) <$> seq 0 length.

(** A loop that returns [false] at the first comparison that fails and
    [true] when none does; a comparison that throws ends it as well.
    [None] stands for a comparison that did not come to an end. *)
Fixpoint allEqual {K} (compare : K -> option (Completion bool))
    (keys : list K) : option (Completion bool) :=
  match keys with
  | [] => Some (Normal true)
  | key :: rest =>
      match compare key with
      | Some (Normal true) => allEqual compare rest
      | outcome => outcome
      end
  end.

Section DataEqual.
Context {Number : Type}.

(** [x === y] on numbers: not reflexive ([NaN]). *)
Variable numberEquals : Number -> Number -> bool.

(** What the prototypes hold.  [arrayPrototypeKeys] are the names of the
    enumerable properties of [Array.prototype], in the order of their
    creation: the array extension creates its methods by assignment,
    which makes them enumerable.  [arrayPrototype name] and
    [objectPrototype name] are the methods that an array and a plain
    object inherit under [name], if any. *)
Variable arrayPrototypeKeys : list string.
Variable arrayPrototype : string -> option nat.
Variable objectPrototype : string -> option nat.

Local Abbreviation AnyType := (AnyType Number).

(** [typeof v] *)
Definition typeof (v : AnyType) : string :=
  match v with
  | VUndefined => "undefined"
  | VNull => "object"
  | VBoolean _ => "boolean"
  | VNumber _ => "number"
  | VString _ => "string"
  | VFunction _ => "function"
  | VArray _ _ => "object"
  | VObject _ _ => "object"
  end.

(** [a === b] *)
Definition strictlyEqual (a b : AnyType) : bool :=
  match a, b with
  | VUndefined, VUndefined => true
  | VNull, VNull => true
  | VBoolean x, VBoolean y => Bool.eqb x y
  | VNumber x, VNumber y => numberEquals x y
  | VString x, VString y => String.eqb x y
  | VFunction x, VFunction y => x =? y
  | VArray x _, VArray y _ => x =? y
  | VObject x _, VObject y _ => x =? y
  | _, _ => false
  end.

(** [Array.isArray(v)] *)
Definition isArray (v : AnyType) : bool :=
  match v with VArray _ _ => true | _ => false end.

(** The elements of an array; [v.length] is their number and [v[i]]
    the i-th of them. *)
Definition elements (v : AnyType) : list AnyType :=
  match v with VArray _ elements => elements | _ => [] end.

Definition elementAt (v : AnyType) (i : nat) : AnyType :=
  default VUndefined (elements v !! i).

(** [Object.keys(v ?? {})] for a value of type ['object']: [null] is
    replaced by an object without properties. *)
Definition objectKeys (v : AnyType) : list string :=
  match v with
  | VArray _ elements => indexKeys (length elements)
  | VObject _ properties => properties.*1
  | _ => []
  end.

(** What a value inherits under a name. *)
Definition inherited (prototype : string -> option nat) (name : string)
    : AnyType :=
  match prototype name with
  | Some ref => VFunction ref
  | None => VUndefined
  end.

(** [v[fieldName]] for a value of type ['object'] and the names that
    [isDataEqual] reads, which are indices and enumerable names of
    [Array.prototype]: a [TypeError] on [null], an element or an
    inherited method on an array, an own property or an inherited
    method on an object. *)
Definition getField (v : AnyType) (fieldName : string)
    : Completion AnyType :=
  match v with
  | VNull | VUndefined => Throw TypeError
  | VArray _ elements =>
      match list_find (fun i : nat => pretty i = fieldName)
                      (seq 0 (length elements)) with
      | Some (i, _) => Normal (default VUndefined (elements !! i))
      | None => Normal (inherited arrayPrototype fieldName)
      end
  | VObject _ properties =>
      match list_find (fun property => property.1 = fieldName) properties with
      | Some (_, property) => Normal property.2
      | None => Normal (inherited objectPrototype fieldName)
      end
  | _ => Normal VUndefined
  end.

(** The names [for (const fieldName in fieldNameList)] visits on an
    array of strings: its indices, then the enumerable names it
    inherits. *)
Definition forInKeys (fieldNameList : list string) : list string :=
  indexKeys (length fieldNameList)
  ++ List.filter
       (fun name => bool_decide (name ∉ indexKeys (length fieldNameList)))
       arrayPrototypeKeys.

(** The dictionary [ignoreFieldNameDic] that [reduce] builds. *)
Definition ignoreFieldNameDic (ignoreObjectKeyIndicator : string)
    (ignoreFieldNameList : list string) : gmap string string :=
  foldl
    (fun ignoreFieldNameDic ignoreFieldName =>
       let realFieldName :=
         last (explode ignoreFieldName ignoreObjectKeyIndicator None) in
       let ignoreFieldNameDic :=
         match realFieldName with
         | Some (String c realFieldName) =>
             setProperty (String c realFieldName) (String c realFieldName)
               ignoreFieldNameDic
         | _ => ignoreFieldNameDic
         end in
       setProperty ignoreFieldName ignoreFieldName ignoreFieldNameDic)
    ∅ ignoreFieldNameList.

(** [ignoreFieldNameDic[fieldName]] *)
Definition dictionaryValue (ignoreFieldNameDic : gmap string string)
    (fieldName : string) : AnyType :=
  match ignoreFieldNameDic !! fieldName with
  | Some value => VString value
  | None => inherited objectPrototype fieldName
  end.

(** The two lists of field names after the fields marked by the
    indicator have been dealt with. *)
Definition comparedFieldNames (ignoreObjectKeyIndicator : option string)
    (aFieldNameList bFieldNameList : list string)
    : list string * list string :=
  match ignoreObjectKeyIndicator with
  | None => (aFieldNameList, bFieldNameList)
  | Some indicator =>
      let ignoreFieldNameList :=
        unique String.eqb
          (List.filter (String.prefix indicator) aFieldNameList
           ++ List.filter (String.prefix indicator) bFieldNameList) in
      let ignoreFieldNameDic :=
        ignoreFieldNameDic indicator ignoreFieldNameList in
      (List.filter
         (fun fieldName =>
            strictlyEqual VNull (dictionaryValue ignoreFieldNameDic fieldName))
         aFieldNameList,
       List.filter
         (fun fieldName =>
            strictlyEqual VNull (dictionaryValue ignoreFieldNameDic fieldName))
         bFieldNameList)
  end.

(** The body of [isDataEqual], over the function it calls itself
    through.  The two texts of [JSON.stringify] are equal exactly when
    the two lists of names are, which is what is tested here. *)
Definition isDataEqual_body
    (isDataEqual : AnyType -> AnyType -> option string
                   -> option (Completion bool))
    (a b : AnyType) (ignoreObjectKeyIndicator : option string)
    : option (Completion bool) :=
  if strictlyEqual a b then Some (Normal true)
  else if negb (String.eqb (typeof a) (typeof b)) then Some (Normal false)
  else if String.eqb "object" (typeof a) then
    if isArray a then
      if negb (isArray b)
         || negb (length (elements a) =? length (elements b))
      then Some (Normal false)
      else
        allEqual
          (fun i =>
             isDataEqual (elementAt a i) (elementAt b i)
               ignoreObjectKeyIndicator)
          (seq 0 (length (elements a)))
    else
      let '(aFieldNameList, bFieldNameList) :=
        comparedFieldNames ignoreObjectKeyIndicator
          (sort (objectKeys a)) (sort (objectKeys b)) in
      if negb (length aFieldNameList =? length bFieldNameList)
      then Some (Normal false)
      else if negb (bool_decide (aFieldNameList = bFieldNameList))
      then Some (Normal false)
      else
        allEqual
          (fun fieldName =>
             match getField a fieldName, getField b fieldName with
             | Normal x, Normal y =>
                 isDataEqual x y ignoreObjectKeyIndicator
             | Throw e, _ => Some (Throw e)
             | _, Throw e => Some (Throw e)
             end)
          (forInKeys aFieldNameList)
  else Some (Normal (strictlyEqual a b)).

(** The depth to which arrays and objects are nested in a value. *)
Fixpoint height (v : AnyType) : nat :=
  match v with
  | VArray _ elements => S (list_max (map height elements))
  | VObject _ properties =>
      S (list_max (map (fun property => height property.2) properties))
  | _ => 0
  end.

(** [isDataEqual] with a bound on the depth of its recursion. *)
Fixpoint isDataEqual_bounded (depth : nat) (a b : AnyType)
    (ignoreObjectKeyIndicator : option string) : option (Completion bool) :=
  match depth with
  | 0 => None
  | S depth =>
      isDataEqual_body (isDataEqual_bounded depth) a b
        ignoreObjectKeyIndicator
  end.

(** [isDataEqual(a, b, ignoreObjectKeyIndicator)]; the indicator is
    [None] when it is [null] or left out.  The recursion goes into [a]
    only, and so no deeper than [a] is: the bound is not reached. *)
Definition isDataEqual (a b : AnyType)
    (ignoreObjectKeyIndicator : option string) : option (Completion bool) :=
  isDataEqual_bounded (S (height a)) a b ignoreObjectKeyIndicator.

End DataEqual.
(** ** Vocabulary of the specifications *)

(** A task function that calls its completion callback exactly once:
    either before it returns, or later through the host runtime. *)
Definition callsBackOnce (f : AsyncTaskHelperTaskFunction) : Prop :=
  match f with
  | UserFunction _ [_] [] | UserFunction _ [] [_] => True
  | _ => False
  end.

(** The result such a task function passes to its callback. *)
Definition resultOf (f : AsyncTaskHelperTaskFunction) : AsyncTaskHelperResult :=
  match f with
  | UserFunction _ [r] [] | UserFunction _ [] [r] => r
  | _ => RNull
  end.

Definition expectedResults (asyncTaskList : list AsyncTaskHelperTask)
    : list AsyncTaskHelperResult :=
  (fun asyncTask => resultOf (asyncTaskFunction asyncTask)) <$> asyncTaskList.

(** The completion the host runtime owes once [runTask this asyncTask next]
    has invoked a task function that defers its callback. *)
Definition completion (this : nat) (next : option Next)
    (asyncTask : AsyncTaskHelperTask) : Callback * AsyncTaskHelperResult :=
  ({| cb_this := this; cb_asyncTask := asyncTask; cb_next := next |},
   resultOf (asyncTaskFunction asyncTask)).

Definition finalEvents (this : nat)
    (handler : option AsyncTaskHelperFinalCallback)
    (resultList : list AsyncTaskHelperResult) : list Event :=
  match handler with
  | Some h => [FinalCallbackInvoked this h resultList]
  | None => []
  end.

(** The task functions invoked by [this], in order of invocation. *)
Definition invoked (this : nat) (events : list Event)
    : list AsyncTaskHelperTask :=
  omap (fun e => match e with
                 | TaskInvoked this' asyncTask =>
                     if this' =? this then Some asyncTask else None
                 | _ => None
                 end) events.

(** The invocations of the completion handler of [this]: the handler and
    the result list it was given. *)
Definition finalCalls (this : nat) (events : list Event)
    : list (AsyncTaskHelperFinalCallback * list AsyncTaskHelperResult) :=
  omap (fun e => match e with
                 | FinalCallbackInvoked this' handler resultList =>
                     if this' =? this then Some (handler, resultList) else None
                 | _ => None
                 end) events.

(** The world of a queue run of [this] (initially [o] in [w0]) once the
    first [i] tasks have completed; [inFlight] tells whether task [i] has
    been invoked and its completion is owed by the host runtime. *)
Definition queueWorld (w0 : World) (this : nat) (o : AsyncTaskHelper)
    (handler : option AsyncTaskHelperFinalCallback) (i : nat)
    (inFlight : bool) : World :=
  {| heap :=
       <[this :=
           {| taskMode := Queue;
              asyncTaskList := asyncTaskList o;
              asyncTaskResultList := take i (expectedResults (asyncTaskList o));
              finalCallback := handler;
              isStarted := true;
              isFinished := length (asyncTaskList o) <=? i;
              isDebug := isDebug o;
              instanceID := instanceID o |}]> (heap w0);
     pending :=
       if inFlight
       then match asyncTaskList o !! i with
            | Some asyncTask =>
                [completion this (Some (ProcessNextQueueTask this)) asyncTask]
            | None => []
            end
       else [];
     trace :=
       trace w0
       ++ fmap (TaskInvoked this)
              (take (i + (if inFlight then 1 else 0)) (asyncTaskList o))
       ++ (if length (asyncTaskList o) <=? i
           then finalEvents this handler (expectedResults (asyncTaskList o))
           else []);
     uuidCount := uuidCount w0 |}.

(** The handler in force after [start(arg)]: [arg ?? this.finalCallback]. *)
Definition handlerAfterStart (arg : option AsyncTaskHelperFinalCallback)
    (o : AsyncTaskHelper) : option AsyncTaskHelperFinalCallback :=
  match arg with
  | Some f => Some f
  | None => finalCallback o
  end.

(** A handler supplied by the caller (not one built by [start]). *)
Definition isUserHandler (handler : option AsyncTaskHelperFinalCallback) : Prop :=
  match handler with
  | Some (UserCallback _) | None => True
  | Some _ => False
  end.

(** What [start(arg, mode)] records before it looks at [isStarted]. *)
Definition recordStart (this : nat)
    (arg : option AsyncTaskHelperFinalCallback)
    (mode : option AsyncTaskHelperTaskMode) (o : AsyncTaskHelper)
    (w : World) : World :=
  update this (set_taskMode (mode ?? Queue))
    (update this (set_finalCallback (handlerAfterStart arg o)) w).

(** The number of deliveries of the oldest pending completion. *)
Definition countHead (ks : list nat) : nat := length (filter (fun k => k = 0) ks).

(** The world of a direct pool run of [this] (initially [o] in [w0]):
    the tasks [invokedTasks] have been invoked, the results [rs] have come
    back, the completions [ps] are owed, and [fin] tells whether
    [finished] has run. *)
Definition poolWorld (w0 : World) (this : nat) (o : AsyncTaskHelper)
    (handler : option AsyncTaskHelperFinalCallback)
    (invokedTasks : list AsyncTaskHelperTask)
    (rs : list AsyncTaskHelperResult)
    (ps : list (Callback * AsyncTaskHelperResult)) (fin : bool) : World :=
  {| heap :=
       <[this :=
           {| taskMode := Pool;
              asyncTaskList := asyncTaskList o;
              asyncTaskResultList := rs;
              finalCallback := handler;
              isStarted := true;
              isFinished := fin;
              isDebug := isDebug o;
              instanceID := instanceID o |}]> (heap w0);
     pending := ps;
     trace :=
       trace w0 ++ (TaskInvoked this <$> invokedTasks)
       ++ (if fin then finalEvents this handler rs else []);
     uuidCount := uuidCount w0 |}.

(** The results that came back and the ones still owed are, together,
    the results of the tasks invoked; the completions owed are the ones
    [runTask this _ null] handed out. *)
Definition poolInv (this : nat) (invokedTasks : list AsyncTaskHelperTask)
    (rs : list AsyncTaskHelperResult)
    (ps : list (Callback * AsyncTaskHelperResult)) : Prop :=
  rs ++ ps.*2 ≡ₚ expectedResults invokedTasks
  /\ Forall (fun p => cb_this p.1 = this /\ cb_next p.1 = None) ps.

(** A pool run that waits for the host runtime. *)
Definition poolWaiting (w0 : World) (this : nat) (o : AsyncTaskHelper)
    (handler : option AsyncTaskHelperFinalCallback) (w : World) : Prop :=
  exists rs ps,
    w = poolWorld w0 this o handler (asyncTaskList o) rs ps false
    /\ ps <> [] /\ poolInv this (asyncTaskList o) rs ps.

(** A direct pool run that has finished. *)
Definition poolDone (w0 : World) (this : nat) (o : AsyncTaskHelper)
    (handler : option AsyncTaskHelperFinalCallback) (w : World) : Prop :=
  exists rs,
    w = poolWorld w0 this o handler (asyncTaskList o) rs [] true
    /\ rs ≡ₚ expectedResults (asyncTaskList o).

(** The candidates in an argument of [add]. *)
Definition candidates (taskList : OneOrManyOrNull TaskCandidate)
    : list TaskCandidate :=
  match taskList with
  | Null => []
  | One a => [a]
  | Many l => l
  end.

Definition candidateFunction (c : TaskCandidate) : AsyncTaskHelperTaskFunction :=
  match c with
  | BareFunction f | TaskLike f _ => f
  end.

(** The name of a candidate after the [map] of [add], given the UUID
    drawn for it. *)
Definition candidateName (uuid : string) (c : TaskCandidate) : option string :=
  match c with
  | BareFunction _ | TaskLike _ NameAbsent => Some uuid
  | TaskLike _ (NamePresent v) => v
  end.

(** The tasks one call of [add] registers for the candidates [cs], when
    [u] UUIDs have been drawn before. *)
Definition registered (randomUUID : nat -> string) (u : nat)
    (cs : list TaskCandidate) : list AsyncTaskHelperTask :=
  imap (fun k c =>
          nameTask k (candidateFunction c, candidateName (randomUUID (u + k)) c))
       cs.

(** The tasks the constructor registers for [cs]: one call of [add] per
    candidate. *)
Definition registeredSingly (randomUUID : nat -> string) (u : nat)
    (cs : list TaskCandidate) : list AsyncTaskHelperTask :=
  imap (fun k c =>
          nameTask 0 (candidateFunction c, candidateName (randomUUID (u + k)) c))
       cs.

(** The object [new AsyncTaskHelper(options)] allocates, when [u] UUIDs
    have been drawn before. *)
Definition constructed (randomUUID : nat -> string) (u : nat)
    (options : Options.t) : AsyncTaskHelper :=
  {| taskMode := Options.taskMode options ?? Queue;
     asyncTaskList :=
       registeredSingly randomUUID (S u) (Options.asyncTaskList options ?? []);
     asyncTaskResultList := [];
     finalCallback := Options.finalCallback options;
     isStarted := false;
     isFinished := false;
     isDebug := Options.debug options ?? false;
     instanceID :=
       match Options.name options with
       | Some (String c s) =>
           ("AsyncTaskHelper::" +:+ randomUUID u) +:+ "::" +:+ String c s
       | _ => "AsyncTaskHelper::" +:+ randomUUID u
       end |}.

(** *** Chunked pool runs

    [this] (initially [o] in [w0]) is started in pool mode with more
    tasks than the chunk size; [handler] is the handler in force. *)
Section ChunkedVocabulary.
Variable randomUUID : nat -> string.
Variables (w0 : World) (this : nat) (o : AsyncTaskHelper).
Variable handler : option AsyncTaskHelperFinalCallback.

(** The chunks of the registry. *)
Definition chunksOf : list (list AsyncTaskHelperTask) :=
  split (asyncTaskList o) (Some (Z.of_nat asyncPoolChunkSize)).

(** The reference of the chunk-sequencing coordinator, and of the
    coordinator of chunk [k]. *)
Definition leveledRef : nat := length (heap w0).
Definition chunkRef (k : nat) : nat := S (length (heap w0)) + k.

(** [this] once started. *)
Definition chunkedParent : AsyncTaskHelper :=
  set_isStarted true (set_taskMode Pool (set_finalCallback handler o)).

(** The chunk-sequencing coordinator when the results of the first
    chunks are [resDone]. *)
Definition leveledOptions : Options.t :=
  {| Options.name := None;
     Options.debug := None;
     Options.taskMode := None;
     Options.asyncTaskList :=
       Some ((fun chunkedAsyncTaskList =>
                TaskLike (ChunkFunction this chunkedAsyncTaskList) NameAbsent)
             <$> chunksOf);
     Options.finalCallback := None |}.

Definition leveled (resDone : list (list AsyncTaskHelperResult)) (fin : bool)
    : AsyncTaskHelper :=
  set_isFinished fin
    (set_asyncTaskResultList (RArray <$> resDone)
       (set_isStarted true
          (set_taskMode Queue
             (set_finalCallback (Some (FlattenCallback this))
                (constructed randomUUID (uuidCount w0) leveledOptions))))).

(** The callback the chunk-sequencing coordinator hands to the task of
    chunk [k]. *)
Definition chunkCallback (k : nat) (asyncTask : AsyncTaskHelperTask) : Callback :=
  {| cb_this := leveledRef; cb_asyncTask := asyncTask;
     cb_next := Some (ProcessNextQueueTask leveledRef) |}.

(** The coordinator of a chunk, as far as the run depends on it. *)
Definition chunkCoordinator (k : nat) (chunk : list AsyncTaskHelperTask)
    (c : AsyncTaskHelper) : Prop :=
  taskMode c = Pool
  /\ asyncTaskFunction <$> asyncTaskList c = asyncTaskFunction <$> chunk
  /\ exists asyncTask,
       asyncTaskList (leveled [] false) !! k = Some asyncTask
       /\ finalCallback c = Some (PoolCallback (chunkCallback k asyncTask)).

(** The coordinator of a chunk that has finished with results [res]. *)
Definition chunkDone (k : nat) (chunk : list AsyncTaskHelperTask)
    (res : list AsyncTaskHelperResult) (c : AsyncTaskHelper) : Prop :=
  chunkCoordinator k chunk c
  /\ isStarted c = true /\ isFinished c = true
  /\ asyncTaskResultList c = res
  /\ res ≡ₚ expectedResults chunk.

(** The part of the world that does not change while chunk [j] runs:
    the parent, the chunk-sequencing coordinator holding the results
    [resDone] of the chunks before [j], and their coordinators. *)
Definition chunkedFrame (j : nat)
    (resDone : list (list AsyncTaskHelperResult)) (fin : bool)
    (parent : AsyncTaskHelper) (w : World) : Prop :=
  length resDone = j
  /\ heap w !! this = Some parent
  /\ heap w !! leveledRef = Some (leveled resDone fin)
  /\ (forall k res, resDone !! k = Some res ->
        exists c chunk,
          heap w !! chunkRef k = Some c /\ chunksOf !! k = Some chunk
          /\ chunkDone k chunk res c)
  /\ finalCalls this (trace w)
     = finalCalls this (trace w0)
       ++ (if isFinished parent
           then match handler with
                | Some h => [(h, asyncTaskResultList parent)]
                | None => []
                end
           else []).

(** Chunk [j] is about to be started: its coordinator does not exist
    yet. *)
Definition chunkedBase (j : nat)
    (resDone : list (list AsyncTaskHelperResult)) (w : World) : Prop :=
  chunkedFrame j resDone false chunkedParent w
  /\ length (heap w) = chunkRef j
  /\ pending w = [].

(** Chunk [j] is running and waits for the host runtime. *)
Definition chunkedRunning (j : nat) (w : World) : Prop :=
  exists resDone base c chunk,
    chunkedFrame j resDone false chunkedParent base
    /\ length (heap base) = S (chunkRef j)
    /\ heap base !! chunkRef j = Some c
    /\ chunksOf !! j = Some chunk
    /\ asyncTaskFunction <$> asyncTaskList c = asyncTaskFunction <$> chunk
    /\ (exists asyncTask,
          asyncTaskList (leveled [] false) !! j = Some asyncTask
          /\ poolWaiting base (chunkRef j) c
               (Some (PoolCallback (chunkCallback j asyncTask))) w).

(** The run is over. *)
Definition chunkedFinal (w : World) : Prop :=
  exists resDone,
    chunkedFrame (length chunksOf) resDone true
      (set_isFinished true
         (set_asyncTaskResultList (concat resDone) chunkedParent)) w
    /\ Forall2 (fun res chunk => res ≡ₚ expectedResults chunk) resDone chunksOf
    /\ length (heap w) = chunkRef (length chunksOf)
    /\ pending w = [].

(** The options [start] passes to the coordinator of a chunk. *)
Definition chunkOptions (chunk : list AsyncTaskHelperTask) : Options.t :=
  {| Options.name := None;
     Options.debug := Some (isDebug o);
     Options.taskMode := None;
     Options.asyncTaskList :=
       Some ((fun asyncTask =>
                TaskLike (asyncTaskFunction asyncTask)
                         (NamePresent (Some (taskName asyncTask))))
             <$> chunk);
     Options.finalCallback := None |}.

(** The world in which the coordinator of a chunk has just been
    constructed, from the world [base] in which the chunk-sequencing
    coordinator runs the task [asyncTask] of that chunk. *)
Definition chunkSpawned (base : World) (asyncTask : AsyncTaskHelperTask)
    (chunk : list AsyncTaskHelperTask) : World :=
  {| heap := heap base
             ++ [constructed randomUUID (uuidCount base) (chunkOptions chunk)];
     pending := pending base;
     trace := trace base ++ [TaskInvoked leveledRef asyncTask];
     uuidCount :=
       S (uuidCount base)
       + length (Options.asyncTaskList (chunkOptions chunk) ?? []) |}.

(** The number of tasks in the chunks from chunk [j] on. *)
Definition tasksFrom (j : nat) : nat := length (concat (drop j chunksOf)).

(** The number of tasks in the chunks after chunk [j]. *)
Definition tasksAfter (j : nat) : nat := length (concat (drop (S j) chunksOf)).

(** The run is over, or runs a chunk after [j] ([after = true]) or any
    chunk, with at most [bound] completions to go. *)
Definition chunkedState (bound : nat) (w : World) : Prop :=
  chunkedFinal w
  \/ exists j, chunkedRunning j w
               /\ tasksAfter j + length (pending w) <= bound.
End ChunkedVocabulary.

(** *** One-way flags, one-shot handler *)

(** From [w] to [w'] every coordinator is still there, and a flag that
    was set is still set. *)
Definition flagsKept (w w' : World) : Prop :=
  forall i o,
    heap w !! i = Some o ->
    exists o', heap w' !! i = Some o'
               /\ (isStarted o = true -> isStarted o' = true)
               /\ (isFinished o = true -> isFinished o' = true).

(** No coordinator has had its completion handler invoked twice, and one
    whose handler has been invoked is finished. *)
Definition handlerOnce (w : World) : Prop :=
  forall i,
    length (finalCalls i (trace w)) <= 1
    /\ (finalCalls i (trace w) <> [] ->
        exists o, heap w !! i = Some o /\ isFinished o = true).

Definition Safe (w w' : World) : Prop :=
  handlerOnce w -> handlerOnce w' /\ flagsKept w w'.

(** A field update that resets neither flag. *)
Definition keepsFlags (f : AsyncTaskHelper -> AsyncTaskHelper) : Prop :=
  forall o, (isStarted o = true -> isStarted (f o) = true)
            /\ (isFinished o = true -> isFinished (f o) = true).

(** Two worlds agree on the objects below [bound] and on the calls of the
    handler of [this]. *)
Definition agreeBelow (this bound : nat) (w w' : World) : Prop :=
  (forall i, i < bound -> heap w' !! i = heap w !! i)
  /\ finalCalls this (trace w') = finalCalls this (trace w).

(** *** Scenarios *)


(** A UUID generator for the scenarios. *)
Definition sampleUUID (n : nat) : string := "uuid-" +:+ pretty n.

(** A task that passes [i] to its callback at once, later, or never. *)
Definition taskNow (i : Z) : TaskCandidate :=
  BareFunction (UserFunction "now" [RNumber i] []).
Definition taskLater (i : Z) : TaskCandidate :=
  BareFunction (UserFunction "later" [] [RNumber i]).
Definition taskNever : TaskCandidate :=
  BareFunction (UserFunction "never" [] []).

Definition optionsWith (mode : option AsyncTaskHelperTaskMode)
    (tasks : list TaskCandidate) : Options.t :=
  {| Options.name := None; Options.debug := None; Options.taskMode := mode;
     Options.asyncTaskList := Some tasks; Options.finalCallback := None |}.

(** The world in which one coordinator has been constructed with the
    given tasks. *)
Definition worldWith (tasks : list TaskCandidate) : World :=
  (constructor sampleUUID (Some (optionsWith None tasks)) emptyWorld).2.

(** The world after the operations [ops] (the world itself should they
    not run to their end within the budget). *)
Definition after (ops : list Op) (w : World) : World :=
  default w (runOps sampleUUID 100 ops w).

(** A queue run of two tasks, the second one deferred ... *)
Definition twoTaskRun : list Op :=
  [OpNew (Some (optionsWith None [taskNow 0; taskLater 1]));
   OpQueue 0 (Some (UserCallback 1))].

(** ... its natural end, then [quit] with another handler and a second
    invocation of the callback of the second task. *)
Definition quitAndStray : list Op :=
  [OpDeliver 0;
   OpQuit 0 (Some (UserCallback 2));
   OpStray (completion 0 (Some (ProcessNextQueueTask 0))
              {| asyncTaskFunction := UserFunction "later" [] [RNumber 1];
                 taskName := "uuid-2" |}).1
           (RNumber 1)].
(** ** Further vocabulary *)

(** *** Pool runs, in the order of completion *)

(** Whether a task function calls its callback before it returns. *)
Definition callsBackNow (f : AsyncTaskHelperTaskFunction) : bool :=
  match f with
  | UserFunction _ [_] [] => true
  | _ => false
  end.

(** The results of the tasks that call back before they return, and
    the completions the other tasks leave with the host runtime, both
    in registry order. *)
Definition nowResults (asyncTaskList : list AsyncTaskHelperTask)
    : list AsyncTaskHelperResult :=
  expectedResults
    (filter (fun t => callsBackNow (asyncTaskFunction t) = true) asyncTaskList).

Definition laterCompletions (this : nat)
    (asyncTaskList : list AsyncTaskHelperTask)
    : list (Callback * AsyncTaskHelperResult) :=
  completion this None
  <$> filter (fun t => callsBackNow (asyncTaskFunction t) <> true)
        asyncTaskList.

(** What the deliveries [ks] take out of the owed completions [ps], in
    the order in which they take it, and what they leave. *)
Fixpoint deliveries {A} (ks : list nat) (ps : list A) : list A * list A :=
  match ks with
  | [] => ([], ps)
  | k :: ks =>
      match ps !! k with
      | Some p => let '(delivered, rest) := deliveries ks (delete k ps) in
                  (p :: delivered, rest)
      | None => deliveries ks ps
      end
  end.

(** *** Queue runs that meet a task that never calls back *)

(** A task function that never calls its callback. *)
Definition neverCallsBack (f : AsyncTaskHelperTaskFunction) : Prop :=
  match f with
  | UserFunction _ [] [] => True
  | _ => False
  end.

(** The world of a queue run of [this] whose task at index [m] never
    calls back, once the first [i] tasks have completed and task [i]
    has been invoked. *)
Definition stalledWorld (w0 : World) (this : nat) (o : AsyncTaskHelper)
    (handler : option AsyncTaskHelperFinalCallback) (m i : nat) : World :=
  if i <? m then queueWorld w0 this o handler i true
  else set_pending [] (queueWorld w0 this o handler m true).

(** *** Array methods *)

Section ArrayVocabulary.
Context {T : Type}.
Variable strictEquals : T -> T -> bool.

(** [x] is first found in [l] at index [i]. *)
Definition firstAt (l : list T) (x : T) (i : nat) : Prop :=
  (exists e, l !! i = Some e /\ strictEquals x e = true)
  /\ forall j e, j < i -> l !! j = Some e -> strictEquals x e = false.

(** [comparisonFunction(x, y) > 0] *)
Definition greater (comparisonFunction : T -> T -> Z) (x y : T) : Prop :=
  (0 < comparisonFunction x y)%Z.

(** The comparison function orders the values: nothing is greater than
    itself, and what is greater than [y] is greater than all that [y]
    is greater than, and than all that is not greater than [y]. *)
Definition ordering (comparisonFunction : T -> T -> Z) : Prop :=
  (forall x, ~ greater comparisonFunction x x)
  /\ (forall x y z, greater comparisonFunction x y ->
                    greater comparisonFunction y z ->
                    greater comparisonFunction x z)
  /\ (forall x y z, greater comparisonFunction x y ->
                    ~ greater comparisonFunction z y ->
                    greater comparisonFunction x z).

Variable null : T.
Variable isNullLike : T -> bool.

(** What [maxBy] compares: the elements of the array, an absent
    ([null] / [undefined]) first one read as [null]. *)
Definition compared (this : list T) : list T :=
  match this with
  | [] => []
  | first :: rest => (if isNullLike first then null else first) :: rest
  end.

Variable random : nat -> Double.

(** [0 <= x < 1] *)
Definition inUnit (x : Double) : Prop :=
  (0 <= mantissa x)%Z
  /\ (mantissa x = 0
      \/ (exponent x < 0 /\ mantissa x < 2 ^ (- exponent x)))%Z.

(** [Math.random()] returns a double in [0, 1). *)
Definition inUnitInterval : Prop :=
  forall n, isDouble (random n) /\ inUnit (random n).
End ArrayVocabulary.

(** *** Typed records *)

Section TypedRecordsVocabulary.
Context {Value : Type}.
Variable toPropertyKey : Value -> string.
Variable getProperty : Value -> string -> option Value.

(** Whether the value [toTypedRecords] stores for an element can be
    read. *)
Definition readable (valueFieldName : ValueFieldName) (x : Value) : bool :=
  match fieldValue getProperty valueFieldName x with
  | Normal _ => true
  | Throw _ => false
  end.

(** The record that holds the value of [x] under [key], and nothing
    else. *)
Definition recordOf (valueFieldName : ValueFieldName) (key : string)
    (x : Value) : gmap string Value :=
  match fieldValue getProperty valueFieldName x with
  | Normal value => {[key := value]}
  | Throw _ => ∅
  end.

(** The properties the elements stand for, with the values stored for
    them, in the order of the array; ["__proto__"] is no property. *)
Definition entries (valueFieldName : ValueFieldName) (this : list Value)
    : list (string * Value) :=
  omap (fun x =>
          match fieldValue getProperty valueFieldName x with
          | Normal value =>
              if decide (toPropertyKey x = "__proto__") then None
              else Some (toPropertyKey x, value)
          | Throw _ => None
          end) this.
End TypedRecordsVocabulary.

(** *** Strings and passwords *)

(** The characters of a string. *)
Definition charactersOf (s : string) : list Ascii.ascii :=
  String.list_ascii_of_string s.

(** The list [picks] holds one character of each of the given sets in
    turn, starting with set [i mod (number of sets)]. *)
Definition pickedInTurn (sets : list string) (i : nat)
    (picks : list (option string)) : Prop :=
  forall k pick,
    picks !! k = Some pick ->
    exists set c,
      sets !! ((i + k) mod length sets) = Some set
      /\ pick = Some (String c EmptyString)
      /\ c ∈ charactersOf set.

(** [s] does not begin with white space. *)
Definition noLeadingSpace (s : string) : Prop :=
  match s with
  | EmptyString => True
  | String c _ => isWhiteSpace c = false
  end.

(** [s] does not end with white space. *)
Definition noTrailingSpace (s : string) : Prop :=
  noLeadingSpace (String.rev s).

(** *** Task candidates *)

(** A candidate whose name does not depend on its place in the argument
    of [add]: a function, or a record whose [taskName] is missing or a
    string. *)
Definition placeFree (c : TaskCandidate) : Prop :=
  match c with
  | TaskLike _ (NamePresent None) => False
  | _ => True
  end.

(** The options without their task list. *)
Definition withoutTasks (options : Options.t) : Options.t :=
  {| Options.name := Options.name options;
     Options.debug := Options.debug options;
     Options.taskMode := Options.taskMode options;
     Options.asyncTaskList := None;
     Options.finalCallback := Options.finalCallback options |}.

(** *** More scenarios *)

(** A generator that always returns one half. *)
Definition half (n : nat) : Double := {| mantissa := 1; exponent := -1 |}.

(** A generator that always returns 2573485501354569 * 2^-52 (about
    0.571): seven times this number is 4 - 2^-52, which is no double
    and rounds to 4. *)
Definition fourSevenths (n : nat) : Double :=
  {| mantissa := 2573485501354569; exponent := -52 |}.

(** The queue run of two deferred tasks, once it has been started. *)
Definition queueInFlight : World :=
  after [OpQueue 0 (Some (UserCallback 0))]
        (worldWith [taskLater 0; taskLater 1]).

(** Records as values: a value is a string, or a record with one
    field. *)
Inductive SampleValue :=
| Text (s : string)
| Row (field : string) (value : string).

Definition sampleGet (v : SampleValue) (key : string) : option SampleValue :=
  match v with
  | Text _ => Some (Text "")
  | Row field value =>
      if decide (key = field) then Some (Text value) else Some (Text "")
  end.

Definition sampleIsText (v : SampleValue) : bool :=
  match v with Text _ => true | Row _ _ => false end.

Definition sampleKey (v : SampleValue) : string :=
  match v with Text s => s | Row field _ => field end.

(** *** Queue runs that go on after [quit] *)

(** The world of a queue run of [this] (initially [o] in [w0]) on which
    [quit(quitHandler)] was called when [q] tasks had completed and
    task [q] was in flight, once the first [i] tasks have completed;
    [inFlight] tells whether task [i] has been invoked and its
    completion is owed by the host runtime. *)
Definition quitWorld (w0 : World) (this : nat) (o : AsyncTaskHelper)
    (quitHandler : option AsyncTaskHelperFinalCallback) (q i : nat)
    (inFlight : bool) : World :=
  {| heap :=
       <[this :=
           {| taskMode := Queue;
              asyncTaskList := asyncTaskList o;
              asyncTaskResultList := take i (expectedResults (asyncTaskList o));
              finalCallback := quitHandler;
              isStarted := true;
              isFinished := true;
              isDebug := isDebug o;
              instanceID := instanceID o |}]> (heap w0);
     pending :=
       if inFlight
       then match asyncTaskList o !! i with
            | Some asyncTask =>
                [completion this (Some (ProcessNextQueueTask this)) asyncTask]
            | None => []
            end
       else [];
     trace :=
       (trace w0
        ++ fmap (TaskInvoked this) (take (S q) (asyncTaskList o))
        ++ finalEvents this quitHandler
             (take q (expectedResults (asyncTaskList o))))
       ++ fmap (TaskInvoked this)
            (drop (S q)
               (take (i + (if inFlight then 1 else 0)) (asyncTaskList o)));
     uuidCount := uuidCount w0 |}.
(** ** Vocabulary for [isDataEqual] *)

Section DataVocabulary.
Context {Number : Type}.
Variable numberEquals : Number -> Number -> bool.

(** Data made of arrays only: there is no [null] and no object in it,
    at any depth. *)
Fixpoint arrayData (v : AnyType Number) : bool :=
  match v with
  | VNull | VObject _ _ => false
  | VArray _ elements => forallb arrayData elements
  | _ => true
  end.

(** The identities of the arrays in a value. *)
Fixpoint arrayRefs (v : AnyType Number) : list nat :=
  match v with
  | VArray ref elements => ref :: concat (map arrayRefs elements)
  | VObject _ properties =>
      concat (map (fun property => arrayRefs property.2) properties)
  | _ => []
  end.

(** Two values have the same shape and strictly equal leaves: arrays
    are the same when they are as long as each other and their elements
    are the same, one by one; anything else is the same when it is
    strictly equal. *)
Fixpoint sameData (a b : AnyType Number) : bool :=
  match a, b with
  | VArray _ elementsA, VArray _ elementsB =>
      (fix every (la lb : list (AnyType Number)) : bool :=
         match la, lb with
         | [], [] => true
         | x :: la, y :: lb => sameData x y && every la lb
         | _, _ => false
         end) elementsA elementsB
  | _, _ => strictlyEqual numberEquals a b
  end.

End DataVocabulary.

(** The names of the properties of an object. *)
Definition names {Number} (properties : list (string * AnyType Number))
    : list string :=
  properties.*1.

(** *** Scenarios for [isDataEqual] *)

(** The methods which the array extension adds to [Array.prototype],
    in the order in which it assigns them; a method is identified by
    its place in this list.  [Object.prototype] has nothing under these
    names. *)
Definition arrayExtensionKeys : list string :=
  ["shuffle"; "unique"; "getIntersection"; "maxBy"; "split";
   "toTypedRecords"].

Definition arrayExtension (name : string) : option nat :=
  fst <$> list_find (fun key => key = name) arrayExtensionKeys.

Definition noMethod (name : string) : option nat := None.

(** [isDataEqual] on integers, with the array extension loaded. *)
Definition sampleIsDataEqual
    : AnyType Z -> AnyType Z -> option string -> option (Completion bool) :=
  isDataEqual Z.eqb arrayExtensionKeys arrayExtension noMethod.

(** ** Facts about [split] *)

Section ArrayExtensionFacts.
Context {T : Type}.

Lemma slice_in_range (this : list T) (i size : Z) :
  (0 <= i < Z.of_nat (length this))%Z -> (1 <= size)%Z ->
  slice this i (i + size) = take (Z.to_nat size) (drop (Z.to_nat i) this).
Proof.
  intros Hi Hs. unfold slice, relativeIndex.
  destruct (Z.ltb_spec i 0); [lia|].
  destruct (Z.ltb_spec (i + size) 0); [lia|].
  rewrite (Z.min_l i) by lia.
  destruct (Z.le_ge_cases (i + size) (Z.of_nat (length this))) as [Hle|Hge].
  - rewrite Z.min_l by lia. f_equal. lia.
  - rewrite Z.min_r by lia.
    rewrite !take_ge; [reflexivity | rewrite length_drop; lia
                      | rewrite length_drop; lia].
Qed.

Lemma slice_in_range_length (this : list T) (i size : Z) :
  (0 <= i < Z.of_nat (length this))%Z -> (1 <= size)%Z ->
  length (slice this i (i + size))
  = Nat.min (Z.to_nat size) (length this - Z.to_nat i).
Proof.
  intros Hi Hs. rewrite slice_in_range by lia.
  rewrite length_take, length_drop. reflexivity.
Qed.

Lemma split_loop_concat (this : list T) size Hsize i chunkList :
  (0 <= i)%Z ->
  concat (split_loop this size Hsize i chunkList)
  = concat chunkList ++ drop (Z.to_nat i) this.
Proof.
  funelim (split_loop this size Hsize i chunkList); intros Hi.
  - rewrite H by lia. rewrite concat_app. simpl.
    rewrite app_nil_r, <- app_assoc.
    f_equal. rewrite slice_in_range by lia.
    replace (Z.to_nat (i + size)) with (Z.to_nat i + Z.to_nat size) by lia.
    rewrite <- drop_drop. apply take_drop.
  - rewrite drop_ge by lia. rewrite app_nil_r. reflexivity.
Qed.

Lemma split_loop_bounds (this : list T) size Hsize i chunkList :
  (0 <= i)%Z ->
  Forall (fun chunk => 1 <= length chunk <= Z.to_nat size) chunkList ->
  Forall (fun chunk => 1 <= length chunk <= Z.to_nat size)
         (split_loop this size Hsize i chunkList).
Proof.
  funelim (split_loop this size Hsize i chunkList); intros Hi Hacc.
  - apply H; [lia|]. apply Forall_app. split; [assumption|].
    constructor; [|constructor].
    rewrite slice_in_range_length by lia. lia.
  - assumption.
Qed.

Lemma split_loop_full (this : list T) size Hsize i chunkList :
  (0 <= i)%Z ->
  Forall (fun chunk => length chunk = Z.to_nat size) (removelast chunkList) ->
  ((i < Z.of_nat (length this))%Z ->
   Forall (fun chunk => length chunk = Z.to_nat size) chunkList) ->
  Forall (fun chunk => length chunk = Z.to_nat size)
         (removelast (split_loop this size Hsize i chunkList)).
Proof.
  funelim (split_loop this size Hsize i chunkList); intros Hi Hinit Hall.
  - apply H; [lia| |].
    + rewrite removelast_last. apply Hall. lia.
    + intros Hlt. apply Forall_app. split; [apply Hall; lia|].
      constructor; [|constructor].
      rewrite slice_in_range_length by lia. lia.
  - assumption.
Qed.

(** C10: [split] is a total function; its chunks concatenate back to the
    array, every chunk but the last has exactly [max(1, s)] elements,
    every chunk (the last one included) has between 1 and [max(1, s)]
    elements, and a non-empty array gives at least one chunk. *)
Theorem split_chunks (a : list T) (s : option Z) :
  concat (split a s) = a
  /\ Forall (fun chunk => length chunk = Z.to_nat (Z.max 1 (default 0%Z s)))
            (removelast (split a s))
  /\ Forall (fun chunk =>
               1 <= length chunk <= Z.to_nat (Z.max 1 (default 0%Z s)))
            (split a s)
  /\ (a <> [] -> split a s <> []).
Proof.
  assert (Hc : concat (split a s) = a).
  { unfold split. rewrite split_loop_concat by lia. reflexivity. }
  split; [exact Hc|]. split; [|split].
  - unfold split. apply split_loop_full; [lia|constructor|constructor].
  - unfold split. apply split_loop_bounds; [lia|constructor].
  - intros Ha Hnil. rewrite Hnil in Hc. simpl in Hc. congruence.
Qed.
End ArrayExtensionFacts.

(** *** Where [split] puts each element *)

Section SplitLookup.
Context {T : Type}.

Lemma split_loop_prefix (this : list T) size Hsize i chunkList :
  exists tail, split_loop this size Hsize i chunkList = chunkList ++ tail.
Proof.
  funelim (split_loop this size Hsize i chunkList).
  - destruct H as [tail Htail]. rewrite Htail, <- app_assoc. eauto.
  - exists []. rewrite app_nil_r. reflexivity.
Qed.

Lemma split_loop_lookup (this : list T) size Hsize i chunkList :
  (0 <= i)%Z ->
  forall c,
    split_loop this size Hsize i chunkList !! (length chunkList + c)
    = if decide (i + Z.of_nat c * size < Z.of_nat (length this))%Z
      then Some (take (Z.to_nat size)
                      (drop (Z.to_nat (i + Z.of_nat c * size)) this))
      else None.
Proof.
  funelim (split_loop this size Hsize i chunkList); intros Hi c.
  - destruct c as [|c].
    + destruct (split_loop_prefix this size Hsize (i + size)
                  (chunkList ++ [slice this i (i + size)])) as [tail ->].
      rewrite <- !app_assoc, Nat.add_0_r, lookup_app_r by lia.
      rewrite Nat.sub_diag. simpl.
      rewrite decide_True by lia.
      rewrite slice_in_range by lia. do 3 f_equal. lia.
    + specialize (H ltac:(lia) c). rewrite length_app in H. simpl in H.
      replace (length chunkList + S c) with (length chunkList + 1 + c) by lia.
      rewrite H.
      replace (i + size + Z.of_nat c * size)%Z
        with (i + Z.of_nat (S c) * size)%Z by lia.
      reflexivity.
  - rewrite decide_False by nia.
    apply lookup_ge_None. lia.
Qed.

(** X7: [split] makes [ceil(length / size)] chunks; chunk [c] holds
    the elements from index [c * size] on, at most [size] of them; so
    the element at index [k] of the array is the element at index
    [k mod size] of chunk [k / size] (the size clamped to at least 1). *)
Theorem split_places_elements (a : list T) (s : option Z) :
  let size := Z.to_nat (Z.max 1 (default 0%Z s)) in
  length (split a s) = (length a + size - 1) / size
  /\ (forall c, c < length (split a s) ->
        split a s !! c = Some (take size (drop (c * size) a)))
  /\ (forall k x, a !! k = Some x ->
        exists chunk, split a s !! (k / size) = Some chunk
                      /\ chunk !! (k mod size) = Some x).
Proof.
  intros size.
  assert (Hsize : 1 <= size) by (subst size; lia).
  assert (Hlookup : forall c,
            split a s !! c
            = if decide (c * size < length a)
              then Some (take size (drop (c * size) a)) else None).
  { intros c. unfold split.
    pose proof (split_loop_lookup a (Z.max 1 (default 0%Z s))
                  (Z.le_max_l _ _) 0 [] ltac:(lia) c) as H.
    simpl in H. rewrite H.
    destruct (decide (0 + Z.of_nat c * Z.max 1 (default 0%Z s)
                      < Z.of_nat (length a))%Z) as [Hlt|Hge].
    - rewrite decide_True by (subst size; nia).
      do 3 f_equal. subst size. nia.
    - rewrite decide_False by (subst size; nia). reflexivity. }
  assert (Hlen : length (split a s) = (length a + size - 1) / size).
  { set (q := (length a + size - 1) / size).
    assert (Hq1 : length a <= q * size).
    { pose proof (Nat.div_mod_eq (length a + size - 1) size) as Hd.
      pose proof (Nat.mod_upper_bound (length a + size - 1) size ltac:(lia)).
      fold q in Hd. nia. }
    assert (Hq2 : 0 < q -> (q - 1) * size < length a).
    { intros Hpos.
      pose proof (Nat.div_mod_eq (length a + size - 1) size) as Hd.
      fold q in Hd. nia. }
    apply Nat.le_antisymm.
    - apply lookup_ge_None. rewrite Hlookup, decide_False by lia. reflexivity.
    - destruct (decide (q = 0)) as [->|Hq]; [lia|].
      assert (is_Some (split a s !! (q - 1))) as Hsome.
      { rewrite Hlookup, decide_True by (apply Hq2; lia). eauto. }
      apply lookup_lt_is_Some in Hsome. lia. }
  split; [exact Hlen|]. split.
  - intros c Hc. rewrite Hlookup.
    apply lookup_lt_is_Some in Hc as [chunk Hchunk].
    rewrite Hlookup in Hchunk.
    destruct (decide (c * size < length a)); [reflexivity|discriminate].
  - intros k x Hk. apply lookup_lt_Some in Hk as Hlt.
    pose proof (Nat.div_mod_eq k size) as Hd.
    pose proof (Nat.mod_upper_bound k size ltac:(lia)) as Hm.
    rewrite Hlookup, decide_True by nia.
    eexists. split; [reflexivity|].
    rewrite lookup_take_lt by lia. rewrite lookup_drop.
    replace (k / size * size + k mod size) with k by lia. exact Hk.
Qed.
End SplitLookup.
(** ** Facts about [unique], [getIntersection], [maxBy] and [shuffle] *)

Section ArrayMethodsFacts.
Context {T : Type}.
Variable strictEquals : T -> T -> bool.

Lemma indexOf_from_first k l : forall x i,
  firstAt strictEquals l x i ->
  indexOf_from strictEquals k l x = (k + Z.of_nat i)%Z.
Proof.
  revert k. induction l as [|e l IH]; intros k x i [(e' & He' & Hx) Hbefore].
  - discriminate.
  - simpl. destruct i as [|i].
    + simpl in He'. injection He' as ->. rewrite Hx. lia.
    + rewrite (Hbefore 0 e) by (lia || reflexivity).
      rewrite (IH (k + 1)%Z x i); [lia|].
      split; [exists e'; auto|].
      intros j e0 Hj He0. apply (Hbefore (S j) e0); [lia|exact He0].
Qed.

Lemma indexOf_from_found k l : forall x,
  indexOf_from strictEquals k l x = (-1)%Z
  /\ Forall (fun e => strictEquals x e = false) l
  \/ exists i, indexOf_from strictEquals k l x = (k + Z.of_nat i)%Z
               /\ firstAt strictEquals l x i.
Proof.
  revert k. induction l as [|e l IH]; intros k x.
  - left. split; [reflexivity|constructor].
  - simpl. destruct (strictEquals x e) eqn:Hx.
    + right. exists 0. split; [lia|]. split; [exists e; auto|]. intros; lia.
    + destruct (IH (k + 1)%Z x)
        as [[Hnone Hall]|(i & Hi & (e' & He' & Hx') & Hb)].
      * left. split; [exact Hnone|]. constructor; assumption.
      * right. exists (S i). split; [lia|].
        split; [exists e'; auto|].
        intros [|j] e0 Hj He0; [injection He0 as <-; exact Hx|].
        apply (Hb j e0); [lia|exact He0].
Qed.

Lemma indexOf_none l x :
  indexOf strictEquals l x = (-1)%Z
  <-> Forall (fun e => strictEquals x e = false) l.
Proof.
  unfold indexOf.
  destruct (indexOf_from_found 0 l x)
    as [[Hn Hall]|(i & Hi & (e & He & Hx) & _)].
  - tauto.
  - split; [unfold indexOf in *; lia|].
    intros Hall. pose proof (proj1 (Forall_lookup _ _) Hall i e He). congruence.
Qed.

Lemma indexOf_at l x i :
  indexOf strictEquals l x = Z.of_nat i <-> firstAt strictEquals l x i.
Proof.
  unfold indexOf. split.
  - destruct (indexOf_from_found 0 l x) as [[Hn _]|(i' & Hi & Hfirst)].
    + unfold indexOf. lia.
    + intros H. assert (i' = i) as -> by (unfold indexOf in *; lia).
      exact Hfirst.
  - intros H. rewrite (indexOf_from_first 0 l x i H). lia.
Qed.

(** *** [filter] *)

Lemma filter_from_sublist (callback : T -> Z -> list T -> bool)
    (array rest : list T) : forall k,
  sublist (filter_from callback array k rest) rest.
Proof.
  induction rest as [|e rest IH]; intros k; simpl; [constructor|].
  destruct (callback e k array); [apply sublist_skip|apply sublist_cons];
    apply IH.
Qed.

Lemma filter_from_all (callback : T -> Z -> list T -> bool)
    (array rest : list T) : forall k,
  (forall i e, rest !! i = Some e ->
               callback e (k + Z.of_nat i)%Z array = true) ->
  filter_from callback array k rest = rest.
Proof.
  induction rest as [|e rest IH]; intros k Hall; simpl; [reflexivity|].
  pose proof (Hall 0 e eq_refl) as He. simpl in He.
  rewrite Z.add_0_r in He. rewrite He. f_equal. apply IH.
  intros i e' He'. replace (k + 1 + Z.of_nat i)%Z with (k + Z.of_nat (S i))%Z
    by lia.
  apply Hall. exact He'.
Qed.

(** The elements [filter] keeps, with the index they come from. *)
Lemma filter_from_lookup (callback : T -> Z -> list T -> bool)
    (array rest : list T) : forall k a x,
  filter_from callback array k rest !! a = Some x ->
  exists i, a <= i /\ rest !! i = Some x
            /\ callback x (k + Z.of_nat i)%Z array = true
            /\ forall b y, a < b ->
                 filter_from callback array k rest !! b = Some y ->
                 exists j, i < j /\ rest !! j = Some y
                           /\ callback y (k + Z.of_nat j)%Z array = true.
Proof.
  induction rest as [|e rest IH]; intros k a x Ha; [discriminate|].
  simpl in Ha. destruct (callback e k array) eqn:He.
  - destruct a as [|a].
    + injection Ha as <-. exists 0. split; [lia|]. split; [reflexivity|].
      split; [rewrite Z.add_0_r; exact He|].
      intros [|b] y Hb Hy; [lia|]. simpl in Hy. rewrite He in Hy. simpl in Hy.
      destruct (IH _ _ _ Hy) as (j & _ & Hj & Hc & _).
      exists (S j). split; [lia|]. split; [exact Hj|].
      replace (k + Z.of_nat (S j))%Z with (k + 1 + Z.of_nat j)%Z by lia.
      exact Hc.
    + destruct (IH _ _ _ Ha) as (i & Hai & Hi & Hc & Hlater).
      exists (S i). split; [lia|]. split; [exact Hi|].
      split.
      { replace (k + Z.of_nat (S i))%Z with (k + 1 + Z.of_nat i)%Z by lia.
        exact Hc. }
      intros [|b] y Hb Hy; [lia|]. simpl in Hy. rewrite He in Hy. simpl in Hy.
      destruct (Hlater b y ltac:(lia) Hy) as (j & Hj & Hjy & Hcy).
      exists (S j). split; [lia|]. split; [exact Hjy|].
      replace (k + Z.of_nat (S j))%Z with (k + 1 + Z.of_nat j)%Z by lia.
      exact Hcy.
  - destruct (IH _ _ _ Ha) as (i & Hai & Hi & Hc & Hlater).
    exists (S i). split; [lia|]. split; [exact Hi|].
    split.
    { replace (k + Z.of_nat (S i))%Z with (k + 1 + Z.of_nat i)%Z by lia.
      exact Hc. }
    intros b y Hb Hy. simpl in Hy. rewrite He in Hy.
    destruct (Hlater b y Hb Hy) as (j & Hj & Hjy & Hcy).
    exists (S j). split; [lia|]. split; [exact Hjy|].
    replace (k + Z.of_nat (S j))%Z with (k + 1 + Z.of_nat j)%Z by lia.
    exact Hcy.
Qed.

Lemma filter_from_elem (callback : T -> Z -> list T -> bool)
    (array rest : list T) : forall k i x,
  rest !! i = Some x -> callback x (k + Z.of_nat i)%Z array = true ->
  x ∈ filter_from callback array k rest.
Proof.
  induction rest as [|e rest IH]; intros k i x Hi Hc; [discriminate|].
  simpl. destruct i as [|i].
  - injection Hi as ->. rewrite Z.add_0_r in Hc. rewrite Hc. left.
  - assert (x ∈ filter_from callback array (k + 1) rest).
    { apply (IH _ i); [exact Hi|].
      replace (k + 1 + Z.of_nat i)%Z with (k + Z.of_nat (S i))%Z by lia.
      exact Hc. }
    destruct (callback e k array); [right|]; assumption.
Qed.

Lemma filter_from_plain (p : T -> bool) (array rest : list T) : forall k,
  filter_from (fun element _ _ => p element) array k rest
  = List.filter p rest.
Proof.
  induction rest as [|e rest IH]; intros k; simpl; [reflexivity|].
  rewrite IH. reflexivity.
Qed.

(** *** [unique] *)

(** The elements [unique] keeps are the ones that are first found at
    their own index. *)
Lemma unique_lookup this a x :
  unique strictEquals this !! a = Some x ->
  exists i, a <= i /\ this !! i = Some x /\ firstAt strictEquals this x i
            /\ forall b y, a < b ->
                 unique strictEquals this !! b = Some y ->
                 exists j, i < j /\ this !! j = Some y
                           /\ firstAt strictEquals this y j.
Proof.
  intros Ha. destruct (filter_from_lookup _ _ _ _ _ _ Ha)
    as (i & Hai & Hi & Hc & Hlater).
  exists i. split; [exact Hai|]. split; [exact Hi|]. split.
  - apply indexOf_at. simpl in Hc. lia.
  - intros b y Hb Hy. destruct (Hlater b y Hb Hy) as (j & Hj & Hjy & Hcy).
    exists j. split; [exact Hj|]. split; [exact Hjy|].
    apply indexOf_at. simpl in Hcy. lia.
Qed.

Lemma unique_self_equal this x :
  x ∈ unique strictEquals this -> strictEquals x x = true.
Proof.
  intros Hin. apply list_elem_of_lookup_1 in Hin as [a Ha].
  destruct (unique_lookup _ _ _ Ha) as (i & _ & Hi & [(e & He & Hx) _] & _).
  congruence.
Qed.

Lemma unique_distinct this a b x y :
  a < b ->
  unique strictEquals this !! a = Some x ->
  unique strictEquals this !! b = Some y ->
  strictEquals y x = false.
Proof.
  intros Hab Ha Hb.
  destruct (unique_lookup _ _ _ Ha) as (i & _ & Hi & _ & Hlater).
  destruct (Hlater b y Hab Hb) as (j & Hij & Hj & [_ Hbefore]).
  exact (Hbefore i x Hij Hi).
Qed.

Lemma unique_fixpoint l :
  (forall x, x ∈ l -> strictEquals x x = true) ->
  (forall a b x y, a < b -> l !! a = Some x -> l !! b = Some y ->
                   strictEquals y x = false) ->
  unique strictEquals l = l.
Proof.
  intros Hself Hdist. apply filter_from_all. intros i e He.
  apply Z.eqb_eq. symmetry. rewrite Z.add_0_l. apply indexOf_at.
  split.
  - exists e. split; [exact He|]. apply Hself.
    eapply list_elem_of_lookup_2; eauto.
  - intros j e' Hj He'. eapply Hdist; eauto.
Qed.

(** X1: [unique] keeps elements of the array in their order; every
    element it keeps is strictly equal to itself (so [NaN] is dropped);
    no element it keeps is strictly equal to one kept before it; and
    applying it a second time changes nothing. *)
Theorem unique_keeps_first_occurrences (this : list T) :
  sublist (unique strictEquals this) this
  /\ (forall x, x ∈ unique strictEquals this -> strictEquals x x = true)
  /\ (forall a b x y, a < b ->
        unique strictEquals this !! a = Some x ->
        unique strictEquals this !! b = Some y ->
        strictEquals y x = false)
  /\ unique strictEquals (unique strictEquals this) = unique strictEquals this.
Proof.
  split; [apply filter_from_sublist|].
  split; [apply unique_self_equal|].
  split; [apply unique_distinct|].
  apply unique_fixpoint; [apply unique_self_equal|apply unique_distinct].
Qed.

(** When strict equality is symmetric and transitive, the first element
    that [x] is equal to is kept. *)
Lemma unique_represents this x :
  (forall a b, strictEquals a b = strictEquals b a) ->
  (forall a b c, strictEquals a b = true -> strictEquals b c = true ->
                 strictEquals a c = true) ->
  x ∈ this -> strictEquals x x = true ->
  exists y, y ∈ unique strictEquals this /\ strictEquals x y = true.
Proof.
  intros Hsym Htrans Hin Hx.
  destruct (indexOf_from_found 0 this x)
    as [[_ Hall]|(i & _ & (e & He & Hxe) & Hbefore)].
  - pose proof (proj1 (Forall_forall _ _) Hall x Hin). congruence.
  - exists e. split; [|exact Hxe].
    apply (filter_from_elem _ _ _ 0 i); [exact He|].
    apply Z.eqb_eq. symmetry. rewrite Z.add_0_l. apply indexOf_at.
    split.
    + exists e. split; [exact He|].
      apply (Htrans e x e); [rewrite Hsym|]; assumption.
    + intros j e' Hj He'.
      destruct (strictEquals e e') eqn:Hee; [|reflexivity].
      rewrite <- (Hbefore j e' Hj He'). symmetry.
      apply (Htrans x e e'); assumption.
Qed.

(** X2: on values for which strict equality is equality, [unique]
    returns the elements of the array without repetition, and in the
    order of their first occurrence: an element kept before another one
    first occurs before it. *)
Theorem unique_no_duplicates (this : list T) :
  (forall x y, strictEquals x y = true <-> x = y) ->
  NoDup (unique strictEquals this)
  /\ (forall x, x ∈ unique strictEquals this <-> x ∈ this)
  /\ (forall a b x y, a < b ->
        unique strictEquals this !! a = Some x ->
        unique strictEquals this !! b = Some y ->
        exists i j, i < j /\ firstAt strictEquals this x i
                    /\ firstAt strictEquals this y j).
Proof.
  intros Heq.
  assert (Hrefl : forall x, strictEquals x x = true)
    by (intros; apply Heq; reflexivity).
  split; [|split].
  - apply NoDup_alt. intros a b x Ha Hb.
    destruct (Nat.lt_trichotomy a b) as [Hlt|[->|Hlt]]; [|reflexivity|].
    + pose proof (unique_distinct _ _ _ _ _ Hlt Ha Hb). congruence.
    + pose proof (unique_distinct _ _ _ _ _ Hlt Hb Ha). congruence.
  - intros x. split.
    + intros Hin.
      eapply elem_of_sublist; [exact Hin|apply filter_from_sublist].
    + intros Hin.
      destruct (unique_represents this x) as (y & Hy & Hxy); auto.
      * intros a b. destruct (strictEquals a b) eqn:Hab.
        -- apply Heq in Hab as ->. symmetry. apply Hrefl.
        -- destruct (strictEquals b a) eqn:Hba; [|reflexivity].
           apply Heq in Hba as ->. congruence.
      * intros a b c Hab Hbc. apply Heq in Hab as ->. exact Hbc.
      * apply Heq in Hxy as ->. exact Hy.
  - intros a b x y Hab Ha Hb.
    destruct (unique_lookup _ _ _ Ha) as (i & _ & Hi & Hfx & Hlater).
    destruct (Hlater b y Hab Hb) as (j & Hij & Hj & Hfy).
    exists i, j. auto.
Qed.

(** *** [getIntersection] *)

Lemma indexOf_found_existsb l x :
  negb (indexOf strictEquals l x =? -1)%Z = existsb (strictEquals x) l.
Proof.
  destruct (existsb (strictEquals x) l) eqn:Hex.
  - apply negb_true_iff, Z.eqb_neq. intros Hnone.
    apply indexOf_none in Hnone.
    apply existsb_exists in Hex as (e & Hin & He).
    apply list_elem_of_In in Hin.
    pose proof (proj1 (Forall_forall _ _) Hnone e Hin). congruence.
  - apply negb_false_iff, Z.eqb_eq, indexOf_none.
    apply Forall_forall. intros e Hin.
    destruct (strictEquals x e) eqn:He; [|reflexivity].
    assert (existsb (strictEquals x) l = true); [|congruence].
    apply existsb_exists. exists e. split; [|exact He].
    apply list_elem_of_In. exact Hin.
Qed.

(** X3: [getIntersection] filters [this]: it keeps, in their order and
    as often as they occur, the elements that are strictly equal to some
    element of the reference array.  So an element is in the result
    exactly when it is in [this] and has an equal in the reference
    array, and intersecting a second time changes nothing. *)
Theorem getIntersection_filters (this referenceArray : list T) :
  getIntersection strictEquals this referenceArray
  = List.filter (fun x => existsb (strictEquals x) referenceArray) this
  /\ (forall x, x ∈ getIntersection strictEquals this referenceArray
                <-> x ∈ this
                    /\ exists y, y ∈ referenceArray
                                 /\ strictEquals x y = true)
  /\ getIntersection strictEquals
       (getIntersection strictEquals this referenceArray) referenceArray
     = getIntersection strictEquals this referenceArray.
Proof.
  assert (Heq : forall l,
            getIntersection strictEquals l referenceArray
            = List.filter
                (fun x => existsb (strictEquals x) referenceArray) l).
  { intros l. unfold getIntersection, arrayFilter.
    rewrite filter_from_plain. apply filter_ext. intros x.
    apply indexOf_found_existsb. }
  split; [apply Heq|]. split.
  - intros x. rewrite Heq, list_elem_of_In, filter_In, existsb_exists.
    rewrite <- list_elem_of_In.
    split; intros [Hin (y & Hy & Hxy)]; (split; [exact Hin|]); exists y;
      (split; [|exact Hxy]); apply list_elem_of_In; exact Hy.
  - rewrite !Heq. induction this as [|x l IH]; [reflexivity|].
    simpl.
    destruct (existsb (strictEquals x) referenceArray) eqn:Hx; simpl;
      [rewrite Hx, IH|rewrite IH]; reflexivity.
Qed.
End ArrayMethodsFacts.

(** *** [maxBy] *)

Section MaxByFacts.
Context {T : Type}.
Variable null : T.
Variable isNullLike : T -> bool.

Lemma maxBy_compared (this : list T) comparisonFunction :
  maxBy null isNullLike this comparisonFunction
  = match compared null isNullLike this with
    | [] => null
    | first :: rest => maxBy_loop comparisonFunction rest first
    end.
Proof. destruct this as [|first rest]; reflexivity. Qed.

Lemma maxBy_loop_member comparisonFunction (rest : list T) :
  forall maxObject,
  maxBy_loop comparisonFunction rest maxObject ∈ maxObject :: rest.
Proof.
  induction rest as [|x rest IH]; intros m; simpl; [left|].
  destruct (0 <? comparisonFunction x m)%Z.
  - right. apply IH.
  - specialize (IH m). apply elem_of_cons in IH as [->|IH]; [left|].
    right. right. exact IH.
Qed.

(** X4: [maxBy] of an empty array is [null]; in general it returns
    [null] or an element of the array, and it returns [null] for an
    array whose only element is absent ([null] or [undefined]). *)
Theorem maxBy_null_or_member (this : list T) comparisonFunction :
  (this = [] -> maxBy null isNullLike this comparisonFunction = null)
  /\ (maxBy null isNullLike this comparisonFunction = null
      \/ maxBy null isNullLike this comparisonFunction ∈ this)
  /\ (forall x, this = [x] ->
        maxBy null isNullLike this comparisonFunction
        = if isNullLike x then null else x).
Proof.
  split; [intros ->; reflexivity|]. split.
  - destruct this as [|first rest]; [left; reflexivity|].
    unfold maxBy. simpl. rewrite drop_0.
    match goal with
    | |- context [maxBy_loop _ _ ?m] =>
        pose proof (maxBy_loop_member comparisonFunction rest m) as H
    end.
    apply elem_of_cons in H as [H|H].
    + rewrite H. destruct (isNullLike first); [left; reflexivity|right; left].
    + right. right. exact H.
  - intros x ->. reflexivity.
Qed.

Lemma maxBy_loop_spec (comparisonFunction : T -> T -> Z) :
  ordering comparisonFunction ->
  forall rest before m after,
    Forall (fun x => greater comparisonFunction m x) before ->
    Forall (fun x => ~ greater comparisonFunction x m) after ->
    exists before' after',
      before ++ m :: after ++ rest
      = before' ++ maxBy_loop comparisonFunction rest m :: after'
      /\ Forall (fun x => greater comparisonFunction
                            (maxBy_loop comparisonFunction rest m) x) before'
      /\ Forall (fun x => ~ greater comparisonFunction x
                              (maxBy_loop comparisonFunction rest m)) after'.
Proof.
  intros (Hirr & Htrans & Hneg).
  induction rest as [|x rest IH]; intros before m after Hb Ha.
  - exists before, after. rewrite app_nil_r. auto.
  - simpl. destruct (Z.ltb_spec 0 (comparisonFunction x m)) as [Hgt|Hle].
    + destruct (IH (before ++ m :: after) x []) as (b' & a' & Heq & Hb' & Ha').
      * apply Forall_app. split; [|constructor].
        -- eapply Forall_impl; [exact Hb|]. intros y Hy.
           apply (Htrans x m y); assumption.
        -- exact Hgt.
        -- eapply Forall_impl; [exact Ha|]. intros y Hy.
           apply (Hneg x m y); assumption.
      * constructor.
      * exists b', a'. split; [|auto].
        rewrite <- Heq, <- app_assoc. reflexivity.
    + destruct (IH before m (after ++ [x])) as (b' & a' & Heq & Hb' & Ha').
      * exact Hb.
      * apply Forall_app. split; [exact Ha|]. constructor; [|constructor].
        unfold greater. lia.
      * exists b', a'. split; [|auto].
        rewrite <- Heq, <- app_assoc. reflexivity.
Qed.

(** X5: for a comparison function that orders the values, [maxBy] of
    a non-empty array returns a greatest element, and the first one of
    them: no element is greater than it, and it is greater than every
    element before it. *)
Theorem maxBy_first_greatest (this : list T) comparisonFunction :
  this <> [] ->
  ordering comparisonFunction ->
  exists before after,
    compared null isNullLike this
    = before ++ maxBy null isNullLike this comparisonFunction :: after
    /\ Forall (fun x => greater comparisonFunction
                          (maxBy null isNullLike this comparisonFunction) x)
              before
    /\ Forall (fun x => ~ greater comparisonFunction x
                            (maxBy null isNullLike this comparisonFunction))
              (compared null isNullLike this).
Proof.
  intros Hne Hord. rewrite maxBy_compared.
  destruct this as [|first rest]; [done|]. simpl.
  set (m := if isNullLike first then null else first).
  destruct (maxBy_loop_spec comparisonFunction Hord rest [] m [])
    as (before & after & Heq & Hb & Ha); [constructor|constructor|].
  simpl in Heq. exists before, after. split; [exact Heq|].
  split; [exact Hb|]. rewrite Heq.
  destruct Hord as (Hirr & Htrans & _).
  apply Forall_app. split; [|constructor; [apply Hirr|exact Ha]].
  eapply Forall_impl; [exact Hb|]. intros y Hy Hy'.
  apply (Hirr y). eapply Htrans; eauto.
Qed.
End MaxByFacts.

(** *** [shuffle] *)

Lemma roundHalfEven_bounds product shift :
  (0 < shift)%Z ->
  (Z.shiftr product shift <= roundHalfEven product shift
   <= Z.shiftr product shift + 1)%Z
  /\ (product - Z.shiftl (Z.shiftr product shift) shift < 2 ^ (shift - 1) ->
      roundHalfEven product shift = Z.shiftr product shift)%Z.
Proof.
  intros Hs. unfold roundHalfEven.
  destruct (Z.leb_spec shift 0); [lia|]. cbv zeta.
  destruct (Z.ltb_spec (product - Z.shiftl (Z.shiftr product shift) shift)
                       (2 ^ (shift - 1))); [lia|].
  split; [|lia].
  destruct (Z.ltb_spec (2 ^ (shift - 1))
              (product - Z.shiftl (Z.shiftr product shift) shift)); [lia|].
  destruct (Z.even _); lia.
Qed.

(** What [multiply] rounds to is nearest to the product: it is off by
    at most half a unit of the last bit kept; a product of at most 53
    bits is not rounded at all. *)
Lemma roundHalfEven_nearest product shift :
  (0 < shift)%Z ->
  (Z.abs (roundHalfEven product shift * 2 ^ shift - product)
   <= 2 ^ (shift - 1))%Z.
Proof.
  intros Hs. unfold roundHalfEven.
  destruct (Z.leb_spec shift 0); [lia|]. cbv zeta.
  rewrite Z.shiftr_div_pow2, Z.shiftl_mul_pow2 by lia.
  assert (Hpow : (0 < 2 ^ shift)%Z) by (apply Z.pow_pos_nonneg; lia).
  assert (Hhalf : (2 ^ shift = 2 * 2 ^ (shift - 1))%Z).
  { replace shift with (Z.succ (shift - 1)) at 1 by lia.
    rewrite Z.pow_succ_r by lia. reflexivity. }
  pose proof (Z.div_mod product (2 ^ shift) ltac:(lia)) as Hdiv.
  pose proof (Z.mod_pos_bound product (2 ^ shift) ltac:(lia)) as Hmod.
  set (q := (product / 2 ^ shift)%Z) in *.
  destruct (Z.ltb_spec (product - q * 2 ^ shift) (2 ^ (shift - 1)));
    [lia|].
  destruct (Z.ltb_spec (2 ^ (shift - 1)) (product - q * 2 ^ shift));
    [lia|].
  destruct (Z.even q); lia.
Qed.

Lemma multiply_exact (x : Double) (n : Z) :
  (Z.abs (mantissa x * n) < 2 ^ 53)%Z ->
  multiply x n = {| mantissa := mantissa x * n; exponent := exponent x |}.
Proof.
  intros Hfit. unfold multiply.
  assert (Hshift : Z.max 0 (Z.log2 (Z.abs (mantissa x * n)) + 1 - 53) = 0%Z).
  { apply Z.max_l.
    destruct (Z.eq_dec (Z.abs (mantissa x * n)) 0) as [->|Hnz]; [simpl; lia|].
    assert (Z.log2 (Z.abs (mantissa x * n)) < 53)%Z; [|lia].
    apply Z.log2_lt_pow2; lia. }
  rewrite Hshift, Z.add_0_r. reflexivity.
Qed.

(** The index [Math.floor(Math.random() * n)] is below [n]: the product
    of a double below 1 and an integer up to 2^53 may round up, but not
    as far as to that integer.  With [m * 2^-a] for the double and [s]
    for the number of bits that are rounded off, the product [m * n]
    is at most [n * 2^a - n], and [n] is more than half of [2^s]. *)
Lemma floor_multiply (x : Double) (n : Z) :
  isDouble x -> inUnit x -> (1 <= n <= 2 ^ 53)%Z ->
  (0 <= floor (multiply x n) < n)%Z.
Proof.
  intros [Hm He] [H0 Hunit] Hn.
  unfold floor, multiply. cbn [mantissa exponent].
  destruct x as [m e]. cbn [mantissa exponent] in *.
  rewrite Z.abs_eq in Hm by lia.
  set (P := (m * n)%Z).
  assert (HP0 : (0 <= P)%Z) by (subst P; nia).
  rewrite (Z.abs_eq P) by lia.
  destruct (Z.eq_dec P 0) as [HPz|HPnz].
  { rewrite HPz. simpl. rewrite Z.shiftl_0_l. lia. }
  assert (Hmpos : (0 < m)%Z) by (subst P; nia).
  destruct Hunit as [?|[Hneg Hlt]]; [lia|].
  set (a := (- e)%Z) in *.
  assert (Ha : (0 < a)%Z) by lia.
  assert (HPlt : (P <= n * 2 ^ a - n)%Z) by (subst P; nia).
  set (s := Z.max 0 (Z.log2 P + 1 - 53)).
  assert (Hpow : (0 < 2 ^ a)%Z) by (apply Z.pow_pos_nonneg; lia).
  assert (Hlog : (2 ^ Z.log2 P <= P < 2 ^ (Z.log2 P + 1))%Z).
  { replace (Z.log2 P + 1)%Z with (Z.succ (Z.log2 P)) by lia.
    apply Z.log2_spec. lia. }
  assert (Hlog0 : (0 <= Z.log2 P)%Z) by apply Z.log2_nonneg.
  assert (Hsa : (s <= a)%Z).
  { subst s. apply Z.max_lub; [lia|].
    assert (Z.log2 P < 53 + a)%Z; [|lia].
    apply Z.log2_lt_pow2; [lia|].
    rewrite Z.pow_add_r by lia.
    assert (n * 2 ^ a <= 2 ^ 53 * 2 ^ a)%Z
      by (apply Z.mul_le_mono_nonneg_r; lia).
    lia. }
  assert (He' : (e + s = - (a - s))%Z) by lia.
  rewrite He'.
  destruct (Z.eq_dec s 0) as [Hs0|Hs0].
  - rewrite Hs0. change (roundHalfEven P 0) with P.
    replace (- (a - 0))%Z with (- a)%Z by lia.
    rewrite Z.shiftl_opp_r, Z.shiftr_div_pow2 by lia.
    split; [apply Z.div_pos; lia|].
    apply Z.div_lt_upper_bound; lia.
  - assert (Hs : (0 < s)%Z) by lia.
    assert (Hseq : (s = Z.log2 P + 1 - 53)%Z) by lia.
    assert (HPlow : (2 ^ (52 + s) <= P)%Z).
    { replace (52 + s)%Z with (Z.log2 P) by lia. lia. }
    assert (Hpow_s : (0 < 2 ^ s)%Z) by (apply Z.pow_pos_nonneg; lia).
    assert (Hhalf : (2 ^ s = 2 * 2 ^ (s - 1))%Z).
    { replace s with (Z.succ (s - 1)) at 1 by lia.
      rewrite Z.pow_succ_r by lia. reflexivity. }
    assert (Hn2 : (2 ^ (s - 1) < n)%Z).
    { assert (H52 : (2 ^ (52 + s) = 2 ^ 53 * 2 ^ (s - 1))%Z).
      { replace (52 + s)%Z with (53 + (s - 1))%Z by lia.
        rewrite Z.pow_add_r by lia. reflexivity. }
      assert (0 < 2 ^ (s - 1))%Z by (apply Z.pow_pos_nonneg; lia).
      subst P. nia. }
    set (N := (n * 2 ^ (a - s))%Z).
    assert (HN : (n * 2 ^ a = N * 2 ^ s)%Z).
    { subst N. replace a with ((a - s) + s)%Z at 1 by lia.
      rewrite Z.pow_add_r by lia. ring. }
    pose proof (roundHalfEven_bounds P s Hs) as [[Hlo Hhi] Hdown].
    rewrite Z.shiftr_div_pow2, Z.shiftl_mul_pow2 in * by lia.
    pose proof (Z.div_mod P (2 ^ s) ltac:(lia)) as Hdiv.
    pose proof (Z.mod_pos_bound P (2 ^ s) ltac:(lia)) as Hmod.
    set (q := (P / 2 ^ s)%Z) in *.
    assert (Hq0 : (0 <= q)%Z) by (apply Z.div_pos; lia).
    assert (HM : (roundHalfEven P s <= N - 1)%Z).
    { destruct (Z_lt_le_dec q (N - 1)) as [Hq|Hq]; [lia|].
      rewrite Hdown; [nia|]. nia. }
    assert (HM0 : (0 <= roundHalfEven P s)%Z) by lia.
    rewrite Z.shiftl_opp_r, Z.shiftr_div_pow2 by lia.
    assert (Hpow_as : (0 < 2 ^ (a - s))%Z) by (apply Z.pow_pos_nonneg; lia).
    split; [apply Z.div_pos; lia|].
    apply Z.div_lt_upper_bound; [lia|]. subst N. nia.
Qed.

Section ShuffleFacts.
Context {T : Type}.
Variable random : nat -> Double.

Lemma shuffle_loop_spec :
  inUnitInterval random ->
  forall n (this : list T) calls,
    n <= length this ->
    (Z.of_nat (length this) <= 2 ^ 53)%Z ->
    exists this',
      shuffle_loop random n this calls = Some (this', calls + n)
      /\ this' ≡ₚ this.
Proof.
  intros Hunit. induction n as [|i IH]; intros this calls Hn Hlen.
  - exists this. simpl. rewrite Nat.add_0_r. auto.
  - cbn [shuffle_loop]. destruct (Hunit calls) as [Hd Hu].
    pose proof (floor_multiply (random calls) (Z.of_nat i + 1) Hd Hu
                  ltac:(lia)) as Hj.
    set (j := floor _) in *. cbv zeta.
    destruct (Z.ltb_spec j 0); [lia|].
    destruct (lookup_lt_is_Some_2 this i ltac:(lia)) as [atI HatI].
    destruct (lookup_lt_is_Some_2 this (Z.to_nat j) ltac:(lia)) as [atJ HatJ].
    unfold swap. rewrite HatJ, HatI. cbn [mbind option_bind].
    destruct (IH (<[Z.to_nat j := atI]> (<[i := atJ]> this)) (S calls))
      as (this' & Hrun & Hperm).
    { rewrite !length_insert. lia. }
    { rewrite !length_insert. exact Hlen. }
    exists this'. split.
    + rewrite Hrun. do 2 f_equal. lia.
    + rewrite Hperm. apply Permutation_insert_swap; assumption.
Qed.

(** X6: [shuffle] rearranges the array.  [Math.random()] returns a
    double in [0, 1); the index [Math.floor(Math.random() * (i + 1))]
    is computed in doubles, where the product is rounded, and is still
    an index up to [i].  So the result holds the same elements, each as
    often as before, and one random number is drawn per element.  (The
    array has fewer than 2^32 elements, as every array has.) *)
Theorem shuffle_permutes (this : list T) (calls : nat) :
  inUnitInterval random ->
  (Z.of_nat (length this) < 2 ^ 32)%Z ->
  exists this',
    shuffle random this calls = Some (this', calls + length this)
    /\ this' ≡ₚ this.
Proof.
  intros Hunit Hlen. apply shuffle_loop_spec; [exact Hunit|lia|lia].
Qed.
End ShuffleFacts.

(** ** Facts about [toTypedRecords] *)

Section TypedRecordsFacts.
Context {Value : Type}.
Variable isStringOrNumber : Value -> bool.
Variable toPropertyKey : Value -> string.
Variable getProperty : Value -> string -> option Value.

Lemma reduce_keyed key valueFieldName this :
  key <> "__proto__" ->
  forall record,
    (record = ∅ \/ exists value, record = {[key := value]}) ->
    reduce (toTypedRecords_callback isStringOrNumber toPropertyKey getProperty
              (Some key) valueFieldName) this record
    = if forallb (readable getProperty valueFieldName) this
      then Normal (match last this with
                   | Some x => recordOf getProperty valueFieldName key x
                   | None => record
                   end)
      else Throw TypeError.
Proof.
  intros Hkey. induction this as [|x rest IH]; intros record Hrecord.
  - reflexivity.
  - cbn [reduce forallb]. unfold toTypedRecords_callback, readable at 1.
    destruct (fieldValue getProperty valueFieldName x) as [value|e] eqn:Hx.
    + cbn [andb]. unfold setProperty. rewrite decide_False by exact Hkey.
      assert (Hone : <[key := value]> record = {[key := value]}).
      { destruct Hrecord as [->|[v ->]];
          [apply insert_empty|apply insert_singleton_eq]. }
      rewrite Hone, IH by eauto.
      destruct (forallb (readable getProperty valueFieldName) rest);
        [|reflexivity].
      f_equal. destruct rest as [|y rest'].
      * simpl. unfold recordOf. rewrite Hx. reflexivity.
      * rewrite last_cons_cons.
        destruct (last (y :: rest')) eqn:Hlast; [reflexivity|].
        apply last_None in Hlast. discriminate.
    + cbn [andb]. f_equal.
      unfold fieldValue in Hx.
      destruct valueFieldName as [| |name]; [|discriminate|];
        destruct (getProperty x _); congruence.
Qed.

(** X15: with a key field name, [toTypedRecords] files every element
    under that one name: the record it returns has at most one
    property, named [keyFieldName], whose value comes from the last
    element of the array (the element itself when [valueFieldName] is
    [null], its field [valueFieldName] otherwise); the record is empty
    for an empty array.  The call throws a [TypeError] when the field
    of some element cannot be read. *)
Theorem toTypedRecords_single_key (this : list Value) (key : string)
    (valueFieldName : ValueFieldName) :
  key <> "__proto__" ->
  toTypedRecords isStringOrNumber toPropertyKey getProperty this (Some key)
    valueFieldName
  = if forallb (readable getProperty valueFieldName) this
    then Normal (match last this with
                 | Some x => recordOf getProperty valueFieldName key x
                 | None => ∅
                 end)
    else Throw TypeError.
Proof.
  intros Hkey. unfold toTypedRecords.
  apply reduce_keyed; [exact Hkey|left; reflexivity].
Qed.

Lemma reduce_unkeyed valueFieldName this :
  (forall x key, isStringOrNumber x = true -> is_Some (getProperty x key)) ->
  forall record,
    reduce (toTypedRecords_callback isStringOrNumber toPropertyKey getProperty
              None valueFieldName) this record
    = if forallb isStringOrNumber this
      then Normal (list_to_map
                   (reverse (entries toPropertyKey getProperty
                               valueFieldName this))
                   ∪ record)
      else Throw CannotFigureOutFieldName.
Proof.
  intros Hread. induction this as [|x rest IH]; intros record.
  - simpl. rewrite (left_id_L ∅ (∪)). reflexivity.
  - cbn [reduce forallb]. unfold toTypedRecords_callback.
    destruct (isStringOrNumber x) eqn:Hx; [|reflexivity].
    cbn [andb].
    assert (Hvalue : exists value,
              fieldValue getProperty valueFieldName x = Normal value).
    { unfold fieldValue. destruct valueFieldName as [| |name]; eauto.
      - destruct (Hread x "undefined" Hx) as [v ->]. eauto.
      - destruct (Hread x name Hx) as [v ->]. eauto. }
    destruct Hvalue as [value Hvalue]. rewrite Hvalue, IH.
    destruct (forallb isStringOrNumber rest); [|reflexivity].
    f_equal.
    assert (Hentries :
              entries toPropertyKey getProperty valueFieldName (x :: rest)
              = (if decide (toPropertyKey x = "__proto__") then []
                 else [(toPropertyKey x, value)])
                ++ entries toPropertyKey getProperty valueFieldName rest).
    { unfold entries. cbn [omap list_omap]. rewrite Hvalue.
      destruct (decide (toPropertyKey x = "__proto__")); reflexivity. }
    rewrite Hentries. unfold setProperty.
    destruct (decide (toPropertyKey x = "__proto__")) as [Hp|Hp].
    + reflexivity.
    + rewrite reverse_app, list_to_map_app. simpl.
      rewrite insert_empty, insert_union_singleton_l.
      rewrite (assoc_L (∪)). reflexivity.
Qed.

(** X16: without a key field name, [toTypedRecords] files every
    element under the element itself, which has to be a string or a
    number: the call throws its own error as soon as the array holds
    anything else.  Otherwise the record has one property per distinct
    element, and where elements stand for the same property the last
    one wins. *)
Theorem toTypedRecords_elements_as_keys (this : list Value)
    (valueFieldName : ValueFieldName) :
  (forall x key, isStringOrNumber x = true -> is_Some (getProperty x key)) ->
  toTypedRecords isStringOrNumber toPropertyKey getProperty this None
    valueFieldName
  = if forallb isStringOrNumber this
    then Normal (list_to_map
                   (reverse (entries toPropertyKey getProperty
                               valueFieldName this)))
    else Throw CannotFigureOutFieldName.
Proof.
  intros Hread. unfold toTypedRecords. rewrite reduce_unkeyed by exact Hread.
  rewrite (right_id_L ∅ (∪)). reflexivity.
Qed.
End TypedRecordsFacts.

(** ** Facts about [generatePassword] and [getRandomCode] *)

Lemma charactersOf_append s1 s2 :
  charactersOf (s1 +:+ s2) = charactersOf s1 ++ charactersOf s2.
Proof.
  induction s1 as [|c s1 IH]; [reflexivity|].
  change (String c s1 +:+ s2) with (String c (s1 +:+ s2)).
  unfold charactersOf in *. simpl. rewrite IH. reflexivity.
Qed.

Lemma charactersOf_length s : length (charactersOf s) = String.length s.
Proof.
  induction s as [|c s IH]; [reflexivity|].
  unfold charactersOf in *. simpl. rewrite IH. reflexivity.
Qed.

Lemma charactersOf_join list :
  charactersOf (join list)
  = list ≫= (fun element => charactersOf (default EmptyString element)).
Proof.
  induction list as [|element list IH]; [reflexivity|].
  simpl. rewrite charactersOf_append, IH. reflexivity.
Qed.

Lemma get_charactersOf s k c :
  String.get k s = Some c -> charactersOf s !! k = Some c.
Proof.
  revert k. induction s as [|d s IH]; intros k; [discriminate|].
  destruct k as [|k]; simpl; [congruence|apply IH].
Qed.

Lemma get_in_range s k :
  k < String.length s -> is_Some (String.get k s).
Proof.
  revert k. induction s as [|d s IH]; intros k Hk; simpl in *; [lia|].
  destruct k as [|k]; [eauto|]. apply IH. lia.
Qed.

(** The character [generatePassword] takes out of a set that is not
    empty, for a time value that is not negative. *)
Lemma characterAt_picks set seed seedMod :
  set <> EmptyString -> (0 <= seed)%Z -> (0 < seedMod)%Z ->
  exists c,
    characterAt set
      (remainder seed seedMod
       ≫= (fun r => remainder r (Z.of_nat (String.length set))))
    = Some (String c EmptyString)
    /\ c ∈ charactersOf set.
Proof.
  intros Hset Hseed Hmod.
  assert (Hlen : 0 < String.length set)
    by (destruct set; [done|simpl; lia]).
  unfold remainder.
  destruct (Z.eqb_spec seedMod 0); [lia|]. cbn [mbind option_bind].
  destruct (Z.eqb_spec (Z.of_nat (String.length set)) 0); [lia|].
  unfold characterAt.
  pose proof (Z.rem_nonneg seed seedMod ltac:(lia) Hseed) as H1.
  pose proof (Z.rem_bound_pos (Z.rem seed seedMod)
                (Z.of_nat (String.length set)) H1 ltac:(lia)) as H2.
  destruct (Z.ltb_spec (Z.rem (Z.rem seed seedMod)
                          (Z.of_nat (String.length set))) 0); [lia|].
  destruct (get_in_range set
              (Z.to_nat (Z.rem (Z.rem seed seedMod)
                           (Z.of_nat (String.length set))))
              ltac:(lia)) as [c Hc].
  exists c. rewrite Hc. split; [reflexivity|].
  eapply list_elem_of_lookup_2. apply get_charactersOf. exact Hc.
Qed.

Lemma generatePassword_loop_spec seed targetLength sets i seedMod acc :
  sets <> [] -> Forall (fun set => set <> EmptyString) sets ->
  (0 <= seed)%Z -> (0 < seedMod)%Z -> (0 <= i)%Z ->
  exists picks,
    generatePassword_loop seed targetLength sets i seedMod acc
    = Normal (acc ++ picks)
    /\ length picks = Z.to_nat (targetLength - i)
    /\ pickedInTurn sets (Z.to_nat i) picks.
Proof.
  intros Hsets Hne Hseed.
  funelim (generatePassword_loop seed targetLength sets i seedMod acc);
    intros Hmod Hi.
  - assert (Hlen : 0 < length targetBaseCharacterSetList)
      by (destruct targetBaseCharacterSetList; [done|simpl; lia]).
    unfold remainder at 1.
    destruct (Z.eqb_spec (Z.of_nat (length targetBaseCharacterSetList)) 0);
      [lia|].
    cbn [mbind option_bind].
    assert (Hk :
              Z.to_nat (Z.rem i (Z.of_nat (length targetBaseCharacterSetList)))
                 = Z.to_nat i mod length targetBaseCharacterSetList).
    { rewrite Z.rem_mod_nonneg by lia.
      rewrite <- (Z2Nat.id i) at 1 by lia.
      rewrite <- Nat2Z.inj_mod, Nat2Z.id. reflexivity. }
    rewrite Hk.
    destruct (lookup_lt_is_Some_2 targetBaseCharacterSetList
                (Z.to_nat i mod length targetBaseCharacterSetList)
                ltac:(apply Nat.mod_upper_bound; lia)) as [set Hset].
    rewrite Hset.
    assert (Hsetne : set <> EmptyString)
      by (eapply (proj1 (Forall_lookup _ _) Hne); eauto).
    destruct (characterAt_picks set seed seedMod Hsetne Hseed Hmod)
      as (c & Hc & Hin).
    cbv zeta. rewrite Hc.
    destruct (H set Hsets Hne Hseed) as (picks & Hrun & Hlen' & Hpicks).
    { destruct (seed <? seedMod)%Z; lia. }
    { lia. }
    rewrite Hc in Hrun.
    exists (Some (String c EmptyString) :: picks).
    split; [rewrite Hrun, <- app_assoc; reflexivity|].
    split; [simpl; lia|].
    intros [|k] pick Hpick.
    + injection Hpick as <-. exists set, c.
      rewrite Nat.add_0_r. auto.
    + destruct (Hpicks k pick Hpick) as (set' & c' & Hs' & Hp' & Hc').
      exists set', c'. split; [|auto].
      replace (Z.to_nat i + S k) with (Z.to_nat (i + 1) + k) by lia.
      exact Hs'.
  - exists []. rewrite app_nil_r. split; [reflexivity|].
    split; [simpl; lia|]. intros k pick Hk. discriminate.
Qed.

Lemma join_drawn (base : list string) (drawn : list (option string)) :
  Forall (fun element =>
            match element with
            | Some s => s ∈ base
            | None => base = []
            end) drawn ->
  (base = [] -> join drawn = EmptyString)
  /\ (base <> [] -> Forall (fun s => String.length s = 1) base ->
      String.length (join drawn) = length drawn).
Proof.
  intros Hdrawn. split.
  - intros Hbase. induction Hdrawn as [|[s|] drawn Hs Hdrawn IH];
      [reflexivity| |].
    + rewrite Hbase in Hs. apply elem_of_nil in Hs. contradiction.
    + simpl. exact IH.
  - intros Hbase Hone. induction Hdrawn as [|[s|] drawn Hs Hdrawn IH];
      [reflexivity| |contradiction].
    simpl. rewrite <- charactersOf_length, charactersOf_append, length_app.
    rewrite !charactersOf_length, IH.
    rewrite (proj1 (Forall_forall _ _) Hone s Hs). reflexivity.
Qed.

Section SecurityFacts.
Variable random : nat -> Double.
Variable now : Z.
Hypothesis Hrandom : inUnitInterval random.

(** X17: [generatePassword] returns a password of the length asked
    for (8 when none is given), made of characters of the given sets
    (the four built-in ones when none are given): the characters are
    picked from the sets in turn and then shuffled, so every set among
    the first [targetLength] ones has a character in the password.
    This holds for sets that are not empty, a time value that is not
    negative, a length below 2^32 (the bound on the length of the array
    of characters) and [Math.random()] returning doubles in [0, 1). *)
Theorem generatePassword_covers_character_sets (targetLength : option Z)
    (baseCharacterSetList : option (list string)) (calls : nat) :
  let sets := baseCharacterSetList ?? defaultCharacterSetList in
  let n := Z.to_nat (targetLength ?? PASSWORD_MINIMUM_LENGTH) in
  sets <> [] -> Forall (fun set => set <> EmptyString) sets ->
  (0 <= now)%Z ->
  (targetLength ?? PASSWORD_MINIMUM_LENGTH < 2 ^ 32)%Z ->
  exists password,
    generatePassword random now targetLength baseCharacterSetList calls
    = Some (Normal password, calls + n)
    /\ String.length password = n
    /\ (forall c, c ∈ charactersOf password ->
          exists set, set ∈ sets /\ c ∈ charactersOf set)
    /\ (forall k set, sets !! k = Some set -> k < n ->
          exists c, c ∈ charactersOf password /\ c ∈ charactersOf set).
Proof.
  intros sets n Hsets Hne Hnow Hbound. unfold generatePassword. fold sets.
  destruct (generatePassword_loop_spec now
              (targetLength ?? PASSWORD_MINIMUM_LENGTH) sets 0 10 []
              Hsets Hne Hnow ltac:(lia) ltac:(lia))
    as (picks & -> & Hlen & Hpicks).
  rewrite Z.sub_0_r in Hlen. fold n in Hlen. simpl.
  destruct (shuffle_loop_spec random Hrandom (length picks) picks calls
              (le_n _)) as (shuffled & Hshuffle & Hperm).
  { rewrite Hlen. subst n. lia. }
  unfold shuffle. rewrite Hshuffle.
  simpl. rewrite Hlen.
  exists (join shuffled). split; [reflexivity|].
  assert (Hchars : charactersOf (join shuffled)
                   ≡ₚ charactersOf (join picks)).
  { rewrite !charactersOf_join. rewrite Hperm. reflexivity. }
  assert (Hsingle : forall l i,
            pickedInTurn sets i l -> length (charactersOf (join l)) = length l).
  { induction l as [|pick l IH]; intros i Hl; [reflexivity|].
    simpl. rewrite charactersOf_append, length_app.
    destruct (Hl 0 pick eq_refl) as (set & c & _ & -> & _).
    rewrite (IH (S i)); [reflexivity|].
    intros k p Hk. destruct (Hl (S k) p Hk) as (set' & c' & Hs & Hp & Hc).
    exists set', c'. split; [|auto].
    replace (S i + k) with (i + S k) by lia. exact Hs. }
  split.
  { rewrite <- charactersOf_length, Hchars, (Hsingle picks 0 Hpicks).
    exact Hlen. }
  assert (Hin : forall c, c ∈ charactersOf (join picks) <->
                  exists k, picks !! k = Some (Some (String c EmptyString))).
  { intros c. rewrite charactersOf_join, list_elem_of_bind. split.
    - intros (pick & Hc & Hpick).
      apply list_elem_of_lookup_1 in Hpick as [k Hk].
      destruct (Hpicks k pick Hk) as (set & c' & _ & -> & _).
      simpl in Hc. apply list_elem_of_singleton in Hc as ->. eauto.
    - intros [k Hk]. exists (Some (String c EmptyString)).
      split; [left|]. eapply list_elem_of_lookup_2; eauto. }
  split.
  - intros c Hc. rewrite Hchars in Hc. apply Hin in Hc as [k Hk].
    destruct (Hpicks k _ Hk) as (set & c' & Hset & Heq & Hc').
    injection Heq as <-. exists set. split; [|exact Hc'].
    eapply list_elem_of_lookup_2; eauto.
  - intros k set Hk Hkn.
    destruct (lookup_lt_is_Some_2 picks k ltac:(lia)) as [pick Hpick].
    destruct (Hpicks k pick Hpick) as (set' & c & Hset' & -> & Hc).
    apply lookup_lt_Some in Hk as Hlt.
    rewrite Nat.add_0_l, Nat.mod_small in Hset' by exact Hlt.
    assert (set' = set) as -> by congruence.
    exists c. split; [|exact Hc]. rewrite Hchars. apply Hin. eauto.
Qed.

Lemma getRandomCode_loop_spec len codeBase output calls :
  (Z.of_nat (length codeBase) <= 2 ^ 53)%Z ->
  exists drawn codeBase',
    getRandomCode_loop random len codeBase output calls
    = Some (output ++ drawn, codeBase',
            calls + length drawn * length codeBase)
    /\ length (output ++ drawn)
       = Nat.max (length output) (Z.to_nat len)
    /\ codeBase' ≡ₚ codeBase
    /\ Forall (fun element =>
                 match element with
                 | Some s => s ∈ codeBase
                 | None => codeBase = []
                 end) drawn.
Proof.
  funelim (getRandomCode_loop random len codeBase output calls);
    intros Hbound.
  - destruct (shuffle_loop_spec random Hrandom (List.length codeBase) codeBase
                calls (le_n _) Hbound) as (shuffled & Hshuffle & Hperm).
    fold (shuffle random codeBase calls) in Hshuffle.
    rewrite Hshuffle.
    destruct (H (shuffled, calls) shuffled (calls + List.length codeBase))
      as (drawn & codeBase' & Hrun & Hlen & Hperm' & Hdrawn).
    { rewrite (Permutation_length Hperm). exact Hbound. }
    rewrite Hrun.
    exists ((shuffled !! 0) :: drawn), codeBase'.
    rewrite <- app_assoc. simpl.
    split.
    { do 2 f_equal. apply Permutation_length in Hperm. nia. }
    split.
    { rewrite <- app_assoc, !length_app in Hlen. simpl in Hlen.
      rewrite length_app. simpl. lia. }
    split; [rewrite Hperm'; exact Hperm|].
    constructor.
    + destruct (shuffled !! 0) as [s|] eqn:Hs.
      * rewrite <- Hperm. eapply list_elem_of_lookup_2; eauto.
      * apply lookup_ge_None in Hs.
        apply Permutation_length in Hperm.
        destruct codeBase; [reflexivity|simpl in *; lia].
    + eapply Forall_impl; [exact Hdrawn|].
      intros [s|]; [rewrite Hperm; auto|].
      intros ->. symmetry in Hperm. apply Permutation_nil_r in Hperm.
      exact Hperm.
  - exists [], codeBase. rewrite app_nil_r.
    split; [do 2 f_equal; simpl; lia|].
    split; [lia|]. split; [reflexivity|constructor].
Qed.

(** X18: [getRandomCode] draws [length] elements (6 when no length is
    given) of the code base (the 31 built-in characters when none is
    given) and returns them joined; it shuffles the code base once per
    element, in place, so the caller's array comes back rearranged.
    With an empty code base the code is empty.  This holds for
    [Math.random()] returning doubles in [0, 1), and for a code base
    and a length below 2^32, the bound on the length of an array. *)
Theorem getRandomCode_draws_from_code_base (len : option Z)
    (codeBase : option (list string)) (calls : nat) :
  let base := codeBase ?? defaultCodeBase in
  let n := Z.to_nat (len ?? CODE_DEFAULT_LENGTH) in
  (Z.of_nat (length base) < 2 ^ 32)%Z ->
  (len ?? CODE_DEFAULT_LENGTH < 2 ^ 32)%Z ->
  exists drawn codeBase',
    getRandomCode random len codeBase calls
    = Some (join drawn, codeBase', calls + n * length base)
    /\ length drawn = n
    /\ codeBase' ≡ₚ base
    /\ (base <> [] ->
        Forall (fun element => exists s, element = Some s /\ s ∈ base) drawn)
    /\ (base = [] -> join drawn = EmptyString)
    /\ (base <> [] -> Forall (fun s => String.length s = 1) base ->
        String.length (join drawn) = n).
Proof.
  intros base n Hsize Hlength. unfold getRandomCode. fold base.
  destruct (getRandomCode_loop_spec (len ?? CODE_DEFAULT_LENGTH) base [] calls
              ltac:(lia))
    as (drawn & codeBase' & Hrun & Hlen & Hperm & Hdrawn).
  simpl in Hrun, Hlen. fold n in Hlen.
  assert (Hn : length drawn = n) by lia.
  destruct (join_drawn base drawn Hdrawn) as [Hempty Hone].
  rewrite Hrun. simpl. exists drawn, codeBase'. rewrite <- Hn.
  split; [reflexivity|]. split; [reflexivity|]. split; [exact Hperm|].
  split; [|split; [exact Hempty|exact Hone]].
  intros Hbase. eapply Forall_impl; [exact Hdrawn|].
  intros [s|] Hs; [eauto|contradiction].
Qed.
End SecurityFacts.
(** ** Facts about the interpreter *)

Lemma alter_insert_eq {A} (f : A -> A) (l : list A) i x :
  alter f i (<[i := x]> l) = <[i := f x]> l.
Proof.
  revert i. induction l as [|a l IH]; intros [|i]; simpl; try reflexivity.
  f_equal. apply IH.
Qed.

Lemma alter_lookup_insert {A} (f : A -> A) (l : list A) i x :
  l !! i = Some x -> alter f i l = <[i := f x]> l.
Proof.
  revert i. induction l as [|a l IH]; intros [|i] H; simpl in *;
    try discriminate.
  - congruence.
  - f_equal. apply IH. assumption.
Qed.

Lemma world_eta (w : World) :
  {| heap := heap w; pending := pending w; trace := trace w;
     uuidCount := uuidCount w |} = w.
Proof. destruct w; reflexivity. Qed.

Lemma set_pending_same (w : World) : set_pending (pending w) w = w.
Proof. destruct w; reflexivity. Qed.

Lemma set_pending_app_nil (w : World) : set_pending (pending w ++ []) w = w.
Proof. rewrite app_nil_r. apply set_pending_same. Qed.

Lemma lookup_update_eq this f w o :
  heap w !! this = Some o -> heap (update this f w) !! this = Some (f o).
Proof. intros H. simpl. rewrite list_lookup_alter_eq, H. reflexivity. Qed.

Lemma lookup_update_ne this i f w :
  this <> i -> heap (update this f w) !! i = heap w !! i.
Proof. intros H. simpl. apply list_lookup_alter_ne. assumption. Qed.

Lemma length_heap_update this f w :
  length (heap (update this f w)) = length (heap w).
Proof. simpl. apply length_alter. Qed.

Section InterpreterFacts.
Variable randomUUID : nat -> string.
Local Abbreviation exec := (exec randomUUID).
Local Abbreviation Exec := (Exec randomUUID).
Local Abbreviation ExecEach := (ExecEach randomUUID).
Local Abbreviation Run := (Run randomUUID).
Local Abbreviation runOp := (runOp randomUUID).
Local Abbreviation runOps := (runOps randomUUID).

Lemma forEach_mono {A} (f g : A -> World -> option World) l :
  (forall a w w', f a w = Some w' -> g a w = Some w') ->
  forall w w', forEach f l w = Some w' -> forEach g l w = Some w'.
Proof.
  intros Hfg. induction l as [|a l IH]; simpl; intros w w' H; [assumption|].
  destruct (f a w) as [w1|] eqn:E; simpl in H; [|discriminate].
  rewrite (Hfg _ _ _ E). simpl. auto.
Qed.

(** A larger budget never changes a result. *)
Lemma exec_mono n : forall c w w',
  exec n c w = Some w' -> forall m, n <= m -> exec m c w = Some w'.
Proof.
  induction n as [|n IH]; intros c w w' H m Hm; [discriminate|].
  destruct m as [|m]; [lia|].
  assert (Hnm : n <= m) by lia.
  assert (IH' : forall c w w', exec n c w = Some w' -> exec m c w = Some w')
    by (intros; eapply IH; eauto).
  clear IH Hm.
  destruct c; simpl in H |- *;
    repeat match goal with
      | H : (?mx ≫= _) = Some _ |- _ =>
          destruct mx eqn:?; simpl in H |- *; [|discriminate]
      | H : (if ?b then _ else _) = Some _ |- _ => destruct b eqn:?
      | H : match ?x with _ => _ end = Some _ |- _ => destruct x eqn:?
      | H : (let '(_, _) := ?x in _) = Some _ |- _ => destruct x eqn:?
      end; simpl; eauto;
    try (eapply forEach_mono; [|eassumption]; simpl; eauto);
    repeat match goal with
      | E : exec n _ _ = Some _ |- _ => apply IH' in E; try rewrite E
      | E : forEach (fun r => exec n (@?c r)) ?l ?w = Some ?w1 |- _ =>
          assert (forEach (fun r => exec m (c r)) l w = Some w1) as ->
            by (eapply forEach_mono; [|exact E]; simpl; eauto);
          clear E
      end; simpl; eauto.
Qed.

Lemma forEach_fuel_mono {A} (mk : A -> Call) l n m w w' :
  n <= m ->
  forEach (fun a => exec n (mk a)) l w = Some w' ->
  forEach (fun a => exec m (mk a)) l w = Some w'.
Proof.
  intros Hnm. apply forEach_mono. intros a w1 w2 H.
  eapply exec_mono; eauto.
Qed.

Lemma ExecEach_nil {A} (mk : A -> Call) w : ExecEach mk [] w w.
Proof. exists 0. reflexivity. Qed.

Lemma ExecEach_cons {A} (mk : A -> Call) a l w w1 w' :
  Exec (mk a) w w1 -> ExecEach mk l w1 w' -> ExecEach mk (a :: l) w w'.
Proof.
  intros [n1 H1] [n2 H2]. exists (n1 `max` n2). simpl.
  rewrite (exec_mono _ _ _ _ H1) by lia. simpl.
  eapply forEach_fuel_mono; [|exact H2]. lia.
Qed.

Lemma runOp_mono n m op w w' :
  n <= m -> runOp n op w = Some w' -> runOp m op w = Some w'.
Proof.
  intros Hnm. destruct op; simpl; try done;
    try (intros H; eapply exec_mono; eauto).
  destruct (pending w !! k) as [[cb result]|]; [|done].
  intros H; eapply exec_mono; eauto.
Qed.

Lemma runOps_mono n m ops : forall w w',
  n <= m -> runOps n ops w = Some w' -> runOps m ops w = Some w'.
Proof.
  induction ops as [|op ops IH]; simpl; intros w w' Hnm H; [assumption|].
  destruct (runOp n op w) as [w1|] eqn:E; simpl in H; [|discriminate].
  rewrite (runOp_mono _ _ _ _ _ Hnm E). simpl. eauto.
Qed.

Lemma Run_nil w : Run [] w w.
Proof. exists 0. reflexivity. Qed.

Lemma Run_cons op ops w w1 w' :
  (exists fuel, runOp fuel op w = Some w1) -> Run ops w1 w' ->
  Run (op :: ops) w w'.
Proof.
  intros [n1 H1] [n2 H2]. exists (n1 `max` n2). simpl.
  rewrite (runOp_mono n1 (n1 `max` n2) _ _ _ ltac:(lia) H1). simpl.
  eapply runOps_mono; [|exact H2]. lia.
Qed.

Lemma Run_app ops1 ops2 w w1 w' :
  Run ops1 w w1 -> Run ops2 w1 w' -> Run (ops1 ++ ops2) w w'.
Proof.
  revert w. induction ops1 as [|op ops1 IH]; simpl; intros w H1 H2.
  - destruct H1 as [n H1]. simpl in H1. congruence.
  - destruct H1 as [n H1]. simpl in H1.
    destruct (runOp n op w) as [w2|] eqn:E; simpl in H1; [|discriminate].
    eapply Run_cons; [eauto|]. apply IH; [exists n; exact H1|exact H2].
Qed.

(** *** Rules of the big-step relation, one per path of each method *)

Ltac fuel2 H1 H2 :=
  let n1 := fresh "n" in let n2 := fresh "n" in
  destruct H1 as [n1 H1]; destruct H2 as [n2 H2];
  apply exec_mono with (m := n1 `max` n2) in H1; [|lia];
  apply exec_mono with (m := n1 `max` n2) in H2; [|lia];
  exists (S (n1 `max` n2)); simpl.

Ltac fuel1 H1 :=
  let n1 := fresh "n" in
  destruct H1 as [n1 H1]; exists (S n1); simpl.

Lemma Exec_finished_again this w o :
  heap w !! this = Some o -> isFinished o = true ->
  Exec (CFinished this) w w.
Proof. intros Ho Hf. exists 1. simpl. rewrite Ho. simpl. rewrite Hf. reflexivity. Qed.

Lemma Exec_finished_silent this w o :
  heap w !! this = Some o -> isFinished o = false -> finalCallback o = None ->
  Exec (CFinished this) w (update this (set_isFinished true) w).
Proof.
  intros Ho Hf Hc. exists 1. simpl. rewrite Ho. simpl. rewrite Hf, Hc.
  reflexivity.
Qed.

Lemma Exec_finished_handler this w o handler w' :
  heap w !! this = Some o -> isFinished o = false ->
  finalCallback o = Some handler ->
  Exec (CFinalCallback handler (asyncTaskResultList o))
       (emit (FinalCallbackInvoked this handler (asyncTaskResultList o))
             (update this (set_isFinished true) w)) w' ->
  Exec (CFinished this) w w'.
Proof.
  intros Ho Hf Hc H. fuel1 H. rewrite Ho. simpl. rewrite Hf, Hc. exact H.
Qed.

Lemma Exec_finalCallback_user id resultList w :
  Exec (CFinalCallback (UserCallback id) resultList) w w.
Proof. exists 1. reflexivity. Qed.

Lemma Exec_finalCallback_pool poolCallback resultList w w' :
  Exec (CCallback poolCallback (RArray resultList)) w w' ->
  Exec (CFinalCallback (PoolCallback poolCallback) resultList) w w'.
Proof. intros H. fuel1 H. exact H. Qed.

Lemma Exec_finalCallback_flatten this resultList w w' :
  Exec (CFinished this)
       (update this (set_asyncTaskResultList (flat resultList)) w) w' ->
  Exec (CFinalCallback (FlattenCallback this) resultList) w w'.
Proof. intros H. fuel1 H. exact H. Qed.

Lemma Exec_asyncTaskFinished_more this asyncTask result w o :
  heap w !! this = Some o ->
  S (length (asyncTaskResultList o)) < length (asyncTaskList o) ->
  Exec (CAsyncTaskFinished this asyncTask result) w (pushResult this result w).
Proof.
  intros Ho Hlt. exists 1. simpl. rewrite list_lookup_alter_eq, Ho. simpl.
  rewrite length_app. simpl.
  destruct (Nat.leb_spec (length (asyncTaskList o))
              (length (asyncTaskResultList o) + 1)); [lia|reflexivity].
Qed.

Lemma Exec_asyncTaskFinished_last this asyncTask result w o w' :
  heap w !! this = Some o ->
  length (asyncTaskList o) <= S (length (asyncTaskResultList o)) ->
  Exec (CFinished this) (pushResult this result w) w' ->
  Exec (CAsyncTaskFinished this asyncTask result) w w'.
Proof.
  intros Ho Hle H. fuel1 H. rewrite list_lookup_alter_eq, Ho. simpl.
  rewrite length_app. simpl.
  destruct (Nat.leb_spec (length (asyncTaskList o))
              (length (asyncTaskResultList o) + 1)); [exact H|lia].
Qed.

Lemma Exec_callback_plain cb result w w' :
  cb_next cb = None ->
  Exec (CAsyncTaskFinished (cb_this cb) (cb_asyncTask cb) result) w w' ->
  Exec (CCallback cb result) w w'.
Proof. intros Hn H. fuel1 H. rewrite H, Hn. reflexivity. Qed.

Lemma Exec_callback_next cb result this w w1 w' :
  cb_next cb = Some (ProcessNextQueueTask this) ->
  Exec (CAsyncTaskFinished (cb_this cb) (cb_asyncTask cb) result) w w1 ->
  Exec (CProcessNextQueueTask this) w1 w' ->
  Exec (CCallback cb result) w w'.
Proof. intros Hn H1 H2. fuel2 H1 H2. rewrite H1, Hn. exact H2. Qed.

Lemma Exec_processNext_stop this w o :
  heap w !! this = Some o ->
  length (asyncTaskList o) <= length (asyncTaskResultList o) ->
  Exec (CProcessNextQueueTask this) w w.
Proof.
  intros Ho Hle. exists 1. simpl. rewrite Ho. simpl.
  destruct (Nat.ltb_spec (length (asyncTaskResultList o))
              (length (asyncTaskList o))); [lia|].
  rewrite andb_false_r. reflexivity.
Qed.

Lemma Exec_processNext_run this w o asyncTask w' :
  heap w !! this = Some o ->
  asyncTaskList o !! length (asyncTaskResultList o) = Some asyncTask ->
  Exec (CRunTask this asyncTask (Some (ProcessNextQueueTask this))) w w' ->
  Exec (CProcessNextQueueTask this) w w'.
Proof.
  intros Ho Ht H. fuel1 H. rewrite Ho. simpl.
  apply lookup_lt_Some in Ht as Hlt.
  destruct (Nat.ltb_spec (length (asyncTaskResultList o))
              (length (asyncTaskList o))); [|lia].
  destruct (Nat.eqb_spec (length (asyncTaskList o)) 0); [lia|].
  simpl. rewrite Ht. exact H.
Qed.

Lemma Exec_runTask this asyncTask next w w' :
  Exec (CTaskFunction (asyncTaskFunction asyncTask)
          {| cb_this := this; cb_asyncTask := asyncTask; cb_next := next |})
       (emit (TaskInvoked this asyncTask) w) w' ->
  Exec (CRunTask this asyncTask next) w w'.
Proof. intros H. fuel1 H. exact H. Qed.

Lemma Exec_taskFunction_later name result done w :
  Exec (CTaskFunction (UserFunction name [] [result]) done) w
       (set_pending (pending w ++ [(done, result)]) w).
Proof. exists 1. reflexivity. Qed.

Lemma Exec_taskFunction_now name result done w w' :
  Exec (CCallback done result) w w' ->
  Exec (CTaskFunction (UserFunction name [result] []) done) w w'.
Proof.
  intros H. fuel1 H. rewrite H. simpl. rewrite set_pending_app_nil.
  reflexivity.
Qed.

Lemma Exec_taskFunction_silent name done w :
  Exec (CTaskFunction (UserFunction name [] []) done) w w.
Proof. exists 1. simpl. rewrite set_pending_app_nil. reflexivity. Qed.

(** [start]: the object after the two assignments. *)
Lemma lookup_recordStart this arg mode o w :
  heap w !! this = Some o ->
  heap (recordStart this arg mode o w) !! this
  = Some (set_taskMode (mode ?? Queue)
            (set_finalCallback (handlerAfterStart arg o) o)).
Proof.
  intros Ho. unfold recordStart.
  erewrite lookup_update_eq; [reflexivity|].
  erewrite lookup_update_eq; [reflexivity|assumption].
Qed.

Lemma exec_start_unfold fuel this arg mode w o :
  heap w !! this = Some o ->
  exec (S fuel) (CStart this arg mode) w
  = let w1 := recordStart this arg mode o w in
    if isStarted o then Some w1
    else
      let w2 := update this (set_isStarted true) w1 in
      if length (asyncTaskList o) =? 0 then exec fuel (CFinished this) w2
      else
        match mode ?? Queue with
        | Pool =>
            if length (asyncTaskList o) <=? asyncPoolChunkSize then
              forEach (fun asyncTask => exec fuel (CRunTask this asyncTask None))
                      (asyncTaskList o) w2
            else
              let '(leveled, w3) :=
                constructor randomUUID
                  (Some {| Options.name := None;
                           Options.debug := None;
                           Options.taskMode := None;
                           Options.asyncTaskList :=
                             Some ((fun chunkedAsyncTaskList =>
                                      TaskLike
                                        (ChunkFunction this chunkedAsyncTaskList)
                                        NameAbsent)
                                   <$> split (asyncTaskList o)
                                         (Some (Z.of_nat asyncPoolChunkSize)));
                           Options.finalCallback := None |}) w2 in
              exec fuel (CQueue leveled (Some (FlattenCallback this))) w3
        | Queue => exec fuel (CProcessNextQueueTask this) w2
        end.
Proof.
  intros Ho.
  pose proof (lookup_recordStart this arg mode o w Ho) as Hrec.
  unfold recordStart in *. cbn [exec]. rewrite Ho. cbn [mbind option_bind].
  unfold handlerAfterStart in *.
  change (Some (mode ?? Queue) ?? (Some (taskMode o) ?? Queue))
    with (mode ?? Queue).
  rewrite Hrec. cbn [mbind option_bind]. reflexivity.
Qed.

Lemma Exec_start_started this arg mode w o :
  heap w !! this = Some o -> isStarted o = true ->
  Exec (CStart this arg mode) w (recordStart this arg mode o w).
Proof.
  intros Ho Hs. exists 1. rewrite (exec_start_unfold _ _ _ _ _ _ Ho).
  simpl. rewrite Hs. reflexivity.
Qed.

Lemma Exec_start_empty this arg mode w o w' :
  heap w !! this = Some o -> isStarted o = false -> asyncTaskList o = [] ->
  Exec (CFinished this)
       (update this (set_isStarted true) (recordStart this arg mode o w)) w' ->
  Exec (CStart this arg mode) w w'.
Proof.
  intros Ho Hs Hl [n H]. exists (S n).
  rewrite (exec_start_unfold _ _ _ _ _ _ Ho). simpl. rewrite Hs, Hl. exact H.
Qed.

Lemma Exec_start_queue this arg mode w o w' :
  heap w !! this = Some o -> isStarted o = false -> asyncTaskList o <> [] ->
  mode ?? Queue = Queue ->
  Exec (CProcessNextQueueTask this)
       (update this (set_isStarted true) (recordStart this arg mode o w)) w' ->
  Exec (CStart this arg mode) w w'.
Proof.
  intros Ho Hs Hl Hm [n H]. exists (S n).
  rewrite (exec_start_unfold _ _ _ _ _ _ Ho). cbn zeta. rewrite Hs, Hm.
  destruct (asyncTaskList o); [done|]. exact H.
Qed.

Lemma Exec_start_pool this arg w o w' :
  heap w !! this = Some o -> isStarted o = false -> asyncTaskList o <> [] ->
  length (asyncTaskList o) <= asyncPoolChunkSize ->
  ExecEach (fun asyncTask => CRunTask this asyncTask None) (asyncTaskList o)
    (update this (set_isStarted true) (recordStart this arg (Some Pool) o w))
    w' ->
  Exec (CStart this arg (Some Pool)) w w'.
Proof.
  intros Ho Hs Hl Hle [n H]. exists (S n).
  rewrite (exec_start_unfold _ _ _ _ _ _ Ho). cbn zeta. rewrite Hs.
  change (Some Pool ?? Queue) with Pool.
  destruct (Nat.eqb_spec (length (asyncTaskList o)) 0) as [E|E];
    [destruct (asyncTaskList o); [done|discriminate E]|].
  destruct (Nat.leb_spec (length (asyncTaskList o)) asyncPoolChunkSize);
    [exact H|lia].
Qed.

Lemma Exec_start_chunked this arg w o leveled w1 w' :
  heap w !! this = Some o -> isStarted o = false ->
  asyncPoolChunkSize < length (asyncTaskList o) ->
  constructor randomUUID
    (Some {| Options.name := None;
             Options.debug := None;
             Options.taskMode := None;
             Options.asyncTaskList :=
               Some ((fun chunkedAsyncTaskList =>
                        TaskLike (ChunkFunction this chunkedAsyncTaskList)
                                 NameAbsent)
                     <$> split (asyncTaskList o)
                           (Some (Z.of_nat asyncPoolChunkSize)));
             Options.finalCallback := None |})
    (update this (set_isStarted true) (recordStart this arg (Some Pool) o w))
  = (leveled, w1) ->
  Exec (CQueue leveled (Some (FlattenCallback this))) w1 w' ->
  Exec (CStart this arg (Some Pool)) w w'.
Proof.
  intros Ho Hs Hlt Hc [n H]. exists (S n).
  rewrite (exec_start_unfold _ _ _ _ _ _ Ho). cbn zeta. rewrite Hs.
  destruct (Nat.eqb_spec (length (asyncTaskList o)) 0);
    [unfold asyncPoolChunkSize in *; lia|].
  change (Some Pool ?? Queue) with Pool.
  destruct (Nat.leb_spec (length (asyncTaskList o)) asyncPoolChunkSize);
    [lia|].
  rewrite Hc. exact H.
Qed.

Lemma Exec_queue this arg w w' :
  Exec (CStart this arg (Some Queue)) w w' -> Exec (CQueue this arg) w w'.
Proof. intros [n H]. exists (S n). exact H. Qed.

Lemma Exec_pool this arg w w' :
  Exec (CStart this arg (Some Pool)) w w' -> Exec (CPool this arg) w w'.
Proof. intros [n H]. exists (S n). exact H. Qed.

Lemma Exec_quit this arg w w' :
  Exec (CFinished this)
       (update this (set_finalCallback
                       (match arg with Some f => Some f | None => None end)) w)
       w' ->
  Exec (CQuit this arg) w w'.
Proof. intros [n H]. exists (S n). exact H. Qed.
End InterpreterFacts.

(** ** The registry: [add] and the constructor *)

Lemma string_app_nil_r (s : string) : s +:+ "" = s.
Proof.
  induction s as [|c s IH]; [reflexivity|].
  change (String c (s +:+ "") = String c s). f_equal. exact IH.
Qed.

Section Registry.
Variable randomUUID : nat -> string.

Lemma mapCandidates_spec cs : forall w,
  mapCandidates randomUUID cs w
  = (imap (fun k c => (candidateFunction c,
                       candidateName (randomUUID (uuidCount w + k)) c)) cs,
     set_uuidCount (uuidCount w + length cs) w).
Proof.
  induction cs as [|c cs IH]; intros w; simpl.
  - rewrite Nat.add_0_r. destruct w; reflexivity.
  - unfold wrapCandidate, generateUUID. simpl.
    rewrite string_app_nil_r, Nat.add_0_r.
    assert (Hc : (let '(t, w1) :=
                    match c with
                    | BareFunction f =>
                        ((f, Some (randomUUID (uuidCount w))),
                         set_uuidCount (S (uuidCount w)) w)
                    | TaskLike f NameAbsent =>
                        ((f, Some (randomUUID (uuidCount w))),
                         set_uuidCount (S (uuidCount w)) w)
                    | TaskLike f (NamePresent v) =>
                        ((f, v), set_uuidCount (S (uuidCount w)) w)
                    end in (t, w1))
                 = ((candidateFunction c,
                     candidateName (randomUUID (uuidCount w)) c),
                    set_uuidCount (S (uuidCount w)) w))
      by (destruct c as [f|f [|v]]; reflexivity).
    destruct c as [f|f [|v]]; rewrite IH; simpl; f_equal;
      try (f_equal; apply imap_ext; intros; simpl; do 3 f_equal; lia);
      try (unfold set_uuidCount; simpl; f_equal; lia).
Qed.

Lemma foldl_push this ts : forall w o,
  heap w !! this = Some o ->
  foldl (fun w asyncTask =>
           update this
             (fun o => set_asyncTaskList (asyncTaskList o ++ [asyncTask]) o) w)
        w ts
  = set_heap (<[this := set_asyncTaskList (asyncTaskList o ++ ts) o]> (heap w)) w.
Proof.
  induction ts as [|t ts IH]; intros w o Ho; simpl.
  - rewrite app_nil_r.
    replace (set_asyncTaskList (asyncTaskList o) o) with o
      by (destruct o; reflexivity).
    rewrite list_insert_id by assumption. destruct w; reflexivity.
  - erewrite IH by (apply lookup_update_eq; exact Ho).
    unfold update, set_heap. simpl.
    rewrite (alter_lookup_insert _ _ _ _ Ho), list_insert_insert_eq.
    rewrite <- app_assoc. reflexivity.
Qed.

Lemma imap_nameTask u cs :
  imap nameTask
    (imap (fun k c => (candidateFunction c,
                       candidateName (randomUUID (u + k)) c)) cs)
  = registered randomUUID u cs.
Proof.
  apply list_eq. intros i. unfold registered.
  rewrite !list_lookup_imap. destruct (cs !! i); reflexivity.
Qed.

(** [add] on an object of the heap. *)
Lemma add_spec this taskList w o :
  heap w !! this = Some o ->
  add randomUUID this taskList w
  = (this,
     {| heap :=
          <[this :=
              set_asyncTaskList
                (asyncTaskList o
                 ++ registered randomUUID (uuidCount w) (candidates taskList)) o]>
            (heap w);
        pending := pending w;
        trace := trace w;
        uuidCount := uuidCount w + length (candidates taskList) |}).
Proof.
  intros Ho. destruct taskList as [|a|l]; unfold add.
  - simpl. rewrite app_nil_r, Nat.add_0_r.
    replace (set_asyncTaskList (asyncTaskList o) o) with o
      by (destruct o; reflexivity).
    rewrite list_insert_id by assumption. destruct w; reflexivity.
  - rewrite mapCandidates_spec.
    erewrite foldl_push by exact Ho. rewrite imap_nameTask. reflexivity.
  - rewrite mapCandidates_spec.
    erewrite foldl_push by exact Ho. rewrite imap_nameTask. reflexivity.
Qed.

Lemma foldl_add_singly this cs : forall w o,
  heap w !! this = Some o ->
  foldl (fun w task => (add randomUUID this (One task) w).2) w cs
  = {| heap :=
         <[this :=
             set_asyncTaskList
               (asyncTaskList o ++ registeredSingly randomUUID (uuidCount w) cs)
               o]> (heap w);
       pending := pending w;
       trace := trace w;
       uuidCount := uuidCount w + length cs |}.
Proof.
  induction cs as [|c cs IH]; intros w o Ho.
  - simpl. rewrite app_nil_r, Nat.add_0_r.
    replace (set_asyncTaskList (asyncTaskList o) o) with o
      by (destruct o; reflexivity).
    rewrite list_insert_id by assumption. destruct w; reflexivity.
  - cbn [foldl]. rewrite (add_spec this (One c) w o Ho). cbn [snd].
    erewrite IH by (simpl; apply list_lookup_insert_eq;
                    eapply lookup_lt_Some; eauto).
    simpl. rewrite list_insert_insert_eq, <- app_assoc.
    unfold registered, registeredSingly. simpl. rewrite Nat.add_0_r.
    f_equal; [|lia]. f_equal. unfold set_asyncTaskList. simpl.
    do 3 f_equal. apply imap_ext. intros k c' _. simpl.
    do 4 f_equal. lia.
Qed.

(** The constructor allocates [constructed ...] at the end of the heap. *)
Lemma constructor_spec options w :
  constructor randomUUID (Some options) w
  = (length (heap w),
     {| heap := heap w ++ [constructed randomUUID (uuidCount w) options];
        pending := pending w;
        trace := trace w;
        uuidCount :=
          S (uuidCount w) + length (Options.asyncTaskList options ?? []) |}).
Proof.
  unfold constructor, generateUUID. cbn [mbind option_bind].
  f_equal.
  erewrite foldl_add_singly
    by (simpl; apply list_lookup_middle; reflexivity).
  simpl.
  replace (length (heap w)) with (length (heap w) + 0) at 1 by lia.
  rewrite insert_app_r. simpl. unfold constructed.
  change ("" +:+ randomUUID (uuidCount w) +:+ "")
    with (randomUUID (uuidCount w) +:+ "").
  rewrite string_app_nil_r.
  destruct options as [nm db tm tl fc]; simpl.
  destruct nm as [[|c s]|]; reflexivity.
Qed.

Lemma registered_functions u cs :
  asyncTaskFunction <$> registered randomUUID u cs = candidateFunction <$> cs.
Proof.
  unfold registered. apply list_eq. intros i.
  rewrite list_lookup_fmap, list_lookup_imap, list_lookup_fmap.
  destruct (cs !! i); reflexivity.
Qed.

(** C8: [add] takes nothing ([null] / [undefined]), one candidate or an
    array of candidates, a candidate being a bare function or a
    task-like record.  It returns [this].  With nothing, the world is
    unchanged.  Otherwise the candidates are appended to the registry
    in their order, each with its function; a bare function gets the
    UUID drawn for it (trimmed) as its name.  Nothing else changes. *)
Theorem add_appends_in_order w this o taskList :
  heap w !! this = Some o ->
  exists w' o',
    add randomUUID this taskList w = (this, w')
    /\ heap w' !! this = Some o'
    /\ asyncTaskList o'
       = asyncTaskList o
         ++ registered randomUUID (uuidCount w) (candidates taskList)
    /\ asyncTaskFunction
         <$> registered randomUUID (uuidCount w) (candidates taskList)
       = candidateFunction <$> candidates taskList
    /\ (forall k f,
          candidates taskList !! k = Some (BareFunction f) ->
          asyncTaskList o' !! (length (asyncTaskList o) + k)
          = Some {| asyncTaskFunction := f;
                    taskName := trim (randomUUID (uuidCount w + k)) |})
    /\ (taskList = Null -> w' = w)
    /\ taskMode o' = taskMode o
    /\ asyncTaskResultList o' = asyncTaskResultList o
    /\ finalCallback o' = finalCallback o
    /\ isStarted o' = isStarted o
    /\ isFinished o' = isFinished o
    /\ (forall i, i <> this -> heap w' !! i = heap w !! i)
    /\ pending w' = pending w
    /\ trace w' = trace w.
Proof.
  intros Ho. rewrite (add_spec this taskList w o Ho).
  eexists _, _. split; [reflexivity|]. split.
  { simpl. apply list_lookup_insert_eq. eapply lookup_lt_Some; eauto. }
  simpl. split; [reflexivity|]. split; [apply registered_functions|].
  split.
  { intros k f Hk. rewrite lookup_app_r by lia.
    replace (length (asyncTaskList o) + k - length (asyncTaskList o)) with k
      by lia.
    unfold registered. rewrite list_lookup_imap, Hk. reflexivity. }
  split.
  { intros ->. simpl. rewrite app_nil_r, Nat.add_0_r.
    replace (set_asyncTaskList (asyncTaskList o) o) with o
      by (destruct o; reflexivity).
    rewrite list_insert_id by assumption. destruct w; reflexivity. }
  repeat (split; [reflexivity|]). split; [|split; reflexivity].
  intros i Hi. apply list_lookup_insert_ne. congruence.
Qed.
End Registry.


(** ** Task names *)

Lemma string_app_assoc (s1 s2 s3 : string) :
  (s1 +:+ s2) +:+ s3 = s1 +:+ (s2 +:+ s3).
Proof.
  induction s1 as [|c s1 IH]; [reflexivity|].
  change (String c ((s1 +:+ s2) +:+ s3) = String c (s1 +:+ (s2 +:+ s3))).
  f_equal. exact IH.
Qed.

Lemma rev_app_append (s1 s2 : string) :
  String.rev_app s1 s2 = String.rev s1 +:+ s2.
Proof.
  revert s2. induction s1 as [|c s1 IH]; intros s2; [reflexivity|].
  unfold String.rev. simpl. rewrite (IH (String c s2)), (IH (String c "")).
  rewrite string_app_assoc. reflexivity.
Qed.

Lemma rev_cons (c : Ascii.ascii) (s : string) :
  String.rev (String c s) = String.rev s +:+ String c "".
Proof. unfold String.rev at 1. simpl. apply rev_app_append. Qed.

Lemma rev_append (s1 s2 : string) :
  String.rev (s1 +:+ s2) = String.rev s2 +:+ String.rev s1.
Proof.
  induction s1 as [|c s1 IH].
  - simpl. rewrite string_app_nil_r. reflexivity.
  - change (String c s1 +:+ s2) with (String c (s1 +:+ s2)).
    rewrite !rev_cons, IH, string_app_assoc. reflexivity.
Qed.

Lemma rev_involutive (s : string) : String.rev (String.rev s) = s.
Proof.
  induction s as [|c s IH]; [reflexivity|].
  rewrite rev_cons, rev_append, IH. reflexivity.
Qed.

Lemma trimStart_noLeadingSpace s : noLeadingSpace (trimStart s).
Proof.
  induction s as [|c s IH]; simpl; [exact I|].
  destruct (isWhiteSpace c) eqn:Hc; [exact IH|exact Hc].
Qed.

Lemma noLeadingSpace_trimStart s : noLeadingSpace s -> trimStart s = s.
Proof. destruct s as [|c s]; simpl; [reflexivity|]. intros ->. reflexivity. Qed.

Lemma trimEnd_noTrailingSpace s : noTrailingSpace (trimEnd s).
Proof.
  unfold noTrailingSpace, trimEnd. rewrite rev_involutive.
  apply trimStart_noLeadingSpace.
Qed.

(** What [trimStart] leaves of a string that goes on with a character
    that is not white space still goes on with it. *)
Lemma trimStart_append s c t :
  isWhiteSpace c = false ->
  exists s', trimStart (s +:+ String c t) = s' +:+ String c t.
Proof.
  intros Hc. induction s as [|d s IH].
  - exists "". simpl. rewrite Hc. reflexivity.
  - change (String d s +:+ String c t) with (String d (s +:+ String c t)).
    simpl. destruct (isWhiteSpace d); [exact IH|].
    exists (String d s). reflexivity.
Qed.

Lemma trimEnd_noLeadingSpace s : noLeadingSpace s -> noLeadingSpace (trimEnd s).
Proof.
  destruct s as [|c s]; [intros _; exact I|]. simpl. intros Hc.
  unfold trimEnd. rewrite rev_cons.
  destruct (trimStart_append (String.rev s) c "" Hc) as [s' ->].
  rewrite rev_append. simpl. exact Hc.
Qed.

Lemma trim_trimmed s : noLeadingSpace (trim s) /\ noTrailingSpace (trim s).
Proof.
  unfold trim. split.
  - apply trimEnd_noLeadingSpace, trimStart_noLeadingSpace.
  - apply trimEnd_noTrailingSpace.
Qed.

Lemma trimmed_trim s : noLeadingSpace s -> noTrailingSpace s -> trim s = s.
Proof.
  intros Hl Ht. unfold trim. rewrite (noLeadingSpace_trimStart s Hl).
  unfold trimEnd. rewrite (noLeadingSpace_trimStart _ Ht).
  apply rev_involutive.
Qed.

Lemma trim_idempotent s : trim (trim s) = trim s.
Proof. destruct (trim_trimmed s). apply trimmed_trim; assumption. Qed.

Section RegistryNames.
Variable randomUUID : nat -> string.

(** X8: the names in the registry are trimmed: whatever [add] is given,
    the name of every task it registers neither begins nor ends with
    white space, and trimming it again changes nothing.  The name is the
    trimmed [taskName] of the candidate when it has one, the trimmed
    UUID drawn for it when the property is missing, and the trimmed
    [index#functionName] when the property is there but [null] or
    [undefined]. *)
Theorem add_registers_trimmed_names w this o taskList :
  heap w !! this = Some o ->
  exists o',
    heap (add randomUUID this taskList w).2 !! this = Some o'
    /\ length (asyncTaskList o')
       = length (asyncTaskList o) + length (candidates taskList)
    /\ forall k c,
         candidates taskList !! k = Some c ->
         exists t,
           asyncTaskList o' !! (length (asyncTaskList o) + k) = Some t
           /\ asyncTaskFunction t = candidateFunction c
           /\ taskName t
              = trim (match c with
                      | TaskLike _ (NamePresent (Some name)) => name
                      | TaskLike f (NamePresent None) =>
                          pretty k +:+ "#" +:+ functionName f
                      | _ => randomUUID (uuidCount w + k)
                      end)
           /\ trim (taskName t) = taskName t
           /\ noLeadingSpace (taskName t) /\ noTrailingSpace (taskName t).
Proof.
  intros Ho. rewrite (add_spec randomUUID this taskList w o Ho).
  eexists. split.
  { simpl. apply list_lookup_insert_eq. eapply lookup_lt_Some; eauto. }
  simpl. split.
  { rewrite length_app. unfold registered. rewrite length_imap. reflexivity. }
  intros k c Hc. eexists. split.
  { rewrite lookup_app_r by lia.
    replace (length (asyncTaskList o) + k - length (asyncTaskList o)) with k
      by lia.
    unfold registered. rewrite list_lookup_imap, Hc. reflexivity. }
  split; [reflexivity|]. split.
  { unfold nameTask. simpl. destruct c as [f|f [|[name|]]]; reflexivity. }
  unfold nameTask. simpl. split; [apply trim_idempotent|apply trim_trimmed].
Qed.

Lemma registeredSingly_placeFree u cs :
  Forall placeFree cs ->
  registeredSingly randomUUID u cs = registered randomUUID u cs.
Proof.
  intros Hfree. unfold registeredSingly, registered.
  apply list_eq. intros k. rewrite !list_lookup_imap.
  destruct (cs !! k) as [c|] eqn:Hk; [|reflexivity]. simpl.
  pose proof (proj1 (Forall_lookup _ _) Hfree k c Hk) as Hc.
  destruct c as [f|f [|[name|]]]; simpl in *; try reflexivity. tauto.
Qed.

(** X9: passing tasks to the constructor is the same as constructing
    the coordinator without them and handing them to [add] in one
    array, as long as no task record has a [taskName] property that is
    [null] or [undefined].  Such a record is where the two differ: the
    constructor adds the tasks one by one, so it names every such
    record after index 0. *)
Theorem constructor_tasks_like_add options l w :
  Options.asyncTaskList options = Some l ->
  (Forall placeFree l ->
   constructor randomUUID (Some options) w
   = add randomUUID (constructor randomUUID (Some (withoutTasks options)) w).1
       (Many l) (constructor randomUUID (Some (withoutTasks options)) w).2)
  /\ (forall k f,
        l !! k = Some (TaskLike f (NamePresent None)) ->
        exists o,
          heap (constructor randomUUID (Some options) w).2 !! length (heap w)
          = Some o
          /\ asyncTaskList o !! k
             = Some {| asyncTaskFunction := f;
                       taskName := trim ("0#" +:+ functionName f) |}).
Proof.
  intros Hl. split.
  - intros Hfree. rewrite !constructor_spec. cbn [fst snd].
    erewrite add_spec
      by (simpl; apply list_lookup_middle; reflexivity).
    f_equal. cbn [heap pending trace uuidCount candidates].
    rewrite Hl. cbn.
    rewrite insert_app_r_alt, Nat.sub_diag, Nat.add_0_r by lia. cbn.
    do 3 f_equal.
    rewrite <- (registeredSingly_placeFree (S (uuidCount w)) l Hfree).
    unfold constructed, set_asyncTaskList, withoutTasks.
    cbn -[registeredSingly]. rewrite Hl. reflexivity.
  - intros k f Hk. rewrite constructor_spec. cbn [snd heap].
    eexists. split; [apply list_lookup_middle; reflexivity|].
    unfold constructed. cbn. rewrite Hl. cbn.
    unfold registeredSingly. rewrite list_lookup_imap, Hk. reflexivity.
Qed.
End RegistryNames.
(** ** [String.prototype.explode] *)

Lemma prefix_append (s1 s2 : string) :
  String.prefix s1 s2 = true -> exists rest, s2 = s1 +:+ rest.
Proof.
  revert s2. induction s1 as [|c s1 IH]; intros s2 H.
  - exists s2. reflexivity.
  - destruct s2 as [|c' s2]; [discriminate|]. simpl in H.
    destruct (Ascii.ascii_dec c c') as [<-|]; [|discriminate].
    destruct (IH s2 H) as [rest ->]. exists rest. reflexivity.
Qed.

Lemma length_append (s1 s2 : string) :
  String.length (s1 +:+ s2) = String.length s1 + String.length s2.
Proof.
  induction s1 as [|c s1 IH]; [reflexivity|]. simpl. rewrite IH. reflexivity.
Qed.

Lemma split_scan_skip separator (passed rest piece : string) :
  split_scan separator (passed +:+ rest) piece (String.length passed)
  = split_scan separator rest piece 0.
Proof.
  induction passed as [|c passed IH]; [|exact IH].
  destruct rest; reflexivity.
Qed.

Lemma split_scan_cons separator rest piece skip :
  exists first pieces,
    split_scan separator rest piece skip = first :: pieces.
Proof.
  revert piece skip. induction rest as [|c rest IH]; intros piece skip.
  - eauto.
  - cbn [split_scan]. destruct skip as [|skip]; [|apply IH].
    destruct (String.prefix separator (String c rest)); [eauto|apply IH].
Qed.

Lemma joinWith_cons separator element first pieces :
  joinWith separator (element :: first :: pieces)
  = element +:+ separator +:+ joinWith separator (first :: pieces).
Proof. reflexivity. Qed.

Lemma join_split_scan separator n : forall rest piece,
  separator <> EmptyString ->
  String.length rest <= n ->
  joinWith separator (split_scan separator rest piece 0) = piece +:+ rest.
Proof.
  induction n as [|n IH]; intros [|c rest] piece Hsep Hn; simpl in Hn;
    try lia; try (simpl; rewrite string_app_nil_r; reflexivity).
  cbn [split_scan].
  destruct (String.prefix separator (String c rest)) eqn:Hprefix.
  - destruct separator as [|c' separator']; [congruence|].
    destruct (prefix_append _ _ Hprefix) as [rest2 Hrest].
    injection Hrest as <- ->.
    replace (String.length (String c separator') - 1)
      with (String.length separator') by (simpl; lia).
    rewrite split_scan_skip.
    destruct (split_scan_cons (String c separator') rest2 EmptyString 0)
      as (first & pieces & Hscan).
    rewrite Hscan, joinWith_cons, <- Hscan.
    rewrite IH; [reflexivity|congruence|].
    simpl in Hn. rewrite length_append in Hn. lia.
  - rewrite IH by (congruence || lia).
    rewrite string_app_assoc. reflexivity.
Qed.

Lemma join_characters (s : string) : joinWith EmptyString (characters s) = s.
Proof.
  unfold characters. induction s as [|c s IH]; [reflexivity|].
  simpl. destruct s as [|c' s]; [reflexivity|].
  simpl in *. rewrite IH. reflexivity.
Qed.

(** Joined by the separator, the pieces of [split] give the string
    back. *)
Lemma join_splitString (this separator : string) :
  joinWith separator (splitString this separator) = this.
Proof.
  unfold splitString. destruct separator as [|c separator].
  - apply join_characters.
  - rewrite (join_split_scan _ (String.length this)); [reflexivity| |lia].
    congruence.
Qed.

Lemma joinWith_app separator (l1 l2 : list string) :
  l1 <> [] -> l2 <> [] ->
  joinWith separator (l1 ++ l2)
  = joinWith separator l1 +:+ separator +:+ joinWith separator l2.
Proof.
  intros H1 H2. induction l1 as [|x l1 IH]; [congruence|].
  destruct l1 as [|y l1].
  - destruct l2; [congruence|]. reflexivity.
  - change ((x :: y :: l1) ++ l2) with (x :: y :: (l1 ++ l2)).
    rewrite !joinWith_cons.
    change (y :: l1 ++ l2) with ((y :: l1) ++ l2).
    rewrite IH by congruence. rewrite !string_app_assoc. reflexivity.
Qed.

Lemma slice_take {T} (l : list T) (k : Z) :
  (0 <= k)%Z -> slice l 0 k = take (Z.to_nat k) l.
Proof.
  intros Hk. unfold slice, relativeIndex.
  rewrite (proj2 (Z.ltb_ge _ _)) by lia.
  rewrite (proj2 (Z.ltb_ge _ _)) by lia.
  replace (Z.to_nat (Z.min 0 (Z.of_nat (length l)))) with 0 by lia.
  rewrite drop_0.
  destruct (Z.le_ge_cases k (Z.of_nat (length l))) as [Hle|Hge].
  - do 2 f_equal. lia.
  - rewrite !take_ge by lia. reflexivity.
Qed.

Lemma slice_drop {T} (l : list T) (k : Z) :
  (0 <= k)%Z -> slice l k (Z.of_nat (length l)) = drop (Z.to_nat k) l.
Proof.
  intros Hk. unfold slice, relativeIndex.
  rewrite (proj2 (Z.ltb_ge _ _)) by lia.
  rewrite (proj2 (Z.ltb_ge _ _)) by lia.
  destruct (Z.le_ge_cases k (Z.of_nat (length l))) as [Hle|Hge].
  - rewrite take_ge by (rewrite length_drop; lia). f_equal. lia.
  - rewrite !drop_ge by lia. apply take_nil.
Qed.

(** X24: [explode] and [join].  Without a limit, or with a limit below
    2, [explode] is [split], and joining the pieces by the separator
    gives the string back.  With a limit of 2 or more, at most
    [limit - 1] pieces of [split] are kept and what is left of them is
    joined into one more piece: there are [limit] pieces when [split]
    gives that many, and joining them gives the string back; when
    [split] gives fewer, an empty piece is added to them, and joining
    gives the string followed by a separator. *)
Theorem explode_joins_back (this separator : string) :
  joinWith separator (explode this separator None) = this
  /\ forall limit : Z,
       let pieces := Z.of_nat (length (splitString this separator)) in
       ((limit < 2)%Z ->
        explode this separator (Some limit) = splitString this separator)
       /\ ((2 <= limit)%Z ->
           Z.of_nat (length (explode this separator (Some limit)))
           = (Z.min pieces (limit - 1) + 1)%Z
           /\ joinWith separator (explode this separator (Some limit))
              = if (limit <=? pieces)%Z then this
                else this +:+ separator).
Proof.
  split; [apply join_splitString|]. intros limit pieces. split.
  - intros Hlimit. unfold explode.
    destruct (limit =? 0)%Z; [reflexivity|]. simpl.
    rewrite (proj2 (Z.ltb_ge _ _)) by lia. reflexivity.
  - intros Hlimit. unfold explode.
    rewrite (proj2 (Z.eqb_neq _ _)) by lia.
    rewrite (proj2 (Z.ltb_lt _ _)) by lia. simpl andb. cbv iota.
    rewrite slice_take, slice_drop by lia.
    set (strList := splitString this separator) in *.
    set (k := Z.to_nat (limit - 1)).
    split.
    + rewrite length_app, length_take. simpl. subst pieces. lia.
    + destruct (Z.leb_spec limit pieces) as [Hle|Hgt].
      * assert (Htake : take k strList <> []).
        { intros H. apply (f_equal length) in H.
          rewrite length_take in H. simpl in H. subst pieces. lia. }
        assert (Hdrop : drop k strList <> []).
        { intros H. apply (f_equal length) in H.
          rewrite length_drop in H. simpl in H. subst pieces. lia. }
        rewrite joinWith_app by congruence.
        change (joinWith separator [joinWith separator (drop k strList)])
          with (joinWith separator (drop k strList)).
        rewrite <- (joinWith_app separator (take k strList)
                      (drop k strList)) by assumption.
        rewrite take_drop. apply join_splitString.
      * rewrite drop_ge, take_ge by (subst pieces; lia).
        change (joinWith separator []) with EmptyString.
        destruct strList as [|first rest] eqn:Hlist.
        -- simpl. pose proof (join_splitString this separator) as Hjoin.
           fold strList in Hjoin. rewrite Hlist in Hjoin. simpl in Hjoin.
           subst this.
           unfold splitString in Hlist.
           destruct separator as [|c separator]; [reflexivity|].
           discriminate.
        -- rewrite joinWith_app by congruence.
           change (joinWith separator [EmptyString]) with EmptyString.
           rewrite <- Hlist. unfold strList. rewrite join_splitString.
           rewrite string_app_nil_r. reflexivity.
Qed.
(** ** Facts about [isDataEqual] *)

(** *** The sorted list of names *)

Lemma compare_trans_le (x y z : string) :
  String.compare x y <> Gt -> String.compare y z <> Gt ->
  String.compare x z <> Gt.
Proof.
  revert y z. induction x as [|a x IH]; intros [|b y] [|c z]; simpl;
    try congruence.
  unfold Ascii.compare.
  destruct (N.compare_spec (Ascii.N_of_ascii a) (Ascii.N_of_ascii b))
    as [Hab|Hab|Hab]; [|clear IH|congruence];
  destruct (N.compare_spec (Ascii.N_of_ascii b) (Ascii.N_of_ascii c))
    as [Hbc|Hbc|Hbc]; try congruence; intros Hxy Hyz.
  - rewrite Hab, Hbc, N.compare_refl. eapply IH; eauto.
  - rewrite Hab. rewrite (proj2 (N.compare_lt_iff _ _) Hbc). congruence.
  - rewrite <- Hbc. rewrite (proj2 (N.compare_lt_iff _ _) Hab). congruence.
  - rewrite (proj2 (N.compare_lt_iff _ _) (N.lt_trans _ _ _ Hab Hbc)).
    congruence.
Qed.

Lemma codeUnitOrder_compare x y :
  codeUnitOrder x y <-> String.compare x y <> Gt.
Proof.
  unfold codeUnitOrder, String.leb.
  destruct (String.compare x y); split; congruence.
Qed.

#[local] Instance codeUnitOrder_trans : Transitive codeUnitOrder.
Proof.
  intros x y z. rewrite !codeUnitOrder_compare. apply compare_trans_le.
Qed.

#[local] Instance codeUnitOrder_antisym : AntiSymm (=) codeUnitOrder.
Proof. intros x y. apply String.leb_antisym. Qed.

#[local] Instance codeUnitOrder_total : Total codeUnitOrder.
Proof. intros x y. apply String.leb_total. Qed.

(** Two lists of names sort to the same list exactly when they hold the
    same names, as often. *)
Lemma sort_eq_iff (l1 l2 : list string) : sort l1 = sort l2 <-> l1 ≡ₚ l2.
Proof.
  unfold sort. split; intros H.
  - rewrite <- (merge_sort_Permutation codeUnitOrder l1), H.
    apply merge_sort_Permutation.
  - apply (Sorted_unique codeUnitOrder);
      try apply Sorted_merge_sort; try apply _.
    rewrite !merge_sort_Permutation. exact H.
Qed.


Lemma length_sort (l : list string) : length (sort l) = length l.
Proof.
  apply Permutation_length, merge_sort_Permutation.
Qed.

(** *** The loop *)

Lemma allEqual_ext {K} (f g : K -> option (Completion bool)) keys :
  (forall key, key ∈ keys -> f key = g key) ->
  allEqual f keys = allEqual g keys.
Proof.
  induction keys as [|key keys IH]; intros H; simpl; [reflexivity|].
  rewrite <- (H key) by left. rewrite IH; [reflexivity|].
  intros k Hk. apply H. right. exact Hk.
Qed.

Lemma allEqual_true {K} (f : K -> option (Completion bool)) keys :
  (forall key, key ∈ keys -> f key = Some (Normal true)) ->
  allEqual f keys = Some (Normal true).
Proof.
  induction keys as [|key keys IH]; intros H; simpl; [reflexivity|].
  rewrite (H key) by left. apply IH. intros k Hk. apply H. right. exact Hk.
Qed.

Lemma allEqual_fmap {K L} (h : K -> L) (f : L -> option (Completion bool))
    keys :
  allEqual f (h <$> keys) = allEqual (fun key => f (h key)) keys.
Proof.
  induction keys as [|key keys IH]; [reflexivity|].
  rewrite fmap_cons. cbn [allEqual]. rewrite IH. reflexivity.
Qed.

Lemma allEqual_is_Some {K} (f : K -> option (Completion bool)) keys :
  (forall key, key ∈ keys -> is_Some (f key)) ->
  is_Some (allEqual f keys).
Proof.
  induction keys as [|key keys IH]; intros H; simpl; [eauto|].
  destruct (H key) as [[[|]|e] ->]; [left| | |]; eauto.
  apply IH. intros k Hk. apply H. right. exact Hk.
Qed.

(** The loop over the indices of two lists of the same length, as a
    loop over their pairs. *)
Lemma allEqual_indices {A} (d : A) (f : A -> A -> option (Completion bool))
    (la lb : list A) :
  length la = length lb ->
  allEqual (fun i => f (default d (la !! i)) (default d (lb !! i)))
           (seq 0 (length la))
  = allEqual (fun pair => f pair.1 pair.2) (zip la lb).
Proof.
  revert lb. induction la as [|x la IH]; intros [|y lb] Hlen;
    try discriminate; [reflexivity|].
  simpl.
  destruct (f x y) as [[[|]|]|]; try reflexivity.
  rewrite <- fmap_S_seq, allEqual_fmap.
  simpl. apply IH. simpl in Hlen. lia.
Qed.

Lemma isDataEqual_bounded_eq {Number} numberEquals arrayPrototypeKeys
    arrayPrototype objectPrototype (a b : AnyType Number) indicator :
  isDataEqual numberEquals arrayPrototypeKeys arrayPrototype objectPrototype
    a b indicator
  = isDataEqual_bounded numberEquals arrayPrototypeKeys arrayPrototype
      objectPrototype (S (height a)) a b indicator.
Proof. reflexivity. Qed.

Section DataEqualFacts.
Context {Number : Type}.
Variable numberEquals : Number -> Number -> bool.
Variable arrayPrototypeKeys : list string.
Variable arrayPrototype : string -> option nat.
Variable objectPrototype : string -> option nat.

Local Abbreviation AnyType := (AnyType Number).
Local Abbreviation isDataEqual :=
  (isDataEqual numberEquals arrayPrototypeKeys arrayPrototype objectPrototype).
Local Abbreviation isDataEqual_bounded :=
  (isDataEqual_bounded numberEquals arrayPrototypeKeys arrayPrototype
     objectPrototype).
Local Abbreviation isDataEqual_body :=
  (isDataEqual_body numberEquals arrayPrototypeKeys arrayPrototype
     objectPrototype).

(** *** The depth of the recursion *)

Lemma height_element (v : AnyType) i x :
  elements v !! i = Some x -> height x < height v.
Proof.
  destruct v as [| | | | | |ref elementsV|]; try discriminate.
  simpl. intros Hx. apply list_elem_of_lookup_2 in Hx.
  assert (height x <= list_max (map height elementsV)); [|lia].
  induction Hx; simpl; lia.
Qed.

Lemma height_property ref (properties : list (string * AnyType)) property :
  property ∈ properties ->
  height property.2 < height (VObject ref properties).
Proof.
  simpl. intros Hin.
  assert (height property.2
          <= list_max (map (fun property => height property.2) properties));
    [|lia].
  induction Hin; simpl; lia.
Qed.

Lemma height_getField (a : AnyType) fieldName x :
  typeof a = "object" ->
  isArray a = false ->
  getField arrayPrototype objectPrototype a fieldName = Normal x ->
  height x < height a.
Proof.
  destruct a as [| | | | | | |ref properties]; try discriminate.
  intros _ _. simpl.
  destruct (list_find _ properties) as [[i property]|] eqn:Hfind.
  - intros [= <-]. apply list_find_Some in Hfind as (Hi & _).
    apply (height_property ref). eapply list_elem_of_lookup_2; eauto.
  - intros [= <-]. unfold inherited.
    destruct (objectPrototype fieldName); simpl; lia.
Qed.

(** The body of [isDataEqual] calls the function it is given on values
    that are less deep than [a]. *)
Lemma isDataEqual_body_ext rec1 rec2 (a b : AnyType) indicator :
  (forall x y, height x < height a ->
               rec1 x y indicator = rec2 x y indicator) ->
  isDataEqual_body rec1 a b indicator = isDataEqual_body rec2 a b indicator.
Proof.
  intros Hrec. unfold isDataEqual_body.
  destruct (strictlyEqual numberEquals a b); [reflexivity|].
  destruct (negb (typeof a =? typeof b)%string); [reflexivity|].
  destruct (String.eqb "object" (typeof a)) eqn:Hobject; [|reflexivity].
  apply String.eqb_eq in Hobject. symmetry in Hobject.
  destruct (isArray a) eqn:Harray.
  - destruct (_ || _); [reflexivity|].
    apply allEqual_ext. intros i Hi. apply Hrec.
    apply elem_of_seq in Hi. unfold elementAt.
    destruct (elements a !! i) as [x|] eqn:Hx.
    + simpl. eapply height_element; eauto.
    + apply lookup_ge_None in Hx. lia.
  - destruct (comparedFieldNames _ _ _ _) as [aFieldNameList bFieldNameList].
    destruct (negb (_ =? _)); [reflexivity|].
    destruct (negb (bool_decide _)); [reflexivity|].
    apply allEqual_ext. intros fieldName _.
    destruct (getField _ _ a fieldName) as [x|e] eqn:Hx; [|reflexivity].
    destruct (getField _ _ b fieldName) as [y|e]; [|reflexivity].
    apply Hrec. eapply height_getField; eauto.
Qed.

Lemma isDataEqual_bounded_stable depth1 :
  forall depth2 (a b : AnyType) indicator,
  height a < depth1 -> height a < depth2 ->
  isDataEqual_bounded depth1 a b indicator
  = isDataEqual_bounded depth2 a b indicator.
Proof.
  induction depth1 as [|depth1 IH]; intros [|depth2] a b indicator H1 H2;
    try lia.
  simpl. apply isDataEqual_body_ext. intros x y Hx. apply IH; lia.
Qed.

(** [isDataEqual] satisfies the equation that the source defines it
    by. *)
Lemma isDataEqual_unfold (a b : AnyType) indicator :
  isDataEqual a b indicator = isDataEqual_body isDataEqual a b indicator.
Proof.
  rewrite isDataEqual_bounded_eq. simpl. apply isDataEqual_body_ext.
  intros x y Hx. rewrite isDataEqual_bounded_eq.
  apply isDataEqual_bounded_stable; lia.
Qed.

Lemma isDataEqual_body_total rec (a b : AnyType) indicator :
  (forall x y, height x < height a -> is_Some (rec x y indicator)) ->
  is_Some (isDataEqual_body rec a b indicator).
Proof.
  intros Hrec. unfold isDataEqual_body.
  destruct (strictlyEqual numberEquals a b); [eauto|].
  destruct (negb (typeof a =? typeof b)%string); [eauto|].
  destruct (String.eqb "object" (typeof a)) eqn:Hobject; [|eauto].
  apply String.eqb_eq in Hobject. symmetry in Hobject.
  destruct (isArray a) eqn:Harray.
  - destruct (_ || _); [eauto|].
    apply allEqual_is_Some. intros i Hi. apply Hrec.
    apply elem_of_seq in Hi. unfold elementAt.
    destruct (elements a !! i) as [x|] eqn:Hx.
    + simpl. eapply height_element; eauto.
    + apply lookup_ge_None in Hx. lia.
  - destruct (comparedFieldNames _ _ _ _) as [aFieldNameList bFieldNameList].
    destruct (negb (_ =? _)); [eauto|].
    destruct (negb (bool_decide _)); [eauto|].
    apply allEqual_is_Some. intros fieldName _.
    destruct (getField _ _ a fieldName) as [x|e] eqn:Hx; [|eauto].
    destruct (getField _ _ b fieldName) as [y|e]; [|eauto].
    apply Hrec. eapply height_getField; eauto.
Qed.

(** The bound on the depth is not reached: [isDataEqual] returns or
    throws. *)
Lemma isDataEqual_total (a b : AnyType) indicator :
  is_Some (isDataEqual a b indicator).
Proof.
  rewrite isDataEqual_bounded_eq.
  assert (H : forall depth (a b : AnyType),
            height a < depth ->
            is_Some (isDataEqual_bounded depth a b indicator)).
  { clear a b. induction depth as [|depth IH]; intros a b Hdepth; [lia|].
    simpl. apply isDataEqual_body_total. intros x y Hx. apply IH. lia. }
  apply H. lia.
Qed.

Lemma isDataEqual_same (a b : AnyType) indicator :
  strictlyEqual numberEquals a b = true ->
  isDataEqual a b indicator = Some (Normal true).
Proof.
  intros H. rewrite isDataEqual_unfold. unfold isDataEqual_body.
  rewrite H. reflexivity.
Qed.

(** *** Arrays *)

Lemma sameData_arrays refA refB (elementsA elementsB : list AnyType) :
  sameData numberEquals (VArray refA elementsA) (VArray refB elementsB)
  = (length elementsA =? length elementsB)
    && forallb (fun pair => sameData numberEquals pair.1 pair.2)
         (zip elementsA elementsB).
Proof.
  simpl. revert elementsB.
  induction elementsA as [|x la IH]; intros [|y lb]; try reflexivity.
  rewrite IH. simpl. destruct (length la =? length lb); simpl.
  - reflexivity.
  - apply andb_false_r.
Qed.

Lemma allEqual_forallb {K} (f : K -> option (Completion bool)) g keys :
  (forall key, key ∈ keys -> f key = Some (Normal (g key))) ->
  allEqual f keys = Some (Normal (forallb g keys)).
Proof.
  induction keys as [|key keys IH]; intros H; simpl; [reflexivity|].
  rewrite (H key) by left. destruct (g key); [|reflexivity].
  apply IH. intros k Hk. apply H. right. exact Hk.
Qed.

Lemma arrayRefs_element ref refA (elementsA : list AnyType) x :
  x ∈ elementsA -> ref ∈ arrayRefs x ->
  ref ∈ arrayRefs (VArray refA elementsA).
Proof.
  intros Hx Href. simpl. right.
  apply list_elem_of_In, in_concat. exists (arrayRefs x).
  split; [|apply list_elem_of_In; exact Href].
  apply in_map, list_elem_of_In. exact Hx.
Qed.

Lemma deep_on_arrays n : forall (a b : AnyType) indicator,
  height a < n ->
  arrayData a = true ->
  (forall ref, ref ∈ arrayRefs a -> ref ∉ arrayRefs b) ->
  isDataEqual a b indicator = Some (Normal (sameData numberEquals a b)).
Proof.
  induction n as [|n IH]; intros a b indicator Hn Ha Hrefs; [lia|].
  rewrite isDataEqual_unfold. unfold isDataEqual_body.
  destruct a as [| |x|x|x|x|refA elementsA|]; try discriminate.
  1-5: destruct b; simpl; try reflexivity;
       match goal with |- context [if ?c then _ else _] =>
         destruct c; reflexivity end.
  destruct b as [| |y|y|y|y|refB elementsB|refB propertiesB];
    try reflexivity.
  assert (Hne : refA <> refB).
  { intros ->. apply (Hrefs refB); simpl; left. }
  rewrite sameData_arrays.
  cbn [strictlyEqual typeof isArray elements negb orb].
  rewrite (proj2 (Nat.eqb_neq _ _) Hne). simpl.
  destruct (length elementsA =? length elementsB) eqn:Hlen;
    [|reflexivity].
  apply Nat.eqb_eq in Hlen. simpl.
  unfold elementAt. cbn [elements].
  rewrite (allEqual_indices VUndefined
             (fun x y => isDataEqual x y indicator)) by exact Hlen.
  apply allEqual_forallb. intros [x y] Hin. simpl.
  apply elem_of_zip_with in Hin as (x' & y' & [= <- <-] & Hx & Hy).
  apply IH.
  + apply list_elem_of_lookup_1 in Hx as [i Hi].
    pose proof (height_element (VArray refA elementsA) i x Hi). lia.
  + simpl in Ha. apply (proj1 (forallb_forall _ _) Ha).
    apply list_elem_of_In. exact Hx.
  + intros ref Hin Hin'. apply (Hrefs ref).
    * eapply arrayRefs_element; eauto.
    * eapply arrayRefs_element; eauto.
Qed.

(** X20: on data made of arrays only, [isDataEqual] is deep strict
    equality.  When no array of [a] is an array of [b], the answer is
    [true] exactly when [a] and [b] have the same shape and strictly
    equal leaves.  Nothing is thrown, and neither the indicator nor what
    the prototypes hold makes a difference. *)
Theorem isDataEqual_deep_on_arrays (a b : AnyType)
    (ignoreObjectKeyIndicator : option string) :
  arrayData a = true ->
  (forall ref, ref ∈ arrayRefs a -> ref ∉ arrayRefs b) ->
  isDataEqual a b ignoreObjectKeyIndicator
  = Some (Normal (sameData numberEquals a b)).
Proof.
  apply (deep_on_arrays (S (height a))). lia.
Qed.


(** *** Objects *)

Lemma getField_absent ref (properties : list (string * AnyType)) fieldName :
  fieldName ∉ names properties ->
  getField arrayPrototype objectPrototype (VObject ref properties) fieldName
  = Normal (inherited objectPrototype fieldName).
Proof.
  intros Habsent. simpl.
  destruct (list_find _ properties) as [[i property]|] eqn:Hfind;
    [|reflexivity].
  apply list_find_Some in Hfind as (Hi & Hname & _).
  destruct Habsent. unfold names. rewrite <- Hname.
  apply list_elem_of_fmap_2. eapply list_elem_of_lookup_2; eauto.
Qed.

Lemma inherited_same prototype name :
  strictlyEqual numberEquals (inherited prototype name : AnyType)
    (inherited prototype name) = true.
Proof.
  unfold inherited. destruct (prototype name); simpl; [|reflexivity].
  apply Nat.eqb_refl.
Qed.

Lemma forInKeys_length (l1 l2 : list string) :
  length l1 = length l2 ->
  forInKeys arrayPrototypeKeys l1 = forInKeys arrayPrototypeKeys l2.
Proof. unfold forInKeys. intros ->. reflexivity. Qed.

Lemma filter_none {A} (f : A -> bool) l :
  (forall x, f x = false) -> List.filter f l = [].
Proof.
  intros H. induction l as [|x l IH]; simpl; [reflexivity|].
  rewrite H. exact IH.
Qed.

Lemma filter_every {A} (f : A -> bool) l :
  (forall x, f x = true) -> List.filter f l = l.
Proof.
  intros H. induction l as [|x l IH]; simpl; [reflexivity|].
  rewrite H, IH. reflexivity.
Qed.

Lemma forInKeys_nil : forInKeys arrayPrototypeKeys [] = arrayPrototypeKeys.
Proof.
  unfold forInKeys. cbn [length indexKeys seq fmap list_fmap app].
  apply filter_every. intros name.
  apply bool_decide_eq_true_2, not_elem_of_nil.
Qed.

(** With an indicator, no name is left in either list: the filter keeps
    the names whose entry in the dictionary is [null], and an entry is
    a string, or an inherited method, or [undefined]. *)
Lemma comparedFieldNames_indicator indicator la lb :
  comparedFieldNames numberEquals objectPrototype (Some indicator) la lb
  = ([], []).
Proof.
  unfold comparedFieldNames.
  rewrite !filter_none; [reflexivity| |];
    intros fieldName; unfold dictionaryValue, inherited;
    destruct (_ !! fieldName); [reflexivity| |reflexivity|];
    destruct (objectPrototype fieldName); reflexivity.
Qed.

(** The fields that are read are the same on both sides when neither
    object has a property under one of the names of the loop. *)
Lemma fields_inherited refA refB
    (propertiesA propertiesB : list (string * AnyType)) indicator keys :
  (forall name, name ∈ keys ->
     (name ∉ names propertiesA) /\ (name ∉ names propertiesB)) ->
  allEqual
    (fun fieldName =>
       match getField arrayPrototype objectPrototype
               (VObject refA propertiesA) fieldName,
             getField arrayPrototype objectPrototype
               (VObject refB propertiesB) fieldName with
       | Normal x, Normal y => isDataEqual x y indicator
       | Throw e, _ => Some (Throw e)
       | _, Throw e => Some (Throw e)
       end) keys
  = Some (Normal true).
Proof.
  intros Habsent. apply allEqual_true. intros fieldName Hin.
  destruct (Habsent fieldName Hin) as [Ha Hb].
  rewrite !getField_absent by assumption.
  apply isDataEqual_same, inherited_same.
Qed.

(** X21: without an indicator, [isDataEqual] does not compare the
    values of the properties of two objects.  The names the loop reads
    are the indices of the list of names and what [Array.prototype]
    makes enumerable; when neither object has a property under one of
    these, two distinct objects are equal exactly when they have the
    same property names, whatever the values are. *)
Theorem isDataEqual_ignores_property_values (refA refB : nat)
    (propertiesA propertiesB : list (string * AnyType)) :
  refA <> refB ->
  (forall name, name ∈ forInKeys arrayPrototypeKeys (names propertiesA) ->
     (name ∉ names propertiesA) /\ (name ∉ names propertiesB)) ->
  isDataEqual (VObject refA propertiesA) (VObject refB propertiesB) None
  = Some (Normal (bool_decide (names propertiesA ≡ₚ names propertiesB))).
Proof.
  intros Hne Habsent. rewrite isDataEqual_unfold. unfold isDataEqual_body.
  cbn [strictlyEqual typeof isArray objectKeys comparedFieldNames negb].
  rewrite (proj2 (Nat.eqb_neq _ _) Hne). simpl String.eqb. cbv iota.
  fold (names propertiesA) (names propertiesB). rewrite !length_sort.
  destruct (length (names propertiesA) =? length (names propertiesB))
    eqn:Hlen; simpl.
  - destruct (bool_decide (sort (names propertiesA)
                           = sort (names propertiesB))) eqn:Hsort; simpl.
    + apply bool_decide_eq_true, sort_eq_iff in Hsort.
      rewrite bool_decide_eq_true_2 by exact Hsort.
      rewrite (forInKeys_length _ (names propertiesA)) by apply length_sort.
      apply (fields_inherited refA refB). exact Habsent.
    + apply bool_decide_eq_false in Hsort.
      rewrite bool_decide_eq_false_2; [reflexivity|].
      intros Hperm. apply Hsort, sort_eq_iff, Hperm.
  - apply Nat.eqb_neq in Hlen.
    rewrite bool_decide_eq_false_2; [reflexivity|].
    intros Hperm. apply Hlen, Permutation_length, Hperm.
Qed.

(** X22: with an indicator, [isDataEqual] holds any two objects to be
    equal.  The filter that is to drop the marked fields tests the
    dictionary entry for [null], which it never is, and so drops every
    name of both objects; nothing of them is compared.  (The loop still
    reads what [Array.prototype] makes enumerable; the objects are taken
    to have no property of such a name.) *)
Theorem isDataEqual_indicator_equates_objects (refA refB : nat)
    (propertiesA propertiesB : list (string * AnyType))
    (ignoreObjectKeyIndicator : string) :
  (forall name, name ∈ arrayPrototypeKeys ->
     (name ∉ names propertiesA) /\ (name ∉ names propertiesB)) ->
  isDataEqual (VObject refA propertiesA) (VObject refB propertiesB)
    (Some ignoreObjectKeyIndicator)
  = Some (Normal true).
Proof.
  intros Habsent. rewrite isDataEqual_unfold. unfold isDataEqual_body.
  destruct (strictlyEqual _ _ _); [reflexivity|].
  cbn [typeof isArray negb]. simpl String.eqb. cbv iota.
  rewrite comparedFieldNames_indicator. simpl negb. cbv iota.
  rewrite forInKeys_nil. apply (fields_inherited refA refB). exact Habsent.
Qed.

(** *** [null] *)


End DataEqualFacts.
(** ** Queue mode *)


Lemma callsBackOnce_inv f :
  callsBackOnce f ->
  exists name, f = UserFunction name [resultOf f] []
            \/ f = UserFunction name [] [resultOf f].
Proof.
  destruct f as [name now later|]; simpl; [|tauto].
  destruct now as [|r [|]], later as [|r' [|]]; simpl; try tauto; eauto.
Qed.

Lemma length_expectedResults l : length (expectedResults l) = length l.
Proof. apply length_fmap. Qed.

Lemma take_S_expectedResults l i t :
  l !! i = Some t ->
  take (S i) (expectedResults l)
  = take i (expectedResults l) ++ [resultOf (asyncTaskFunction t)].
Proof.
  intros H. apply take_S_r. unfold expectedResults.
  rewrite list_lookup_fmap, H. reflexivity.
Qed.

Section QueueMode.
Variable randomUUID : nat -> string.
Local Abbreviation Exec := (Exec randomUUID).
Local Abbreviation Run := (Run randomUUID).

Variables (w0 : World) (this : nat) (o : AsyncTaskHelper).
Variable handler : option AsyncTaskHelperFinalCallback.
Hypothesis Hthis : heap w0 !! this = Some o.
Hypothesis Honce :
  Forall (fun t => callsBackOnce (asyncTaskFunction t)) (asyncTaskList o).
Hypothesis Hhandler : isUserHandler handler.

Local Abbreviation QW := (queueWorld w0 this o handler).
Local Abbreviation n := (length (asyncTaskList o)).

Lemma this_lt : this < length (heap w0).
Proof. eapply lookup_lt_Some; eauto. Qed.

Lemma QW_lookup i b :
  heap (QW i b) !! this
  = Some {| taskMode := Queue;
            asyncTaskList := asyncTaskList o;
            asyncTaskResultList := take i (expectedResults (asyncTaskList o));
            finalCallback := handler;
            isStarted := true;
            isFinished := n <=? i;
            isDebug := isDebug o;
            instanceID := instanceID o |}.
Proof. simpl. apply list_lookup_insert_eq. apply this_lt. Qed.

Ltac leb_cases :=
  repeat match goal with
    | |- context [?a <=? ?b] => destruct (Nat.leb_spec a b); try lia
    end.

Ltac tidy :=
  simpl;
  rewrite ?alter_insert_eq; simpl;
  rewrite ?Nat.add_0_r, ?Nat.add_1_r, ?fmap_app, ?app_nil_r, <- ?app_assoc;
  simpl.

(** Invoking a task that defers its callback. *)
Lemma QW_invoke_later i t :
  asyncTaskList o !! i = Some t ->
  set_pending
    (pending (emit (TaskInvoked this t) (QW i false))
     ++ [completion this (Some (ProcessNextQueueTask this)) t])
    (emit (TaskInvoked this t) (QW i false))
  = QW i true.
Proof.
  intros Ht. apply lookup_lt_Some in Ht as Hlt.
  unfold queueWorld, set_pending, emit. tidy. rewrite Ht. leb_cases.
  rewrite (take_S_r _ _ _ Ht). tidy. reflexivity.
Qed.

(** A completion arriving for task [i], not the last one. *)
Lemma QW_push_more i t :
  asyncTaskList o !! i = Some t -> S i < n ->
  pushResult this (resultOf (asyncTaskFunction t))
             (emit (TaskInvoked this t) (QW i false))
  = QW (S i) false.
Proof.
  intros Ht Hlt.
  unfold queueWorld, pushResult, update, set_heap, emit. tidy. leb_cases.
  rewrite (take_S_expectedResults _ _ _ Ht), (take_S_r _ _ _ Ht). tidy.
  reflexivity.
Qed.

(** The completion of the last task: the result is pushed and
    [finished] runs the handler. *)
Lemma QW_push_last i t :
  asyncTaskList o !! i = Some t -> S i = n ->
  Exec (CFinished this)
    (pushResult this (resultOf (asyncTaskFunction t))
                (emit (TaskInvoked this t) (QW i false)))
    (QW n false).
Proof.
  intros Ht Hn.
  assert (Hfull : take n (expectedResults (asyncTaskList o))
                  = expectedResults (asyncTaskList o))
    by (apply take_ge; rewrite length_expectedResults; lia).
  assert (Hres : take i (expectedResults (asyncTaskList o))
                 ++ [resultOf (asyncTaskFunction t)]
                 = expectedResults (asyncTaskList o))
    by (rewrite <- (take_S_expectedResults _ _ _ Ht), Hn; exact Hfull).
  assert (Htasks : take i (asyncTaskList o) ++ [t] = asyncTaskList o)
    by (rewrite <- (take_S_r _ _ _ Ht), Hn; apply firstn_all).
  assert (Hevs : (TaskInvoked this <$> take i (asyncTaskList o))
                 ++ [TaskInvoked this t]
                 = TaskInvoked this <$> asyncTaskList o)
    by (rewrite <- Htasks at 2; rewrite fmap_app; reflexivity).
  destruct handler as [[id| |]|] eqn:Hh; simpl in Hhandler; try tauto.
  - eapply Exec_finished_handler.
    + simpl. rewrite alter_insert_eq. apply list_lookup_insert_eq.
      apply this_lt.
    + simpl. leb_cases; reflexivity.
    + reflexivity.
    + simpl. rewrite Hres.
      match goal with
      | |- Exec _ ?w1 ?w2 => replace w2 with w1
      end; [apply Exec_finalCallback_user|].
      unfold queueWorld, emit, update, set_heap, set_isFinished. tidy.
      leb_cases. rewrite Hfull, firstn_all. tidy.
      rewrite Hres, <- Hevs. tidy. reflexivity.
  - match goal with
    | |- Exec _ ?w1 ?w2 =>
        replace w2 with (update this (set_isFinished true) w1)
    end.
    + eapply Exec_finished_silent.
      * simpl. rewrite alter_insert_eq. apply list_lookup_insert_eq.
        apply this_lt.
      * simpl. leb_cases; reflexivity.
      * reflexivity.
    + unfold queueWorld, emit, update, set_heap, set_isFinished, pushResult.
      tidy. leb_cases. rewrite Hfull, firstn_all. tidy.
      rewrite Hres, <- Hevs. tidy. reflexivity.
Qed.

(** The world in which the completion of task [i] is about to run. *)
Lemma QW_take_pending i t :
  asyncTaskList o !! i = Some t ->
  set_pending (delete 0 (pending (QW i true))) (QW i true)
  = emit (TaskInvoked this t) (QW i false).
Proof.
  intros Ht. apply lookup_lt_Some in Ht as Hlt.
  unfold queueWorld, set_pending, emit. tidy. rewrite Ht. leb_cases.
  rewrite (take_S_r _ _ _ Ht). tidy. reflexivity.
Qed.

Lemma QW_stop : QW n (n <? n) = QW n false.
Proof. rewrite Nat.ltb_irrefl. reflexivity. Qed.

(** The drive: from the completion of task [i] (resp. from
    [processNextQueueTask] at index [i]) up to the next task whose
    completion is deferred, or up to the end. *)
Lemma queue_drive k :
  forall i, n - i <= k ->
    (forall t, asyncTaskList o !! i = Some t ->
       exists j, i < j <= n /\
         Exec (CCallback {| cb_this := this; cb_asyncTask := t;
                            cb_next := Some (ProcessNextQueueTask this) |}
                         (resultOf (asyncTaskFunction t)))
              (emit (TaskInvoked this t) (QW i false))
              (QW j (j <? n)))
    /\ (i < n ->
        exists j, i <= j <= n /\
          Exec (CProcessNextQueueTask this) (QW i false) (QW j (j <? n))).
Proof.
  induction k as [|k IH]; intros i Hk.
  - split.
    + intros t Ht. apply lookup_lt_Some in Ht. lia.
    + intros Hi. lia.
  - assert (Hdone : forall t, asyncTaskList o !! i = Some t ->
       exists j, i < j <= n /\
         Exec (CCallback {| cb_this := this; cb_asyncTask := t;
                            cb_next := Some (ProcessNextQueueTask this) |}
                         (resultOf (asyncTaskFunction t)))
              (emit (TaskInvoked this t) (QW i false))
              (QW j (j <? n))).
    { intros t Ht. apply lookup_lt_Some in Ht as Hlt.
      destruct (decide (S i = n)) as [Hlast|Hmore].
      - exists n. split; [lia|]. rewrite QW_stop.
        eapply Exec_callback_next; [reflexivity| |].
        + eapply Exec_asyncTaskFinished_last;
            [apply QW_lookup|simpl|apply QW_push_last; assumption].
          rewrite length_take, length_expectedResults. lia.
        + eapply Exec_processNext_stop; [apply QW_lookup|]. simpl.
          rewrite length_take, length_expectedResults. lia.
      - destruct (IH (S i) ltac:(lia)) as [_ Hnext].
        destruct (Hnext ltac:(lia)) as (j & Hj & Hrun).
        exists j. split; [lia|].
        eapply Exec_callback_next; [reflexivity| |].
        + eapply Exec_asyncTaskFinished_more; [apply QW_lookup|]. simpl.
          rewrite length_take, length_expectedResults. lia.
        + simpl. rewrite (QW_push_more i t) by (assumption || lia).
          exact Hrun. }
    split; [exact Hdone|]. intros Hi.
    destruct (lookup_lt_is_Some_2 (asyncTaskList o) i Hi) as [t Ht].
    assert (Hcb : callsBackOnce (asyncTaskFunction t))
      by (eapply (proj1 (Forall_lookup _ _) Honce); eauto).
    destruct (callsBackOnce_inv _ Hcb) as [name [Hf|Hf]].
    + destruct (Hdone t Ht) as (j & Hj & Hrun).
      exists j. split; [lia|].
      eapply Exec_processNext_run; [apply QW_lookup| |].
      * simpl. rewrite length_take, length_expectedResults.
        rewrite Nat.min_l by lia. exact Ht.
      * apply Exec_runTask. rewrite Hf at 1.
        apply Exec_taskFunction_now. exact Hrun.
    + exists i. split; [lia|].
      eapply Exec_processNext_run; [apply QW_lookup| |].
      * simpl. rewrite length_take, length_expectedResults.
        rewrite Nat.min_l by lia. exact Ht.
      * apply Exec_runTask. rewrite Hf at 1.
        destruct (Nat.ltb_spec i n); [|lia].
        rewrite <- (QW_invoke_later i t Ht).
        apply Exec_taskFunction_later.
Qed.

(** One delivery by the host runtime. *)
Lemma queue_deliver j k :
  j <= n ->
  exists j', j <= j' <= n /\ (k = 0 -> Nat.min n (S j) <= j') /\
    exists fuel,
      runOp randomUUID fuel (OpDeliver k) (QW j (j <? n))
      = Some (QW j' (j' <? n)).
Proof.
  intros Hj. destruct (Nat.ltb_spec j n) as [Hlt|Hge].
  - destruct (lookup_lt_is_Some_2 (asyncTaskList o) j Hlt) as [t Ht].
    destruct k as [|k].
    + destruct (queue_drive (n - j) j ltac:(lia)) as [Hdone _].
      destruct (Hdone t Ht) as (j' & Hj' & [fuel Hrun]).
      exists j'. split; [lia|]. split; [lia|]. exists fuel.
      cbn [runOp]. rewrite (QW_take_pending j t Ht).
      simpl. rewrite Ht. simpl. exact Hrun.
    + exists j. split; [lia|]. split; [discriminate|]. exists 0.
      destruct (Nat.ltb_spec j n); [|lia].
      simpl. rewrite Ht. reflexivity.
  - assert (j = n) as -> by lia.
    exists n. split; [lia|]. split; [lia|]. exists 0.
    rewrite Nat.ltb_irrefl. reflexivity.
Qed.

Lemma queue_deliveries ks :
  forall j, j <= n ->
    exists j', j <= j' <= n /\ Nat.min n (j + countHead ks) <= j' /\
      Run (OpDeliver <$> ks) (QW j (j <? n)) (QW j' (j' <? n)).
Proof.
  induction ks as [|k ks IH]; intros j Hj.
  - exists j. split; [lia|]. split; [unfold countHead; simpl; lia|].
    apply Run_nil.
  - destruct (queue_deliver j k Hj) as (j1 & Hj1 & Hk & Hop).
    destruct (IH j1 ltac:(lia)) as (j' & Hj' & Hc & Hrun).
    exists j'. split; [lia|]. split.
    + unfold countHead in *. simpl. rewrite filter_cons.
      destruct (decide (k = 0)) as [->|]; simpl; [|lia].
      specialize (Hk eq_refl). lia.
    + rewrite fmap_cons. eapply Run_cons; eauto.
Qed.
End QueueMode.



Lemma invoked_app this l1 l2 :
  invoked this (l1 ++ l2) = invoked this l1 ++ invoked this l2.
Proof. apply omap_app. Qed.

Lemma invoked_TaskInvoked this l : invoked this (TaskInvoked this <$> l) = l.
Proof.
  induction l as [|t l IH]; [reflexivity|].
  unfold invoked in *. rewrite fmap_cons. simpl.
  rewrite Nat.eqb_refl. simpl. f_equal. exact IH.
Qed.

Lemma invoked_finalEvents this that handler resultList :
  invoked this (finalEvents that handler resultList) = [].
Proof. destruct handler; reflexivity. Qed.

Lemma finalCalls_app this l1 l2 :
  finalCalls this (l1 ++ l2) = finalCalls this l1 ++ finalCalls this l2.
Proof. apply omap_app. Qed.

Lemma finalCalls_TaskInvoked this that l :
  finalCalls this (TaskInvoked that <$> l) = [].
Proof. induction l as [|t l IH]; [reflexivity|]. exact IH. Qed.

Lemma finalCalls_finalEvents this handler resultList :
  finalCalls this (finalEvents this handler resultList)
  = match handler with Some h => [(h, resultList)] | None => [] end.
Proof.
  destruct handler; [|reflexivity]. unfold finalCalls. simpl.
  rewrite Nat.eqb_refl. reflexivity.
Qed.

Section QueueTheorem.
Variable randomUUID : nat -> string.
Local Abbreviation Run := (Run randomUUID).

Lemma queue_start w0 this o arg :
  heap w0 !! this = Some o -> asyncTaskList o <> [] ->
  isStarted o = false -> isFinished o = false ->
  asyncTaskResultList o = [] -> pending w0 = [] ->
  update this (set_isStarted true) (recordStart this arg (Some Queue) o w0)
  = queueWorld w0 this o (handlerAfterStart arg o) 0 false.
Proof.
  intros Ho Hne Hs Hf Hr Hp.
  unfold recordStart, update, set_heap, queueWorld. simpl.
  rewrite (alter_lookup_insert _ _ _ _ Ho), !alter_insert_eq.
  rewrite Hp.
  destruct w0 as [hp pd tr uc], o as [m l rs h s f d ii]; simpl in *; subst.
  destruct l; [done|]. simpl. rewrite ?app_nil_r. reflexivity.
Qed.

(** C1: a queue run of a non-empty registry whose tasks each call back
    exactly once.  Whatever the host runtime delivers ([ks]), the run
    is defined and: the results are a prefix of the registry's results,
    in registry order; the tasks invoked so far are the registry's first
    ones, in order, one more than there are results exactly when a
    completion is owed, and that completion is the one of the task at
    index [results.length]; the coordinator is finished exactly when
    there are as many results as tasks, and then the handler has been
    invoked once with them; as many deliveries of the owed completion
    as there are tasks bring the run to its end. *)
Theorem queue_mode_registry_order w0 this o arg ks :
  heap w0 !! this = Some o ->
  asyncTaskList o <> [] ->
  Forall (fun t => callsBackOnce (asyncTaskFunction t)) (asyncTaskList o) ->
  isStarted o = false -> isFinished o = false ->
  asyncTaskResultList o = [] -> pending w0 = [] ->
  isUserHandler (handlerAfterStart arg o) ->
  exists w' o',
    Run (OpQueue this arg :: (OpDeliver <$> ks)) w0 w'
    /\ heap w' !! this = Some o'
    /\ asyncTaskList o' = asyncTaskList o
    /\ asyncTaskResultList o'
       = take (length (asyncTaskResultList o'))
              (expectedResults (asyncTaskList o))
    /\ invoked this (trace w')
       = invoked this (trace w0)
         ++ take (length (asyncTaskResultList o') + length (pending w'))
                 (asyncTaskList o)
    /\ pending w'
       = (if isFinished o' then []
          else match asyncTaskList o !! length (asyncTaskResultList o') with
               | Some t => [completion this (Some (ProcessNextQueueTask this)) t]
               | None => []
               end)
    /\ (isFinished o' = true
        <-> length (asyncTaskResultList o') = length (asyncTaskList o))
    /\ finalCalls this (trace w')
       = finalCalls this (trace w0)
         ++ (if isFinished o'
             then match handlerAfterStart arg o with
                  | Some h => [(h, expectedResults (asyncTaskList o))]
                  | None => []
                  end
             else [])
    /\ (length (asyncTaskList o) <= countHead ks -> isFinished o' = true).
Proof.
  intros Ho Hne Honce Hs Hf Hr Hp Hh.
  set (handler := handlerAfterStart arg o) in *.
  set (n := length (asyncTaskList o)).
  assert (Hn : 0 < n) by (subst n; destruct (asyncTaskList o); simpl; [done|lia]).
  destruct (queue_drive randomUUID w0 this o handler Ho Honce Hh n 0
              ltac:(lia)) as [_ Hdrive].
  destruct (Hdrive Hn) as (j0 & Hj0 & Hstart).
  destruct (queue_deliveries randomUUID w0 this o handler Ho Honce Hh ks j0
              ltac:(lia)) as (j & Hj & Hcount & Hrun).
  exists (queueWorld w0 this o handler j (j <? n)). eexists.
  split.
  { eapply Run_cons; [|exact Hrun].
    destruct (Exec_queue randomUUID this arg w0
                (queueWorld w0 this o handler j0 (j0 <? n))) as [fuel Hfuel].
    - eapply Exec_start_queue; eauto.
      rewrite (queue_start w0 this o arg) by assumption. exact Hstart.
    - exists fuel. exact Hfuel. }
  split; [apply QW_lookup; assumption|].
  simpl. fold n.
  assert (Hlen : length (take j (expectedResults (asyncTaskList o))) = j)
    by (rewrite length_take, length_expectedResults; fold n; lia).
  rewrite Hlen.
  split; [reflexivity|]. split; [reflexivity|].
  destruct (Nat.ltb_spec j n) as [Hlt|Hge];
    destruct (Nat.leb_spec n j) as [Hle|Hgt]; try lia.
  - destruct (lookup_lt_is_Some_2 (asyncTaskList o) j Hlt) as [t Ht].
    rewrite Ht. simpl.
    rewrite !invoked_app, invoked_TaskInvoked. simpl.
    rewrite !finalCalls_app, finalCalls_TaskInvoked. simpl.
    rewrite !app_nil_r.
    split; [reflexivity|]. split; [reflexivity|].
    split; [split; [discriminate|lia]|].
    split; [reflexivity|]. intros Hc. fold n in Hc. lia.
  - simpl.
    rewrite !invoked_app, invoked_TaskInvoked, invoked_finalEvents.
    rewrite !finalCalls_app, finalCalls_TaskInvoked, finalCalls_finalEvents.
    rewrite !app_nil_r. simpl.
    split; [reflexivity|]. split; [reflexivity|].
    split; [split; [lia|reflexivity]|].
    split; [reflexivity|]. reflexivity.
Qed.
End QueueTheorem.

(** ** Queue mode: tasks added during a run, tasks that never call back *)

Section RunFunctional.
Variable randomUUID : nat -> string.

(** The operations determine the world they lead to. *)
Lemma Run_functional ops w w1 w2 :
  Run randomUUID ops w w1 -> Run randomUUID ops w w2 -> w1 = w2.
Proof.
  intros [n1 H1] [n2 H2].
  apply runOps_mono with (m := n1 `max` n2) in H1; [|lia].
  apply runOps_mono with (m := n1 `max` n2) in H2; [|lia].
  congruence.
Qed.
End RunFunctional.

Section QueueLateAdd.
Variable randomUUID : nat -> string.
Local Abbreviation Run := (Run randomUUID).

(** [add] on a queue run in flight is [add] on the coordinator the run
    started from. *)
Lemma add_queueWorld w0 this o handler i taskList :
  heap w0 !! this = Some o ->
  i < length (asyncTaskList o) ->
  (add randomUUID this taskList (queueWorld w0 this o handler i true)).2
  = queueWorld (add randomUUID this taskList w0).2 this
      (set_asyncTaskList
         (asyncTaskList o
          ++ registered randomUUID (uuidCount w0) (candidates taskList)) o)
      handler i true.
Proof.
  intros Ho Hi.
  erewrite add_spec by (apply (QW_lookup w0 this o handler Ho)).
  rewrite (add_spec randomUUID this taskList w0 o Ho).
  unfold queueWorld, set_asyncTaskList. cbn.
  rewrite !list_insert_insert_eq.
  rewrite length_app.
  destruct (Nat.leb_spec (length (asyncTaskList o)) i) as [|_]; [lia|].
  destruct (Nat.leb_spec
              (length (asyncTaskList o)
               + length (registered randomUUID (uuidCount w0)
                           (candidates taskList))) i) as [|_]; [lia|].
  unfold expectedResults. rewrite fmap_app.
  rewrite (take_app_le (_ <$> asyncTaskList o)) by (rewrite length_fmap; lia).
  rewrite (take_app_le (asyncTaskList o)) by lia.
  rewrite (lookup_app_l (asyncTaskList o)) by lia.
  reflexivity.
Qed.

(** X12: a task added to a queue run in flight is run: when the
    coordinator has not finished at the time of [add], the run goes on
    through the added tasks as if they had been registered before
    [start], and the handler is given the results of all the tasks, in
    registry order. *)
Theorem queue_runs_added_task w0 this o arg ks1 w1 taskList ks2 :
  heap w0 !! this = Some o ->
  asyncTaskList o <> [] ->
  Forall (fun t => callsBackOnce (asyncTaskFunction t)) (asyncTaskList o) ->
  isStarted o = false -> isFinished o = false ->
  asyncTaskResultList o = [] -> pending w0 = [] ->
  isUserHandler (handlerAfterStart arg o) ->
  Forall (fun c => callsBackOnce (candidateFunction c)) (candidates taskList) ->
  Run (OpQueue this arg :: (OpDeliver <$> ks1)) w0 w1 ->
  (exists o1, heap w1 !! this = Some o1 /\ isFinished o1 = false) ->
  exists w' o',
    Run (OpAdd this taskList :: (OpDeliver <$> ks2)) w1 w'
    /\ heap w' !! this = Some o'
    /\ asyncTaskList o'
       = asyncTaskList o
         ++ registered randomUUID (uuidCount w0) (candidates taskList)
    /\ asyncTaskResultList o'
       = take (length (asyncTaskResultList o'))
              (expectedResults (asyncTaskList o'))
    /\ invoked this (trace w')
       = invoked this (trace w0)
         ++ take (length (asyncTaskResultList o') + length (pending w'))
                 (asyncTaskList o')
    /\ length (pending w') <= 1
    /\ (isFinished o' = true
        <-> length (asyncTaskResultList o') = length (asyncTaskList o'))
    /\ finalCalls this (trace w')
       = finalCalls this (trace w0)
         ++ (if isFinished o'
             then match handlerAfterStart arg o with
                  | Some h => [(h, expectedResults (asyncTaskList o'))]
                  | None => []
                  end
             else [])
    /\ (length (asyncTaskList o') <= countHead ks2 -> isFinished o' = true).
Proof.
  intros Ho Hne Honce Hs Hf Hr Hp Hh Hcs Hrun1 (o1 & Ho1 & Hopen).
  set (handler := handlerAfterStart arg o) in *.
  set (n := length (asyncTaskList o)).
  assert (Hn : 0 < n)
    by (subst n; destruct (asyncTaskList o); simpl; [done|lia]).
  (* where the run stands after the first deliveries *)
  destruct (queue_drive randomUUID w0 this o handler Ho Honce Hh n 0
              ltac:(lia)) as [_ Hdrive].
  destruct (Hdrive Hn) as (j0 & Hj0 & Hstart).
  destruct (queue_deliveries randomUUID w0 this o handler Ho Honce Hh ks1 j0
              ltac:(lia)) as (j & Hj & _ & Hrun).
  assert (Hw1 : w1 = queueWorld w0 this o handler j (j <? n)).
  { eapply Run_functional; [exact Hrun1|].
    eapply Run_cons; [|exact Hrun].
    destruct (Exec_queue randomUUID this arg w0
                (queueWorld w0 this o handler j0 (j0 <? n))) as [fuel Hfuel].
    - eapply Exec_start_queue; eauto.
      rewrite (queue_start w0 this o arg) by assumption. exact Hstart.
    - exists fuel. exact Hfuel. }
  subst w1. rewrite (QW_lookup w0 this o handler Ho) in Ho1.
  injection Ho1 as <-. simpl in Hopen. fold n in Hopen.
  apply Nat.leb_gt in Hopen.
  destruct (Nat.ltb_spec j n) as [_|]; [|lia].
  (* the run with the longer registry *)
  set (added := registered randomUUID (uuidCount w0) (candidates taskList)).
  set (o2 := set_asyncTaskList (asyncTaskList o ++ added) o).
  set (w2 := (add randomUUID this taskList w0).2).
  assert (Ho2 : heap w2 !! this = Some o2).
  { subst w2. rewrite (add_spec randomUUID this taskList w0 o Ho). simpl.
    apply list_lookup_insert_eq. eapply lookup_lt_Some; eauto. }
  assert (Honce2 : Forall (fun t => callsBackOnce (asyncTaskFunction t))
                          (asyncTaskList o2)).
  { subst o2. simpl. apply Forall_app. split; [exact Honce|].
    assert (H : Forall callsBackOnce (asyncTaskFunction <$> added)).
    { subst added. rewrite registered_functions.
      apply Forall_fmap. exact Hcs. }
    apply Forall_lookup. intros i t Hi.
    apply (proj1 (Forall_lookup _ _) H i (asyncTaskFunction t)).
    rewrite list_lookup_fmap, Hi. reflexivity. }
  set (n2 := length (asyncTaskList o2)).
  assert (Hn2 : n <= n2)
    by (subst n2 o2; simpl; rewrite length_app; fold n; lia).
  destruct (queue_deliveries randomUUID w2 this o2 handler Ho2 Honce2 Hh ks2 j
              ltac:(fold n2; lia)) as (j' & Hj' & Hcount & Hrun2).
  fold n2 in Hj', Hcount, Hrun2.
  destruct (Nat.ltb_spec j n2) as [_|]; [|lia].
  assert (Htrace : trace w2 = trace w0)
    by (subst w2; rewrite (add_spec randomUUID this taskList w0 o Ho);
        reflexivity).
  exists (queueWorld w2 this o2 handler j' (j' <? n2)). eexists.
  split.
  { eapply Run_cons; [|exact Hrun2].
    exists 0. cbn [runOp]. f_equal.
    apply (add_queueWorld w0 this o handler j taskList Ho). fold n. lia. }
  split; [apply (QW_lookup w2 this o2 handler Ho2)|].
  cbn [asyncTaskList asyncTaskResultList isFinished].
  split; [reflexivity|].
  fold n2.
  assert (Hlen : length (take j' (expectedResults (asyncTaskList o2))) = j')
    by (rewrite length_take, length_expectedResults; fold n2; lia).
  rewrite Hlen. split; [reflexivity|].
  unfold queueWorld. cbn [trace pending]. rewrite Htrace. fold n2.
  destruct (Nat.ltb_spec j' n2) as [Hlt|Hge];
    destruct (Nat.leb_spec n2 j') as [Hle|Hgt]; try lia.
  - destruct (lookup_lt_is_Some_2 (asyncTaskList o2) j' Hlt) as [t Ht].
    rewrite Ht. simpl.
    rewrite !invoked_app, invoked_TaskInvoked. simpl.
    rewrite !finalCalls_app, finalCalls_TaskInvoked. simpl.
    rewrite !app_nil_r.
    split; [reflexivity|]. split; [lia|].
    split; [split; [discriminate|lia]|].
    split; [reflexivity|]. intros Hc. lia.
  - simpl.
    rewrite !invoked_app, invoked_TaskInvoked, invoked_finalEvents.
    rewrite !finalCalls_app, finalCalls_TaskInvoked, finalCalls_finalEvents.
    rewrite !app_nil_r. simpl.
    split; [reflexivity|]. split; [lia|].
    split; [split; [lia|reflexivity]|].
    split; reflexivity.
Qed.
End QueueLateAdd.

Section QueueStall.
Variable randomUUID : nat -> string.
Local Abbreviation Exec := (Exec randomUUID).
Local Abbreviation Run := (Run randomUUID).

Variables (w0 : World) (this : nat) (o : AsyncTaskHelper).
Variable handler : option AsyncTaskHelperFinalCallback.
Variables (m : nat) (silent : AsyncTaskHelperTask).
Hypothesis Hthis : heap w0 !! this = Some o.
Hypothesis Hsilent : asyncTaskList o !! m = Some silent.
Hypothesis Hnever : neverCallsBack (asyncTaskFunction silent).
Hypothesis Honce :
  Forall (fun t => callsBackOnce (asyncTaskFunction t))
         (take m (asyncTaskList o)).

Local Abbreviation QW := (queueWorld w0 this o handler).
Local Abbreviation SW := (stalledWorld w0 this o handler m).
Local Abbreviation n := (length (asyncTaskList o)).

Lemma stall_m_lt : m < n.
Proof. eapply lookup_lt_Some; eauto. Qed.

Lemma SW_stalled : SW m = emit (TaskInvoked this silent) (QW m false).
Proof.
  unfold stalledWorld. rewrite Nat.ltb_irrefl.
  rewrite <- (QW_take_pending w0 this o handler m silent Hsilent).
  f_equal. simpl. rewrite Hsilent. reflexivity.
Qed.

(** [processNextQueueTask] at the task that never calls back. *)
Lemma stall_reached :
  Exec (CProcessNextQueueTask this) (QW m false) (SW m).
Proof.
  pose proof stall_m_lt as Hm.
  eapply Exec_processNext_run; [apply (QW_lookup w0 this o handler Hthis)| |].
  - simpl. rewrite length_take, length_expectedResults.
    rewrite Nat.min_l by lia. exact Hsilent.
  - apply Exec_runTask. rewrite SW_stalled.
    destruct (asyncTaskFunction silent) as [name [|] [|]|] eqn:Hf;
      simpl in Hnever; try tauto.
    apply Exec_taskFunction_silent.
Qed.

Lemma stall_drive k :
  forall i, m - i <= k -> i <= m ->
    (forall t, asyncTaskList o !! i = Some t -> i < m ->
       exists j, i < j <= m /\
         Exec (CCallback {| cb_this := this; cb_asyncTask := t;
                            cb_next := Some (ProcessNextQueueTask this) |}
                         (resultOf (asyncTaskFunction t)))
              (emit (TaskInvoked this t) (QW i false))
              (SW j))
    /\ exists j, i <= j <= m /\
         Exec (CProcessNextQueueTask this) (QW i false) (SW j).
Proof.
  pose proof stall_m_lt as Hm.
  induction k as [|k IH]; intros i Hk Hi.
  - assert (i = m) as -> by lia. split; [intros; lia|].
    exists m. split; [lia|apply stall_reached].
  - destruct (decide (i = m)) as [->|Hne].
    { split; [intros; lia|]. exists m. split; [lia|apply stall_reached]. }
    assert (Hdone : forall t, asyncTaskList o !! i = Some t -> i < m ->
       exists j, i < j <= m /\
         Exec (CCallback {| cb_this := this; cb_asyncTask := t;
                            cb_next := Some (ProcessNextQueueTask this) |}
                         (resultOf (asyncTaskFunction t)))
              (emit (TaskInvoked this t) (QW i false))
              (SW j)).
    { intros t Ht Hlt.
      destruct (IH (S i) ltac:(lia) ltac:(lia)) as [_ (j & Hj & Hrun)].
      exists j. split; [lia|].
      eapply Exec_callback_next; [reflexivity| |].
      - eapply Exec_asyncTaskFinished_more;
          [apply (QW_lookup w0 this o handler Hthis)|]. simpl.
        rewrite length_take, length_expectedResults. lia.
      - simpl.
        rewrite (QW_push_more w0 this o handler i t) by (assumption || lia).
        exact Hrun. }
    split; [exact Hdone|].
    destruct (lookup_lt_is_Some_2 (asyncTaskList o) i ltac:(lia)) as [t Ht].
    assert (Hcb : callsBackOnce (asyncTaskFunction t)).
    { eapply (proj1 (Forall_lookup _ _) Honce i).
      rewrite lookup_take_lt by lia. exact Ht. }
    destruct (callsBackOnce_inv _ Hcb) as [name [Hf|Hf]].
    + destruct (Hdone t Ht ltac:(lia)) as (j & Hj & Hrun).
      exists j. split; [lia|].
      eapply Exec_processNext_run;
        [apply (QW_lookup w0 this o handler Hthis)| |].
      * simpl. rewrite length_take, length_expectedResults.
        rewrite Nat.min_l by lia. exact Ht.
      * apply Exec_runTask. rewrite Hf at 1.
        apply Exec_taskFunction_now. exact Hrun.
    + exists i. split; [lia|].
      eapply Exec_processNext_run;
        [apply (QW_lookup w0 this o handler Hthis)| |].
      * simpl. rewrite length_take, length_expectedResults.
        rewrite Nat.min_l by lia. exact Ht.
      * apply Exec_runTask. rewrite Hf at 1.
        unfold stalledWorld. destruct (Nat.ltb_spec i m); [|lia].
        rewrite <- (QW_invoke_later w0 this o handler i t Ht).
        apply Exec_taskFunction_later.
Qed.

(** One delivery by the host runtime. *)
Lemma stall_deliver j k :
  j <= m ->
  exists j', j <= j' <= m /\ (k = 0 -> Nat.min m (S j) <= j') /\
    exists fuel, runOp randomUUID fuel (OpDeliver k) (SW j) = Some (SW j').
Proof.
  intros Hj. pose proof stall_m_lt as Hm.
  destruct (decide (j = m)) as [->|Hne].
  - exists m. split; [lia|]. split; [lia|]. exists 0.
    unfold stalledWorld. rewrite Nat.ltb_irrefl. reflexivity.
  - destruct (lookup_lt_is_Some_2 (asyncTaskList o) j ltac:(lia)) as [t Ht].
    destruct k as [|k].
    + destruct (stall_drive (m - j) j ltac:(lia) ltac:(lia)) as [Hdone _].
      destruct (Hdone t Ht ltac:(lia)) as (j' & Hj' & [fuel Hrun]).
      exists j'. split; [lia|]. split; [lia|]. exists fuel.
      unfold stalledWorld at 1. destruct (Nat.ltb_spec j m); [|lia].
      cbn [runOp]. rewrite (QW_take_pending w0 this o handler j t Ht).
      simpl. rewrite Ht. simpl. exact Hrun.
    + exists j. split; [lia|]. split; [discriminate|]. exists 0.
      unfold stalledWorld. destruct (Nat.ltb_spec j m); [|lia].
      simpl. rewrite Ht. reflexivity.
Qed.

Lemma stall_deliveries ks :
  forall j, j <= m ->
    exists j', j <= j' <= m /\ Nat.min m (j + countHead ks) <= j' /\
      Run (OpDeliver <$> ks) (SW j) (SW j').
Proof.
  induction ks as [|k ks IH]; intros j Hj.
  - exists j. split; [lia|]. split; [unfold countHead; simpl; lia|].
    apply Run_nil.
  - destruct (stall_deliver j k Hj) as (j1 & Hj1 & Hk & Hop).
    destruct (IH j1 ltac:(lia)) as (j' & Hj' & Hc & Hrun).
    exists j'. split; [lia|]. split.
    + unfold countHead in *. simpl. rewrite filter_cons.
      destruct (decide (k = 0)) as [->|]; simpl; [|lia].
      specialize (Hk eq_refl). lia.
    + rewrite fmap_cons. eapply Run_cons; eauto.
Qed.
End QueueStall.

Section QueueStallClaim.
Variable randomUUID : nat -> string.
Local Abbreviation Run := (Run randomUUID).

(** X13: a task that never calls its callback stalls a queue run:
    when the tasks before it each call back exactly once, the run gets
    to that task and invokes it, and from then on nothing happens any
    more.  Whatever the host runtime delivers, the tasks after it are
    never invoked, the coordinator does not finish and its handler is
    not invoked. *)
Theorem queue_stalls_on_silent_task w0 this o arg m silent ks :
  heap w0 !! this = Some o ->
  asyncTaskList o !! m = Some silent ->
  neverCallsBack (asyncTaskFunction silent) ->
  Forall (fun t => callsBackOnce (asyncTaskFunction t))
         (take m (asyncTaskList o)) ->
  isStarted o = false -> isFinished o = false ->
  asyncTaskResultList o = [] -> pending w0 = [] ->
  exists w' o',
    Run (OpQueue this arg :: (OpDeliver <$> ks)) w0 w'
    /\ heap w' !! this = Some o'
    /\ isFinished o' = false
    /\ finalCalls this (trace w') = finalCalls this (trace w0)
    /\ length (asyncTaskResultList o') <= m
    /\ asyncTaskResultList o'
       = take (length (asyncTaskResultList o'))
              (expectedResults (asyncTaskList o))
    /\ invoked this (trace w')
       = invoked this (trace w0)
         ++ take (S (length (asyncTaskResultList o'))) (asyncTaskList o)
    /\ (m <= countHead ks ->
        length (asyncTaskResultList o') = m /\ pending w' = []).
Proof.
  intros Ho Hm Hnever Honce Hs Hf Hr Hp.
  set (handler := handlerAfterStart arg o).
  set (n := length (asyncTaskList o)).
  apply lookup_lt_Some in Hm as Hlt. fold n in Hlt.
  assert (Hne : asyncTaskList o <> []) by (intros E; rewrite E in Hm; done).
  destruct (stall_drive randomUUID w0 this o handler m silent Ho Hm Hnever
              Honce m 0 ltac:(lia) ltac:(lia)) as [_ (j0 & Hj0 & Hstart)].
  destruct (stall_deliveries randomUUID w0 this o handler m silent Ho Hm
              Hnever Honce ks j0 ltac:(lia)) as (j & Hj & Hcount & Hrun).
  exists (stalledWorld w0 this o handler m j). eexists.
  split.
  { eapply Run_cons; [|exact Hrun].
    destruct (Exec_queue randomUUID this arg w0
                (stalledWorld w0 this o handler m j0)) as [fuel Hfuel].
    - eapply Exec_start_queue; eauto.
      rewrite (queue_start w0 this o arg) by assumption. exact Hstart.
    - exists fuel. exact Hfuel. }
  assert (Hlen : forall i, i <= m ->
            length (take i (expectedResults (asyncTaskList o))) = i)
    by (intros i Hi; rewrite length_take, length_expectedResults; fold n; lia).
  unfold stalledWorld. destruct (Nat.ltb_spec j m) as [Hjm|Hjm].
  - split; [apply (QW_lookup w0 this o handler Ho)|].
    cbn [asyncTaskResultList isFinished]. rewrite Hlen by lia.
    destruct (Nat.leb_spec (length (asyncTaskList o)) j) as [|_];
      [unfold n in *; lia|].
    split; [reflexivity|]. unfold queueWorld. cbn [trace pending].
    destruct (Nat.leb_spec (length (asyncTaskList o)) j) as [|_];
      [unfold n in *; lia|].
    rewrite !finalCalls_app, finalCalls_TaskInvoked. simpl.
    rewrite !invoked_app, invoked_TaskInvoked. simpl.
    rewrite !app_nil_r, Nat.add_1_r.
    split; [reflexivity|]. split; [lia|]. split; [reflexivity|].
    split; [reflexivity|]. intros Hc. lia.
  - assert (j = m) as -> by lia.
    split; [apply (QW_lookup w0 this o handler Ho)|].
    cbn [asyncTaskResultList isFinished]. rewrite Hlen by lia.
    destruct (Nat.leb_spec (length (asyncTaskList o)) m) as [|_];
      [unfold n in *; lia|].
    split; [reflexivity|]. unfold queueWorld, set_pending. cbn [trace pending].
    destruct (Nat.leb_spec (length (asyncTaskList o)) m) as [|_];
      [unfold n in *; lia|].
    rewrite !finalCalls_app, finalCalls_TaskInvoked. simpl.
    rewrite !invoked_app, invoked_TaskInvoked. simpl.
    rewrite !app_nil_r, Nat.add_1_r.
    split; [reflexivity|]. split; [lia|]. split; [reflexivity|].
    split; [reflexivity|]. intros _. split; reflexivity.
Qed.
End QueueStallClaim.

(** ** Queue mode: [quit] does not stop the queue *)

Section QueueQuit.
Variable randomUUID : nat -> string.
Local Abbreviation Exec := (Exec randomUUID).
Local Abbreviation Run := (Run randomUUID).

Variables (w0 : World) (this : nat) (o : AsyncTaskHelper).
Variable quitHandler : option AsyncTaskHelperFinalCallback.
Variable q : nat.
Hypothesis Hthis : heap w0 !! this = Some o.
Hypothesis Honce :
  Forall (fun t => callsBackOnce (asyncTaskFunction t)) (asyncTaskList o).
Hypothesis Hq : q < length (asyncTaskList o).
Hypothesis Hhandler : isUserHandler quitHandler.

Local Abbreviation QW := (queueWorld w0 this o).
Local Abbreviation QQ := (quitWorld w0 this o quitHandler q).
Local Abbreviation n := (length (asyncTaskList o)).

Lemma QQ_lookup i b :
  heap (QQ i b) !! this
  = Some {| taskMode := Queue;
            asyncTaskList := asyncTaskList o;
            asyncTaskResultList := take i (expectedResults (asyncTaskList o));
            finalCallback := quitHandler;
            isStarted := true;
            isFinished := true;
            isDebug := isDebug o;
            instanceID := instanceID o |}.
Proof. simpl. apply list_lookup_insert_eq. eapply lookup_lt_Some; eauto. Qed.

(** [quit] on the run while task [q] is in flight. *)
Lemma QQ_quit handler :
  Exec (CQuit this quitHandler) (QW handler q true) (QQ q true).
Proof.
  apply Exec_quit.
  replace (match quitHandler with Some f => Some f | None => None end)
    with quitHandler by (destruct quitHandler; reflexivity).
  assert (Hlook : heap (update this (set_finalCallback quitHandler)
                          (QW handler q true)) !! this
                  = Some (set_finalCallback quitHandler
                            {| taskMode := Queue;
                               asyncTaskList := asyncTaskList o;
                               asyncTaskResultList :=
                                 take q (expectedResults (asyncTaskList o));
                               finalCallback := handler;
                               isStarted := true;
                               isFinished := n <=? q;
                               isDebug := isDebug o;
                               instanceID := instanceID o |})).
  { apply lookup_update_eq. apply (QW_lookup w0 this o handler Hthis). }
  assert (Hopen : (n <=? q) = false) by (apply Nat.leb_gt; exact Hq).
  assert (Hdrop : drop (S q) (take (q + 1) (asyncTaskList o)) = [])
    by (apply drop_ge; rewrite length_take; lia).
  destruct quitHandler as [[id| |]|] eqn:Hh; simpl in Hhandler; try tauto.
  - eapply Exec_finished_handler;
      [exact Hlook|simpl; exact Hopen|reflexivity|]. simpl.
    match goal with
    | |- Exec _ ?w1 ?w2 => replace w2 with w1
    end; [apply Exec_finalCallback_user|].
    unfold quitWorld, queueWorld, emit, update, set_heap, set_isFinished,
      set_finalCallback. simpl.
    rewrite !alter_insert_eq, Hopen, Hdrop. simpl.
    rewrite !app_nil_r, Nat.add_1_r, <- !app_assoc. reflexivity.
  - match goal with
    | |- Exec _ ?w1 ?w2 =>
        replace w2 with (update this (set_isFinished true) w1)
    end.
    + eapply Exec_finished_silent; [exact Hlook|simpl; exact Hopen|reflexivity].
    + unfold quitWorld, queueWorld, update, set_heap, set_isFinished,
        set_finalCallback. simpl.
      rewrite !alter_insert_eq, Hopen, Hdrop. simpl.
      rewrite !app_nil_r, Nat.add_1_r. reflexivity.
Qed.

(** Invoking task [i], [i > q]. *)
Lemma QQ_emit i t :
  q < i -> asyncTaskList o !! i = Some t ->
  emit (TaskInvoked this t) (QQ i false) = set_pending [] (QQ i true).
Proof.
  intros Hqi Ht. apply lookup_lt_Some in Ht as Hlt.
  unfold quitWorld, set_pending, emit. simpl.
  rewrite Nat.add_0_r, Nat.add_1_r, (take_S_r _ _ _ Ht).
  rewrite drop_app_le by (rewrite length_take; lia).
  rewrite fmap_app, <- !app_assoc. reflexivity.
Qed.

Lemma QQ_later i t :
  asyncTaskList o !! i = Some t ->
  set_pending
    (pending (set_pending [] (QQ i true))
     ++ [completion this (Some (ProcessNextQueueTask this)) t])
    (set_pending [] (QQ i true))
  = QQ i true.
Proof.
  intros Ht. unfold quitWorld, set_pending. simpl. rewrite Ht. reflexivity.
Qed.

Lemma QQ_take_pending i :
  set_pending (delete 0 (pending (QQ i true))) (QQ i true)
  = set_pending [] (QQ i true).
Proof.
  unfold quitWorld, set_pending. simpl.
  destruct (asyncTaskList o !! i); reflexivity.
Qed.

(** The completion of task [i] arrives. *)
Lemma QQ_push i t :
  asyncTaskList o !! i = Some t ->
  pushResult this (resultOf (asyncTaskFunction t)) (set_pending [] (QQ i true))
  = QQ (S i) false.
Proof.
  intros Ht. unfold quitWorld, pushResult, update, set_heap, set_pending.
  simpl. rewrite alter_insert_eq. simpl.
  rewrite (take_S_expectedResults _ _ _ Ht), Nat.add_0_r, Nat.add_1_r.
  reflexivity.
Qed.

Lemma QQ_stop : QQ n (n <? n) = QQ n false.
Proof. rewrite Nat.ltb_irrefl. reflexivity. Qed.

(** The drive after [quit]: it goes on as before, except that
    [finished] does nothing any more. *)
Lemma quit_drive k :
  forall i, n - i <= k -> q <= i ->
    (forall t, asyncTaskList o !! i = Some t ->
       exists j, i < j <= n /\
         Exec (CCallback {| cb_this := this; cb_asyncTask := t;
                            cb_next := Some (ProcessNextQueueTask this) |}
                         (resultOf (asyncTaskFunction t)))
              (set_pending [] (QQ i true))
              (QQ j (j <? n)))
    /\ (q < i -> i <= n ->
        exists j, i <= j <= n /\
          Exec (CProcessNextQueueTask this) (QQ i false) (QQ j (j <? n))).
Proof.
  induction k as [|k IH]; intros i Hk Hqi.
  - split.
    + intros t Ht. apply lookup_lt_Some in Ht. lia.
    + intros Hlt Hle. assert (i = n) as -> by lia.
      exists n. split; [lia|]. rewrite QQ_stop.
      eapply Exec_processNext_stop; [apply QQ_lookup|]. simpl.
      rewrite length_take, length_expectedResults. lia.
  - assert (Hnext : S i <= n ->
              exists j, S i <= j <= n /\
                Exec (CProcessNextQueueTask this) (QQ (S i) false)
                     (QQ j (j <? n))).
    { intros Hle. destruct (IH (S i) ltac:(lia) ltac:(lia)) as [_ H].
      apply H; lia. }
    assert (Hdone : forall t, asyncTaskList o !! i = Some t ->
       exists j, i < j <= n /\
         Exec (CCallback {| cb_this := this; cb_asyncTask := t;
                            cb_next := Some (ProcessNextQueueTask this) |}
                         (resultOf (asyncTaskFunction t)))
              (set_pending [] (QQ i true))
              (QQ j (j <? n))).
    { intros t Ht. apply lookup_lt_Some in Ht as Hlt.
      assert (Hlook : heap (set_pending [] (QQ i true)) !! this
                      = heap (QQ i true) !! this) by reflexivity.
      destruct (Hnext ltac:(lia)) as (j & Hj & Hrun).
      exists j. split; [lia|].
      eapply Exec_callback_next; [reflexivity| |exact Hrun]. simpl.
      destruct (decide (S i = n)) as [Hlast|Hmore].
      - eapply Exec_asyncTaskFinished_last;
          [rewrite Hlook; apply QQ_lookup| |].
        + simpl. rewrite length_take, length_expectedResults. lia.
        + rewrite (QQ_push i t Ht).
          eapply Exec_finished_again; [apply QQ_lookup|reflexivity].
      - rewrite <- (QQ_push i t Ht).
        eapply Exec_asyncTaskFinished_more;
          [rewrite Hlook; apply QQ_lookup|]. simpl.
        rewrite length_take, length_expectedResults. lia. }
    split; [exact Hdone|]. intros Hlt Hle.
    destruct (decide (i = n)) as [->|Hne].
    { exists n. split; [lia|]. rewrite QQ_stop.
      eapply Exec_processNext_stop; [apply QQ_lookup|]. simpl.
      rewrite length_take, length_expectedResults. lia. }
    destruct (lookup_lt_is_Some_2 (asyncTaskList o) i ltac:(lia)) as [t Ht].
    assert (Hcb : callsBackOnce (asyncTaskFunction t))
      by (eapply (proj1 (Forall_lookup _ _) Honce); eauto).
    destruct (callsBackOnce_inv _ Hcb) as [name [Hf|Hf]].
    + destruct (Hdone t Ht) as (j & Hj & Hrun).
      exists j. split; [lia|].
      eapply Exec_processNext_run; [apply QQ_lookup| |].
      * simpl. rewrite length_take, length_expectedResults.
        rewrite Nat.min_l by lia. exact Ht.
      * apply Exec_runTask. rewrite (QQ_emit i t Hlt Ht). rewrite Hf at 1.
        apply Exec_taskFunction_now. exact Hrun.
    + exists i. split; [lia|].
      eapply Exec_processNext_run; [apply QQ_lookup| |].
      * simpl. rewrite length_take, length_expectedResults.
        rewrite Nat.min_l by lia. exact Ht.
      * apply Exec_runTask. rewrite (QQ_emit i t Hlt Ht). rewrite Hf at 1.
        destruct (Nat.ltb_spec i n); [|lia].
        rewrite <- (QQ_later i t Ht) at 2.
        apply Exec_taskFunction_later.
Qed.

(** One delivery by the host runtime. *)
Lemma quit_deliver j k :
  q <= j -> j <= n ->
  exists j', j <= j' <= n /\ (k = 0 -> Nat.min n (S j) <= j') /\
    exists fuel,
      runOp randomUUID fuel (OpDeliver k) (QQ j (j <? n))
      = Some (QQ j' (j' <? n)).
Proof.
  intros Hqj Hj. destruct (Nat.ltb_spec j n) as [Hlt|Hge].
  - destruct (lookup_lt_is_Some_2 (asyncTaskList o) j Hlt) as [t Ht].
    destruct k as [|k].
    + destruct (quit_drive (n - j) j ltac:(lia) Hqj) as [Hdone _].
      destruct (Hdone t Ht) as (j' & Hj' & [fuel Hrun]).
      exists j'. split; [lia|]. split; [lia|]. exists fuel.
      cbn [runOp]. rewrite QQ_take_pending.
      simpl. rewrite Ht. simpl. exact Hrun.
    + exists j. split; [lia|]. split; [discriminate|]. exists 0.
      destruct (Nat.ltb_spec j n); [|lia].
      simpl. rewrite Ht. reflexivity.
  - assert (j = n) as -> by lia.
    exists n. split; [lia|]. split; [lia|]. exists 0.
    rewrite Nat.ltb_irrefl. reflexivity.
Qed.

Lemma quit_deliveries ks :
  forall j, q <= j -> j <= n ->
    exists j', j <= j' <= n /\ Nat.min n (j + countHead ks) <= j' /\
      Run (OpDeliver <$> ks) (QQ j (j <? n)) (QQ j' (j' <? n)).
Proof.
  induction ks as [|k ks IH]; intros j Hqj Hj.
  - exists j. split; [lia|]. split; [unfold countHead; simpl; lia|].
    apply Run_nil.
  - destruct (quit_deliver j k Hqj Hj) as (j1 & Hj1 & Hk & Hop).
    destruct (IH j1 ltac:(lia) ltac:(lia)) as (j' & Hj' & Hc & Hrun).
    exists j'. split; [lia|]. split.
    + unfold countHead in *. simpl. rewrite filter_cons.
      destruct (decide (k = 0)) as [->|]; simpl; [|lia].
      specialize (Hk eq_refl). lia.
    + rewrite fmap_cons. eapply Run_cons; eauto.
Qed.
End QueueQuit.

Section QueueQuitClaim.
Variable randomUUID : nat -> string.
Local Abbreviation Run := (Run randomUUID).

(** X19: [quit] does not stop a queue run.  It finishes the
    coordinator and invokes the handler it is given, with the results
    there are; but when the task in flight calls back afterwards, its
    result is still recorded and the next task is still invoked, and so
    on through the registry.  No handler is invoked when the last task
    has completed. *)
Theorem queue_goes_on_after_quit w0 this o arg ks1 w1 quitHandler ks2 :
  heap w0 !! this = Some o ->
  asyncTaskList o <> [] ->
  Forall (fun t => callsBackOnce (asyncTaskFunction t)) (asyncTaskList o) ->
  isStarted o = false -> isFinished o = false ->
  asyncTaskResultList o = [] -> pending w0 = [] ->
  isUserHandler (handlerAfterStart arg o) ->
  isUserHandler quitHandler ->
  Run (OpQueue this arg :: (OpDeliver <$> ks1)) w0 w1 ->
  (exists o1, heap w1 !! this = Some o1 /\ isFinished o1 = false) ->
  exists w' o' q,
    Run (OpQuit this quitHandler :: (OpDeliver <$> ks2)) w1 w'
    /\ heap w' !! this = Some o'
    /\ isFinished o' = true
    /\ q < length (asyncTaskList o)
    /\ finalCalls this (trace w')
       = finalCalls this (trace w0)
         ++ match quitHandler with
            | Some h => [(h, take q (expectedResults (asyncTaskList o)))]
            | None => []
            end
    /\ q <= length (asyncTaskResultList o')
    /\ asyncTaskResultList o'
       = take (length (asyncTaskResultList o'))
              (expectedResults (asyncTaskList o))
    /\ invoked this (trace w')
       = invoked this (trace w0)
         ++ take (length (asyncTaskResultList o') + length (pending w'))
                 (asyncTaskList o)
    /\ (length (asyncTaskList o) <= countHead ks2 ->
        asyncTaskResultList o' = expectedResults (asyncTaskList o)
        /\ invoked this (trace w')
           = invoked this (trace w0) ++ asyncTaskList o).
Proof.
  intros Ho Hne Honce Hs Hf Hr Hp Hh Hqh Hrun1 (o1 & Ho1 & Hopen).
  set (handler := handlerAfterStart arg o) in *.
  set (n := length (asyncTaskList o)).
  assert (Hn : 0 < n)
    by (subst n; destruct (asyncTaskList o); simpl; [done|lia]).
  destruct (queue_drive randomUUID w0 this o handler Ho Honce Hh n 0
              ltac:(lia)) as [_ Hdrive].
  destruct (Hdrive Hn) as (j0 & Hj0 & Hstart).
  destruct (queue_deliveries randomUUID w0 this o handler Ho Honce Hh ks1 j0
              ltac:(lia)) as (q & Hq & _ & Hrun).
  assert (Hw1 : w1 = queueWorld w0 this o handler q (q <? n)).
  { eapply Run_functional; [exact Hrun1|].
    eapply Run_cons; [|exact Hrun].
    destruct (Exec_queue randomUUID this arg w0
                (queueWorld w0 this o handler j0 (j0 <? n))) as [fuel Hfuel].
    - eapply Exec_start_queue; eauto.
      rewrite (queue_start w0 this o arg) by assumption. exact Hstart.
    - exists fuel. exact Hfuel. }
  subst w1. rewrite (QW_lookup w0 this o handler Ho) in Ho1.
  injection Ho1 as <-. simpl in Hopen. fold n in Hopen.
  apply Nat.leb_gt in Hopen.
  destruct (Nat.ltb_spec q n) as [_|]; [|lia].
  destruct (quit_deliveries randomUUID w0 this o quitHandler q Ho Honce Hopen
              ks2 q ltac:(lia) ltac:(fold n; lia)) as (j & Hj & Hcount & Hrun2).
  fold n in Hj, Hcount, Hrun2.
  destruct (Nat.ltb_spec q n) as [_|]; [|lia].
  exists (quitWorld w0 this o quitHandler q j (j <? n)). eexists. exists q.
  split.
  { eapply Run_cons; [|exact Hrun2].
    destruct (QQ_quit randomUUID w0 this o quitHandler q Ho Hopen Hqh handler)
      as [fuel Hfuel].
    exists fuel. exact Hfuel. }
  split; [apply (QQ_lookup w0 this o quitHandler q Ho)|].
  cbn [asyncTaskList asyncTaskResultList isFinished].
  split; [reflexivity|]. split; [exact Hopen|].
  assert (Hlen : length (take j (expectedResults (asyncTaskList o))) = j)
    by (rewrite length_take, length_expectedResults; fold n; lia).
  rewrite Hlen.
  assert (Hcalls : forall b,
            finalCalls this (trace (quitWorld w0 this o quitHandler q j b))
            = finalCalls this (trace w0)
              ++ match quitHandler with
                 | Some h => [(h, take q (expectedResults (asyncTaskList o)))]
                 | None => []
                 end).
  { intros b. unfold quitWorld. cbn [trace].
    rewrite !finalCalls_app, !finalCalls_TaskInvoked, finalCalls_finalEvents.
    rewrite app_nil_r. reflexivity. }
  assert (Hinv :
            invoked this (trace (quitWorld w0 this o quitHandler q j (j <? n)))
            = invoked this (trace w0)
              ++ take (j + (if j <? n then 1 else 0)) (asyncTaskList o)).
  { unfold quitWorld. cbn [trace].
    rewrite !invoked_app, !invoked_TaskInvoked, invoked_finalEvents.
    rewrite app_nil_r, <- app_assoc. f_equal.
    rewrite <- (take_drop (S q)
                  (take (j + (if j <? n then 1 else 0)) (asyncTaskList o)))
      at 2.
    f_equal. rewrite take_take. f_equal.
    destruct (Nat.ltb_spec j n); lia. }
  split; [apply Hcalls|]. split; [lia|]. split; [reflexivity|].
  rewrite Hinv. unfold quitWorld. cbn [pending].
  split.
  - f_equal. f_equal. destruct (Nat.ltb_spec j n) as [Hlt|Hge].
    + destruct (lookup_lt_is_Some_2 (asyncTaskList o) j Hlt) as [t ->].
      reflexivity.
    + reflexivity.
  - intros Hc. fold n in Hc. assert (j = n) as -> by lia.
    rewrite Nat.ltb_irrefl, Nat.add_0_r.
    split; [apply take_ge; rewrite length_expectedResults; fold n; lia|].
    f_equal. apply take_ge. fold n. lia.
Qed.
End QueueQuitClaim.

(** ** Pool mode, direct fan-out *)

Lemma poolInv_length this invokedTasks rs ps :
  poolInv this invokedTasks rs ps ->
  length rs + length ps = length invokedTasks.
Proof.
  intros [Hp _]. apply Permutation_length in Hp.
  rewrite length_app, length_fmap, length_expectedResults in Hp. exact Hp.
Qed.

Lemma expectedResults_snoc l t :
  expectedResults (l ++ [t])
  = expectedResults l ++ [resultOf (asyncTaskFunction t)].
Proof. unfold expectedResults. rewrite fmap_app. reflexivity. Qed.

Lemma poolInv_later this done rs ps t :
  poolInv this done rs ps ->
  poolInv this (done ++ [t]) rs (ps ++ [completion this None t]).
Proof.
  intros [Hp Hf]. split.
  - rewrite fmap_app, expectedResults_snoc, app_assoc. simpl.
    rewrite Hp. reflexivity.
  - apply Forall_app. split; [exact Hf|]. constructor; [|constructor].
    split; reflexivity.
Qed.

Lemma poolInv_now this done rs ps t :
  poolInv this done rs ps ->
  poolInv this (done ++ [t]) (rs ++ [resultOf (asyncTaskFunction t)]) ps.
Proof.
  intros [Hp Hf]. split; [|exact Hf].
  rewrite expectedResults_snoc, <- Hp, <- !app_assoc.
  apply Permutation_app_head, Permutation_app_comm.
Qed.

Lemma poolInv_deliver this tasks rs ps k cb r :
  poolInv this tasks rs ps -> ps !! k = Some (cb, r) ->
  poolInv this tasks (rs ++ [r]) (delete k ps)
  /\ cb_this cb = this /\ cb_next cb = None.
Proof.
  intros [Hp Hf] Hk. split; [split|].
  - rewrite <- Hp, <- app_assoc. apply Permutation_app_head.
    pose proof (fmap_Permutation snd _ _ (delete_Permutation ps k (cb, r) Hk))
      as H.
    simpl in H. rewrite H. reflexivity.
  - apply Forall_forall. intros p Hin.
    eapply (proj1 (Forall_forall _ _) Hf).
    eapply elem_of_sublist; [exact Hin|apply sublist_delete].
  - exact (proj1 (Forall_lookup _ _) Hf k (cb, r) Hk).
Qed.

Section PoolMode.
Variable randomUUID : nat -> string.
Local Abbreviation Exec := (Exec randomUUID).
Local Abbreviation ExecEach := (ExecEach randomUUID).

Variables (w0 : World) (this : nat) (o : AsyncTaskHelper).
Variable handler : option AsyncTaskHelperFinalCallback.
Hypothesis Hthis : heap w0 !! this = Some o.
Hypothesis Honce :
  Forall (fun t => callsBackOnce (asyncTaskFunction t)) (asyncTaskList o).

Local Abbreviation PW := (poolWorld w0 this o handler).
Local Abbreviation n := (length (asyncTaskList o)).

(** What happens once the last result is in is left to the user of
    this section: [finished] leads to a world that satisfies [Post]. *)
Variable Post : World -> Prop.
Hypothesis Hfinish : forall rs,
  rs ≡ₚ expectedResults (asyncTaskList o) ->
  exists w', Exec (CFinished this) (PW (asyncTaskList o) rs [] false) w'
             /\ Post w'.

Lemma PW_lookup inv rs ps fin :
  heap (PW inv rs ps fin) !! this
  = Some {| taskMode := Pool;
            asyncTaskList := asyncTaskList o;
            asyncTaskResultList := rs;
            finalCallback := handler;
            isStarted := true;
            isFinished := fin;
            isDebug := isDebug o;
            instanceID := instanceID o |}.
Proof. simpl. apply list_lookup_insert_eq. eapply lookup_lt_Some; eauto. Qed.

Lemma PW_emit inv rs ps t :
  emit (TaskInvoked this t) (PW inv rs ps false) = PW (inv ++ [t]) rs ps false.
Proof.
  unfold poolWorld, emit. simpl.
  rewrite fmap_app, !app_nil_r, <- app_assoc. reflexivity.
Qed.

Lemma PW_push inv rs ps r :
  pushResult this r (PW inv rs ps false) = PW inv (rs ++ [r]) ps false.
Proof.
  unfold poolWorld, pushResult, update, set_heap. simpl.
  rewrite alter_insert_eq. reflexivity.
Qed.

Lemma PW_later inv rs ps c :
  set_pending (pending (PW inv rs ps false) ++ [c]) (PW inv rs ps false)
  = PW inv rs (ps ++ [c]) false.
Proof. reflexivity. Qed.

Lemma PW_take inv rs ps k :
  set_pending (delete k (pending (PW inv rs ps false))) (PW inv rs ps false)
  = PW inv rs (delete k ps) false.
Proof. reflexivity. Qed.

Lemma PW_finished inv rs ps h :
  handler = Some h ->
  emit (FinalCallbackInvoked this h rs)
       (update this (set_isFinished true) (PW inv rs ps false))
  = PW inv rs ps true.
Proof.
  intros Hh. unfold poolWorld, emit, update, set_heap, set_isFinished. simpl.
  rewrite alter_insert_eq, Hh, !app_nil_r, <- app_assoc. reflexivity.
Qed.

Lemma PW_finished_silent inv rs ps :
  handler = None ->
  update this (set_isFinished true) (PW inv rs ps false) = PW inv rs ps true.
Proof.
  intros Hh. unfold poolWorld, update, set_heap, set_isFinished. simpl.
  rewrite alter_insert_eq, Hh. reflexivity.
Qed.

(** A completion callback of the pool run arrives. *)
Lemma pool_callback rs ps cb r :
  cb_this cb = this -> cb_next cb = None ->
  poolInv this (asyncTaskList o) (rs ++ [r]) ps ->
  exists w', Exec (CCallback cb r) (PW (asyncTaskList o) rs ps false) w'
             /\ ((poolWaiting w0 this o handler w' /\ pending w' = ps)
                 \/ Post w').
Proof.
  intros Hcb Hnext Hinv.
  pose proof (poolInv_length _ _ _ _ Hinv) as Hlen.
  rewrite length_app in Hlen. simpl in Hlen.
  destruct ps as [|p ps].
  - destruct (Hfinish (rs ++ [r])) as (w' & Hexec & Hpost).
    { destruct Hinv as [Hp _]. simpl in Hp. rewrite app_nil_r in Hp.
      exact Hp. }
    exists w'. split; [|right; exact Hpost].
    apply Exec_callback_plain; [exact Hnext|]. rewrite Hcb.
    eapply Exec_asyncTaskFinished_last; [apply PW_lookup| |].
    + simpl in *. lia.
    + rewrite PW_push. exact Hexec.
  - exists (PW (asyncTaskList o) (rs ++ [r]) (p :: ps) false).
    split.
    + apply Exec_callback_plain; [exact Hnext|]. rewrite Hcb.
      rewrite <- PW_push.
      eapply Exec_asyncTaskFinished_more; [apply PW_lookup|].
      simpl in *. lia.
    + left. split; [|reflexivity].
      exists (rs ++ [r]), (p :: ps). split; [reflexivity|].
      split; [discriminate|exact Hinv].
Qed.

(** The [forEach] of [start]: the tasks [rest] are still to be invoked. *)
Lemma pool_fanout rest :
  forall done rs ps,
    done ++ rest = asyncTaskList o ->
    poolInv this done rs ps ->
    rest <> [] \/ ps <> [] ->
    exists w',
      ExecEach (fun asyncTask => CRunTask this asyncTask None) rest
               (PW done rs ps false) w'
      /\ (poolWaiting w0 this o handler w' \/ Post w').
Proof.
  induction rest as [|t rest IH]; intros done rs ps Hsplit Hinv Hne.
  - rewrite app_nil_r in Hsplit. subst done.
    exists (PW (asyncTaskList o) rs ps false). split; [apply ExecEach_nil|].
    left. exists rs, ps. split; [reflexivity|]. split; [|exact Hinv].
    destruct Hne; [done|assumption].
  - assert (Hin : callsBackOnce (asyncTaskFunction t)).
    { eapply (proj1 (Forall_forall _ _) Honce).
      rewrite <- Hsplit. apply elem_of_app. right. left. }
    pose proof (poolInv_length _ _ _ _ Hinv) as Hlen.
    assert (Hn : n = length done + S (length rest))
      by (rewrite <- Hsplit, length_app; reflexivity).
    destruct (callsBackOnce_inv _ Hin) as [name [Hf|Hf]].
    + (* the task calls back before it returns *)
      destruct (decide (S (length rs) = n)) as [Hlast|Hmore].
      * assert (rest = []) as -> by (destruct rest; [done|simpl in *; lia]).
        assert (ps = []) as -> by (destruct ps; [done|simpl in *; lia]).
        destruct (pool_callback rs []
                    {| cb_this := this; cb_asyncTask := t; cb_next := None |}
                    (resultOf (asyncTaskFunction t)) eq_refl eq_refl)
          as (w' & Hexec & Hpost).
        { rewrite <- Hsplit. apply poolInv_now. exact Hinv. }
        exists w'. split; [|destruct Hpost as [[? _]|?]; auto].
        eapply ExecEach_cons; [|apply ExecEach_nil].
        apply Exec_runTask. rewrite PW_emit, Hsplit. rewrite Hf at 1.
        apply Exec_taskFunction_now. exact Hexec.
      * destruct (IH (done ++ [t])
                     (rs ++ [resultOf (asyncTaskFunction t)]) ps)
          as (w' & Hexec & Hpost).
        { rewrite <- app_assoc. exact Hsplit. }
        { apply poolInv_now. exact Hinv. }
        { destruct rest; [right|left; done].
          destruct ps; [simpl in *; lia|done]. }
        exists w'. split; [|exact Hpost].
        eapply ExecEach_cons; [|exact Hexec].
        apply Exec_runTask. rewrite PW_emit. rewrite Hf at 1.
        apply Exec_taskFunction_now.
        apply Exec_callback_plain; [reflexivity|]. simpl.
        rewrite <- PW_push.
        eapply Exec_asyncTaskFinished_more; [apply PW_lookup|].
        simpl in *. lia.
    + (* the task defers its callback *)
      destruct (IH (done ++ [t]) rs (ps ++ [completion this None t]))
        as (w' & Hexec & Hpost).
      { rewrite <- app_assoc. exact Hsplit. }
      { apply poolInv_later. exact Hinv. }
      { right. destruct ps; discriminate. }
      exists w'. split; [|exact Hpost].
      eapply ExecEach_cons; [|exact Hexec].
      apply Exec_runTask. rewrite PW_emit. rewrite Hf at 1.
      rewrite <- PW_later. apply Exec_taskFunction_later.
Qed.

(** One delivery by the host runtime to a waiting pool run. *)
Lemma pool_deliver w k :
  poolWaiting w0 this o handler w ->
  exists w', (exists fuel, runOp randomUUID fuel (OpDeliver k) w = Some w')
             /\ ((poolWaiting w0 this o handler w'
                  /\ (k < length (pending w) ->
                      length (pending w') < length (pending w)))
                 \/ Post w')
             /\ (length (pending w) <= k -> w' = w).
Proof.
  intros (rs & ps & -> & Hne & Hinv).
  destruct (ps !! k) as [[cb r]|] eqn:Hk.
  - destruct (poolInv_deliver _ _ _ _ _ _ _ Hinv Hk) as (Hinv' & Hcb & Hnext).
    destruct (pool_callback rs (delete k ps) cb r Hcb Hnext Hinv')
      as (w' & [fuel Hexec] & Hpost).
    apply lookup_lt_Some in Hk as Hlt.
    exists w'. split; [|split].
    + exists fuel. cbn [runOp]. rewrite PW_take. simpl. rewrite Hk.
      exact Hexec.
    + destruct Hpost as [[Hw Hp]|Hpost]; [left|right; exact Hpost].
      split; [exact Hw|]. intros _. rewrite Hp. simpl.
      rewrite length_delete by eauto. lia.
    + intros Hge. simpl in Hge. lia.
  - apply lookup_ge_None in Hk.
    exists (PW (asyncTaskList o) rs ps false).
    split; [|split; [left; split; [exists rs, ps; auto|simpl; lia]
                    |reflexivity]].
    exists 0. simpl. rewrite (proj2 (lookup_ge_None _ _) Hk). reflexivity.
Qed.
End PoolMode.

Section PoolTheorem.
Variable randomUUID : nat -> string.
Local Abbreviation Exec := (Exec randomUUID).
Local Abbreviation Run := (Run randomUUID).

Variables (w0 : World) (this : nat) (o : AsyncTaskHelper).
Variable handler : option AsyncTaskHelperFinalCallback.
Hypothesis Hthis : heap w0 !! this = Some o.
Hypothesis Honce :
  Forall (fun t => callsBackOnce (asyncTaskFunction t)) (asyncTaskList o).
Hypothesis Hhandler : isUserHandler handler.

Local Abbreviation PW := (poolWorld w0 this o handler).

(** With a caller's handler (or none), [finished] ends the run. *)
Lemma pool_finish_user rs :
  rs ≡ₚ expectedResults (asyncTaskList o) ->
  exists w', Exec (CFinished this) (PW (asyncTaskList o) rs [] false) w'
             /\ poolDone w0 this o handler w'.
Proof.
  intros Hrs. exists (PW (asyncTaskList o) rs [] true).
  split; [|exists rs; auto].
  destruct handler as [[id| |]|] eqn:Hh; simpl in Hhandler; try tauto.
  - eapply Exec_finished_handler;
      [apply (PW_lookup w0 this o _ Hthis)|reflexivity|reflexivity|].
    simpl.
    match goal with
    | |- Exec _ ?w1 ?w2 => replace w2 with w1
    end; [apply Exec_finalCallback_user|].
    unfold poolWorld, emit, update, set_heap, set_isFinished. simpl.
    rewrite alter_insert_eq, !app_nil_r, <- app_assoc. reflexivity.
  - match goal with
    | |- Exec _ ?w1 ?w2 =>
        replace w2 with (update this (set_isFinished true) w1)
    end.
    + eapply Exec_finished_silent;
        [apply (PW_lookup w0 this o _ Hthis)|reflexivity|reflexivity].
    + unfold poolWorld, update, set_heap, set_isFinished. simpl.
      rewrite alter_insert_eq. reflexivity.
Qed.

Lemma pool_deliveries ks :
  forall w,
    poolWaiting w0 this o handler w \/ poolDone w0 this o handler w ->
    exists w',
      Run (OpDeliver <$> ks) w w'
      /\ (poolWaiting w0 this o handler w' \/ poolDone w0 this o handler w')
      /\ (length (pending w) <= countHead ks -> poolDone w0 this o handler w').
Proof.
  induction ks as [|k ks IH]; intros w Hw.
  - exists w. split; [apply Run_nil|]. split; [exact Hw|].
    intros Hlen. destruct Hw as [(rs & ps & -> & Hne & _)|Hw]; [|exact Hw].
    unfold countHead in Hlen. destruct ps; [done|simpl in Hlen; lia].
  - destruct Hw as [Hw|Hw].
    + destruct (pool_deliver randomUUID w0 this o handler Hthis
                  (poolDone w0 this o handler) pool_finish_user w k Hw)
        as (w1 & Hop & Hpost & Hsame).
      assert (Hw1 : poolWaiting w0 this o handler w1
                    \/ poolDone w0 this o handler w1)
        by (destruct Hpost as [[? _]|?]; auto).
      destruct (IH w1 Hw1) as (w' & Hrun & Hw' & Hlive).
      exists w'. split; [rewrite fmap_cons; eapply Run_cons; eauto|].
      split; [exact Hw'|]. intros Hlen. apply Hlive.
      unfold countHead in *. rewrite filter_cons in Hlen.
      destruct (decide (k = 0)) as [->|Hk]; simpl in Hlen.
      * destruct Hpost as [[_ Hlt]|(rs & -> & _)]; [|simpl; lia].
        destruct Hw as (rs & ps & -> & Hne & _).
        destruct ps; [done|]. simpl in *. specialize (Hlt ltac:(lia)). lia.
      * destruct Hpost as [[_ Hlt]|(rs & -> & _)]; [|simpl; lia].
        destruct (decide (k < length (pending w))) as [Hin|Hout];
          [specialize (Hlt Hin); lia|].
        rewrite Hsame by lia. exact Hlen.
    + destruct (IH w (or_intror Hw)) as (w' & Hrun & Hw' & Hlive).
      exists w'. split; [|split; [exact Hw'|]].
      * rewrite fmap_cons. eapply Run_cons; [|exact Hrun].
        exists 0. destruct Hw as (rs & -> & _). reflexivity.
      * intros _. apply Hlive. destruct Hw as (rs & -> & _). simpl. lia.
Qed.
End PoolTheorem.

Lemma pool_start_world w0 this o arg :
  heap w0 !! this = Some o ->
  isStarted o = false -> isFinished o = false ->
  asyncTaskResultList o = [] -> pending w0 = [] ->
  update this (set_isStarted true) (recordStart this arg (Some Pool) o w0)
  = poolWorld w0 this o (handlerAfterStart arg o) [] [] [] false.
Proof.
  intros Ho Hs Hf Hr Hp.
  unfold recordStart, update, set_heap, poolWorld. simpl.
  rewrite (alter_lookup_insert _ _ _ _ Ho), !alter_insert_eq.
  rewrite Hp.
  destruct w0 as [hp pd tr uc], o as [m l rs h s f d ii]; simpl in *; subst.
  rewrite ?app_nil_r. reflexivity.
Qed.

Section PoolClaim.
Variable randomUUID : nat -> string.
Local Abbreviation Run := (Run randomUUID).

(** C2: a pool run of at most 30 tasks that each call back exactly
    once.  [start] invokes every task, once, before anything is
    delivered; whatever the host runtime delivers ([ks]), the results
    that came back together with those still owed are the results of
    the tasks; the coordinator is finished exactly when no completion is
    owed any more, and then there are as many results as tasks and the
    handler has been invoked once with them. *)
Theorem pool_mode_fan_out w0 this o arg ks :
  heap w0 !! this = Some o ->
  length (asyncTaskList o) <= asyncPoolChunkSize ->
  Forall (fun t => callsBackOnce (asyncTaskFunction t)) (asyncTaskList o) ->
  isStarted o = false -> isFinished o = false ->
  asyncTaskResultList o = [] -> pending w0 = [] ->
  isUserHandler (handlerAfterStart arg o) ->
  exists w' o',
    Run (OpPool this arg :: (OpDeliver <$> ks)) w0 w'
    /\ heap w' !! this = Some o'
    /\ asyncTaskList o' = asyncTaskList o
    /\ invoked this (trace w') = invoked this (trace w0) ++ asyncTaskList o
    /\ asyncTaskResultList o' ++ (pending w').*2
       ≡ₚ expectedResults (asyncTaskList o)
    /\ Forall (fun p => cb_this p.1 = this /\ cb_next p.1 = None) (pending w')
    /\ (isFinished o' = true <-> pending w' = [])
    /\ (isFinished o' = true ->
        length (asyncTaskResultList o') = length (asyncTaskList o))
    /\ finalCalls this (trace w')
       = finalCalls this (trace w0)
         ++ (if isFinished o'
             then match handlerAfterStart arg o with
                  | Some h => [(h, asyncTaskResultList o')]
                  | None => []
                  end
             else [])
    /\ (length (asyncTaskList o) <= countHead ks -> isFinished o' = true).
Proof.
  intros Ho Hle Honce Hs Hf Hr Hp Hh.
  set (handler := handlerAfterStart arg o) in *.
  assert (Hstart : exists w1,
    Exec randomUUID (CStart this arg (Some Pool)) w0 w1
    /\ (poolWaiting w0 this o handler w1 \/ poolDone w0 this o handler w1)
    /\ length (pending w1) <= length (asyncTaskList o)).
  { destruct (decide (asyncTaskList o = [])) as [Hl|Hl].
    - destruct (pool_finish_user randomUUID w0 this o handler Ho Hh [])
        as (w1 & Hexec & Hdone).
      { rewrite Hl. reflexivity. }
      exists w1. split; [|split; [right; exact Hdone|]].
      + eapply Exec_start_empty; eauto.
        rewrite (pool_start_world w0 this o arg) by assumption.
        rewrite Hl in Hexec. exact Hexec.
      + destruct Hdone as (rs & -> & _). simpl. lia.
    - destruct (pool_fanout randomUUID w0 this o handler Ho Honce
                  (poolDone w0 this o handler)
                  (pool_finish_user randomUUID w0 this o handler Ho Hh)
                  (asyncTaskList o) [] [] [])
        as (w1 & Hexec & Hpost).
      { reflexivity. }
      { split; [reflexivity|constructor]. }
      { left. exact Hl. }
      exists w1. split; [|split; [exact Hpost|]].
      + eapply Exec_start_pool; eauto.
        rewrite (pool_start_world w0 this o arg) by assumption.
        exact Hexec.
      + destruct Hpost as [(rs & ps & -> & _ & Hinv)|(rs & -> & _)];
          [|simpl; lia].
        apply poolInv_length in Hinv. simpl. lia. }
  destruct Hstart as (w1 & Hexec & Hw1 & Hlen1).
  destruct (pool_deliveries randomUUID w0 this o handler Ho Hh ks w1 Hw1)
    as (w' & Hrun & Hw' & Hlive).
  exists w'.
  assert (HRun : Run (OpPool this arg :: (OpDeliver <$> ks)) w0 w').
  { eapply Run_cons; [|exact Hrun].
    destruct (Exec_pool randomUUID _ _ _ _ Hexec) as [fuel Hfuel].
    exists fuel. exact Hfuel. }
  destruct Hw' as [(rs & ps & -> & Hne & Hinv)|Hdone].
  - eexists. split; [exact HRun|].
    split; [apply (PW_lookup w0 this o handler Ho)|].
    simpl. split; [reflexivity|].
    rewrite !invoked_app, invoked_TaskInvoked.
    rewrite !finalCalls_app, finalCalls_TaskInvoked. simpl.
    rewrite !app_nil_r.
    split; [reflexivity|]. split; [apply Hinv|]. split; [apply Hinv|].
    split; [split; [discriminate|done]|].
    split; [discriminate|]. split; [reflexivity|].
    intros Hc. destruct Hlive as (rs' & Heq & _); [lia|].
    apply (f_equal pending) in Heq. simpl in Heq. done.
  - destruct Hdone as (rs & -> & Hrs).
    eexists. split; [exact HRun|].
    split; [apply (PW_lookup w0 this o handler Ho)|].
    simpl. split; [reflexivity|].
    rewrite !invoked_app, invoked_TaskInvoked, invoked_finalEvents.
    rewrite !finalCalls_app, finalCalls_TaskInvoked, finalCalls_finalEvents.
    rewrite !app_nil_r. simpl.
    split; [reflexivity|]. split; [exact Hrs|]. split; [constructor|].
    split; [done|]. split.
    + intros _. apply Permutation_length in Hrs.
      rewrite length_expectedResults in Hrs. exact Hrs.
    + split; reflexivity.
Qed.
End PoolClaim.

(** ** Pool mode: the order of the results *)

Lemma nowResults_snoc_now l t :
  callsBackNow (asyncTaskFunction t) = true ->
  nowResults (l ++ [t]) = nowResults l ++ [resultOf (asyncTaskFunction t)].
Proof.
  intros Ht. unfold nowResults.
  rewrite filter_app, filter_cons_True by exact Ht.
  rewrite filter_nil. apply expectedResults_snoc.
Qed.

Lemma nowResults_snoc_later l t :
  callsBackNow (asyncTaskFunction t) <> true ->
  nowResults (l ++ [t]) = nowResults l.
Proof.
  intros Ht. unfold nowResults.
  rewrite filter_app, filter_cons_False by exact Ht.
  rewrite filter_nil, app_nil_r. reflexivity.
Qed.

Lemma laterCompletions_snoc_now this l t :
  callsBackNow (asyncTaskFunction t) = true ->
  laterCompletions this (l ++ [t]) = laterCompletions this l.
Proof.
  intros Ht. unfold laterCompletions.
  rewrite filter_app, filter_cons_False by (rewrite Ht; tauto).
  rewrite filter_nil, app_nil_r. reflexivity.
Qed.

Lemma laterCompletions_snoc_later this l t :
  callsBackNow (asyncTaskFunction t) <> true ->
  laterCompletions this (l ++ [t])
  = laterCompletions this l ++ [completion this None t].
Proof.
  intros Ht. unfold laterCompletions.
  rewrite filter_app, filter_cons_True by exact Ht.
  rewrite filter_nil, fmap_app. reflexivity.
Qed.

Lemma length_now_later this l :
  length (nowResults l) + length (laterCompletions this l) = length l.
Proof.
  unfold nowResults, laterCompletions.
  rewrite length_expectedResults, length_fmap.
  induction l as [|t l IH]; [reflexivity|].
  destruct (decide (callsBackNow (asyncTaskFunction t) = true)) as [Ht|Ht].
  - rewrite filter_cons_True by exact Ht.
    rewrite filter_cons_False by (rewrite Ht; tauto). simpl. lia.
  - rewrite filter_cons_False by exact Ht.
    rewrite filter_cons_True by exact Ht. simpl. lia.
Qed.

Lemma laterCompletions_callbacks this l :
  Forall (fun p => cb_this p.1 = this /\ cb_next p.1 = None)
         (laterCompletions this l).
Proof.
  unfold laterCompletions. apply Forall_fmap, Forall_forall.
  intros t _. split; reflexivity.
Qed.

Lemma deliveries_length {A} ks : forall (ps : list A),
  length (deliveries ks ps).1 + length (deliveries ks ps).2 = length ps.
Proof.
  induction ks as [|k ks IH]; intros ps; simpl; [reflexivity|].
  destruct (ps !! k) as [p|] eqn:Hk; [|apply IH].
  specialize (IH (delete k ps)).
  destruct (deliveries ks (delete k ps)) as [d r]. simpl in *.
  rewrite length_delete in IH by eauto.
  apply lookup_lt_Some in Hk. lia.
Qed.

Lemma deliveries_left {A} (P : A -> Prop) ks : forall (ps : list A),
  Forall P ps -> Forall P (deliveries ks ps).2.
Proof.
  induction ks as [|k ks IH]; intros ps Hps; simpl; [exact Hps|].
  destruct (ps !! k) as [p|] eqn:Hk; [|apply IH; exact Hps].
  specialize (IH (delete k ps)).
  destruct (deliveries ks (delete k ps)) as [d r]. simpl in *.
  apply IH. apply Forall_forall. intros x Hx.
  eapply (proj1 (Forall_forall _ _) Hps).
  eapply elem_of_sublist; [exact Hx|apply sublist_delete].
Qed.

(** Delivering the oldest owed completion as often as there are owed
    completions leaves none. *)
Lemma deliveries_head {A} ks : forall (ps : list A),
  length ps <= countHead ks -> (deliveries ks ps).2 = [].
Proof.
  induction ks as [|k ks IH]; intros ps Hlen.
  - unfold countHead in Hlen. simpl in *. destruct ps; [reflexivity|].
    simpl in Hlen. lia.
  - simpl. unfold countHead in Hlen. rewrite filter_cons in Hlen.
    destruct (ps !! k) as [p|] eqn:Hk.
    + specialize (IH (delete k ps)).
      destruct (deliveries ks (delete k ps)) as [d r]. simpl in *.
      apply IH. rewrite length_delete by eauto.
      apply lookup_lt_Some in Hk. unfold countHead.
      destruct (decide (k = 0)); simpl in Hlen; lia.
    + apply IH. apply lookup_ge_None in Hk. unfold countHead.
      destruct (decide (k = 0)); simpl in Hlen; lia.
Qed.

Section PoolOrder.
Variable randomUUID : nat -> string.
Local Abbreviation Exec := (Exec randomUUID).
Local Abbreviation ExecEach := (ExecEach randomUUID).
Local Abbreviation Run := (Run randomUUID).

Variables (w0 : World) (this : nat) (o : AsyncTaskHelper).
Variable handler : option AsyncTaskHelperFinalCallback.
Hypothesis Hthis : heap w0 !! this = Some o.
Hypothesis Hhandler : isUserHandler handler.

Local Abbreviation PW := (poolWorld w0 this o handler).
Local Abbreviation n := (length (asyncTaskList o)).

(** [finished] on a pool run that has not finished yet. *)
Lemma pool_finished_exact inv rs ps :
  Exec (CFinished this) (PW inv rs ps false) (PW inv rs ps true).
Proof.
  destruct handler as [[id| |]|] eqn:Hh; simpl in Hhandler; try tauto.
  - eapply Exec_finished_handler;
      [apply (PW_lookup w0 this o _ Hthis)|reflexivity|reflexivity|].
    simpl.
    match goal with
    | |- Exec _ ?w1 ?w2 => replace w2 with w1
    end; [apply Exec_finalCallback_user|].
    unfold poolWorld, emit, update, set_heap, set_isFinished. simpl.
    rewrite alter_insert_eq, !app_nil_r, <- app_assoc. reflexivity.
  - match goal with
    | |- Exec _ ?w1 ?w2 =>
        replace w2 with (update this (set_isFinished true) w1)
    end.
    + eapply Exec_finished_silent;
        [apply (PW_lookup w0 this o _ Hthis)|reflexivity|reflexivity].
    + unfold poolWorld, update, set_heap, set_isFinished. simpl.
      rewrite alter_insert_eq. reflexivity.
Qed.

(** A completion callback of the pool run arrives: its result is
    appended, and the run is finished when that makes as many results
    as there are tasks in the registry. *)
Lemma pool_callback_exact inv rs ps cb r :
  cb_this cb = this -> cb_next cb = None ->
  Exec (CCallback cb r) (PW inv rs ps false)
       (PW inv (rs ++ [r]) ps (n <=? S (length rs))).
Proof.
  intros Hcb Hnext. apply Exec_callback_plain; [exact Hnext|]. rewrite Hcb.
  destruct (Nat.leb_spec n (S (length rs))) as [Hlast|Hmore].
  - eapply Exec_asyncTaskFinished_last;
      [apply (PW_lookup w0 this o _ Hthis)|simpl; lia|].
    rewrite PW_push. apply pool_finished_exact.
  - rewrite <- PW_push.
    eapply Exec_asyncTaskFinished_more;
      [apply (PW_lookup w0 this o _ Hthis)|simpl; lia].
Qed.

(** The [forEach] of [start], task by task. *)
Lemma pool_fanout_exact rest :
  forall done,
    done ++ rest = asyncTaskList o ->
    Forall (fun t => callsBackOnce (asyncTaskFunction t)) rest ->
    ExecEach (fun asyncTask => CRunTask this asyncTask None) rest
      (PW done (nowResults done) (laterCompletions this done)
          (n <=? length (nowResults done)))
      (PW (asyncTaskList o) (nowResults (asyncTaskList o))
          (laterCompletions this (asyncTaskList o))
          (n <=? length (nowResults (asyncTaskList o)))).
Proof.
  induction rest as [|t rest IH]; intros done Hsplit Honce.
  - rewrite app_nil_r in Hsplit. subst done. apply ExecEach_nil.
  - apply Forall_cons in Honce as [Ht Honce].
    assert (Hn : n = length done + S (length rest))
      by (rewrite <- Hsplit, length_app; reflexivity).
    pose proof (length_now_later this done) as Hlen.
    destruct (Nat.leb_spec n (length (nowResults done))) as [Hle|_]; [lia|].
    specialize (IH (done ++ [t])). rewrite <- app_assoc in IH.
    specialize (IH Hsplit Honce).
    destruct (callsBackOnce_inv _ Ht) as [name [Hf|Hf]].
    + assert (Hnow : callsBackNow (asyncTaskFunction t) = true)
        by (rewrite Hf; reflexivity).
      rewrite (nowResults_snoc_now _ _ Hnow),
        (laterCompletions_snoc_now _ _ _ Hnow) in IH.
      eapply ExecEach_cons; [|exact IH].
      apply Exec_runTask. rewrite PW_emit. rewrite Hf at 1.
      apply Exec_taskFunction_now.
      rewrite length_app, Nat.add_1_r.
      apply pool_callback_exact; reflexivity.
    + assert (Hlater : callsBackNow (asyncTaskFunction t) <> true)
        by (rewrite Hf; discriminate).
      rewrite (nowResults_snoc_later _ _ Hlater),
        (laterCompletions_snoc_later _ _ _ Hlater) in IH.
      destruct (Nat.leb_spec n (length (nowResults done))) as [Hle|_];
        [lia|].
      eapply ExecEach_cons; [|exact IH].
      apply Exec_runTask. rewrite PW_emit. rewrite Hf at 1.
      rewrite <- PW_later. apply Exec_taskFunction_later.
Qed.

(** The deliveries of the host runtime to a pool run in which [rs]
    results are in, [ps] completions are owed, and these make at most
    as many as there are tasks in the registry. *)
Lemma pool_deliveries_exact inv ks :
  forall rs ps,
    length rs + length ps <= n ->
    (ps <> [] -> length rs < n) ->
    Forall (fun p => cb_this p.1 = this /\ cb_next p.1 = None) ps ->
    Run (OpDeliver <$> ks)
        (PW inv rs ps (n <=? length rs))
        (PW inv (rs ++ (deliveries ks ps).1.*2) (deliveries ks ps).2
            (n <=? length (rs ++ (deliveries ks ps).1.*2))).
Proof.
  induction ks as [|k ks IH]; intros rs ps Hlen Hopen Hps.
  - simpl. rewrite app_nil_r. apply Run_nil.
  - rewrite fmap_cons. cbn [deliveries].
    destruct (ps !! k) as [[cb r]|] eqn:Hk.
    + assert (Hne : ps <> []) by (intros ->; discriminate).
      specialize (Hopen Hne).
      apply lookup_lt_Some in Hk as Hlt.
      destruct (Nat.leb_spec n (length rs)) as [Hle|_]; [lia|].
      pose proof (proj1 (Forall_lookup _ _) Hps k (cb, r) Hk) as [Hcb Hnext].
      specialize (IH (rs ++ [r]) (delete k ps)).
      destruct (deliveries ks (delete k ps)) as [d left] eqn:Hd. simpl in *.
      rewrite <- app_assoc in IH. simpl in IH.
      eapply Run_cons; [|apply IH].
      * destruct (pool_callback_exact inv rs (delete k ps) cb r Hcb Hnext)
          as [fuel Hexec].
        exists fuel. cbn [runOp]. simpl. rewrite Hk.
        rewrite length_app, Nat.add_1_r. exact Hexec.
      * rewrite length_app, length_delete by eauto. simpl. lia.
      * intros Hne'. rewrite length_app. simpl.
        assert (0 < length (delete k ps))
          by (destruct (delete k ps); [done|simpl; lia]).
        rewrite length_delete in * by eauto. lia.
      * apply Forall_forall. intros x Hx.
        eapply (proj1 (Forall_forall _ _) Hps).
        eapply elem_of_sublist; [exact Hx|apply sublist_delete].
    + eapply Run_cons; [|apply IH; assumption].
      exists 0. simpl. rewrite Hk. reflexivity.
Qed.
End PoolOrder.

Section PoolOrderClaim.
Variable randomUUID : nat -> string.
Local Abbreviation Run := (Run randomUUID).

(** [start] in pool mode on a fresh coordinator with at most 30 tasks
    that each call back exactly once. *)
Lemma pool_start_exact w0 this o arg :
  heap w0 !! this = Some o ->
  length (asyncTaskList o) <= asyncPoolChunkSize ->
  Forall (fun t => callsBackOnce (asyncTaskFunction t)) (asyncTaskList o) ->
  isStarted o = false -> isFinished o = false ->
  asyncTaskResultList o = [] -> pending w0 = [] ->
  isUserHandler (handlerAfterStart arg o) ->
  Exec randomUUID (CStart this arg (Some Pool)) w0
    (poolWorld w0 this o (handlerAfterStart arg o) (asyncTaskList o)
       (nowResults (asyncTaskList o))
       (laterCompletions this (asyncTaskList o))
       (length (asyncTaskList o) <=? length (nowResults (asyncTaskList o)))).
Proof.
  intros Ho Hle Honce Hs Hf Hr Hp Hh.
  destruct (decide (asyncTaskList o = [])) as [Hl|Hl].
  - eapply Exec_start_empty; eauto.
    rewrite (pool_start_world w0 this o arg) by assumption.
    rewrite Hl. simpl.
    apply (pool_finished_exact randomUUID w0 this o _ Ho Hh).
  - eapply Exec_start_pool; eauto.
    rewrite (pool_start_world w0 this o arg) by assumption.
    pose proof (pool_fanout_exact randomUUID w0 this o _ Ho Hh
                  (asyncTaskList o) [] eq_refl Honce) as H.
    simpl in H.
    destruct (Nat.leb_spec (length (asyncTaskList o)) 0) as [H0|_];
      [destruct (asyncTaskList o); [done|simpl in H0; lia]|].
    exact H.
Qed.

(** X10: in a pool run of at most 30 tasks that each call back
    exactly once, the results are in the order of completion: first the
    results of the tasks that call back before they return, in registry
    order, then the results of the other tasks in the order in which
    the host runtime delivers them.  The coordinator is finished
    exactly when there are as many results as tasks, and the handler is
    then given the results in that order. *)
Theorem pool_results_in_completion_order w0 this o arg ks :
  heap w0 !! this = Some o ->
  length (asyncTaskList o) <= asyncPoolChunkSize ->
  Forall (fun t => callsBackOnce (asyncTaskFunction t)) (asyncTaskList o) ->
  isStarted o = false -> isFinished o = false ->
  asyncTaskResultList o = [] -> pending w0 = [] ->
  isUserHandler (handlerAfterStart arg o) ->
  exists w' o',
    Run (OpPool this arg :: (OpDeliver <$> ks)) w0 w'
    /\ heap w' !! this = Some o'
    /\ asyncTaskResultList o'
       = nowResults (asyncTaskList o)
         ++ (deliveries ks (laterCompletions this (asyncTaskList o))).1.*2
    /\ pending w'
       = (deliveries ks (laterCompletions this (asyncTaskList o))).2
    /\ (isFinished o' = true
        <-> length (asyncTaskResultList o') = length (asyncTaskList o))
    /\ finalCalls this (trace w')
       = finalCalls this (trace w0)
         ++ (if isFinished o'
             then match handlerAfterStart arg o with
                  | Some h => [(h, asyncTaskResultList o')]
                  | None => []
                  end
             else []).
Proof.
  intros Ho Hle Honce Hs Hf Hr Hp Hh.
  set (handler := handlerAfterStart arg o) in *.
  set (tasks := asyncTaskList o) in *.
  pose proof (pool_start_exact w0 this o arg Ho Hle Honce Hs Hf Hr Hp Hh)
    as Hstart.
  pose proof (length_now_later this tasks) as Hlen.
  pose proof (pool_deliveries_exact randomUUID w0 this o handler Ho Hh tasks ks
                (nowResults tasks) (laterCompletions this tasks)
                ltac:(fold tasks; lia)
                ltac:(intros Hne; fold tasks;
                      destruct (laterCompletions this tasks);
                      [done|simpl in Hlen; lia])
                (laterCompletions_callbacks this tasks)) as Hrun.
  pose proof (deliveries_length ks (laterCompletions this tasks)) as Hd.
  eexists _, _. split.
  { eapply Run_cons; [|exact Hrun].
    destruct (Exec_pool randomUUID _ _ _ _ Hstart) as [fuel Hfuel].
    exists fuel. exact Hfuel. }
  split; [apply (PW_lookup w0 this o handler Ho)|].
  cbn [asyncTaskResultList isFinished pending asyncTaskList].
  split; [reflexivity|]. split; [reflexivity|].
  fold tasks.
  destruct (Nat.leb_spec (length tasks)
              (length (nowResults tasks
                       ++ (deliveries ks (laterCompletions this tasks)).1.*2)))
    as [Hfin|Hopen]; unfold poolWorld; cbn [trace].
  - split.
    + split; [intros _|reflexivity].
      rewrite length_app, length_fmap in *. lia.
    + rewrite !finalCalls_app, finalCalls_TaskInvoked, finalCalls_finalEvents.
      reflexivity.
  - split; [split; [discriminate|lia]|].
    rewrite !finalCalls_app, finalCalls_TaskInvoked. simpl.
    rewrite app_nil_r. reflexivity.
Qed.
End PoolOrderClaim.

Section PoolLateAdd.
Variable randomUUID : nat -> string.
Local Abbreviation Run := (Run randomUUID).

(** [add] on a pool run in flight is [add] on the coordinator the run
    started from. *)
Lemma add_poolWorld w0 this o handler inv rs ps fin taskList :
  heap w0 !! this = Some o ->
  (add randomUUID this taskList
     (poolWorld w0 this o handler inv rs ps fin)).2
  = poolWorld (add randomUUID this taskList w0).2 this
      (set_asyncTaskList
         (asyncTaskList o
          ++ registered randomUUID (uuidCount w0) (candidates taskList)) o)
      handler inv rs ps fin.
Proof.
  intros Ho.
  erewrite add_spec by (apply (PW_lookup w0 this o handler Ho)).
  rewrite (add_spec randomUUID this taskList w0 o Ho).
  unfold poolWorld, set_asyncTaskList. cbn.
  rewrite !list_insert_insert_eq. reflexivity.
Qed.

(** X11: in a pool run of at most 30 tasks, the ones [start] invokes
    itself, a task added while the run is in flight is never invoked,
    and keeps the run from finishing: when every task that was started
    has called back, there are fewer results than tasks in the
    registry, so the coordinator is not finished and its handler is not
    invoked, whatever the host runtime delivers.  (With more than 30
    tasks the run goes through the chunk coordinators, which is not
    what this is about.) *)
Theorem pool_never_runs_added_task w0 this o arg taskList ks :
  heap w0 !! this = Some o ->
  length (asyncTaskList o) <= asyncPoolChunkSize ->
  Forall (fun t => callsBackOnce (asyncTaskFunction t)) (asyncTaskList o) ->
  isStarted o = false -> isFinished o = false ->
  asyncTaskResultList o = [] -> pending w0 = [] ->
  isUserHandler (handlerAfterStart arg o) ->
  laterCompletions this (asyncTaskList o) <> [] ->
  candidates taskList <> [] ->
  exists w' o',
    Run (OpPool this arg :: OpAdd this taskList :: (OpDeliver <$> ks)) w0 w'
    /\ heap w' !! this = Some o'
    /\ asyncTaskList o'
       = asyncTaskList o
         ++ registered randomUUID (uuidCount w0) (candidates taskList)
    /\ invoked this (trace w') = invoked this (trace w0) ++ asyncTaskList o
    /\ asyncTaskResultList o'
       = nowResults (asyncTaskList o)
         ++ (deliveries ks (laterCompletions this (asyncTaskList o))).1.*2
    /\ pending w'
       = (deliveries ks (laterCompletions this (asyncTaskList o))).2
    /\ isFinished o' = false
    /\ finalCalls this (trace w') = finalCalls this (trace w0)
    /\ (length (asyncTaskList o) <= countHead ks ->
        pending w' = []
        /\ length (asyncTaskResultList o') = length (asyncTaskList o)).
Proof.
  intros Ho Hle Honce Hs Hf Hr Hp Hh Hlater Hcs.
  set (handler := handlerAfterStart arg o) in *.
  set (tasks := asyncTaskList o) in *.
  set (added := registered randomUUID (uuidCount w0) (candidates taskList)).
  set (o1 := set_asyncTaskList (tasks ++ added) o).
  set (w1 := (add randomUUID this taskList w0).2).
  assert (Hadded : 0 < length added).
  { subst added. unfold registered. rewrite length_imap.
    destruct (candidates taskList); [done|simpl; lia]. }
  assert (Ho1 : heap w1 !! this = Some o1).
  { subst w1. rewrite (add_spec randomUUID this taskList w0 o Ho). simpl.
    apply list_lookup_insert_eq. eapply lookup_lt_Some; eauto. }
  pose proof (pool_start_exact randomUUID w0 this o arg
                Ho Hle Honce Hs Hf Hr Hp Hh) as Hstart.
  pose proof (length_now_later this tasks) as Hlen.
  assert (Hopen : length (nowResults tasks) < length tasks).
  { destruct (laterCompletions this tasks); [done|simpl in Hlen; lia]. }
  fold tasks handler in Hstart.
  destruct (Nat.leb_spec (length tasks) (length (nowResults tasks)))
    as [Hfin|_]; [lia|].
  assert (Hn1 : length (asyncTaskList o1) = length tasks + length added)
    by (subst o1; simpl; apply length_app).
  pose proof (pool_deliveries_exact randomUUID w1 this o1 handler Ho1 Hh
                tasks ks (nowResults tasks) (laterCompletions this tasks)
                ltac:(lia) ltac:(lia)
                (laterCompletions_callbacks this tasks)) as Hrun.
  pose proof (deliveries_length ks (laterCompletions this tasks)) as Hd.
  destruct (Nat.leb_spec (length (asyncTaskList o1))
              (length (nowResults tasks))) as [Hfin|_]; [lia|].
  destruct (Nat.leb_spec (length (asyncTaskList o1))
              (length (nowResults tasks
                       ++ (deliveries ks (laterCompletions this tasks)).1.*2)))
    as [Hfin|_]; [rewrite length_app, length_fmap in Hfin; lia|].
  eexists _, _. split.
  { eapply Run_cons.
    - destruct (Exec_pool randomUUID _ _ _ _ Hstart) as [fuel Hfuel].
      exists fuel. exact Hfuel.
    - eapply Run_cons; [|exact Hrun].
      exists 0. cbn [runOp]. f_equal.
      apply (add_poolWorld w0 this o handler _ _ _ _ taskList Ho). }
  split; [apply (PW_lookup w1 this o1 handler Ho1)|].
  cbn [asyncTaskResultList isFinished pending asyncTaskList].
  split; [reflexivity|].
  assert (Htrace : trace w1 = trace w0)
    by (subst w1; rewrite (add_spec randomUUID this taskList w0 o Ho);
        reflexivity).
  unfold poolWorld. cbn [trace]. rewrite Htrace.
  rewrite !invoked_app, invoked_TaskInvoked.
  rewrite !finalCalls_app, finalCalls_TaskInvoked. simpl.
  rewrite !app_nil_r.
  split; [reflexivity|]. split; [reflexivity|]. split; [reflexivity|].
  split; [reflexivity|]. split; [reflexivity|].
  intros Hc.
  assert (Hleft : (deliveries ks (laterCompletions this tasks)).2 = [])
    by (apply deliveries_head; fold tasks in Hc; lia).
  split; [exact Hleft|].
  rewrite Hleft in Hd. rewrite length_app, length_fmap. simpl in Hd. lia.
Qed.
End PoolLateAdd.

(** ** Pool mode, chunked *)

Lemma flat_RArray l : flat (RArray <$> l) = concat l.
Proof.
  unfold flat. rewrite <- list_fmap_compose.
  induction l as [|x l IH]; [reflexivity|]. simpl. f_equal. exact IH.
Qed.

Lemma registeredSingly_functions randomUUID u cs :
  asyncTaskFunction <$> registeredSingly randomUUID u cs
  = candidateFunction <$> cs.
Proof.
  unfold registeredSingly. rewrite fmap_imap. simpl.
  apply list_eq. intros i. rewrite list_lookup_imap, list_lookup_fmap.
  destruct (cs !! i); reflexivity.
Qed.

Lemma expectedResults_functions l1 l2 :
  asyncTaskFunction <$> l1 = asyncTaskFunction <$> l2 ->
  expectedResults l1 = expectedResults l2.
Proof.
  intros H. unfold expectedResults. apply list_eq. intros i.
  apply (f_equal (fun l => l !! i)) in H. rewrite !list_lookup_fmap in *.
  destruct (l1 !! i), (l2 !! i); simpl in *; congruence.
Qed.

Lemma callsBackOnce_functions l1 l2 :
  asyncTaskFunction <$> l1 = asyncTaskFunction <$> l2 ->
  Forall (fun t => callsBackOnce (asyncTaskFunction t)) l2 ->
  Forall (fun t => callsBackOnce (asyncTaskFunction t)) l1.
Proof.
  intros H Hall. apply Forall_lookup. intros i t Ht.
  apply (f_equal (fun l => l !! i)) in H. rewrite !list_lookup_fmap, Ht in H.
  destruct (l2 !! i) as [t'|] eqn:Ht'; simpl in H; [|discriminate].
  injection H as ->. exact (proj1 (Forall_lookup _ _) Hall i t' Ht').
Qed.

Lemma finalCalls_emit_task this that t w :
  finalCalls this (trace (emit (TaskInvoked that t) w)) = finalCalls this (trace w).
Proof. simpl. rewrite finalCalls_app. simpl. apply app_nil_r. Qed.

Lemma finalCalls_emit_other this that h rs w :
  that <> this ->
  finalCalls this (trace (emit (FinalCallbackInvoked that h rs) w))
  = finalCalls this (trace w).
Proof.
  intros Hne. simpl. rewrite finalCalls_app. unfold finalCalls at 2. simpl.
  destruct (Nat.eqb_spec that this); [done|]. apply app_nil_r.
Qed.

Lemma finalCalls_finalEvents_other this that handler resultList :
  that <> this -> finalCalls this (finalEvents that handler resultList) = [].
Proof.
  intros Hne. destruct handler; [|reflexivity]. unfold finalCalls. simpl.
  destruct (Nat.eqb_spec that this); [done|reflexivity].
Qed.

Section ChunkedFacts.
Variable randomUUID : nat -> string.
Variables (w0 : World) (this : nat) (o : AsyncTaskHelper).
Variable handler : option AsyncTaskHelperFinalCallback.
Hypothesis Hthis : heap w0 !! this = Some o.
Hypothesis Honce :
  Forall (fun t => callsBackOnce (asyncTaskFunction t)) (asyncTaskList o).
Hypothesis Hhandler : isUserHandler handler.
Hypothesis Hfresh : isFinished o = false.

Local Abbreviation chunks := (chunksOf o).
Local Abbreviation m := (length (chunksOf o)).
Local Abbreviation q := (leveledRef w0).
Local Abbreviation ref := (chunkRef w0).
Local Abbreviation parent := (chunkedParent o handler).
Local Abbreviation lv := (leveled randomUUID w0 this o).
Local Abbreviation Frame := (chunkedFrame randomUUID w0 this o handler).
Local Abbreviation Base := (chunkedBase randomUUID w0 this o handler).
Local Abbreviation Running := (chunkedRunning randomUUID w0 this o handler).
Local Abbreviation Final := (chunkedFinal randomUUID w0 this o handler).
Local Abbreviation State := (chunkedState randomUUID w0 this o handler).
Local Abbreviation Exec := (Exec randomUUID).

Lemma this_lt_q : this < q.
Proof. eapply lookup_lt_Some; eauto. Qed.

Lemma chunks_concat : concat chunks = asyncTaskList o.
Proof.
  unfold chunksOf, split. rewrite split_loop_concat by lia. reflexivity.
Qed.

Lemma chunks_bounds chunk :
  chunk ∈ chunks -> 1 <= length chunk <= asyncPoolChunkSize.
Proof.
  intros Hin.
  assert (Hb : Forall (fun chunk =>
                         1 <= length chunk
                         <= Z.to_nat (Z.max 1 (Z.of_nat asyncPoolChunkSize)))
                      chunks)
    by (unfold chunksOf, split; apply split_loop_bounds; [lia|constructor]).
  apply (proj1 (Forall_forall _ _) Hb) in Hin. simpl in Hin.
  unfold asyncPoolChunkSize in *. lia.
Qed.

Lemma chunks_once chunk :
  chunk ∈ chunks ->
  Forall (fun t => callsBackOnce (asyncTaskFunction t)) chunk.
Proof.
  intros Hin. apply Forall_forall. intros t Ht.
  apply (proj1 (Forall_forall _ _) Honce).
  rewrite <- chunks_concat. apply list_elem_of_In, in_concat.
  exists chunk. split; apply list_elem_of_In; assumption.
Qed.

(** The tasks of the chunk-sequencing coordinator. *)
Lemma lv_tasks resDone fin :
  asyncTaskFunction <$> asyncTaskList (lv resDone fin)
  = ChunkFunction this <$> chunks.
Proof.
  simpl. rewrite registeredSingly_functions, <- list_fmap_compose.
  reflexivity.
Qed.

Lemma lv_tasks_same resDone fin :
  asyncTaskList (lv resDone fin) = asyncTaskList (lv [] false).
Proof. reflexivity. Qed.

Lemma lv_length resDone fin : length (asyncTaskList (lv resDone fin)) = m.
Proof.
  rewrite <- (length_fmap asyncTaskFunction), lv_tasks, length_fmap.
  reflexivity.
Qed.

Lemma lv_task j chunk :
  chunks !! j = Some chunk ->
  exists t, asyncTaskList (lv [] false) !! j = Some t
            /\ asyncTaskFunction t = ChunkFunction this chunk.
Proof.
  intros Hc.
  destruct (lookup_lt_is_Some_2 (asyncTaskList (lv [] false)) j) as [t Ht].
  { rewrite lv_length. eapply lookup_lt_Some; eauto. }
  exists t. split; [exact Ht|].
  pose proof (lv_tasks [] false) as Hf.
  apply (f_equal (fun l => l !! j)) in Hf.
  rewrite !list_lookup_fmap, Ht, Hc in Hf. simpl in Hf. congruence.
Qed.

Lemma lv_push resDone rs :
  set_asyncTaskResultList
    (asyncTaskResultList (lv resDone false) ++ [RArray rs])
    (lv resDone false)
  = lv (resDone ++ [rs]) false.
Proof. unfold leveled. simpl. rewrite fmap_app. reflexivity. Qed.

(** Two worlds that agree on the objects below [bound] and on the
    calls of the parent's handler have the same frame. *)
Lemma Frame_agree j resDone fin p w w' :
  agreeBelow this (ref j) w w' ->
  Frame j resDone fin p w -> Frame j resDone fin p w'.
Proof.
  intros [Hheap Htrace] (Hlen & Hp & Hq & Hdone & Hcalls).
  pose proof this_lt_q. unfold chunkedFrame, chunkRef, leveledRef in *.
  split; [exact Hlen|]. split; [rewrite Hheap by lia; exact Hp|].
  split; [rewrite Hheap by lia; exact Hq|]. split.
  - intros k res Hk. destruct (Hdone k res Hk) as (c & chunk & Hc & Hrest).
    exists c, chunk. split; [|exact Hrest].
    apply lookup_lt_Some in Hk. rewrite Hheap by lia. exact Hc.
  - rewrite Htrace. exact Hcalls.
Qed.

Local Abbreviation spawned := (chunkSpawned randomUUID w0 o).
Local Abbreviation child := (fun base chunk =>
  constructed randomUUID (uuidCount base) (chunkOptions o chunk)).

Lemma child_functions base chunk :
  asyncTaskFunction <$> asyncTaskList (child base chunk)
  = asyncTaskFunction <$> chunk.
Proof.
  simpl. rewrite registeredSingly_functions, <- list_fmap_compose.
  reflexivity.
Qed.

Lemma child_length base chunk :
  length (asyncTaskList (child base chunk)) = length chunk.
Proof.
  rewrite <- (length_fmap asyncTaskFunction), child_functions, length_fmap.
  reflexivity.
Qed.

Lemma spawned_frame j resDone base t chunk :
  Base j resDone base ->
  Frame j resDone false parent (spawned base t chunk)
  /\ length (heap (spawned base t chunk)) = S (ref j)
  /\ heap (spawned base t chunk) !! ref j = Some (child base chunk)
  /\ pending (spawned base t chunk) = [].
Proof.
  intros (Hframe & Hlen & Hpend). split; [|split; [|split]].
  - eapply Frame_agree; [|exact Hframe]. split.
    + intros i Hi. simpl. apply lookup_app_l. lia.
    + simpl. rewrite finalCalls_app. simpl. apply app_nil_r.
  - simpl. rewrite length_app. simpl. lia.
  - simpl. rewrite <- Hlen. apply list_lookup_middle. reflexivity.
  - exact Hpend.
Qed.

(** The chunk-sequencing coordinator starts chunk [j]: its task is
    invoked, constructs the coordinator of the chunk and starts it in
    pool mode, which fans out. *)
Lemma chunk_spawn j resDone base t chunk w' :
  Base j resDone base ->
  chunks !! j = Some chunk ->
  asyncTaskList (lv [] false) !! j = Some t ->
  asyncTaskFunction t = ChunkFunction this chunk ->
  ExecEach randomUUID (fun asyncTask => CRunTask (ref j) asyncTask None)
    (asyncTaskList (child base chunk))
    (poolWorld (spawned base t chunk) (ref j) (child base chunk)
       (Some (PoolCallback (chunkCallback w0 j t))) [] [] [] false) w' ->
  Exec (CProcessNextQueueTask q) base w'.
Proof.
  intros HB Hchunk Ht Hfn Heach.
  destruct (spawned_frame j resDone base t chunk HB)
    as (Hframe & Hlen & Hchild & Hpend).
  destruct HB as ((Hlenres & Hp & Hq & _) & Hlenb & Hpendb).
  eapply Exec_processNext_run; [exact Hq| |].
  { simpl. rewrite length_fmap, Hlenres. exact Ht. }
  apply Exec_runTask. rewrite Hfn.
  destruct (Exec_pool randomUUID (ref j)
              (Some (PoolCallback (chunkCallback w0 j t)))
              (spawned base t chunk) w') as [fuel Hfuel].
  { eapply Exec_start_pool; [exact Hchild|reflexivity| | |].
    - intros Hnil. apply (f_equal length) in Hnil.
      rewrite child_length in Hnil.
      pose proof (chunks_bounds chunk
                    (list_elem_of_lookup_2 _ _ _ Hchunk)). simpl in Hnil. lia.
    - rewrite child_length.
      apply (chunks_bounds chunk (list_elem_of_lookup_2 _ _ _ Hchunk)).
    - rewrite (pool_start_world (spawned base t chunk) (ref j)
                 (child base chunk)) by (assumption || reflexivity).
      exact Heach. }
  exists (S fuel). cbn [exec].
  assert (Hp' : heap (emit (TaskInvoked q t) base) !! this = Some parent)
    by exact Hp.
  rewrite Hp'. cbn [mbind option_bind].
  rewrite constructor_spec.
  replace (length (heap (emit (TaskInvoked q t) base))) with (ref j)
    by (simpl; lia).
  exact Hfuel.
Qed.

Ltac heap_simpl :=
  unfold pushResult, update, set_heap, poolWorld, emit; simpl;
  unfold chunkRef, leveledRef in *;
  repeat first
    [ rewrite list_lookup_alter_eq
    | rewrite list_lookup_insert_eq by (rewrite ?length_alter, ?length_insert; lia)
    | rewrite list_lookup_alter_ne by lia
    | rewrite list_lookup_insert_ne by lia ].

(** The world once chunk [j] has finished with results [rs] and the
    chunk-sequencing coordinator has recorded them. *)
Lemma chunk_recorded j resDone base c chunk t rs :
  Frame j resDone false parent base ->
  length (heap base) = S (ref j) ->
  heap base !! ref j = Some c ->
  chunks !! j = Some chunk ->
  asyncTaskFunction <$> asyncTaskList c = asyncTaskFunction <$> chunk ->
  asyncTaskList (lv [] false) !! j = Some t ->
  rs ≡ₚ expectedResults (asyncTaskList c) ->
  Base (S j) (resDone ++ [rs])
    (pushResult q (RArray rs)
       (poolWorld base (ref j) c (Some (PoolCallback (chunkCallback w0 j t)))
          (asyncTaskList c) rs [] true)).
Proof.
  intros (Hlenres & Hp & Hq & Hdone & Hcalls) Hlen Hc Hchunk Hfns Ht Hrs.
  pose proof this_lt_q as Hlt.
  unfold chunkedBase, chunkedFrame, chunkRef, leveledRef in *.
  split; [|split; [|reflexivity]].
  - split; [rewrite length_app; simpl; lia|].
    split; [heap_simpl; exact Hp|].
    split; [heap_simpl; rewrite Hq; exact (f_equal Some (lv_push resDone rs))|].
    split.
    + intros k res Hk.
      destruct (decide (k < j)) as [Hkj|Hkj].
      * rewrite lookup_app_l in Hk by lia.
        destruct (Hdone k res Hk) as (c' & chunk' & Hc' & Hrest).
        exists c', chunk'. split; [|exact Hrest]. heap_simpl. exact Hc'.
      * assert (k = j) as ->.
        { apply lookup_lt_Some in Hk. rewrite length_app in Hk.
          simpl in Hk. lia. }
        rewrite lookup_app_r, Hlenres, Nat.sub_diag in Hk by lia.
        injection Hk as <-.
        eexists _, chunk. split; [heap_simpl; reflexivity|].
        split; [exact Hchunk|].
        split; [split; [reflexivity|split; [exact Hfns|]]|].
        { exists t. split; [exact Ht|reflexivity]. }
        split; [reflexivity|]. split; [reflexivity|].
        split; [reflexivity|].
        rewrite Hrs. rewrite (expectedResults_functions _ _ Hfns).
        reflexivity.
    + unfold pushResult, update, set_heap, poolWorld. cbn [trace].
      rewrite !finalCalls_app, finalCalls_TaskInvoked.
      rewrite finalCalls_finalEvents_other by lia.
      rewrite !app_nil_r. exact Hcalls.
  - heap_simpl. rewrite length_alter, length_insert. lia.
Qed.

(** Chunk [j] finishes and it is not the last one: the
    chunk-sequencing coordinator records its results and goes on. *)
Lemma chunk_finish_more j resDone base c t rs w' :
  Frame j resDone false parent base ->
  heap base !! ref j = Some c ->
  asyncTaskList (lv [] false) !! j = Some t ->
  S j < m ->
  Exec (CProcessNextQueueTask q)
    (pushResult q (RArray rs)
       (poolWorld base (ref j) c (Some (PoolCallback (chunkCallback w0 j t)))
          (asyncTaskList c) rs [] true)) w' ->
  Exec (CFinished (ref j))
    (poolWorld base (ref j) c (Some (PoolCallback (chunkCallback w0 j t)))
       (asyncTaskList c) rs [] false) w'.
Proof.
  intros (Hlenres & Hp & Hq & Hdone & Hcalls) Hc Ht Hm Hnext.
  pose proof this_lt_q as Hlt.
  eapply Exec_finished_handler;
    [apply (PW_lookup base (ref j) c _ Hc)|reflexivity|reflexivity|].
  cbn [asyncTaskResultList].
  rewrite (PW_finished base (ref j) c _ _ _ _ _ eq_refl).
  apply Exec_finalCallback_pool.
  eapply Exec_callback_next; [reflexivity| |exact Hnext].
  eapply Exec_asyncTaskFinished_more.
  - unfold chunkRef, leveledRef in *. heap_simpl. exact Hq.
  - rewrite lv_length. simpl. rewrite length_fmap. lia.
Qed.

(** The last chunk finishes: the chunk-sequencing coordinator
    finishes, its handler flattens the results into the parent and
    finishes it. *)
Lemma chunk_finish_last j resDone base c chunk t rs :
  Frame j resDone false parent base ->
  length (heap base) = S (ref j) ->
  heap base !! ref j = Some c ->
  chunks !! j = Some chunk ->
  asyncTaskFunction <$> asyncTaskList c = asyncTaskFunction <$> chunk ->
  asyncTaskList (lv [] false) !! j = Some t ->
  rs ≡ₚ expectedResults (asyncTaskList c) ->
  S j = m ->
  exists w',
    Exec (CFinished (ref j))
      (poolWorld base (ref j) c (Some (PoolCallback (chunkCallback w0 j t)))
         (asyncTaskList c) rs [] false) w'
    /\ Final w'.
Proof.
  intros Hframe Hlen Hc Hchunk Hfns Ht Hrs Hm.
  pose proof (chunk_recorded j resDone base c chunk t rs
                Hframe Hlen Hc Hchunk Hfns Ht Hrs) as HB.
  set (W2 := pushResult q (RArray rs)
               (poolWorld base (ref j) c
                  (Some (PoolCallback (chunkCallback w0 j t)))
                  (asyncTaskList c) rs [] true)) in *.
  destruct HB as ((Hlenres & Hp & Hq & Hdone & Hcalls) & Hlen2 & Hpend2).
  set (resAll := resDone ++ [rs]) in *.
  pose proof this_lt_q as Hlt.
  set (W3 := emit (FinalCallbackInvoked q (FlattenCallback this)
                     (RArray <$> resAll))
               (update q (set_isFinished true) W2)).
  set (W4 := update this (set_asyncTaskResultList (flat (RArray <$> resAll))) W3).
  assert (Hp4 : heap W4 !! this
                = Some (set_asyncTaskResultList (concat resAll) parent)).
  { unfold W4. rewrite <- flat_RArray. apply lookup_update_eq.
    unfold W3. change (heap (emit ?e ?w)) with (heap w).
    rewrite lookup_update_ne by (unfold leveledRef in *; lia). exact Hp. }
  set (W5 := match handler with
             | Some h =>
                 emit (FinalCallbackInvoked this h (concat resAll))
                      (update this (set_isFinished true) W4)
             | None => update this (set_isFinished true) W4
             end).
  assert (Hheap5 : heap W5 = heap (update this (set_isFinished true) W4))
    by (unfold W5; destruct handler; reflexivity).
  assert (Hfin : Exec (CFinished this) W4 W5).
  { unfold W5.
    destruct handler as [[id| |]|] eqn:Hh; simpl in Hhandler; try tauto.
    - eapply Exec_finished_handler; [exact Hp4|exact Hfresh|reflexivity|].
      apply Exec_finalCallback_user.
    - eapply Exec_finished_silent; [exact Hp4|exact Hfresh|reflexivity]. }
  assert (Hq5 : heap W5 !! q = Some (lv resAll true)).
  { rewrite Hheap5. rewrite lookup_update_ne by (unfold leveledRef in *; lia).
    unfold W4. rewrite lookup_update_ne by (unfold leveledRef in *; lia).
    unfold W3. change (heap (emit ?e ?w)) with (heap w).
    erewrite lookup_update_eq by exact Hq. reflexivity. }
  exists W5. split.
  - eapply Exec_finished_handler;
      [apply (PW_lookup base (ref j) c _ Hc)|reflexivity|reflexivity|].
    cbn [asyncTaskResultList].
    rewrite (PW_finished base (ref j) c _ _ _ _ _ eq_refl).
    apply Exec_finalCallback_pool.
    eapply Exec_callback_next; [reflexivity| |].
    + eapply Exec_asyncTaskFinished_last.
      * destruct Hframe as (Hl0 & _ & Hq0 & _).
        unfold chunkRef, leveledRef in *. heap_simpl. exact Hq0.
      * rewrite lv_length. simpl. rewrite length_fmap.
        destruct Hframe as (Hl0 & _). lia.
      * fold W2. eapply Exec_finished_handler;
          [exact Hq|reflexivity|reflexivity|].
        apply Exec_finalCallback_flatten. exact Hfin.
    + eapply Exec_processNext_stop; [exact Hq5|].
      rewrite lv_length. simpl. rewrite length_fmap. lia.
  - exists resAll. split; [|split; [|split]].
    + split; [lia|]. split.
      { rewrite Hheap5. erewrite lookup_update_eq by exact Hp4. reflexivity. }
      split; [exact Hq5|]. split.
      * intros k res Hk. destruct (Hdone k res Hk) as (c' & chunk' & Hc' & Hrest).
        exists c', chunk'. split; [|exact Hrest].
        apply lookup_lt_Some in Hk.
        rewrite Hheap5.
        rewrite lookup_update_ne by (unfold chunkRef, leveledRef in *; lia).
        unfold W4.
        rewrite lookup_update_ne by (unfold chunkRef, leveledRef in *; lia).
        unfold W3. change (heap (emit ?e ?w)) with (heap w).
        rewrite lookup_update_ne by (unfold chunkRef, leveledRef in *; lia).
        exact Hc'.
      * assert (Hpf : isFinished parent = false) by exact Hfresh.
        rewrite Hpf, app_nil_r in Hcalls.
        assert (Htr : trace W5
                      = trace W2
                        ++ finalEvents q (Some (FlattenCallback this))
                             (RArray <$> resAll)
                        ++ finalEvents this handler (concat resAll)).
        { unfold W5, W4, W3. destruct handler; simpl;
            rewrite <- ?app_assoc, ?app_nil_r; reflexivity. }
        rewrite Htr, !finalCalls_app, Hcalls.
        rewrite finalCalls_finalEvents_other
          by (unfold leveledRef in *; lia).
        rewrite finalCalls_finalEvents. reflexivity.
    + apply Forall2_same_length_lookup_2; [lia|].
      intros k res chunk' Hk Hck.
      destruct (Hdone k res Hk) as (c' & chunk'' & _ & Hck' & Hd).
      rewrite Hck in Hck'. injection Hck' as <-.
      apply Hd.
    + rewrite <- Hm, <- Hlen2, Hheap5.
      unfold W4, W3, W2, pushResult, update, set_heap. simpl.
      rewrite !length_alter. reflexivity.
    + unfold W5. destruct handler; exact Hpend2.
Qed.

Lemma tasksFrom_chunk j chunk :
  chunks !! j = Some chunk ->
  tasksFrom o j = length chunk + tasksAfter o j.
Proof.
  intros Hc. unfold tasksFrom, tasksAfter.
  rewrite (drop_S _ _ _ Hc). simpl. rewrite length_app. reflexivity.
Qed.

Lemma State_mono b b' w : b <= b' -> State b w -> State b' w.
Proof.
  intros Hle [Hf|(j & Hr & Hb)]; [left; exact Hf|right].
  exists j. split; [exact Hr|lia].
Qed.

(** A chunk coordinator that waits is a running chunk. *)
Lemma waiting_State j resDone base c chunk t w :
  Frame j resDone false parent base ->
  length (heap base) = S (ref j) ->
  heap base !! ref j = Some c ->
  chunks !! j = Some chunk ->
  asyncTaskFunction <$> asyncTaskList c = asyncTaskFunction <$> chunk ->
  asyncTaskList (lv [] false) !! j = Some t ->
  poolWaiting base (ref j) c (Some (PoolCallback (chunkCallback w0 j t))) w ->
  Running j w /\ tasksAfter o j + length (pending w) <= tasksFrom o j.
Proof.
  intros Hframe Hlen Hc Hchunk Hfns Ht Hw. split.
  - exists resDone, base, c, chunk. repeat (split; [assumption|]).
    exists t. split; assumption.
  - destruct Hw as (rs & ps & -> & _ & Hinv).
    apply poolInv_length in Hinv. simpl.
    rewrite (tasksFrom_chunk j chunk Hchunk).
    rewrite <- (length_fmap asyncTaskFunction (asyncTaskList c)), Hfns,
      length_fmap in Hinv. lia.
Qed.

(** The chunk-sequencing coordinator at chunk [j]: the run goes on
    until a chunk waits for the host runtime, or to its end. *)
Lemma chunked_next d :
  forall j resDone base,
    m - j <= d -> j < m -> Base j resDone base ->
    exists w', Exec (CProcessNextQueueTask q) base w'
               /\ State (tasksFrom o j) w'.
Proof.
  induction d as [|d IH]; intros j resDone base Hd Hj HB; [lia|].
  destruct (lookup_lt_is_Some_2 chunks j Hj) as [chunk Hchunk].
  destruct (lv_task j chunk Hchunk) as (t & Ht & Hfn).
  destruct (spawned_frame j resDone base t chunk HB)
    as (Hframe & Hlen & Hchild & Hpend).
  pose proof (child_functions base chunk) as Hfns.
  pose proof (list_elem_of_lookup_2 _ _ _ Hchunk) as Hin.
  assert (HonceC : Forall (fun t => callsBackOnce (asyncTaskFunction t))
                     (asyncTaskList (child base chunk)))
    by (eapply callsBackOnce_functions; [exact Hfns|apply chunks_once, Hin]).
  assert (Hfin : forall rs,
    rs ≡ₚ expectedResults (asyncTaskList (child base chunk)) ->
    exists w',
      Exec (CFinished (ref j))
        (poolWorld (spawned base t chunk) (ref j) (child base chunk)
           (Some (PoolCallback (chunkCallback w0 j t)))
           (asyncTaskList (child base chunk)) rs [] false) w'
      /\ State (tasksAfter o j) w').
  { intros rs Hrs. destruct (decide (S j = m)) as [Hlast|Hmore].
    - destruct (chunk_finish_last j resDone (spawned base t chunk)
                  (child base chunk) chunk t rs Hframe Hlen Hchild Hchunk
                  Hfns Ht Hrs Hlast) as (w' & Hexec & Hfinal).
      exists w'. split; [exact Hexec|left; exact Hfinal].
    - destruct (IH (S j) (resDone ++ [rs])
                  (pushResult q (RArray rs)
                     (poolWorld (spawned base t chunk) (ref j)
                        (child base chunk)
                        (Some (PoolCallback (chunkCallback w0 j t)))
                        (asyncTaskList (child base chunk)) rs [] true)))
        as (w' & Hexec & Hstate); [lia|lia| |].
      { eapply chunk_recorded; eauto. }
      exists w'. split; [|exact Hstate].
      eapply chunk_finish_more; eauto. lia. }
  destruct (pool_fanout randomUUID (spawned base t chunk) (ref j)
              (child base chunk)
              (Some (PoolCallback (chunkCallback w0 j t))) Hchild HonceC
              (State (tasksAfter o j)) Hfin
              (asyncTaskList (child base chunk)) [] [] [])
    as (w' & Heach & Hpost).
  { reflexivity. }
  { split; [reflexivity|constructor]. }
  { left. intros Hnil. apply (f_equal length) in Hnil.
    rewrite child_length in Hnil.
    pose proof (chunks_bounds chunk Hin). simpl in Hnil. lia. }
  exists w'. split.
  - eapply chunk_spawn; eauto.
  - destruct Hpost as [Hw|Hs].
    + right. exists j. eapply waiting_State; eauto.
    + eapply State_mono; [|exact Hs].
      rewrite (tasksFrom_chunk j chunk Hchunk). lia.
Qed.

(** One delivery by the host runtime. *)
Lemma chunked_deliver bound w k :
  State bound w ->
  exists w',
    (exists fuel, runOp randomUUID fuel (OpDeliver k) w = Some w')
    /\ State (if decide (k = 0) then bound - 1 else bound) w'.
Proof.
  intros [Hfinal|(j & Hrun & Hb)].
  - exists w. split; [|left; exact Hfinal].
    exists 0. destruct Hfinal as (resDone & _ & _ & _ & Hp).
    simpl. rewrite Hp. reflexivity.
  - destruct Hrun as (resDone & base & c & chunk & Hframe & Hlen & Hc
                      & Hchunk & Hfns & t & Ht & Hw).
    pose proof (list_elem_of_lookup_2 _ _ _ Hchunk) as Hin.
    assert (Hj : j < m) by (eapply lookup_lt_Some; eauto).
    assert (Hfin : forall rs,
      rs ≡ₚ expectedResults (asyncTaskList c) ->
      exists w',
        Exec (CFinished (ref j))
          (poolWorld base (ref j) c
             (Some (PoolCallback (chunkCallback w0 j t)))
             (asyncTaskList c) rs [] false) w'
        /\ State (tasksAfter o j) w').
    { intros rs Hrs. destruct (decide (S j = m)) as [Hlast|Hmore].
      - destruct (chunk_finish_last j resDone base c chunk t rs
                    Hframe Hlen Hc Hchunk Hfns Ht Hrs Hlast)
          as (w' & Hexec & Hfinal).
        exists w'. split; [exact Hexec|left; exact Hfinal].
      - destruct (chunked_next m (S j) (resDone ++ [rs])
                    (pushResult q (RArray rs)
                       (poolWorld base (ref j) c
                          (Some (PoolCallback (chunkCallback w0 j t)))
                          (asyncTaskList c) rs [] true)))
          as (w' & Hexec & Hstate); [lia|lia| |].
        { eapply chunk_recorded; eauto. }
        exists w'. split; [|exact Hstate].
        eapply chunk_finish_more; eauto. lia. }
    destruct (pool_deliver randomUUID base (ref j) c
                (Some (PoolCallback (chunkCallback w0 j t))) Hc
                (State (tasksAfter o j)) Hfin w k Hw)
      as (w' & Hop & Hpost & Hsame).
    exists w'. split; [exact Hop|].
    assert (Hpos : 1 <= length (pending w)).
    { destruct Hw as (rs & ps & -> & Hne & _). simpl.
      destruct ps; [done|simpl; lia]. }
    destruct Hpost as [[Hw' Hlt]|Hs].
    + right. exists j.
      destruct (waiting_State j resDone base c chunk t w'
                  Hframe Hlen Hc Hchunk Hfns Ht Hw') as [Hr _].
      split; [exact Hr|].
      destruct (decide (k = 0)) as [->|Hk].
      * specialize (Hlt ltac:(lia)). lia.
      * destruct (decide (k < length (pending w))) as [Hin'|Hout].
        -- specialize (Hlt Hin'). lia.
        -- rewrite Hsame by lia. exact Hb.
    + eapply State_mono; [|exact Hs]. destruct (decide (k = 0)); lia.
Qed.

Lemma chunked_deliveries ks :
  forall bound w,
    State bound w ->
    exists w', Run randomUUID (OpDeliver <$> ks) w w'
               /\ State (bound - countHead ks) w'.
Proof.
  induction ks as [|k ks IH]; intros bound w Hw.
  - exists w. split; [apply Run_nil|].
    unfold countHead. simpl. rewrite Nat.sub_0_r. exact Hw.
  - destruct (chunked_deliver bound w k Hw) as (w1 & Hop & Hw1).
    destruct (IH _ w1 Hw1) as (w' & Hrun & Hw').
    exists w'. split; [rewrite fmap_cons; eapply Run_cons; eauto|].
    eapply State_mono; [|exact Hw'].
    unfold countHead. rewrite filter_cons.
    destruct (decide (k = 0)); simpl; lia.
Qed.

(** A state with no completion to go is final. *)
Lemma State_0 w : State 0 w -> Final w.
Proof.
  intros [Hf|(j & Hr & Hb)]; [exact Hf|].
  destruct Hr as (resDone & base & c & chunk & _ & _ & _ & _ & _ & t & _ & Hw).
  destruct Hw as (rs & ps & -> & Hne & _). simpl in Hb.
  destruct ps; [done|simpl in Hb; lia].
Qed.

(** [start] in pool mode with more tasks than the chunk size. *)
Lemma chunked_start arg :
  handler = handlerAfterStart arg o ->
  isStarted o = false -> asyncTaskResultList o = [] -> pending w0 = [] ->
  asyncPoolChunkSize < length (asyncTaskList o) ->
  exists w', Exec (CStart this arg (Some Pool)) w0 w'
             /\ State (length (asyncTaskList o)) w'.
Proof.
  intros Hh Hs Hr Hp Hn.
  pose proof this_lt_q as Hlt.
  set (w1 := update this (set_isStarted true)
               (recordStart this arg (Some Pool) o w0)).
  set (Q0 := constructed randomUUID (uuidCount w0) (leveledOptions this o)).
  set (w2 := {| heap := heap w1 ++ [Q0];
                pending := pending w1;
                trace := trace w1;
                uuidCount :=
                  S (uuidCount w1)
                  + length (Options.asyncTaskList (leveledOptions this o) ?? []) |}).
  set (w3 := update q (set_isStarted true)
               (recordStart q (Some (FlattenCallback this)) (Some Queue) Q0 w2)).
  assert (Hlen1 : length (heap w1) = q).
  { unfold w1, recordStart, update, set_heap. simpl.
    rewrite !length_alter. reflexivity. }
  assert (Hq2 : heap w2 !! q = Some Q0).
  { unfold w2. simpl. rewrite <- Hlen1. apply list_lookup_middle. reflexivity. }
  assert (Hm : 0 < m).
  { pose proof chunks_concat as Hc.
    destruct chunks; [|simpl; lia].
    simpl in Hc. rewrite <- Hc in Hn. simpl in Hn. lia. }
  assert (HB : Base 0 [] w3).
  { split; [|split].
    - split; [reflexivity|]. split; [|split; [|split]].
      + unfold w3, recordStart.
        rewrite !lookup_update_ne by (unfold leveledRef in *; lia).
        unfold w2. cbn [heap].
        rewrite lookup_app_l by (rewrite Hlen1; exact Hlt).
        unfold w1, recordStart, update, set_heap. cbn [heap].
        rewrite !list_lookup_alter_eq, Hthis.
        unfold chunkedParent. rewrite Hh. reflexivity.
      + unfold w3, recordStart, update, set_heap. cbn [heap].
        rewrite !list_lookup_alter_eq. fold (heap w2). rewrite Hq2.
        reflexivity.
      + intros k res Hk. discriminate.
      + assert (Hpf : isFinished parent = false) by exact Hfresh.
        rewrite Hpf, app_nil_r. reflexivity.
    - unfold w3, recordStart, update, set_heap, w2. cbn [heap].
      rewrite !length_alter, length_app, Hlen1. simpl.
      unfold chunkRef, leveledRef. lia.
    - exact Hp. }
  destruct (chunked_next m 0 [] w3 ltac:(lia) Hm HB) as (w' & Hexec & Hstate).
  exists w'. split.
  - eapply Exec_start_chunked; [exact Hthis|exact Hs|exact Hn| |].
    + fold w1. rewrite constructor_spec. rewrite Hlen1. reflexivity.
    + apply Exec_queue.
      eapply Exec_start_queue; [exact Hq2|reflexivity| |reflexivity|exact Hexec].
      intros Hnil. apply (f_equal length) in Hnil.
      change (asyncTaskList Q0) with (asyncTaskList (lv [] false)) in Hnil.
      rewrite lv_length in Hnil. simpl in Hnil. lia.
  - replace (length (asyncTaskList o)) with (tasksFrom o 0); [exact Hstate|].
    unfold tasksFrom. rewrite drop_0, chunks_concat. reflexivity.
Qed.

(** What a state of the run says about the parent, the
    chunk-sequencing coordinator and the coordinators of the chunks. *)
Lemma State_facts bound w :
  State bound w ->
  exists o' fin resDone,
    heap w !! this = Some o'
    /\ heap w !! q = Some (lv resDone fin)
    /\ (forall k c,
          heap w !! ref k = Some c ->
          exists chunk, chunks !! k = Some chunk
                        /\ chunkCoordinator randomUUID w0 this o k chunk c)
    /\ (forall k res,
          resDone !! k = Some res ->
          exists c chunk,
            heap w !! ref k = Some c /\ chunks !! k = Some chunk
            /\ isFinished c = true /\ asyncTaskResultList c = res
            /\ res ≡ₚ expectedResults chunk)
    /\ (isFinished o' = true ->
        fin = true /\ length resDone = m
        /\ asyncTaskResultList o' = concat resDone)
    /\ (bound = 0 -> isFinished o' = true)
    /\ finalCalls this (trace w)
       = finalCalls this (trace w0)
         ++ (if isFinished o'
             then match handler with
                  | Some h => [(h, asyncTaskResultList o')]
                  | None => []
                  end
             else []).
Proof.
  intros Hs. pose proof this_lt_q as Hlt.
  assert (Hdone_facts : forall j resDone fin p w1,
    Frame j resDone fin p w1 ->
    forall k res,
      resDone !! k = Some res ->
      exists c chunk,
        heap w1 !! ref k = Some c /\ chunks !! k = Some chunk
        /\ isFinished c = true /\ asyncTaskResultList c = res
        /\ res ≡ₚ expectedResults chunk).
  { intros j resDone fin p w1 (_ & _ & _ & Hdone & _) k res Hk.
    destruct (Hdone k res Hk) as (c & chunk & Hc & Hchunk & Hd).
    exists c, chunk. destruct Hd as (_ & _ & Hf & Hr & Hperm). auto. }
  assert (Hcoord_facts : forall j resDone fin p w1,
    Frame j resDone fin p w1 ->
    forall k c, k < j ->
      heap w1 !! ref k = Some c ->
      exists chunk, chunks !! k = Some chunk
                    /\ chunkCoordinator randomUUID w0 this o k chunk c).
  { intros j resDone fin p w1 (Hl & _ & _ & Hdone & _) k c Hk Hc.
    destruct (lookup_lt_is_Some_2 resDone k ltac:(lia)) as [res Hres].
    destruct (Hdone k res Hres) as (c' & chunk & Hc' & Hchunk & Hd).
    rewrite Hc in Hc'. injection Hc' as <-.
    exists chunk. split; [exact Hchunk|apply Hd]. }
  destruct Hs as [(resDone & Hframe & Hperm & Hlen & Hpend)|(j & Hrun & Hb)].
  - eexists _, true, resDone.
    pose proof Hframe as (Hl & Hp & Hq & _ & Hcalls).
    split; [exact Hp|]. split; [exact Hq|]. split; [|split; [|split; [|split]]].
    + intros k c Hc. apply lookup_lt_Some in Hc as Hk.
      eapply Hcoord_facts; [exact Hframe| |exact Hc].
      unfold chunkRef in *. lia.
    + eapply Hdone_facts; exact Hframe.
    + intros _. split; [reflexivity|]. split; [exact Hl|reflexivity].
    + intros _. reflexivity.
    + exact Hcalls.
  - destruct Hrun as (resDone & base & c & chunk & Hframe & Hlen & Hc
                      & Hchunk & Hfns & t & Ht & Hw).
    destruct Hw as (rs & ps & -> & Hne & Hinv).
    pose proof Hframe as (Hl & Hp & Hq & _ & Hcalls).
    assert (Hpf : isFinished parent = false) by exact Hfresh.
    exists parent, false, resDone.
    split; [|split; [|split; [|split; [|split; [|split]]]]].
    + simpl. rewrite list_lookup_insert_ne
        by (unfold chunkRef, leveledRef in *; lia). exact Hp.
    + simpl. rewrite list_lookup_insert_ne
        by (unfold chunkRef, leveledRef in *; lia). exact Hq.
    + intros k c' Hc'. simpl in Hc'.
      destruct (decide (k = j)) as [->|Hkj].
      * rewrite list_lookup_insert_eq in Hc'
          by (unfold chunkRef, leveledRef in *; lia).
        injection Hc' as <-. exists chunk. split; [exact Hchunk|].
        split; [reflexivity|]. split; [exact Hfns|].
        exists t. split; [exact Ht|reflexivity].
      * apply lookup_lt_Some in Hc' as Hk. rewrite length_insert in Hk.
        rewrite list_lookup_insert_ne in Hc'
          by (unfold chunkRef, leveledRef in *; lia).
        eapply Hcoord_facts; [exact Hframe| |exact Hc'].
        unfold chunkRef in *. lia.
    + intros k res Hk.
      destruct (Hdone_facts _ _ _ _ _ Hframe k res Hk)
        as (c' & chunk' & Hc' & Hrest).
      exists c', chunk'. split; [|exact Hrest].
      apply lookup_lt_Some in Hk. simpl.
      rewrite list_lookup_insert_ne
        by (unfold chunkRef, leveledRef in *; lia).
      exact Hc'.
    + rewrite Hpf. discriminate.
    + intros ->. simpl in Hb. destruct ps; [done|simpl in Hb; lia].
    + unfold poolWorld. cbn [trace].
      rewrite !finalCalls_app, finalCalls_TaskInvoked, !app_nil_r.
      exact Hcalls.
Qed.

Lemma Final_results w :
  Final w ->
  exists o' resDone,
    heap w !! this = Some o' /\ isFinished o' = true
    /\ asyncTaskResultList o' = concat resDone
    /\ Forall2 (fun res chunk => res ≡ₚ expectedResults chunk) resDone chunks.
Proof.
  intros (resDone & (_ & Hp & _) & Hperm & _).
  eexists _, resDone. split; [exact Hp|]. repeat split. exact Hperm.
Qed.
End ChunkedFacts.

Lemma expectedResults_app l1 l2 :
  expectedResults (l1 ++ l2) = expectedResults l1 ++ expectedResults l2.
Proof. apply fmap_app. Qed.

Lemma concat_expectedResults rss chunks :
  Forall2 (fun res chunk => res ≡ₚ expectedResults chunk) rss chunks ->
  concat rss ≡ₚ expectedResults (concat chunks).
Proof.
  induction 1 as [|res chunk rss chunks Hperm _ IH]; [reflexivity|].
  simpl. rewrite expectedResults_app, Hperm, IH. reflexivity.
Qed.

Section ChunkedClaim.
Variable randomUUID : nat -> string.
Local Abbreviation Run := (Run randomUUID).

End ChunkedClaim.

(** ** [start] on a started or empty coordinator, [quit], the mode of [start] *)

Section Lifecycle.
Variable randomUUID : nat -> string.

(** C7: on a coordinator that has been started, [start] (and [queue],
    [pool]) only records its arguments: the handler if one is given,
    and the mode ([Queue] when omitted).  It returns [this]; no task is
    invoked, no completion is awaited or delivered, no handler runs,
    and the flags, the registry and the results are unchanged. *)
Theorem start_again_only_records fuel w this o arg mode :
  heap w !! this = Some o -> isStarted o = true ->
  exec randomUUID (S fuel) (CStart this arg mode) w
  = Some (recordStart this arg mode o w)
  /\ exec randomUUID (S (S fuel)) (CQueue this arg) w
     = Some (recordStart this arg (Some Queue) o w)
  /\ exec randomUUID (S (S fuel)) (CPool this arg) w
     = Some (recordStart this arg (Some Pool) o w)
  /\ returned (CStart this arg mode) = Some this
  /\ returned (CQueue this arg) = Some this
  /\ returned (CPool this arg) = Some this
  /\ trace (recordStart this arg mode o w) = trace w
  /\ pending (recordStart this arg mode o w) = pending w
  /\ (forall i, i <> this ->
        heap (recordStart this arg mode o w) !! i = heap w !! i)
  /\ heap (recordStart this arg mode o w) !! this
     = Some {| taskMode := mode ?? Queue;
               asyncTaskList := asyncTaskList o;
               asyncTaskResultList := asyncTaskResultList o;
               finalCallback := match arg with
                                | Some f => Some f
                                | None => finalCallback o
                                end;
               isStarted := true;
               isFinished := isFinished o;
               isDebug := isDebug o;
               instanceID := instanceID o |}.
Proof.
  intros Ho Hs.
  assert (Hstart : forall fuel mode,
            exec randomUUID (S fuel) (CStart this arg mode) w
            = Some (recordStart this arg mode o w)).
  { intros fuel' mode'. rewrite (exec_start_unfold _ _ _ _ _ _ _ Ho).
    simpl. rewrite Hs. reflexivity. }
  split; [apply Hstart|]. split; [exact (Hstart fuel (Some Queue))|].
  split; [exact (Hstart fuel (Some Pool))|].
  split; [reflexivity|]. split; [reflexivity|]. split; [reflexivity|].
  split; [reflexivity|]. split; [reflexivity|]. split.
  - intros i Hi. unfold recordStart.
    rewrite !lookup_update_ne by congruence. reflexivity.
  - rewrite (lookup_recordStart this arg mode o w Ho).
    unfold set_taskMode, set_finalCallback, handlerAfterStart. simpl.
    rewrite Hs. reflexivity.
Qed.

(** C6: [start], in either mode, on a coordinator with an empty
    registry that has neither been started nor finished and holds no
    result: the coordinator is started and finished when [start]
    returns, no task has been invoked, nothing is awaited, and the
    handler in force, if any, has been invoked once, with the empty
    result list. *)
Theorem start_empty_registry fuel w this o arg mode :
  heap w !! this = Some o ->
  asyncTaskList o = [] ->
  isStarted o = false -> isFinished o = false ->
  asyncTaskResultList o = [] ->
  isUserHandler (handlerAfterStart arg o) ->
  exists w' o',
    exec randomUUID (S (S (S fuel))) (CStart this arg mode) w = Some w'
    /\ returned (CStart this arg mode) = Some this
    /\ heap w' !! this = Some o'
    /\ isStarted o' = true /\ isFinished o' = true
    /\ asyncTaskResultList o' = []
    /\ trace w' = trace w ++ finalEvents this (handlerAfterStart arg o) []
    /\ (forall i, invoked i (trace w') = invoked i (trace w))
    /\ pending w' = pending w.
Proof.
  intros Ho Hl Hs Hf Hr Hh.
  set (w1 := update this (set_isStarted true) (recordStart this arg mode o w)).
  assert (Ho1 : heap w1 !! this
                = Some (set_isStarted true
                          (set_taskMode (mode ?? Queue)
                             (set_finalCallback (handlerAfterStart arg o) o)))).
  { unfold w1. erewrite lookup_update_eq; [reflexivity|].
    apply lookup_recordStart. exact Ho. }
  assert (Hstart : forall w', exec randomUUID (S (S fuel)) (CFinished this) w1 = Some w' ->
                              exec randomUUID (S (S (S fuel))) (CStart this arg mode) w
                              = Some w').
  { intros w' H. rewrite (exec_start_unfold _ _ _ _ _ _ _ Ho).
    cbn zeta. rewrite Hs, Hl. exact H. }
  destruct (handlerAfterStart arg o) as [[id| |]|] eqn:Hhandler;
    simpl in Hh; try tauto.
  - exists (emit (FinalCallbackInvoked this (UserCallback id) [])
                 (update this (set_isFinished true) w1)).
    eexists. split.
    { apply Hstart. cbn [exec]. rewrite Ho1.
      cbn [mbind option_bind]. simpl. rewrite Hf, Hr. reflexivity. }
    split; [reflexivity|]. split.
    { change (heap (emit ?e ?w)) with (heap w).
      erewrite lookup_update_eq by exact Ho1. reflexivity. }
    simpl. split; [reflexivity|]. split; [reflexivity|].
    split; [exact Hr|]. split; [reflexivity|]. split; [|reflexivity].
    intros i. rewrite invoked_app. simpl. apply app_nil_r.
  - exists (update this (set_isFinished true) w1). eexists. split.
    { apply Hstart. cbn [exec]. rewrite Ho1.
      cbn [mbind option_bind]. simpl. rewrite Hf. reflexivity. }
    split; [reflexivity|]. split.
    { erewrite lookup_update_eq by exact Ho1. reflexivity. }
    simpl. split; [reflexivity|]. split; [reflexivity|].
    split; [exact Hr|]. split; [rewrite app_nil_r; reflexivity|].
    split; reflexivity.
Qed.

(** C4 (amended): [quit] on a coordinator that has not finished makes
    it finished at once, whatever its tasks did.  The handler becomes
    the one supplied, and none when none is supplied: the handler
    registered before is dropped.  A supplied handler is invoked once,
    before [quit] returns, with the results collected so far; without
    an argument no handler is invoked.  Completions still owed stay
    owed. *)
Theorem quit_replaces_handler_and_finishes fuel w this o arg :
  heap w !! this = Some o ->
  isFinished o = false ->
  isUserHandler arg ->
  exists w' o',
    exec randomUUID (S (S (S fuel))) (CQuit this arg) w = Some w'
    /\ returned (CQuit this arg) = Some this
    /\ heap w' !! this = Some o'
    /\ isFinished o' = true
    /\ finalCallback o' = arg
    /\ asyncTaskResultList o' = asyncTaskResultList o
    /\ isStarted o' = isStarted o
    /\ trace w' = trace w ++ finalEvents this arg (asyncTaskResultList o)
    /\ pending w' = pending w.
Proof.
  intros Ho Hf Hh.
  set (w1 := update this (set_finalCallback arg) w).
  assert (Ho1 : heap w1 !! this = Some (set_finalCallback arg o))
    by (apply lookup_update_eq; exact Ho).
  assert (Hquit : forall w', exec randomUUID (S (S fuel)) (CFinished this) w1 = Some w' ->
                             exec randomUUID (S (S (S fuel))) (CQuit this arg) w = Some w').
  { intros w' H. cbn [exec].
    replace (match arg with Some f => Some f | None => None end) with arg
      by (destruct arg; reflexivity).
    exact H. }
  destruct arg as [[id| |]|]; simpl in Hh; try tauto.
  - exists (emit (FinalCallbackInvoked this (UserCallback id)
                    (asyncTaskResultList o))
                 (update this (set_isFinished true) w1)).
    eexists. split.
    { apply Hquit. cbn [exec]. rewrite Ho1.
      cbn [mbind option_bind]. simpl. rewrite Hf. reflexivity. }
    split; [reflexivity|]. split.
    { change (heap (emit ?e ?w)) with (heap w).
      erewrite lookup_update_eq by exact Ho1. reflexivity. }
    simpl. repeat split; reflexivity.
  - exists (update this (set_isFinished true) w1). eexists. split.
    { apply Hquit. cbn [exec]. rewrite Ho1.
      cbn [mbind option_bind]. simpl. rewrite Hf. reflexivity. }
    split; [reflexivity|]. split.
    { erewrite lookup_update_eq by exact Ho1. reflexivity. }
    simpl. rewrite app_nil_r. repeat split; reflexivity.
Qed.
End Lifecycle.

(** ** A pool-mode constructor followed by [start] without a mode *)
Section PoolDiscarded.
Variable randomUUID : nat -> string.
Local Abbreviation Run := (Run randomUUID).
Local Abbreviation Exec := (Exec randomUUID).

(** A coordinator that has been constructed, and filled by [add], but
    not started. *)
Lemma added_fresh this adds : forall w1 o1,
  heap w1 !! this = Some o1 ->
  forall w0, Run (OpAdd this <$> adds) w1 w0 ->
  exists o,
    heap w0 !! this = Some o
    /\ taskMode o = taskMode o1 /\ finalCallback o = finalCallback o1
    /\ isStarted o = isStarted o1 /\ isFinished o = isFinished o1
    /\ asyncTaskResultList o = asyncTaskResultList o1
    /\ pending w0 = pending w1 /\ trace w0 = trace w1
    /\ length (heap w0) = length (heap w1).
Proof.
  induction adds as [|taskList adds IH]; intros w1 o1 Ho1 w0 [fuel Hrun].
  - injection Hrun as <-. exists o1. repeat split; assumption.
  - rewrite fmap_cons in Hrun. cbn [runOps runOp mbind option_bind] in Hrun.
    rewrite (add_spec randomUUID this taskList w1 o1 Ho1) in Hrun.
    cbn [snd] in Hrun.
    edestruct IH as (o & Ho & Hrest); [|exists fuel; exact Hrun|].
    { simpl. apply list_lookup_insert_eq. eapply lookup_lt_Some; eauto. }
    exists o. split; [exact Ho|].
    simpl in Hrest. rewrite length_insert in Hrest. exact Hrest.
Qed.

Lemma constructed_fresh options adds w w0 :
  Run (OpNew (Some options) :: (OpAdd (length (heap w)) <$> adds)) w w0 ->
  exists o,
    heap w0 !! length (heap w) = Some o
    /\ taskMode o = Options.taskMode options ?? Queue
    /\ finalCallback o = Options.finalCallback options
    /\ isStarted o = false /\ isFinished o = false
    /\ asyncTaskResultList o = []
    /\ pending w0 = pending w /\ trace w0 = trace w
    /\ length (heap w0) = S (length (heap w)).
Proof.
  intros [fuel Hrun]. cbn [runOps runOp mbind option_bind] in Hrun.
  rewrite constructor_spec in Hrun. cbn [snd] in Hrun.
  edestruct (added_fresh (length (heap w)) adds) as (o & Ho & Hrest);
    [|exists fuel; exact Hrun|].
  { simpl. apply list_lookup_middle. reflexivity. }
  exists o. split; [exact Ho|]. simpl in Hrest.
  rewrite length_app in Hrest. simpl in Hrest.
  rewrite Nat.add_1_r in Hrest. exact Hrest.
Qed.

(** [start] on an empty registry, in queue mode. *)
Lemma queue_start_empty w0 this o arg mode :
  heap w0 !! this = Some o -> asyncTaskList o = [] ->
  isStarted o = false -> isFinished o = false ->
  asyncTaskResultList o = [] -> pending w0 = [] ->
  isUserHandler (handlerAfterStart arg o) ->
  mode ?? Queue = Queue ->
  Exec (CStart this arg mode) w0
    (queueWorld w0 this o (handlerAfterStart arg o) 0 false).
Proof.
  intros Ho Hl Hs Hf Hr Hp Hh Hm.
  eapply Exec_start_empty; [exact Ho|exact Hs|exact Hl|].
  set (w1 := update this (set_isStarted true)
               (recordStart this arg mode o w0)).
  assert (Ho1 : heap w1 !! this
                = Some (set_isStarted true
                          (set_taskMode Queue
                             (set_finalCallback (handlerAfterStart arg o) o)))).
  { unfold w1. erewrite lookup_update_eq; [reflexivity|].
    rewrite (lookup_recordStart this arg mode o w0 Ho), Hm.
    reflexivity. }
  assert (Hw : forall events,
            {| heap := heap (update this (set_isFinished true) w1);
               pending := pending w1;
               trace := trace w1 ++ events;
               uuidCount := uuidCount w1 |}
            = {| heap := heap (queueWorld w0 this o (handlerAfterStart arg o)
                                 0 false);
                 pending := [];
                 trace := trace w0 ++ events;
                 uuidCount := uuidCount w0 |}).
  { intros events. unfold w1, recordStart, update, set_heap, queueWorld.
    cbn [heap pending trace uuidCount].
    rewrite (alter_lookup_insert _ _ _ _ Ho), !alter_insert_eq, Hp, Hm.
    destruct o as [m l rs h s f d ii]; simpl in *; subst. reflexivity. }
  destruct (handlerAfterStart arg o) as [[id| |]|] eqn:Hhandler;
    simpl in Hh; try tauto.
  - eapply Exec_finished_handler; [exact Ho1|exact Hf|reflexivity|].
    match goal with
    | |- Exec _ ?w1 ?w2 => replace w2 with w1
    end; [apply Exec_finalCallback_user|].
    unfold emit. cbn [asyncTaskResultList set_isStarted set_taskMode
                      set_finalCallback].
    change (pending (update this (set_isFinished true) w1))
      with (pending w1).
    change (trace (update this (set_isFinished true) w1)) with (trace w1).
    change (uuidCount (update this (set_isFinished true) w1))
      with (uuidCount w1).
    rewrite Hw, Hr. unfold queueWorld. simpl. rewrite Hl. reflexivity.
  - match goal with
    | |- Exec _ ?w1 ?w2 =>
        replace w2 with (update this (set_isFinished true) w1)
    end; [eapply Exec_finished_silent; [exact Ho1|exact Hf|reflexivity]|].
    pose proof (Hw []) as Hw0. rewrite !app_nil_r in Hw0.
    unfold queueWorld in *. rewrite Hl. simpl. rewrite app_nil_r.
    simpl in Hw0. rewrite Hl in Hw0. simpl in Hw0. rewrite <- Hw0.
    reflexivity.
Qed.

(** The parameter default: [start(arg)] is [start(arg, Queue)]. *)
Lemma Exec_start_default this arg w w' :
  Exec (CStart this arg None) w w'
  <-> Exec (CStart this arg (Some Queue)) w w'.
Proof.
  split; intros [[|fuel] H]; try discriminate; exists (S fuel); exact H.
Qed.

Lemma Exec_pool_start this arg w w' :
  Exec (CPool this arg) w w' <-> Exec (CStart this arg (Some Pool)) w w'.
Proof.
  split; [|apply Exec_pool].
  intros [[|fuel] H]; [discriminate|]. exists fuel. exact H.
Qed.

Lemma Run_start op op' ops w w' :
  (forall w1, (exists fuel, runOp randomUUID fuel op w = Some w1) ->
              exists fuel, runOp randomUUID fuel op' w = Some w1) ->
  Run (op :: ops) w w' -> Run (op' :: ops) w w'.
Proof.
  intros Hop [fuel H]. cbn [runOps] in H.
  destruct (runOp randomUUID fuel op w) as [w1|] eqn:E; [|discriminate].
  eapply Run_cons; [apply Hop; exists fuel; exact E|].
  exists fuel. exact H.
Qed.

(** A queue run from [start] on: the registry may be empty, and the
    mode may be left out. *)
Lemma queue_run w0 this o arg mode ks :
  heap w0 !! this = Some o ->
  Forall (fun t => callsBackOnce (asyncTaskFunction t)) (asyncTaskList o) ->
  isStarted o = false -> isFinished o = false ->
  asyncTaskResultList o = [] -> pending w0 = [] ->
  isUserHandler (handlerAfterStart arg o) ->
  mode ?? Queue = Queue ->
  exists j,
    j <= length (asyncTaskList o)
    /\ Nat.min (length (asyncTaskList o)) (countHead ks) <= j
    /\ Run (OpStart this arg mode :: (OpDeliver <$> ks)) w0
         (queueWorld w0 this o (handlerAfterStart arg o) j
            (j <? length (asyncTaskList o))).
Proof.
  intros Ho Honce Hs Hf Hr Hp Hh Hm.
  set (handler := handlerAfterStart arg o) in *.
  set (n := length (asyncTaskList o)).
  assert (Hstart : exists j0,
            j0 <= n
            /\ Exec (CStart this arg mode) w0
                 (queueWorld w0 this o handler j0 (j0 <? n))).
  { destruct (decide (asyncTaskList o = [])) as [Hl|Hl].
    - exists 0. split; [lia|].
      replace (0 <? n) with false
        by (subst n; rewrite Hl; reflexivity).
      apply queue_start_empty; assumption.
    - assert (Hn : 0 < n)
        by (subst n; destruct (asyncTaskList o); simpl; [done|lia]).
      destruct (queue_drive randomUUID w0 this o handler Ho Honce Hh n 0
                  ltac:(lia)) as [_ Hdrive].
      destruct (Hdrive Hn) as (j0 & Hj0 & Hexec).
      exists j0. split; [lia|].
      eapply Exec_start_queue; [exact Ho|exact Hs|exact Hl|exact Hm|].
      replace (recordStart this arg mode o w0)
        with (recordStart this arg (Some Queue) o w0)
        by (unfold recordStart; rewrite Hm; reflexivity).
      rewrite (queue_start w0 this o arg) by assumption. exact Hexec. }
  destruct Hstart as (j0 & Hj0 & Hexec).
  destruct (queue_deliveries randomUUID w0 this o handler Ho Honce Hh ks j0
              Hj0) as (j & Hj & Hcount & Hrun).
  exists j. split; [lia|]. split; [fold n; lia|].
  eapply Run_cons; [|exact Hrun].
  destruct Hexec as [fuel Hfuel]. exists fuel. exact Hfuel.
Qed.

(** A pool run of at most 30 tasks from [pool] on. *)
Lemma pool_run w0 this o arg ks :
  heap w0 !! this = Some o ->
  length (asyncTaskList o) <= asyncPoolChunkSize ->
  Forall (fun t => callsBackOnce (asyncTaskFunction t)) (asyncTaskList o) ->
  isStarted o = false -> isFinished o = false ->
  asyncTaskResultList o = [] -> pending w0 = [] ->
  isUserHandler (handlerAfterStart arg o) ->
  exists w',
    Run (OpPool this arg :: (OpDeliver <$> ks)) w0 w'
    /\ (poolWaiting w0 this o (handlerAfterStart arg o) w'
        \/ poolDone w0 this o (handlerAfterStart arg o) w')
    /\ (length (asyncTaskList o) <= countHead ks ->
        poolDone w0 this o (handlerAfterStart arg o) w').
Proof.
  intros Ho Hle Honce Hs Hf Hr Hp Hh.
  set (handler := handlerAfterStart arg o) in *.
  assert (Hstart : exists w1,
    Exec (CStart this arg (Some Pool)) w0 w1
    /\ (poolWaiting w0 this o handler w1 \/ poolDone w0 this o handler w1)
    /\ length (pending w1) <= length (asyncTaskList o)).
  { destruct (decide (asyncTaskList o = [])) as [Hl|Hl].
    - destruct (pool_finish_user randomUUID w0 this o handler Ho Hh [])
        as (w1 & Hexec & Hdone).
      { rewrite Hl. reflexivity. }
      exists w1. split; [|split; [right; exact Hdone|]].
      + eapply Exec_start_empty; eauto.
        rewrite (pool_start_world w0 this o arg) by assumption.
        rewrite Hl in Hexec. exact Hexec.
      + destruct Hdone as (rs & -> & _). simpl. lia.
    - destruct (pool_fanout randomUUID w0 this o handler Ho Honce
                  (poolDone w0 this o handler)
                  (pool_finish_user randomUUID w0 this o handler Ho Hh)
                  (asyncTaskList o) [] [] [])
        as (w1 & Hexec & Hpost).
      { reflexivity. }
      { split; [reflexivity|constructor]. }
      { left. exact Hl. }
      exists w1. split; [|split; [exact Hpost|]].
      + eapply Exec_start_pool; eauto.
        rewrite (pool_start_world w0 this o arg) by assumption.
        exact Hexec.
      + destruct Hpost as [(rs & ps & -> & _ & Hinv)|(rs & -> & _)];
          [|simpl; lia].
        apply poolInv_length in Hinv. simpl. lia. }
  destruct Hstart as (w1 & Hexec & Hw1 & Hlen1).
  destruct (pool_deliveries randomUUID w0 this o handler Ho Hh ks w1 Hw1)
    as (w' & Hrun & Hw' & Hlive).
  exists w'. split; [|split; [exact Hw'|]].
  - eapply Run_cons; [|exact Hrun].
    destruct (Exec_pool randomUUID _ _ _ _ Hexec) as [fuel Hfuel].
    exists fuel. exact Hfuel.
  - intros Hc. apply Hlive. lia.
Qed.

(** In a chunked run the parent stays in pool mode. *)
Lemma State_parent w0 this o handler bound w :
  heap w0 !! this = Some o ->
  chunkedState randomUUID w0 this o handler bound w ->
  exists o', heap w !! this = Some o' /\ taskMode o' = Pool.
Proof.
  intros Ho Hstate.
  assert (Hlt : this < length (heap w0)) by (eapply lookup_lt_Some; eauto).
  destruct Hstate as [(resDone & Hframe & _)|(j & Hrun & _)].
  - destruct Hframe as (_ & Hp & _). eexists. split; [exact Hp|reflexivity].
  - destruct Hrun as (resDone & base & c & chunk & Hframe & _ & _ & _ & _
                      & t & _ & Hw).
    destruct Hw as (rs & ps & -> & _).
    destruct Hframe as (_ & Hp & _).
    exists (chunkedParent o handler). split; [|reflexivity].
    simpl. rewrite list_lookup_insert_ne by (unfold chunkRef; lia).
    exact Hp.
Qed.

(** C9: a coordinator constructed with [taskMode: Pool], whatever tasks
    the constructor and [add] have given it (none, some, more than 30),
    holds [Pool].  [start] without a mode argument is [start] with
    [Queue]: the run is the run of [queue], the mode held from then on
    is [Queue], no further coordinator is created, the tasks are
    invoked one at a time (one more than there are results exactly
    when a completion is owed) and the results come in registry order.
    [pool], like [start] with [Pool], keeps [Pool]: with at most 30
    tasks every task has been invoked when the call returns, whatever
    is delivered later; with more, a chunk-sequencing coordinator in
    queue mode that flattens into this one and a pool-mode coordinator
    per chunk that was reached are there.  The tasks each call back
    exactly once. *)
Theorem start_without_mode_discards_pool options adds w w0 o arg ks :
  let this := length (heap w) in
  Options.taskMode options = Some Pool ->
  Run (OpNew (Some options) :: (OpAdd this <$> adds)) w w0 ->
  heap w0 !! this = Some o ->
  Forall (fun t => callsBackOnce (asyncTaskFunction t)) (asyncTaskList o) ->
  pending w = [] ->
  isUserHandler (handlerAfterStart arg o) ->
  let n := length (asyncTaskList o) in
  let chunks := split (asyncTaskList o) (Some (Z.of_nat asyncPoolChunkSize)) in
  taskMode o = Pool
  /\ (exists w' o',
        Run (OpStart this arg None :: (OpDeliver <$> ks)) w0 w'
        /\ Run (OpStart this arg (Some Queue) :: (OpDeliver <$> ks)) w0 w'
        /\ Run (OpQueue this arg :: (OpDeliver <$> ks)) w0 w'
        /\ heap w' !! this = Some o'
        /\ taskMode o' = Queue
        /\ length (heap w') = length (heap w0)
        /\ asyncTaskResultList o'
           = take (length (asyncTaskResultList o'))
                  (expectedResults (asyncTaskList o))
        /\ invoked this (trace w')
           = invoked this (trace w0)
             ++ take (length (asyncTaskResultList o') + length (pending w'))
                     (asyncTaskList o)
        /\ length (pending w') <= 1
        /\ (isFinished o' = true <-> length (asyncTaskResultList o') = n)
        /\ finalCalls this (trace w')
           = finalCalls this (trace w0)
             ++ (if isFinished o'
                 then match handlerAfterStart arg o with
                      | Some h => [(h, expectedResults (asyncTaskList o))]
                      | None => []
                      end
                 else [])
        /\ (n <= countHead ks -> isFinished o' = true))
  /\ (exists w' o',
        Run (OpPool this arg :: (OpDeliver <$> ks)) w0 w'
        /\ Run (OpStart this arg (Some Pool) :: (OpDeliver <$> ks)) w0 w'
        /\ heap w' !! this = Some o'
        /\ taskMode o' = Pool
        /\ (n <= asyncPoolChunkSize ->
            length (heap w') = length (heap w0)
            /\ invoked this (trace w')
               = invoked this (trace w0) ++ asyncTaskList o
            /\ asyncTaskResultList o' ++ (pending w').*2
               ≡ₚ expectedResults (asyncTaskList o)
            /\ (isFinished o' = true <-> pending w' = []))
        /\ (asyncPoolChunkSize < n ->
            exists lvo,
              heap w' !! length (heap w0) = Some lvo
              /\ taskMode lvo = Queue
              /\ finalCallback lvo = Some (FlattenCallback this)
              /\ asyncTaskFunction <$> asyncTaskList lvo
                 = ChunkFunction this <$> chunks
              /\ (forall k c,
                    heap w' !! (S (length (heap w0)) + k) = Some c ->
                    taskMode c = Pool
                    /\ exists chunk,
                         chunks !! k = Some chunk
                         /\ asyncTaskFunction <$> asyncTaskList c
                            = asyncTaskFunction <$> chunk)
              /\ (isFinished o' = true ->
                  asyncTaskResultList o'
                  ≡ₚ expectedResults (asyncTaskList o)))
        /\ finalCalls this (trace w')
           = finalCalls this (trace w0)
             ++ (if isFinished o'
                 then match handlerAfterStart arg o with
                      | Some h => [(h, asyncTaskResultList o')]
                      | None => []
                      end
                 else [])
        /\ (n <= countHead ks -> isFinished o' = true)).
Proof.
  intros this Hmode Hnew Ho Honce Hpw Hh n chunks.
  destruct (constructed_fresh options adds w w0 Hnew)
    as (o1 & Ho1 & Hm & _ & Hs & Hf & Hr & Hp & _ & _).
  fold this in Ho1. rewrite Ho in Ho1. injection Ho1 as <-.
  rewrite Hmode in Hm. rewrite Hpw in Hp.
  set (handler := handlerAfterStart arg o) in *.
  split; [exact Hm|]. split.
  - destruct (queue_run w0 this o arg None ks Ho Honce Hs Hf Hr Hp Hh
                eq_refl) as (j & Hj & Hcount & Hrun).
    fold n handler in Hj, Hcount, Hrun.
    exists (queueWorld w0 this o handler j (j <? n)). eexists.
    split; [exact Hrun|]. split.
    { eapply Run_start; [|exact Hrun]. intros w1 Hop.
      apply Exec_start_default. exact Hop. }
    split.
    { eapply Run_start; [|exact Hrun]. intros w1 Hop.
      apply Exec_queue, Exec_start_default. exact Hop. }
    split; [apply QW_lookup; assumption|].
    unfold queueWorld.
    cbn [taskMode asyncTaskResultList isFinished heap pending trace].
    fold n.
    assert (Hlen : length (take j (expectedResults (asyncTaskList o))) = j)
      by (rewrite length_take, length_expectedResults; fold n; lia).
    rewrite Hlen, length_insert.
    split; [reflexivity|]. split; [reflexivity|]. split; [reflexivity|].
    destruct (Nat.ltb_spec j n) as [Hlt|Hge];
      destruct (Nat.leb_spec n j) as [Hle|Hgt]; try lia.
    + destruct (lookup_lt_is_Some_2 (asyncTaskList o) j Hlt) as [t Ht].
      rewrite Ht. simpl.
      rewrite !invoked_app, invoked_TaskInvoked. simpl.
      rewrite !finalCalls_app, finalCalls_TaskInvoked. simpl.
      rewrite !app_nil_r.
      split; [reflexivity|]. split; [lia|].
      split; [split; [discriminate|lia]|].
      split; [reflexivity|]. intros Hc. lia.
    + simpl.
      rewrite !invoked_app, invoked_TaskInvoked, invoked_finalEvents.
      rewrite !finalCalls_app, finalCalls_TaskInvoked, finalCalls_finalEvents.
      rewrite !app_nil_r. simpl.
      split; [reflexivity|]. split; [lia|].
      split; [split; [lia|reflexivity]|].
      split; [reflexivity|]. reflexivity.
  - assert (Hboth : forall w',
              Run (OpPool this arg :: (OpDeliver <$> ks)) w0 w' ->
              Run (OpStart this arg (Some Pool) :: (OpDeliver <$> ks)) w0 w').
    { intros w' Hrun. eapply Run_start; [|exact Hrun]. intros w1 Hop.
      apply Exec_pool_start. exact Hop. }
    destruct (Nat.le_gt_cases n asyncPoolChunkSize) as [Hle|Hgt].
    + destruct (pool_run w0 this o arg ks Ho Hle Honce Hs Hf Hr Hp Hh)
        as (w' & Hrun & Hw' & Hlive).
      fold handler in Hw', Hlive.
      exists w'.
      destruct Hw' as [(rs & ps & -> & Hne & Hinv)|Hdone].
      * eexists. split; [exact Hrun|]. split; [apply Hboth; exact Hrun|].
        split; [apply (PW_lookup w0 this o handler Ho)|].
        unfold poolWorld.
        cbn [taskMode asyncTaskResultList isFinished heap pending trace].
        split; [reflexivity|].
        rewrite !invoked_app, invoked_TaskInvoked.
        rewrite !finalCalls_app, finalCalls_TaskInvoked. simpl.
        rewrite !app_nil_r, length_insert.
        split.
        { intros _. split; [reflexivity|]. split; [reflexivity|].
          split; [apply Hinv|]. split; [discriminate|done]. }
        split; [intros Hc; fold n in Hc; lia|].
        split; [reflexivity|].
        intros Hc. destruct (Hlive Hc) as (rs' & Heq & _).
        apply (f_equal pending) in Heq. simpl in Heq. done.
      * destruct Hdone as (rs & -> & Hrs).
        eexists. split; [exact Hrun|]. split; [apply Hboth; exact Hrun|].
        split; [apply (PW_lookup w0 this o handler Ho)|].
        unfold poolWorld.
        cbn [taskMode asyncTaskResultList isFinished heap pending trace].
        split; [reflexivity|].
        rewrite !invoked_app, invoked_TaskInvoked, invoked_finalEvents.
        rewrite !finalCalls_app, finalCalls_TaskInvoked, finalCalls_finalEvents.
        rewrite !app_nil_r, length_insert. simpl.
        split.
        { intros _. split; [reflexivity|]. split; [reflexivity|].
          split; [exact Hrs|]. split; reflexivity. }
        split; [intros Hc; fold n in Hc; lia|].
        split; reflexivity.
    + destruct (chunked_start randomUUID w0 this o handler Ho Honce Hh Hf arg
                  eq_refl Hs Hr Hp Hgt) as (w1 & Hexec & Hstate1).
      destruct (chunked_deliveries randomUUID w0 this o handler Ho Honce Hh Hf
                  ks _ w1 Hstate1) as (w' & Hrun & Hstate).
      destruct (State_facts randomUUID w0 this o handler Ho Hf _ w' Hstate)
        as (o' & fin & resDone & Hp' & Hq' & Hcoord & Hdone & Hfin & Hzero
            & Hcalls).
      destruct (State_parent w0 this o handler _ w' Ho Hstate)
        as (o'' & Hp'' & Hpool).
      rewrite Hp' in Hp''. injection Hp'' as <-.
      assert (HRun : Run (OpPool this arg :: (OpDeliver <$> ks)) w0 w').
      { eapply Run_cons; [|exact Hrun].
        destruct (Exec_pool randomUUID _ _ _ _ Hexec) as [fuel Hfuel].
        exists fuel. exact Hfuel. }
      exists w', o'. split; [exact HRun|]. split; [apply Hboth; exact HRun|].
      split; [exact Hp'|]. split; [exact Hpool|].
      split; [intros Hc; fold n in Hgt; lia|]. split.
      { intros _. exists (leveled randomUUID w0 this o resDone fin).
        split; [exact Hq'|]. split; [reflexivity|]. split; [reflexivity|].
        split; [apply lv_tasks|]. split.
        - intros k c Hc. destruct (Hcoord k c Hc) as (chunk & Hchunk & Hcc).
          destruct Hcc as (Hcm & Hfns & _).
          split; [exact Hcm|]. exists chunk. auto.
        - intros Hfo. destruct (Hfin Hfo) as (-> & Hlen & Hres).
          rewrite Hres.
          pose proof (chunks_concat o) as H1. unfold chunksOf in H1.
          fold chunks in H1.
          rewrite <- H1.
          apply concat_expectedResults.
          apply Forall2_same_length_lookup_2; [exact Hlen|].
          intros k res chunk Hk Hchunk.
          destruct (Hdone k res Hk)
            as (c & chunk' & _ & Hchunk' & _ & _ & Hperm).
          change (chunks !! k = Some chunk') in Hchunk'.
          rewrite Hchunk in Hchunk'.
          injection Hchunk' as <-. exact Hperm. }
      split; [exact Hcalls|].
      intros Hc. apply Hzero. fold n in Hc. lia.
Qed.
End PoolDiscarded.

(** ** One-way flags and the one-shot completion handler *)

Lemma flagsKept_refl w : flagsKept w w.
Proof. intros i o Ho. exists o. auto. Qed.

Lemma flagsKept_same_heap w w' : heap w' = heap w -> flagsKept w w'.
Proof. intros H i o Ho. exists o. rewrite H. auto. Qed.

Lemma flagsKept_trans w1 w2 w3 :
  flagsKept w1 w2 -> flagsKept w2 w3 -> flagsKept w1 w3.
Proof.
  intros H12 H23 i o Ho.
  destruct (H12 i o Ho) as (o2 & Ho2 & Hs2 & Hf2).
  destruct (H23 i o2 Ho2) as (o3 & Ho3 & Hs3 & Hf3).
  exists o3. auto.
Qed.

Lemma Safe_refl w : Safe w w.
Proof. intros H. split; [exact H|apply flagsKept_refl]. Qed.

Lemma Safe_trans w1 w2 w3 : Safe w1 w2 -> Safe w2 w3 -> Safe w1 w3.
Proof.
  intros H12 H23 H1. destruct (H12 H1) as [H2 K12].
  destruct (H23 H2) as [H3 K23]. split; [exact H3|].
  eapply flagsKept_trans; eauto.
Qed.

(** A step that leaves the trace alone and keeps the flags is safe. *)
Lemma Safe_same_trace w w' :
  trace w' = trace w -> flagsKept w w' -> Safe w w'.
Proof.
  intros Ht Hk Hw. split; [|exact Hk]. intros i.
  destruct (Hw i) as [Hlen Hfin]. rewrite Ht. split; [exact Hlen|].
  intros Hne. destruct (Hfin Hne) as (o & Ho & Hf).
  destruct (Hk i o Ho) as (o' & Ho' & _ & Hf'). exists o'. auto.
Qed.

Lemma flagsKept_update this f w : keepsFlags f -> flagsKept w (update this f w).
Proof.
  intros Hf i o Ho. destruct (decide (this = i)) as [->|Hne].
  - exists (f o). split; [apply lookup_update_eq; exact Ho|apply Hf].
  - exists o. split; [rewrite lookup_update_ne by exact Hne; exact Ho|auto].
Qed.

Lemma Safe_update this f w : keepsFlags f -> Safe w (update this f w).
Proof.
  intros Hf. apply Safe_same_trace; [reflexivity|].
  apply flagsKept_update. exact Hf.
Qed.

Lemma Safe_emit_task this t w : Safe w (emit (TaskInvoked this t) w).
Proof.
  intros Hw. split; [|intros i o Ho; exists o; auto]. intros i.
  rewrite finalCalls_emit_task. apply Hw.
Qed.

Lemma Safe_set_pending ps w : Safe w (set_pending ps w).
Proof.
  apply Safe_same_trace; [reflexivity|apply flagsKept_same_heap; reflexivity].
Qed.

(** [finished] on a coordinator that has not finished: the flag is set
    and the handler is invoked, for the first time. *)
Lemma Safe_finish this handler resultList w o :
  heap w !! this = Some o -> isFinished o = false ->
  Safe w (emit (FinalCallbackInvoked this handler resultList)
               (update this (set_isFinished true) w)).
Proof.
  intros Ho Hf Hw. split.
  - intros i. destruct (decide (this = i)) as [<-|Hne].
    + assert (Hnil : finalCalls this (trace w) = []).
      { destruct (Hw this) as [_ Hfin].
        destruct (finalCalls this (trace w)) eqn:E; [reflexivity|].
        destruct Hfin as (o' & Ho' & Hf'); [discriminate|]. congruence. }
      simpl. rewrite finalCalls_app, Hnil. unfold finalCalls. simpl.
      rewrite Nat.eqb_refl. simpl. split; [lia|]. intros _.
      eexists. split; [rewrite list_lookup_alter_eq, Ho; reflexivity|].
      reflexivity.
    + rewrite finalCalls_emit_other by exact Hne.
      destruct (Hw i) as [Hlen Hfin]. split; [exact Hlen|].
      intros Hnn. destruct (Hfin Hnn) as (o' & Ho' & Hf'). exists o'.
      split; [|exact Hf'].
      change (heap (emit ?e ?w)) with (heap w).
      rewrite lookup_update_ne by exact Hne. exact Ho'.
  - change (flagsKept w (update this (set_isFinished true) w)).
    apply flagsKept_update. intros o'. split; auto.
Qed.

Lemma keepsFlags_set_asyncTaskList v : keepsFlags (set_asyncTaskList v).
Proof. intros o. split; auto. Qed.

Lemma keepsFlags_set_asyncTaskResultList v : keepsFlags (set_asyncTaskResultList v).
Proof. intros o. split; auto. Qed.

Lemma keepsFlags_push r :
  keepsFlags (fun o => set_asyncTaskResultList (asyncTaskResultList o ++ [r]) o).
Proof. intros o. split; auto. Qed.

Lemma keepsFlags_register t :
  keepsFlags (fun o => set_asyncTaskList (asyncTaskList o ++ [t]) o).
Proof. intros o. split; auto. Qed.

Lemma keepsFlags_set_finalCallback v : keepsFlags (set_finalCallback v).
Proof. intros o. split; auto. Qed.

Lemma keepsFlags_set_taskMode v : keepsFlags (set_taskMode v).
Proof. intros o. split; auto. Qed.

Lemma keepsFlags_set_isStarted : keepsFlags (set_isStarted true).
Proof. intros o. split; auto. Qed.

Lemma keepsFlags_set_isFinished : keepsFlags (set_isFinished true).
Proof. intros o. split; auto. Qed.

Section Invariants.
Variable randomUUID : nat -> string.
Local Abbreviation exec := (exec randomUUID).

Lemma foldl_push_Safe this ts : forall w,
  Safe w (foldl (fun w asyncTask =>
                   update this
                     (fun o => set_asyncTaskList (asyncTaskList o ++ [asyncTask]) o)
                     w) w ts).
Proof.
  induction ts as [|t ts IH]; intros w; [apply Safe_refl|]. simpl.
  eapply Safe_trans; [|apply IH]. apply Safe_update, keepsFlags_register.
Qed.

Lemma Safe_add this taskList w : Safe w (add randomUUID this taskList w).2.
Proof.
  unfold add. destruct taskList as [|a|l]; [apply Safe_refl| |];
    rewrite mapCandidates_spec; cbn [snd];
    (eapply Safe_trans; [|apply foldl_push_Safe]);
    (apply Safe_same_trace;
       [reflexivity|apply flagsKept_same_heap; reflexivity]).
Qed.

Lemma Safe_constructor options w : Safe w (constructor randomUUID options w).2.
Proof.
  unfold constructor, generateUUID. cbn [snd].
  match goal with
  | |- Safe w (foldl ?f (set_heap (heap ?w1 ++ [?o]) ?w1) ?l) =>
      apply (Safe_trans w (set_heap (heap w1 ++ [o]) w1));
        [|generalize (set_heap (heap w1 ++ [o]) w1); generalize l]
  end.
  - apply Safe_same_trace; [reflexivity|].
    intros i o Ho. exists o. split; [|auto].
    simpl. apply lookup_app_l_Some. exact Ho.
  - intros l. induction l as [|c l IH]; intros w1; [apply Safe_refl|].
    cbn [foldl]. eapply Safe_trans; [|apply IH]. apply Safe_add.
Qed.

Lemma forEach_Safe {A} (f : A -> World -> option World) l :
  (forall a w w', f a w = Some w' -> Safe w w') ->
  forall w w', forEach f l w = Some w' -> Safe w w'.
Proof.
  intros Hf. induction l as [|a l IH]; simpl; intros w w' H.
  - injection H as <-. apply Safe_refl.
  - destruct (f a w) as [w1|] eqn:E; simpl in H; [|discriminate].
    eapply Safe_trans; [eapply Hf; exact E|eapply IH; exact H].
Qed.

Lemma Safe_constructor_eq options w this w' :
  constructor randomUUID options w = (this, w') -> Safe w w'.
Proof.
  intros E. pose proof (Safe_constructor options w) as H.
  rewrite E in H. exact H.
Qed.

#[local] Hint Resolve keepsFlags_set_asyncTaskList keepsFlags_set_asyncTaskResultList
  keepsFlags_push keepsFlags_register keepsFlags_set_finalCallback
  keepsFlags_set_taskMode keepsFlags_set_isStarted keepsFlags_set_isFinished
  : core.

(** Splits a safety goal along the state updates of one interpreter step;
    [IH] and [IHeach] cover the nested calls. *)
Ltac safe_prefix IH IHeach :=
  lazymatch goal with
  | |- Safe ?w ?w => apply Safe_refl
  | |- Safe ?w (emit (FinalCallbackInvoked _ _ _)
                     (update _ (set_isFinished true) ?w1)) =>
      apply (Safe_trans w w1);
        [safe_prefix IH IHeach|eapply Safe_finish; eassumption]
  | |- Safe ?w (update _ _ ?w1) =>
      apply (Safe_trans w w1);
        [safe_prefix IH IHeach|apply Safe_update; auto]
  | |- Safe ?w (emit (TaskInvoked _ _) ?w1) =>
      apply (Safe_trans w w1);
        [safe_prefix IH IHeach|apply Safe_emit_task]
  | |- Safe ?w (set_pending _ ?w1) =>
      apply (Safe_trans w w1);
        [safe_prefix IH IHeach|apply Safe_set_pending]
  | |- Safe ?w ?w1 =>
      match goal with
      | E : exec _ _ ?W0 = Some w1 |- _ =>
          apply (Safe_trans w W0);
            [safe_prefix IH IHeach|eapply IH; exact E]
      | E : forEach _ _ ?W0 = Some w1 |- _ =>
          apply (Safe_trans w W0);
            [safe_prefix IH IHeach|eapply IHeach; exact E]
      | E : constructor _ _ ?W0 = (_, w1) |- _ =>
          apply (Safe_trans w W0);
            [safe_prefix IH IHeach|eapply Safe_constructor_eq; exact E]
      end
  end.

(** Every call of the interpreter is safe. *)
Lemma exec_Safe fuel : forall c w w', exec fuel c w = Some w' -> Safe w w'.
Proof.
  induction fuel as [|n IH]; intros c w w' H; [discriminate|].
  assert (IHeach : forall A (mk : A -> Call) l w1 w2,
            forEach (fun a => exec n (mk a)) l w1 = Some w2 -> Safe w1 w2).
  { intros A mk l w1 w2 Hl. eapply forEach_Safe; [|exact Hl].
    intros a wa wb Ha. eapply IH; exact Ha. }
  destruct c; cbn -[constructor] in H;
    repeat match goal with
      | H : (?mx ≫= _) = Some _ |- _ =>
          destruct mx eqn:?; cbn -[constructor] in H; [|discriminate]
      | H : (if ?b then _ else _) = Some _ |- _ => destruct b eqn:?
      | H : match ?x with _ => _ end = Some _ |- _ => destruct x eqn:?
      | H : (let '(_, _) := ?x in _) = Some _ |- _ => destruct x eqn:?
      end;
    try (injection H as <-); safe_prefix IH IHeach.
Qed.

Lemma runOp_Safe fuel op w w' :
  runOp randomUUID fuel op w = Some w' -> Safe w w'.
Proof.
  destruct op; cbn -[constructor add]; intros H;
    try (eapply exec_Safe; exact H).
  - injection H as <-. apply Safe_constructor.
  - injection H as <-. apply Safe_add.
  - destruct (pending w !! k) as [[cb result]|] eqn:E.
    + eapply Safe_trans; [apply Safe_set_pending|eapply exec_Safe; exact H].
    + injection H as <-. apply Safe_refl.
Qed.

Lemma runOps_Safe fuel ops : forall w w',
  runOps randomUUID fuel ops w = Some w' -> Safe w w'.
Proof.
  induction ops as [|op ops IH]; intros w w' H; simpl in H.
  - injection H as <-. apply Safe_refl.
  - destruct (runOp randomUUID fuel op w) as [w1|] eqn:E; simpl in H;
      [|discriminate].
    eapply Safe_trans; [eapply runOp_Safe; exact E|eapply IH; exact H].
Qed.

Lemma handlerOnce_emptyWorld : handlerOnce emptyWorld.
Proof.
  intros i. split; [simpl; lia|]. intros H. exfalso. apply H. reflexivity.
Qed.

(** C5: in a system of coordinators built and driven from the outside
    by any operations ([ops1], then [ops2]: constructions, [add],
    [start], [queue], [pool], [quit], deliveries by the host runtime,
    completion callbacks invoked again or out of turn), every
    coordinator that exists after [ops1] still exists after [ops2], a
    flag ([isStarted], [isFinished]) that is set after [ops1] is still
    set after [ops2], the completion handler of a coordinator has been
    invoked at most once, and only that of a finished coordinator. *)
Theorem flags_one_way_handler_once ops1 ops2 w1 w2 :
  Run randomUUID ops1 emptyWorld w1 ->
  Run randomUUID ops2 w1 w2 ->
  (forall i o1,
     heap w1 !! i = Some o1 ->
     exists o2, heap w2 !! i = Some o2
                /\ (isStarted o1 = true -> isStarted o2 = true)
                /\ (isFinished o1 = true -> isFinished o2 = true))
  /\ (forall i, length (finalCalls i (trace w2)) <= 1)
  /\ (forall i o2,
        heap w2 !! i = Some o2 -> isFinished o2 = false ->
        finalCalls i (trace w2) = []).
Proof.
  intros [n1 H1] [n2 H2].
  destruct (runOps_Safe n1 ops1 _ _ H1 handlerOnce_emptyWorld) as [Hw1 _].
  destruct (runOps_Safe n2 ops2 _ _ H2 Hw1) as [Hw2 Hkept].
  split; [exact Hkept|]. split; [intros i; apply Hw2|].
  intros i o2 Ho2 Hf. destruct (Hw2 i) as [_ Hfin].
  destruct (finalCalls i (trace w2)) eqn:E; [reflexivity|].
  destruct Hfin as (o & Ho & Hfo); [discriminate|]. congruence.
Qed.
End Invariants.

(** ** The theorems at work on concrete scenarios *)

(** Five tasks in queue mode, some of them deferred: the results are the
    indices in registry order. *)
Lemma queue_mode_registry_order_witness :
  exists w' o',
    Run sampleUUID
      (OpQueue 0 (Some (UserCallback 0)) :: (OpDeliver <$> [0; 0; 0; 0; 0]))
      (worldWith [taskNow 0; taskLater 1; taskNow 2; taskLater 3; taskLater 4])
      w'
    /\ heap w' !! 0 = Some o'
    /\ isFinished o' = true
    /\ asyncTaskResultList o'
       = [RNumber 0; RNumber 1; RNumber 2; RNumber 3; RNumber 4].
Proof.
  edestruct (queue_mode_registry_order sampleUUID
               (worldWith [taskNow 0; taskLater 1; taskNow 2; taskLater 3;
                           taskLater 4]) 0)
    with (arg := Some (UserCallback 0)) (ks := [0; 0; 0; 0; 0])
    as (w' & o' & Hrun & Ho' & _ & Hres & _ & _ & Hfin & _ & Hlive).
  - vm_compute. reflexivity.
  - discriminate.
  - repeat constructor.
  - reflexivity.
  - reflexivity.
  - reflexivity.
  - reflexivity.
  - exact I.
  - exists w', o'. split; [exact Hrun|]. split; [exact Ho'|].
    assert (Hf : isFinished o' = true) by (apply Hlive; vm_compute; lia).
    split; [exact Hf|]. rewrite Hres, (proj1 Hfin Hf). reflexivity.
Defined.

(** Four tasks in pool mode, three of them deferred and completed out of
    order: all four are invoked by [start], and the run finishes with
    four results. *)
Lemma pool_mode_fan_out_witness :
  exists w' o',
    Run sampleUUID
      (OpPool 0 (Some (UserCallback 0)) :: (OpDeliver <$> [1; 0; 0; 0; 0]))
      (worldWith [taskLater 0; taskNow 1; taskLater 2; taskLater 3]) w'
    /\ heap w' !! 0 = Some o'
    /\ invoked 0 (trace w') = asyncTaskList o'
    /\ isFinished o' = true
    /\ length (asyncTaskResultList o') = 4.
Proof.
  edestruct (pool_mode_fan_out sampleUUID
               (worldWith [taskLater 0; taskNow 1; taskLater 2; taskLater 3]) 0)
    with (arg := Some (UserCallback 0)) (ks := [1; 0; 0; 0; 0])
    as (w' & o' & Hrun & Ho' & Htasks & Hinv & _ & _ & _ & Hlen & _ & Hlive).
  - vm_compute. reflexivity.
  - vm_compute. lia.
  - repeat constructor.
  - reflexivity.
  - reflexivity.
  - reflexivity.
  - reflexivity.
  - exact I.
  - exists w', o'. split; [exact Hrun|]. split; [exact Ho'|].
    assert (Hf : isFinished o' = true) by (apply Hlive; vm_compute; lia).
    split; [rewrite Hinv, Htasks; reflexivity|]. split; [exact Hf|].
    rewrite (Hlen Hf). reflexivity.
Defined.


(** [quit()] right after [start(handler)] with three tasks that never
    complete: the coordinator is finished, its handler is gone and has
    not been invoked. *)
Lemma quit_without_argument_drops_handler :
  exists w,
    runOps sampleUUID 10
      [OpStart 0 (Some (UserCallback 7)) None; OpQuit 0 None]
      (worldWith [taskNever; taskNever; taskNever])
    = Some w
    /\ isFinished <$> heap w !! 0 = Some true
    /\ finalCallback <$> heap w !! 0 = Some None
    /\ finalCalls 0 (trace w) = [].
Proof. eexists. split; [vm_compute; reflexivity|]. vm_compute. auto. Qed.

(** [quit(handler)] while the second of three tasks is in flight: the
    new handler is invoked once, with the one result collected so far. *)
Lemma quit_replaces_handler_and_finishes_witness :
  exists w' o',
    exec sampleUUID 3 (CQuit 0 (Some (UserCallback 9)))
      (after [OpStart 0 (Some (UserCallback 7)) None]
             (worldWith [taskNow 5; taskLater 6; taskNever]))
    = Some w'
    /\ heap w' !! 0 = Some o'
    /\ isFinished o' = true
    /\ finalCalls 0 (trace w') = [(UserCallback 9, [RNumber 5])].
Proof.
  edestruct (quit_replaces_handler_and_finishes sampleUUID 0
               (after [OpStart 0 (Some (UserCallback 7)) None]
                      (worldWith [taskNow 5; taskLater 6; taskNever])) 0)
    with (arg := Some (UserCallback 9))
    as (w' & o' & Hexec & _ & Ho' & Hf & _ & _ & _ & Htrace & _).
  - vm_compute. reflexivity.
  - reflexivity.
  - exact I.
  - exists w', o'. split; [exact Hexec|]. split; [exact Ho'|].
    split; [exact Hf|]. rewrite Htrace. vm_compute. reflexivity.
Defined.

(** [start], deliveries, [quit] after the natural end, then stray
    callbacks: the handler has been invoked once. *)
Lemma flags_one_way_handler_once_witness :
  Run sampleUUID twoTaskRun emptyWorld (after twoTaskRun emptyWorld)
  /\ Run sampleUUID quitAndStray (after twoTaskRun emptyWorld)
       (after quitAndStray (after twoTaskRun emptyWorld))
  /\ isFinished <$> heap (after quitAndStray (after twoTaskRun emptyWorld)) !! 0
     = Some true
  /\ length <$> (asyncTaskResultList
                 <$> heap (after quitAndStray (after twoTaskRun emptyWorld)) !! 0)
     = Some 3
  /\ finalCalls 0 (trace (after quitAndStray (after twoTaskRun emptyWorld)))
     = [(UserCallback 1, [RNumber 0; RNumber 1])]
  /\ forall i,
       length (finalCalls i
                 (trace (after quitAndStray (after twoTaskRun emptyWorld))))
       <= 1.
Proof.
  assert (H1 : Run sampleUUID twoTaskRun emptyWorld (after twoTaskRun emptyWorld))
    by (exists 100; vm_compute; reflexivity).
  assert (H2 : Run sampleUUID quitAndStray (after twoTaskRun emptyWorld)
                 (after quitAndStray (after twoTaskRun emptyWorld)))
    by (exists 100; vm_compute; reflexivity).
  split; [exact H1|]. split; [exact H2|]. split; [vm_compute; reflexivity|].
  split; [vm_compute; reflexivity|]. split; [vm_compute; reflexivity|].
  exact (proj1 (proj2 (flags_one_way_handler_once sampleUUID twoTaskRun
                         quitAndStray _ _ H1 H2))).
Defined.

(** [start] in pool mode on a coordinator without tasks. *)
Lemma start_empty_registry_witness :
  exists w',
    exec sampleUUID 3 (CStart 0 (Some (UserCallback 3)) (Some Pool)) (worldWith [])
    = Some w'
    /\ isFinished <$> heap w' !! 0 = Some true
    /\ trace w' = [FinalCallbackInvoked 0 (UserCallback 3) []].
Proof.
  edestruct (start_empty_registry sampleUUID 0 (worldWith []) 0)
    with (arg := Some (UserCallback 3)) (mode := Some Pool)
    as (w' & o' & Hexec & _ & Ho' & _ & Hf & _ & Htrace & _).
  - vm_compute. reflexivity.
  - reflexivity.
  - reflexivity.
  - reflexivity.
  - reflexivity.
  - exact I.
  - exists w'. split; [exact Hexec|]. split; [rewrite Ho'; simpl; rewrite Hf; reflexivity|].
    rewrite Htrace. reflexivity.
Defined.

(** [start] again, with another handler and mode, while the first task
    is in flight. *)
Lemma start_again_only_records_witness :
  exists w',
    exec sampleUUID 1 (CStart 0 (Some (UserCallback 5)) (Some Pool))
      (after [OpStart 0 (Some (UserCallback 1)) None]
             (worldWith [taskLater 0; taskLater 1]))
    = Some w'
    /\ trace w' = trace (after [OpStart 0 (Some (UserCallback 1)) None]
                               (worldWith [taskLater 0; taskLater 1]))
    /\ taskMode <$> heap w' !! 0 = Some Pool
    /\ finalCallback <$> heap w' !! 0 = Some (Some (UserCallback 5))
    /\ isStarted <$> heap w' !! 0 = Some true.
Proof.
  edestruct (start_again_only_records sampleUUID 0
               (after [OpStart 0 (Some (UserCallback 1)) None]
                      (worldWith [taskLater 0; taskLater 1])) 0)
    with (arg := Some (UserCallback 5)) (mode := Some Pool)
    as (Hexec & _ & _ & _ & _ & _ & Htrace & _ & _ & Ho').
  - vm_compute. reflexivity.
  - reflexivity.
  - eexists. split; [exact Hexec|]. split; [exact Htrace|].
    rewrite Ho'. repeat split; reflexivity.
Defined.

(** [add] of a bare function and of a named record. *)
Lemma add_appends_in_order_witness :
  exists w',
    add sampleUUID 0
      (Many [BareFunction (UserFunction "f" [] []);
             TaskLike (UserFunction "g" [] []) (NamePresent (Some "  named "))])
      (worldWith [taskNever])
    = (0, w')
    /\ asyncTaskList <$> heap w' !! 0
       = Some [ {| asyncTaskFunction := UserFunction "never" [] [];
                   taskName := "uuid-1" |};
                {| asyncTaskFunction := UserFunction "f" [] [];
                   taskName := "uuid-2" |};
                {| asyncTaskFunction := UserFunction "g" [] [];
                   taskName := "named" |} ].
Proof.
  edestruct (add_appends_in_order sampleUUID (worldWith [taskNever]) 0)
    with (taskList := Many [BareFunction (UserFunction "f" [] []);
                            TaskLike (UserFunction "g" [] [])
                                     (NamePresent (Some "  named "))])
    as (w' & o' & Hadd & Ho' & Htasks & _).
  - vm_compute. reflexivity.
  - exists w'. split; [exact Hadd|]. rewrite Ho'. simpl. rewrite Htasks.
    vm_compute. reflexivity.
Defined.

(** A coordinator constructed for pool mode with two tasks, given a
    third by [add]: started without a mode it holds [Queue] and has
    invoked one task; started by [pool] it holds [Pool] and has invoked
    all three. *)
Lemma start_without_mode_discards_pool_witness :
  exists w0 started pooled o1 o2,
    Run sampleUUID
      [OpNew (Some (optionsWith (Some Pool) [taskLater 0; taskNow 1]));
       OpAdd 0 (One (taskLater 2))] emptyWorld w0
    /\ taskMode <$> heap w0 !! 0 = Some Pool
    /\ Run sampleUUID [OpStart 0 (Some (UserCallback 0)) None] w0 started
    /\ heap started !! 0 = Some o1
    /\ taskMode o1 = Queue
    /\ length (invoked 0 (trace started)) = 1
    /\ Run sampleUUID [OpPool 0 (Some (UserCallback 0))] w0 pooled
    /\ heap pooled !! 0 = Some o2
    /\ taskMode o2 = Pool
    /\ length (invoked 0 (trace pooled)) = 3.
Proof.
  edestruct (start_without_mode_discards_pool sampleUUID
               (optionsWith (Some Pool) [taskLater 0; taskNow 1])
               [One (taskLater 2)] emptyWorld)
    with (arg := Some (UserCallback 0)) (ks := @nil nat)
    as (Hmode & (w1 & o1 & Hstart & _ & _ & Ho1 & Hm1 & _)
        & (w2 & o2 & Hpool & _ & Ho2 & Hm2 & Hsmall & _)).
  - reflexivity.
  - exists 10. vm_compute. reflexivity.
  - vm_compute. reflexivity.
  - vm_compute. repeat constructor.
  - reflexivity.
  - exact I.
  - destruct Hsmall as (_ & Hinv2 & _); [vm_compute; lia|].
    change (length (heap emptyWorld)) with 0 in *.
    change (OpDeliver <$> []) with (@nil Op) in *.
    eexists. exists w1, w2, o1, o2.
    split; [exists 10; vm_compute; reflexivity|].
    split; [vm_compute; reflexivity|].
    split; [exact Hstart|]. split; [exact Ho1|]. split; [exact Hm1|].
    split.
    { match type of Hstart with
      | Run _ _ ?w0 _ =>
          assert (Hrun : exists w', Run sampleUUID
                                      [OpStart 0 (Some (UserCallback 0)) None]
                                      w0 w'
                                    /\ length (invoked 0 (trace w')) = 1)
      end.
      { eexists. split; [exists 10; vm_compute; reflexivity|].
        vm_compute. reflexivity. }
      destruct Hrun as (w' & Hrun & Hone).
      rewrite (Run_functional sampleUUID _ _ _ _ Hstart Hrun). exact Hone. }
    split; [exact Hpool|]. split; [exact Ho2|]. split; [exact Hm2|].
    rewrite Hinv2. vm_compute. reflexivity.
Defined.
(** ** More scenarios *)

(** [unique] on numbers. *)
Lemma unique_no_duplicates_witness :
  unique Z.eqb [3; 1; 3; 2; 1]%Z = [3; 1; 2]%Z
  /\ NoDup (unique Z.eqb [3; 1; 3; 2; 1]%Z)
  /\ forall x, x ∈ unique Z.eqb [3; 1; 3; 2; 1]%Z <-> x ∈ [3; 1; 3; 2; 1]%Z.
Proof.
  split; [reflexivity|].
  destruct (unique_no_duplicates Z.eqb [3; 1; 3; 2; 1]%Z) as (Hnodup & Hin & _).
  - intros x y. apply Z.eqb_eq.
  - split; assumption.
Defined.

(** [maxBy] with the difference of two numbers as comparison: of the
    two greatest elements the first one is returned. *)
Lemma maxBy_first_greatest_witness :
  maxBy 0%Z (fun _ => false) [2; 7; 1; 7]%Z Z.sub = 7%Z
  /\ exists before after,
       [2; 7; 1; 7]%Z = before ++ 7%Z :: after
       /\ Forall (fun x => greater Z.sub 7%Z x) before.
Proof.
  split; [reflexivity|].
  destruct (maxBy_first_greatest 0%Z (fun _ => false) [2; 7; 1; 7]%Z Z.sub)
    as (before & after & Heq & Hbefore & _).
  - discriminate.
  - unfold ordering, greater. repeat split; intros; lia.
  - exists before, after. split; [exact Heq|exact Hbefore].
Defined.

Lemma half_inUnitInterval : inUnitInterval half.
Proof.
  intros n. unfold half, isDouble, inUnit. simpl. lia.
Qed.

Lemma fourSevenths_inUnitInterval : inUnitInterval fourSevenths.
Proof.
  intros n. unfold fourSevenths, isDouble, inUnit. simpl. lia.
Qed.

(** [shuffle] of seven elements with a random number whose product
    with 7 rounds up: the first index drawn is 4 (the floor of the
    rounded product), not 3 (the floor of the product), so the last
    place is taken by the element from index 4. *)
Lemma shuffle_permutes_witness :
  floor (multiply (fourSevenths 0) 7) = 4%Z
  /\ shuffle fourSevenths [0; 1; 2; 3; 4; 5; 6] 0
     = Some ([0; 5; 1; 6; 2; 3; 4], 7)
  /\ [0; 5; 1; 6; 2; 3; 4] ≡ₚ [0; 1; 2; 3; 4; 5; 6].
Proof.
  split; [reflexivity|].
  destruct (shuffle_permutes fourSevenths [0; 1; 2; 3; 4; 5; 6] 0
              fourSevenths_inUnitInterval)
    as (this' & Hrun & Hperm).
  - simpl. lia.
  - assert (this' = [0; 5; 1; 6; 2; 3; 4]) as ->.
    { vm_compute in Hrun. injection Hrun as <-. reflexivity. }
    split; [exact Hrun|exact Hperm].
Defined.

(** [add] of a record with a padded name and of one with a [null]
    name. *)
Lemma add_registers_trimmed_names_witness :
  exists o',
    heap (add sampleUUID 0
            (Many [TaskLike (UserFunction "g" [] [])
                            (NamePresent (Some "  padded "));
                   TaskLike (UserFunction "h" [] []) (NamePresent None)])
            (worldWith [])).2 !! 0 = Some o'
    /\ taskName <$> asyncTaskList o' = ["padded"; "1#h"].
Proof.
  edestruct (add_registers_trimmed_names sampleUUID (worldWith []) 0)
    with (taskList := Many [TaskLike (UserFunction "g" [] [])
                                     (NamePresent (Some "  padded "));
                            TaskLike (UserFunction "h" [] [])
                                     (NamePresent None)])
    as (o' & Ho' & _ & _).
  - vm_compute. reflexivity.
  - exists o'. split; [exact Ho'|].
    vm_compute in Ho'. injection Ho' as <-. reflexivity.
Defined.

(** Two tasks handed to the constructor, or to [add] afterwards. *)
Lemma constructor_tasks_like_add_witness :
  constructor sampleUUID (Some (optionsWith (Some Pool) [taskNow 0; taskLater 1]))
    emptyWorld
  = add sampleUUID 0 (Many [taskNow 0; taskLater 1])
      (constructor sampleUUID
         (Some (withoutTasks (optionsWith (Some Pool) [taskNow 0; taskLater 1])))
         emptyWorld).2.
Proof.
  apply (constructor_tasks_like_add sampleUUID
           (optionsWith (Some Pool) [taskNow 0; taskLater 1])
           [taskNow 0; taskLater 1] emptyWorld eq_refl).
  repeat constructor.
Defined.

(** Three tasks in pool mode, the second one immediate; the completion
    of the third is delivered before the one of the first. *)
Lemma pool_results_in_completion_order_witness :
  exists w' o',
    Run sampleUUID
      (OpPool 0 (Some (UserCallback 0)) :: (OpDeliver <$> [1; 0]))
      (worldWith [taskLater 0; taskNow 1; taskLater 2]) w'
    /\ heap w' !! 0 = Some o'
    /\ asyncTaskResultList o' = [RNumber 1; RNumber 2; RNumber 0]
    /\ isFinished o' = true.
Proof.
  edestruct (pool_results_in_completion_order sampleUUID
               (worldWith [taskLater 0; taskNow 1; taskLater 2]) 0)
    with (arg := Some (UserCallback 0)) (ks := [1; 0])
    as (w' & o' & Hrun & Ho' & Hres & _ & Hfin & _).
  - vm_compute. reflexivity.
  - vm_compute. lia.
  - repeat constructor.
  - reflexivity.
  - reflexivity.
  - reflexivity.
  - reflexivity.
  - exact I.
  - exists w', o'. split; [exact Hrun|]. split; [exact Ho'|].
    split; [rewrite Hres; reflexivity|].
    apply Hfin. rewrite Hres. reflexivity.
Defined.

(** A task added while the two tasks of a pool run are in flight: both
    complete, and the coordinator is not finished. *)
Lemma pool_never_runs_added_task_witness :
  exists w' o',
    Run sampleUUID
      (OpPool 0 (Some (UserCallback 0)) :: OpAdd 0 (One (taskNow 2))
       :: (OpDeliver <$> [0; 0]))
      (worldWith [taskLater 0; taskLater 1]) w'
    /\ heap w' !! 0 = Some o'
    /\ length (asyncTaskList o') = 3
    /\ length (invoked 0 (trace w')) = 2
    /\ asyncTaskResultList o' = [RNumber 0; RNumber 1]
    /\ pending w' = []
    /\ isFinished o' = false
    /\ finalCalls 0 (trace w') = [].
Proof.
  edestruct (pool_never_runs_added_task sampleUUID
               (worldWith [taskLater 0; taskLater 1]) 0)
    with (arg := Some (UserCallback 0)) (taskList := One (taskNow 2))
         (ks := [0; 0])
    as (w' & o' & Hrun & Ho' & Htasks & Hinv & Hres & Hpend & Hfin & Hcalls
        & _).
  - vm_compute. reflexivity.
  - vm_compute. lia.
  - repeat constructor.
  - reflexivity.
  - reflexivity.
  - reflexivity.
  - reflexivity.
  - exact I.
  - discriminate.
  - discriminate.
  - exists w', o'. split; [exact Hrun|]. split; [exact Ho'|].
    split; [rewrite Htasks; reflexivity|].
    split; [rewrite Hinv; reflexivity|].
    split; [rewrite Hres; reflexivity|].
    split; [rewrite Hpend; reflexivity|].
    split; [exact Hfin|]. rewrite Hcalls. reflexivity.
Defined.

(** A task added while the first task of a queue run is in flight: the
    run goes through all three tasks. *)
Lemma queue_runs_added_task_witness :
  exists w' o',
    Run sampleUUID (OpAdd 0 (One (taskNow 2)) :: (OpDeliver <$> [0; 0; 0]))
      queueInFlight w'
    /\ heap w' !! 0 = Some o'
    /\ isFinished o' = true
    /\ asyncTaskResultList o' = [RNumber 0; RNumber 1; RNumber 2].
Proof.
  edestruct (queue_runs_added_task sampleUUID
               (worldWith [taskLater 0; taskLater 1]) 0)
    with (arg := Some (UserCallback 0)) (ks1 := @nil nat) (w1 := queueInFlight)
         (taskList := One (taskNow 2)) (ks2 := [0; 0; 0])
    as (w' & o' & Hrun & Ho' & Htasks & Hres & _ & _ & Hfin & _ & Hlive).
  - vm_compute. reflexivity.
  - discriminate.
  - repeat constructor.
  - reflexivity.
  - reflexivity.
  - reflexivity.
  - reflexivity.
  - exact I.
  - repeat constructor.
  - exists 100. vm_compute. reflexivity.
  - eexists. split; [vm_compute; reflexivity|reflexivity].
  - exists w', o'. split; [exact Hrun|]. split; [exact Ho'|].
    assert (Hf : isFinished o' = true)
      by (apply Hlive; rewrite Htasks; vm_compute; lia).
    split; [exact Hf|].
    rewrite Hres, (proj1 Hfin Hf), Htasks. reflexivity.
Defined.

(** A queue of three tasks whose second task never calls back. *)
Lemma queue_stalls_on_silent_task_witness :
  exists w' o',
    Run sampleUUID
      (OpQueue 0 (Some (UserCallback 0)) :: (OpDeliver <$> [0; 0; 0]))
      (worldWith [taskLater 0; taskNever; taskNow 2]) w'
    /\ heap w' !! 0 = Some o'
    /\ isFinished o' = false
    /\ finalCalls 0 (trace w') = []
    /\ asyncTaskResultList o' = [RNumber 0]
    /\ length (invoked 0 (trace w')) = 2.
Proof.
  edestruct (queue_stalls_on_silent_task sampleUUID
               (worldWith [taskLater 0; taskNever; taskNow 2]) 0)
    with (arg := Some (UserCallback 0)) (m := 1) (ks := [0; 0; 0])
    as (w' & o' & Hrun & Ho' & Hfin & Hcalls & _ & Hres & Hinv & Hlive).
  - vm_compute. reflexivity.
  - reflexivity.
  - exact I.
  - repeat constructor.
  - reflexivity.
  - reflexivity.
  - reflexivity.
  - reflexivity.
  - exists w', o'. split; [exact Hrun|]. split; [exact Ho'|].
    split; [exact Hfin|]. split; [rewrite Hcalls; reflexivity|].
    destruct Hlive as [Hlen _]; [vm_compute; lia|].
    split; [rewrite Hres, Hlen; reflexivity|].
    rewrite Hinv, Hlen. reflexivity.
Defined.

(** [toTypedRecords('id', 'id')] on two rows: one property, named
    ['id'], holding the field of the last row. *)
Lemma toTypedRecords_single_key_witness :
  toTypedRecords sampleIsText sampleKey sampleGet
    [Row "id" "a"; Row "id" "b"] (Some "id") (FieldNamed "id")
  = Normal {[ "id" := Text "b" ]}.
Proof.
  rewrite (toTypedRecords_single_key sampleIsText sampleKey sampleGet
             [Row "id" "a"; Row "id" "b"] "id" (FieldNamed "id"))
    by discriminate.
  reflexivity.
Defined.

(** [toTypedRecords(null, null)] on strings, and on an array that holds
    a row. *)
Lemma toTypedRecords_elements_as_keys_witness :
  toTypedRecords sampleIsText sampleKey sampleGet
    [Text "a"; Text "b"; Text "a"] None FieldNull
  = Normal {[ "a" := Text "a"; "b" := Text "b" ]}
  /\ toTypedRecords sampleIsText sampleKey sampleGet
       [Text "a"; Row "id" "b"] None FieldNull
     = Throw CannotFigureOutFieldName.
Proof.
  assert (Hread : forall x key, sampleIsText x = true ->
                                is_Some (sampleGet x key)).
  { intros [s|field value] key Hx; [eauto|discriminate]. }
  split.
  - rewrite (toTypedRecords_elements_as_keys sampleIsText sampleKey sampleGet
               [Text "a"; Text "b"; Text "a"] FieldNull Hread).
    reflexivity.
  - rewrite (toTypedRecords_elements_as_keys sampleIsText sampleKey sampleGet
               [Text "a"; Row "id" "b"] FieldNull Hread).
    reflexivity.
Defined.

(** A password of five characters at time 1234: one character of each
    of the four built-in sets, and one more. *)
Lemma generatePassword_covers_character_sets_witness :
  exists password,
    generatePassword half 1234 (Some 5%Z) None 0 = Some (Normal password, 5)
    /\ String.length password = 5
    /\ forall k set, defaultCharacterSetList !! k = Some set ->
         exists c, c ∈ charactersOf password /\ c ∈ charactersOf set.
Proof.
  destruct (generatePassword_covers_character_sets half 1234
              half_inUnitInterval (Some 5%Z) None 0)
    as (password & Hrun & Hlen & _ & Hsets).
  - discriminate.
  - repeat constructor; discriminate.
  - lia.
  - simpl. lia.
  - exists password. split; [exact Hrun|]. split; [exact Hlen|].
    intros k set Hk. apply (Hsets k set Hk).
    apply lookup_lt_Some in Hk. simpl in *. lia.
Defined.

(** A code of three characters out of ["A"; "B"]. *)
Lemma getRandomCode_draws_from_code_base_witness :
  exists drawn codeBase',
    getRandomCode half (Some 3%Z) (Some ["A"; "B"]) 0
    = Some (join drawn, codeBase', 6)
    /\ length drawn = 3
    /\ codeBase' ≡ₚ ["A"; "B"]
    /\ String.length (join drawn) = 3.
Proof.
  destruct (getRandomCode_draws_from_code_base half half_inUnitInterval
              (Some 3%Z) (Some ["A"; "B"]) 0)
    as (drawn & codeBase' & Hrun & Hlen & Hperm & _ & _ & Hone);
    [simpl; lia|simpl; lia|].
  exists drawn, codeBase'. split; [exact Hrun|]. split; [exact Hlen|].
  split; [exact Hperm|]. apply Hone; [discriminate|repeat constructor].
Defined.

(** [quit] while the first of two deferred tasks is in flight: the
    handler given to [quit] gets no result, and both tasks still run. *)
Lemma queue_goes_on_after_quit_witness :
  exists w' o',
    Run sampleUUID (OpQuit 0 (Some (UserCallback 9)) :: (OpDeliver <$> [0; 0]))
      queueInFlight w'
    /\ heap w' !! 0 = Some o'
    /\ finalCalls 0 (trace w') = [(UserCallback 9, [])]
    /\ asyncTaskResultList o' = [RNumber 0; RNumber 1]
    /\ length (invoked 0 (trace w')) = 2.
Proof.
  edestruct (queue_goes_on_after_quit sampleUUID
               (worldWith [taskLater 0; taskLater 1]) 0)
    with (arg := Some (UserCallback 0)) (ks1 := @nil nat) (w1 := queueInFlight)
         (quitHandler := Some (UserCallback 9)) (ks2 := [0; 0])
    as (w' & o' & q & Hrun & Ho' & _ & Hq & Hcalls & Hqle & _ & _ & Hlive).
  - vm_compute. reflexivity.
  - discriminate.
  - repeat constructor.
  - reflexivity.
  - reflexivity.
  - reflexivity.
  - reflexivity.
  - exact I.
  - exact I.
  - exists 100. vm_compute. reflexivity.
  - eexists. split; [vm_compute; reflexivity|reflexivity].
  - destruct Hlive as [Hres Hinv]; [vm_compute; lia|].
    exists w', o'. split; [exact Hrun|]. split; [exact Ho'|].
    split.
    + assert (Hw : w' = after (OpQuit 0 (Some (UserCallback 9))
                               :: (OpDeliver <$> [0; 0])) queueInFlight).
      { eapply Run_functional; [exact Hrun|]. exists 100.
        vm_compute. reflexivity. }
      rewrite Hw. vm_compute. reflexivity.
    + split; [rewrite Hres; reflexivity|]. rewrite Hinv. reflexivity.
Defined.
(** ** Scenarios for [isDataEqual] *)

(** [x] is in neither of two lists that are written out. *)
Ltac listed_apart Hin Hin' :=
  cbn in Hin, Hin';
  repeat (apply elem_of_cons in Hin as [->|Hin]);
  [..|apply elem_of_nil in Hin; destruct Hin];
  repeat (apply elem_of_cons in Hin' as [Hin'|Hin']; [discriminate|]);
  apply elem_of_nil in Hin'; destruct Hin'.

(** [[[1], "a"]] against a second array of the same shape, and against
    one that differs in a nested element. *)
Lemma isDataEqual_deep_on_arrays_witness :
  sampleIsDataEqual
    (VArray 1 [VArray 2 [VNumber 1%Z]; VString "a"])
    (VArray 3 [VArray 4 [VNumber 1%Z]; VString "a"]) None
  = Some (Normal true)
  /\ sampleIsDataEqual
       (VArray 1 [VArray 2 [VNumber 1%Z]; VString "a"])
       (VArray 3 [VArray 4 [VNumber 2%Z]; VString "a"]) (Some "_")
     = Some (Normal false).
Proof.
  split; unfold sampleIsDataEqual;
    (rewrite isDataEqual_deep_on_arrays;
     [reflexivity|reflexivity|]);
    intros ref Hin Hin'; listed_apart Hin Hin'.
Defined.

(** [{x: 1}] and [{x: 2}] are equal. *)
Lemma isDataEqual_ignores_property_values_witness :
  sampleIsDataEqual (VObject 1 [("x", VNumber 1%Z)])
    (VObject 2 [("x", VNumber 2%Z)]) None
  = Some (Normal true).
Proof.
  unfold sampleIsDataEqual.
  rewrite isDataEqual_ignores_property_values; [reflexivity|lia|].
  intros name Hin. split; intros Hin'; listed_apart Hin Hin'.
Defined.

(** [{x: 1}] and [{y: 2, _z: 3}] are equal when fields marked by ["_"]
    are to be ignored. *)
Lemma isDataEqual_indicator_equates_objects_witness :
  sampleIsDataEqual (VObject 1 [("x", VNumber 1%Z)])
    (VObject 2 [("y", VNumber 2%Z); ("_z", VNumber 3%Z)]) (Some "_")
  = Some (Normal true).
Proof.
  unfold sampleIsDataEqual.
  apply isDataEqual_indicator_equates_objects.
  intros name Hin. split; intros Hin'; listed_apart Hin Hin'.
Defined.

